(** * Slidev export pipeline: a shallow embedding of [export.ts] and of the
    export job service, with the properties of the specification.

    Conventions of the embedding.
    - JavaScript strings are [string]s (sequences of 8-bit code units);
      [Error] objects are represented by their message.
    - JavaScript numbers are values of [num]: [NaN], the two infinities, or a
      finite rational.  Integer-valued quantities that the code only ever
      produces as integers (clock readings, frame counters, slide numbers)
      are [Z].
    - Calls into the browser, the clock, the encoder process and the file
      system go through an environment record; every call is appended to a
      ghost log, so that properties of a run are properties of its log. *)

From Stdlib Require Import ZArith QArith Qabs Qround Qminmax Ascii String List Bool Lia.
From Stdlib Require Qcanon.
From stdpp Require Import base option list strings pretty gmap.
From Equations Require Import Equations.

Local Open Scope string_scope.
Local Open Scope list_scope.
Local Open Scope Z_scope.

(** * Filename components ([sanitizePart], export API plugin) *)

Module Sanitize.

Definition chars := list ascii.

Definition code (c : ascii) : N := N_of_ascii c.

Definition dash : ascii := "-"%char.

(** The regular-expression class [\w]: ASCII letters, digits, underscore. *)
Definition is_word (c : ascii) : bool :=
  let n := code c in
  ((48 <=? n) && (n <=? 57) || (65 <=? n) && (n <=? 90)
   || (97 <=? n) && (n <=? 122) || (n =? 95))%N.

(** The class [[\w.-]]. *)
Definition allowed (c : ascii) : bool :=
  is_word c || Ascii.eqb c "."%char || Ascii.eqb c dash.

(** White space and line terminators among the 8-bit code units. *)
Definition is_space (c : ascii) : bool :=
  let n := code c in
  ((9 <=? n) && (n <=? 13) || (n =? 32) || (n =? 160))%N.

Fixpoint trimStart (l : chars) : chars :=
  match l with
  | c :: r => if is_space c then trimStart r else l
  | [] => []
  end.

Definition trimEnd (l : chars) : chars := reverse (trimStart (reverse l)).

Definition trim (l : chars) : chars := trimEnd (trimStart l).

(** [s.replace(/C+/g, '-')] for a character class [C]: every maximal run
    of characters of the class becomes one dash.  [in_run] tells that the
    previous character belonged to the run being replaced. *)
Fixpoint replace_runs (cls : ascii -> bool) (in_run : bool) (l : chars) : chars :=
  match l with
  | [] => []
  | c :: r =>
      if cls c
      then (if in_run then replace_runs cls true r
            else dash :: replace_runs cls true r)
      else c :: replace_runs cls false r
  end.

Definition is_dash (c : ascii) : bool := Ascii.eqb c dash.

Definition drop_leading_dash (l : chars) : chars :=
  match l with
  | c :: r => if is_dash c then r else l
  | [] => []
  end.

Definition drop_trailing_dash (l : chars) : chars :=
  reverse (drop_leading_dash (reverse l)).

(** [s.replace(/^-|-$/g, '')]: the first alternative can only match at
    offset 0 and the second only at the last character of what is left. *)
Definition strip_edge_dashes (l : chars) : chars :=
  drop_trailing_dash (drop_leading_dash l).

Definition sanitize_chars (l : chars) : chars :=
  strip_edge_dashes
    (replace_runs is_dash false
       (replace_runs (fun c => negb (allowed c)) false
          (trim l))).

Definition sanitizePart (value : string) : string :=
  string_of_list_ascii (sanitize_chars (list_ascii_of_string value)).

(** Does the text contain two neighbouring dashes? *)
Fixpoint has_double_dash (l : chars) : bool :=
  match l with
  | c :: r =>
      match r with
      | d :: _ => (is_dash c && is_dash d) || has_double_dash r
      | [] => false
      end
  | [] => false
  end.

End Sanitize.

(** * JavaScript values used by the exporter *)

Module JS.
Import Sanitize.

(** An [Error]: its message.  A computation that may throw: *)
Inductive result (A : Type) : Type :=
| Ok (a : A)
| Throw (message : string).
Arguments Ok {A} a.
Arguments Throw {A} message.

(** A number.  Finite doubles are represented by the rational they denote. *)
Inductive num : Type :=
| NaN
| PInf
| NInf
| Fin (q : Q).

Definition Qltb (x y : Q) : bool := negb (Qle_bool y x).

Definition of_Z (z : Z) : num := Fin (inject_Z z).

(** [a < b] and [a <= b]; both are false as soon as one side is [NaN]. *)
Definition num_lt (a b : num) : bool :=
  match a, b with
  | NaN, _ | _, NaN => false
  | _, NInf | PInf, _ => false
  | NInf, _ | _, PInf => true
  | Fin x, Fin y => Qltb x y
  end.

Definition num_le (a b : num) : bool :=
  match a, b with
  | NaN, _ | _, NaN => false
  | NInf, _ | _, PInf => true
  | _, NInf | PInf, _ => false
  | Fin x, Fin y => Qle_bool x y
  end.

Definition num_add (a b : num) : num :=
  match a, b with
  | NaN, _ | _, NaN => NaN
  | PInf, NInf | NInf, PInf => NaN
  | PInf, _ | _, PInf => PInf
  | NInf, _ | _, NInf => NInf
  | Fin x, Fin y => Fin (Qred (x + y)%Q)
  end.

Definition Qsign (q : Q) : Z := Z.sgn (Qnum q).

Definition num_mul (a b : num) : num :=
  let inf (sgn : Z) := if sgn =? 0 then NaN else if 0 <? sgn then PInf else NInf in
  match a, b with
  | NaN, _ | _, NaN => NaN
  | PInf, PInf | NInf, NInf => PInf
  | PInf, NInf | NInf, PInf => NInf
  | PInf, Fin y | Fin y, PInf => inf (Qsign y)
  | NInf, Fin y | Fin y, NInf => inf (- Qsign y)
  | Fin x, Fin y => Fin (Qred (x * y)%Q)
  end.

(** [Math.min] and [Math.max] of two numbers. *)
Definition num_min (a b : num) : num :=
  match a, b with
  | NaN, _ | _, NaN => NaN
  | _, _ => if num_le a b then a else b
  end.

Definition num_max (a b : num) : num :=
  match a, b with
  | NaN, _ | _, NaN => NaN
  | _, _ => if num_le a b then b else a
  end.

(** Truthiness of a number, and [x || d]. *)
Definition truthy_num (a : num) : bool :=
  match a with
  | NaN => false
  | Fin q => negb (Qeq_bool q 0)
  | _ => true
  end.

Definition num_or (a d : num) : num := if truthy_num a then a else d.

Definition isFinite (a : num) : bool :=
  match a with Fin _ => true | _ => false end.

Definition isInteger (a : num) : bool :=
  match a with
  | Fin q => (Zpos (Qden (Qred q)) =? 1)
  | _ => false
  end.

(** The integer a number denotes when [isInteger] holds. *)
Definition to_Z (a : num) : Z :=
  match a with Fin q => Qfloor q | _ => 0 end.

(** The millisecond amount carried by a finite number. *)
Definition to_Q (a : num) : Q :=
  match a with Fin q => q | _ => 0 end.

(** Numbers whose rational is in lowest terms; all results of the
    arithmetic above are. *)
Definition canonical (x : num) : Prop :=
  match x with Fin q => Qred q = q | _ => True end.

(** ** Double precision

    The arithmetic of the frame pacing is done in doubles; its results
    are the nearest doubles of the exact results. *)

Definition pow2 (e : Z) : Q :=
  if 0 <=? e then inject_Z (2 ^ e) else 1 # Z.to_pos (2 ^ (- e)).

(** For [q > 0], the exponent [e] with [2^e <= q < 2^(e+1)]. *)
Definition binade (q : Q) : Z :=
  let e := Z.log2 (Qnum q) - Z.log2 (Zpos (Qden q)) in
  if Qle_bool (pow2 e) q then e else e - 1.

(** The nearest integer, the even one of two that are equally near. *)
Definition round_half_even (q : Q) : Z :=
  let f := Qfloor q in
  match Qcompare (q - inject_Z f) (1 # 2) with
  | Lt => f
  | Gt => f + 1
  | Eq => if Z.even f then f else f + 1
  end.

(** The double nearest to [q], ties going to the even significand:
    doubles have 53 significant bits and exponents from -1022 on.  (No
    result of the pacing is large enough to round to an infinity.) *)
Definition nearest_double (q : Q) : Q :=
  if Qeq_bool q 0 then 0
  else
    let a := Qabs q in
    let ulp := pow2 (Z.max (binade a) (-1022) - 52) in
    Qred (inject_Z (Z.sgn (Qnum q) * round_half_even (a / ulp)) * ulp).

Definition quote : string := String (ascii_of_nat 34) EmptyString.

(** [String(z)] for an integer. *)
Definition String_of_Z (z : Z) : string := pretty z.

(** [String(x)].  Digit-exact for integers and the non-finite values; a
    non-integer is written as a fraction, which is enough to tell messages
    apart. *)
Definition String_of_num (a : num) : string :=
  match a with
  | NaN => "NaN"
  | PInf => "Infinity"
  | NInf => "-Infinity"
  | Fin q =>
      let r := Qred q in
      if Zpos (Qden r) =? 1 then pretty (Qnum r)
      else pretty (Qnum r) +:+ "/" +:+ pretty (Zpos (Qden r))
  end.

(** ** [Number.parseFloat] *)

Definition digit_of (c : ascii) : option Z :=
  let n := code c in
  if ((48 <=? n) && (n <=? 57))%N then Some (Z.of_N n - 48) else None.

(** The longest prefix of decimal digits, most significant first, and the
    rest of the text. *)
Fixpoint take_digits (l : chars) : list Z * chars :=
  match l with
  | c :: r =>
      match digit_of c with
      | Some d => let '(ds, rest) := take_digits r in (d :: ds, rest)
      | None => ([], l)
      end
  | [] => ([], [])
  end.

Definition digits_value (ds : list Z) : Z :=
  fold_left (fun acc d => 10 * acc + d) ds 0.

Definition take_sign (l : chars) : Z * chars :=
  match l with
  | c :: r =>
      if Ascii.eqb c "+"%char then (1, r)
      else if Ascii.eqb c "-"%char then (-1, r)
      else (1, l)
  | [] => (1, [])
  end.

Fixpoint starts_with (p l : chars) : bool :=
  match p, l with
  | [], _ => true
  | a :: p', b :: l' => Ascii.eqb a b && starts_with p' l'
  | _ :: _, [] => false
  end.

Definition pow10 (e : Z) : Q :=
  if 0 <=? e then inject_Z (10 ^ e) else Qinv (inject_Z (10 ^ (- e))).

(** The exponent part [e[+-]ddd] at the head of [l]; 0 when there is none. *)
Definition take_exponent (l : chars) : Z :=
  match l with
  | c :: r =>
      if Ascii.eqb c "e"%char || Ascii.eqb c "E"%char then
        let '(sg, r1) := take_sign r in
        let '(ds, _) := take_digits r1 in
        match ds with
        | [] => 0
        | _ => sg * digits_value ds
        end
      else 0
  | [] => 0
  end.

(** The number a decimal literal of value [v] denotes: [Infinity] (with
    the sign of [v]) from [2^1024 - 2^970] on, where the nearest double is
    out of range; zero up to [2^-1075], half of the smallest double; the
    value itself in between, where the nearest double is left exact. *)
Definition double_overflow : Q := inject_Z (2 ^ 1024 - 2 ^ 970).

Definition double_underflow : Q := 1 # (2 ^ 1075).

Definition of_decimal (v : Q) : num :=
  if Qle_bool double_overflow (Qabs v)
  then (if 0 <? Qsign v then PInf else NInf)
  else if Qle_bool (Qabs v) double_underflow then Fin 0
  else Fin v.

(** The value of the longest prefix that is a decimal literal, after
    leading white space; [NaN] when no prefix is one. *)
Definition parseFloat_chars (l : chars) : num :=
  let '(sg, l1) := take_sign (trimStart l) in
  if starts_with (list_ascii_of_string "Infinity") l1
  then (if 0 <? sg then PInf else NInf)
  else
    let '(ip, l2) := take_digits l1 in
    let '(fp, l3) :=
      match l2 with
      | c :: r => if Ascii.eqb c "."%char then take_digits r else ([], l2)
      | [] => ([], l2)
      end in
    match ip, fp with
    | [], [] => NaN
    | _, _ =>
        let mant :=
          (inject_Z (digits_value ip)
           + inject_Z (digits_value fp) / inject_Z (10 ^ Z.of_nat (length fp)))%Q in
        of_decimal (Qred (inject_Z sg * mant * pow10 (take_exponent l3))%Q)
    end.

Definition parseFloat (s : string) : num :=
  parseFloat_chars (list_ascii_of_string s).

(** ** String helpers *)

Definition str_trim (s : string) : string :=
  string_of_list_ascii (trim (list_ascii_of_string s)).

Definition endsWith (s suffix : string) : bool :=
  starts_with (reverse (list_ascii_of_string suffix))
              (reverse (list_ascii_of_string s)).

(** [s.slice(0, -n)] *)
Definition slice_drop_end (n : nat) (s : string) : string :=
  let l := list_ascii_of_string s in
  string_of_list_ascii (take (length l - n) l).

Definition includes (s needle : string) : bool :=
  let fix go (l : chars) : bool :=
    starts_with (list_ascii_of_string needle) l
    || match l with _ :: r => go r | [] => false end in
  go (list_ascii_of_string s).

End JS.

(** * Stabilizer: the transition settle budget *)

Module Stabilizer.
Import JS.

(** [parseMs], the helper local to the in-page callbacks of
    [getTransitionSettleBudget] and of the motion-scale set-up. *)
Definition parseMs (value : string) : num :=
  if String.eqb value "" then of_Z 0
  else if endsWith value "ms"
  then num_or (parseFloat (slice_drop_end 2 value)) (of_Z 0)
  else if endsWith value "s"
  then num_mul (num_or (parseFloat (slice_drop_end 1 value)) (of_Z 0)) (of_Z 1000)
  else num_or (parseFloat value) (of_Z 0).

(** [getTransitionSettleBudget]; [css] is what
    [getComputedStyle(document.documentElement).getPropertyValue
    ('--slidev-transition-duration')] returns in the page. *)
Definition getTransitionSettleBudget (css : string) : num :=
  let raw := str_trim css in
  num_max (of_Z 120) (num_min (of_Z 3000) (num_add (parseMs raw) (of_Z 300))).

(** The specification's reading, for comparison with the code. *)

Definition clamp (x lo hi : num) : num :=
  if num_lt x lo then lo else if num_lt hi x then hi else x.

(** The number written in [p], an unparsable text counting as 0. *)
Definition number_or_zero (p : string) : num :=
  match parseFloat p with
  | NaN => of_Z 0
  | x => x
  end.

Definition ends_in_m (p : string) : Prop := exists p', p = p' +:+ "m".

(** [css_duration raw d]: the property value [raw] denotes [d]
    milliseconds. *)
Inductive css_duration : string -> num -> Prop :=
| duration_empty : css_duration "" (of_Z 0)
| duration_ms p : css_duration (p +:+ "ms") (number_or_zero p)
| duration_s p :
    ~ ends_in_m p ->
    css_duration (p +:+ "s") (num_mul (number_or_zero p) (of_Z 1000))
| duration_unitless v :
    v <> "" -> endsWith v "s" = false ->
    css_duration v (number_or_zero v).

End Stabilizer.

(** * PDF table of contents ([addToTree], [makeOutline], [addTocToPdf]) *)

Module Toc.
Import JS.

(** The fields of [SlideInfo] the outline reads.  [level] is the heading
    level of the slide's title; [hideInToc] is
    [Boolean(info.frontmatter?.hideInToc)]. *)
Record SlideInfo : Type := mkSlideInfo {
  index : Z;
  title : option string;
  level : option Z;
  hideInToc : bool
}.

#[warnings="-register-all"]
Inductive TocItem : Type := mkTocItem {
  toc_no : Z;
  toc_children : list TocItem;
  toc_level : Z;
  toc_titleLevel : Z;
  toc_path : string;
  toc_hideInToc : bool;
  toc_title : option string
}.

Definition set_children (it : TocItem) (cs : list TocItem) : TocItem :=
  mkTocItem (toc_no it) cs (toc_level it) (toc_titleLevel it) (toc_path it)
            (toc_hideInToc it) (toc_title it).

(** Truthiness of an optional string and of an optional number. *)
Definition truthy_str (t : option string) : bool :=
  match t with
  | Some s => negb (String.eqb s "")
  | None => false
  end.

Definition truthy_level (l : option Z) : bool :=
  match l with
  | Some z => negb (z =? 0)
  | None => false
  end.

(** [String(slideIndexes[n])] *)
Definition path_of (slideIndexes : gmap Z Z) (n : Z) : string :=
  match slideIndexes !! n with
  | Some page => String_of_Z page
  | None => "undefined"
  end.

(** The object literal pushed by [addToTree]. *)
Definition newItem (info : SlideInfo) (slideIndexes : gmap Z Z) (lvl : Z) : TocItem :=
  {| toc_no := index info;
     toc_children := [];
     toc_level := lvl;
     toc_titleLevel := from_option id lvl (level info);
     toc_path := path_of slideIndexes (index info + 1);
     toc_hideInToc := hideInToc info;
     toc_title := title info |}.

(** [tree] without its last element, and that element. *)
Fixpoint split_last (tree : list TocItem) : option (list TocItem * TocItem) :=
  match tree with
  | [] => None
  | it :: rest =>
      match split_last rest with
      | Some (init, l) => Some (it :: init, l)
      | None => Some ([], it)
      end
  end.

(** The test of [addToTree]: [titleLevel && titleLevel > level &&
    tree.length > 0 && tree[tree.length - 1].titleLevel < titleLevel].
    When it holds, the result is the last item and what precedes it. *)
Definition descend (tree : list TocItem) (info : SlideInfo) (lvl : Z)
  : option (list TocItem * TocItem) :=
  match level info with
  | Some titleLevel =>
      if truthy_level (Some titleLevel) && (lvl <? titleLevel)
      then match split_last tree with
           | Some (init, l) =>
               if toc_titleLevel l <? titleLevel then Some (init, l) else None
           | None => None
           end
      else None
  | None => None
  end.

Definition inspect {A : Type} (a : A) : {b : A | a = b} := exist _ a eq_refl.

Definition level_or_zero (info : SlideInfo) : Z := from_option id 0 (level info).

Lemma descend_deeper tree info lvl r :
  descend tree info lvl = Some r -> lvl < level_or_zero info.
Proof.
  unfold descend, level_or_zero. destruct (level info) as [tl|]; [|discriminate].
  simpl. destruct (lvl <? tl) eqn:E; [|now rewrite andb_false_r].
  intros _. lia.
Qed.

(** [addToTree(tree, info, slideIndexes, level)].  The source grows the
    arrays in place; here the grown tree is returned.  The recursion goes
    one level down each time, and only while [level < titleLevel]. *)
Equations? addToTree (tree : list TocItem) (info : SlideInfo)
    (slideIndexes : gmap Z Z) (lvl : Z) : list TocItem
    by wf (Z.to_nat (level_or_zero info - lvl)) lt :=
addToTree tree info slideIndexes lvl with inspect (descend tree info lvl) := {
  | exist _ (Some (init, l)) _ :=
      init ++ [set_children l
                 (addToTree (toc_children l) info slideIndexes (lvl + 1))];
  | exist _ None _ := tree ++ [newItem info slideIndexes lvl] }.
Proof. apply descend_deeper in e. lia. Qed.

Definition nl : string := String (ascii_of_nat 10) EmptyString.

Fixpoint str_repeat (s : string) (n : nat) : string :=
  match n with
  | O => ""
  | S n' => s +:+ str_repeat s n'
  end.

(** The text of a template-literal hole holding [rootOutline]. *)
Definition show_outline (o : option string) : string :=
  match o with
  | Some t => t
  | None => "null"
  end.

Definition truthy_outline (o : option string) : bool := truthy_str o.

(** [array.filter(outline => !!outline).join('\n')] *)
Definition join_outlines (os : list (option string)) : string :=
  String.concat nl (omap id (filter (fun o => truthy_outline o = true) os)).

(** The callback of the [map] in [makeOutline], applied to one item.  The
    dash count [level - 1] is never negative on trees built by
    [addToTree], whose levels start at 1. *)
Fixpoint makeOutline_item (it : TocItem) : option string :=
  let rootOutline :=
    if truthy_str (toc_title it)
    then Some (toc_path it +:+ "|" +:+ str_repeat "-" (Z.to_nat (toc_level it - 1))
               +:+ "|" +:+ show_outline (toc_title it))
    else None in
  let childrenOutline := join_outlines (map makeOutline_item (toc_children it)) in
  if (0 <? String.length childrenOutline)%nat
  then Some (show_outline rootOutline +:+ nl +:+ childrenOutline)
  else rootOutline.

Definition makeOutline (tree : list TocItem) : string :=
  join_outlines (map makeOutline_item tree).

(** The tree built by [addTocToPdf]: the titled slides, added in order. *)
Definition tocTree (slides : list SlideInfo) (slideIndexes : gmap Z Z) : list TocItem :=
  fold_left (fun acc slide => addToTree acc slide slideIndexes 1)
            (filter (fun slide => truthy_str (title slide) = true) slides) [].

(** The items of a tree in outline order (an item, then its children),
    each without its children. *)
Fixpoint flat_item (it : TocItem) : list TocItem :=
  set_children it [] :: concat (map flat_item (toc_children it)).

Definition flat (tree : list TocItem) : list TocItem :=
  concat (map flat_item tree).

(** One line of the outline, as [makeOutline] writes it. *)
Definition outline_line (it : TocItem) : string :=
  toc_path it +:+ "|" +:+ str_repeat "-" (Z.to_nat (toc_level it - 1))
  +:+ "|" +:+ show_outline (toc_title it).

(** An item with a (non-empty) title. *)
Definition titled_item (it : TocItem) : Prop := truthy_str (toc_title it) = true.

(** What identifies an outline entry with a slide. *)
Definition entry_of_item (it : TocItem) : Z * string * option string :=
  (toc_no it, toc_path it, toc_title it).

Definition entry_of_slide (slideIndexes : gmap Z Z) (s : SlideInfo)
  : Z * string * option string :=
  (index s, path_of slideIndexes (index s + 1), title s).

(** Every item of [tree] has level [depth], its children [depth + 1], and
    so on. *)
Fixpoint levelled_item (depth : Z) (it : TocItem) : Prop :=
  toc_level it = depth
  /\ (fix all (cs : list TocItem) : Prop :=
        match cs with
        | [] => True
        | c :: cs' => levelled_item (depth + 1) c /\ all cs'
        end) (toc_children it).

Definition levelled (depth : Z) (tree : list TocItem) : Prop :=
  Forall (levelled_item depth) tree.

(** The line the specification describes for a titled slide: the dash count
    is the slide's title level minus 1. *)
Definition claimed_line (slideIndexes : gmap Z Z) (slide : SlideInfo) : string :=
  path_of slideIndexes (index slide + 1) +:+ "|"
  +:+ str_repeat "-" (Z.to_nat (level_or_zero slide - 1))
  +:+ "|" +:+ show_outline (title slide).

(** The outline the specification describes for a deck. *)
Definition claimed_outline (slides : list SlideInfo) (slideIndexes : gmap Z Z) : string :=
  String.concat nl
    (map (claimed_line slideIndexes)
         (filter (fun slide => truthy_str (title slide) = true) slides)).

(** A two-slide deck: a level-1 title followed by a level-3 title. *)
Definition skipping_deck : list SlideInfo :=
  [ mkSlideInfo 0 (Some "Intro") (Some 1) false;
    mkSlideInfo 1 (Some "Details") (Some 3) false ].

Definition one_page_per_slide : gmap Z Z := {[ 1 := 1; 2 := 2 ]}.

End Toc.

(** * Step bridge: the in-page contract *)

Module Bridge.
Import JS.

(** [SlidevExportStepInfo] / [Mp4StepInfo] *)
Record StepInfo : Type := mkStepInfo {
  no : Z;
  clicks : Z;
  clicksTotal : Z;
  hasNext : bool
}.

(** [MaybeRefValue<T> = T | { value?: T }]: a plain value, or a reactive
    cell, an object with the key [value] whose content may be undefined. *)
Inductive MaybeRefValue (T : Type) : Type :=
| Plain (v : T)
| Cell (value : option T).
Arguments Plain {T} v.
Arguments Cell {T} value.

(** [SlidevContextNav]; an absent field is [None].  [next] tells whether
    the field holds a function. *)
Record SlidevContextNav : Type := mkNav {
  nav_currentSlideNo : option (MaybeRefValue Z);
  nav_clicks : option (MaybeRefValue Z);
  nav_clicksTotal : option (MaybeRefValue Z);
  nav_hasNext : option (MaybeRefValue bool);
  nav_next : bool
}.

(** [SlidevContext] *)
Record SlidevContext : Type := mkContext {
  nav : option SlidevContextNav
}.

(** [SlidevExportBridge], as far as the exporter uses it: [getStepInfo] is
    what the function returns when the field holds one, [nextStep] tells
    whether the field holds a function. *)
Record SlidevExportBridge : Type := mkBridge {
  bridge_getStepInfo : option StepInfo;
  bridge_nextStep : bool
}.

(** The two globals of [Window] the exporter reads. *)
Record Window : Type := mkWindow {
  slidev_export : option SlidevExportBridge;   (* window.__slidev_export__ *)
  slidev : option SlidevContext                (* window.__slidev__ *)
}.

(** [(typeof x === 'object' && x && 'value' in x) ? Number(x.value ?? 0)
     : Number(x ?? 0)] *)
Definition number_field (x : option (MaybeRefValue Z)) : Z :=
  match x with
  | Some (Cell value) => from_option id 0 value
  | Some (Plain v) => v
  | None => 0
  end.

(** [(typeof x === 'object' && x && 'value' in x) ? Boolean(x.value)
     : Boolean(x)] *)
Definition boolean_field (x : option (MaybeRefValue bool)) : bool :=
  match x with
  | Some (Cell value) => from_option id false value
  | Some (Plain v) => v
  | None => false
  end.

(** The callback that [getStepInfo] evaluates in the page. *)
Definition stepInfoOfWindow (window : Window) : StepInfo :=
  match slidev_export window ≫= bridge_getStepInfo with
  | Some info => info
  | None =>
      let nav := slidev window ≫= nav in
      let currentSlideNo := nav ≫= nav_currentSlideNo in
      let clicks := nav ≫= nav_clicks in
      let clicksTotal := nav ≫= nav_clicksTotal in
      let hasNext := nav ≫= nav_hasNext in
      {| no := number_field currentSlideNo;
         clicks := number_field clicks;
         clicksTotal := number_field clicksTotal;
         hasNext := boolean_field hasNext |}
  end.

(** Which function, if any, the callback of [nextStep] calls. *)
Inductive advance_via : Type :=
| ViaBridge
| ViaNav
| NoBridge.

Definition nextStepTarget (window : Window) : advance_via :=
  if from_option bridge_nextStep false (slidev_export window) then ViaBridge
  else if from_option nav_next false (slidev window ≫= nav) then ViaNav
  else NoBridge.

Definition getStepKey (step : StepInfo) : string :=
  String_of_Z (no step) +:+ "-" +:+ String_of_Z (clicks step).

(** Neither bridge shape is on the page. *)
Definition no_bridge (window : Window) : Prop :=
  (slidev_export window ≫= bridge_getStepInfo) = None
  /\ (slidev window ≫= nav) = None.

End Bridge.

(** * Export options and their validation *)

Module Options.
Import Sanitize JS.

(** The argument of [parseVideoMotionScale]: [number | string]. *)
Inductive scale_arg : Type :=
| ScaleNumber (n : num)
| ScaleString (s : string).

Definition String_of_scale (v : scale_arg) : string :=
  match v with
  | ScaleNumber n => String_of_num n
  | ScaleString s => s
  end.

(** The match of [/^(\d+)x(\d+)$/i]: the two digit groups as integers. *)
Definition match_video_size (value : string) : option (Z * Z) :=
  let '(ws, rest) := take_digits (list_ascii_of_string value) in
  match ws, rest with
  | _ :: _, c :: rest' =>
      if Ascii.eqb c "x"%char || Ascii.eqb c "X"%char then
        match take_digits rest' with
        | ((_ :: _) as hs, []) => Some (digits_value ws, digits_value hs)
        | _ => None
        end
      else None
  | _, _ => None
  end.

Definition invalid_size_format (value : string) : string :=
  "[slidev] Invalid --video-size " +:+ quote +:+ value +:+ quote
  +:+ ". Expected " +:+ quote +:+ "<width>x<height>" +:+ quote
  +:+ ", for example " +:+ quote +:+ "1920x1080" +:+ quote.

Definition invalid_size_value (value : string) : string :=
  "[slidev] Invalid --video-size " +:+ quote +:+ value +:+ quote
  +:+ ". Width and height should be positive integers.".

(** [Number] of a digit group is [Infinity] from [2^1024 - 2^970] on. *)
Definition overflows (n : Z) : bool := 2 ^ 1024 - 2 ^ 970 <=? n.

(** [parseVideoSize].  [Number] of a digit group is an integer (beyond
    [2^53] the nearest double, which is left exact here) or [Infinity], so
    of the test [!Number.isInteger(width) || !Number.isInteger(height) ||
    width <= 0 || height <= 0] the overflow and the sign tests remain. *)
Definition parseVideoSize (value : option string) : result (option (Z * Z)) :=
  match value with
  | None => Ok None
  | Some v =>
      if String.eqb v "" then Ok None
      else match match_video_size v with
           | None => Throw (invalid_size_format v)
           | Some (width, height) =>
               if overflows width || overflows height
                  || (width <=? 0) || (height <=? 0)
               then Throw (invalid_size_value v)
               else Ok (Some (width, height))
           end
  end.

Definition invalid_motion_scale (value : scale_arg) : string :=
  "[slidev] Invalid --video-motion-scale " +:+ quote +:+ String_of_scale value
  +:+ quote +:+ ". Expected a number greater than 0.".

(** [parseVideoMotionScale] *)
Definition parseVideoMotionScale (value : option scale_arg) : result num :=
  match value with
  | None => Ok (of_Z 1)
  | Some v =>
      let scale := match v with
                   | ScaleNumber n => n
                   | ScaleString s => parseFloat s
                   end in
      if negb (isFinite scale) || num_le scale (of_Z 0)
      then Throw (invalid_motion_scale v)
      else Ok scale
  end.

Inductive Format : Type := pdf | png | pptx | md | mp4.

(** The fields of [ExportOptions] that the MP4 path reads. *)
Record ExportOptions : Type := mkExportOptions {
  total : Z;
  range : option string;
  format : option Format;
  output : option string;
  timeout : option Z;
  withClicks : option bool;
  videoInterval : option num;
  videoFps : option num;
  videoWidth : option Z;
  videoHeight : option Z;
  videoMotionScale : option scale_arg
}.

(** [pages.every((value, index) => index === 0 || value === pages[index - 1] + 1)] *)
Definition isContiguousRange (pages : list Z) : bool :=
  forallb (fun '(index, value) =>
             match index with
             | O => true
             | S before =>
                 match pages !! before with
                 | Some previous => value =? previous + 1
                 | None => false
                 end
             end)
          (imap pair pages).

(** The specification's words: each element is the previous one plus 1. *)
Fixpoint contiguous (pages : list Z) : Prop :=
  match pages with
  | a :: (b :: _) as rest => b = a + 1 /\ contiguous rest
  | _ => True
  end.

(** [chain prev l]: [l] continues a contiguous run that ended with [prev]. *)
Fixpoint chain (prev : option Z) (l : list Z) : Prop :=
  match l with
  | [] => True
  | b :: rest =>
      match prev with Some a => b = a + 1 | None => True end
      /\ chain (Some b) rest
  end.

Definition clicks_disabled_message : string :=
  "[slidev] MP4 export always includes clicks. Remove --with-clicks=false to continue.".

Definition invalid_fps_message (videoFps : num) : string :=
  "[slidev] Invalid video fps " +:+ quote +:+ String_of_num videoFps +:+ quote
  +:+ ". Expected an integer between 1 and 60.".

Definition invalid_interval_message (videoInterval : num) : string :=
  "[slidev] Invalid video interval " +:+ quote +:+ String_of_num videoInterval
  +:+ quote +:+ ". Expected a non-negative integer.".

Definition contiguous_message : string :=
  "[slidev] MP4 export currently requires a contiguous --range (for example: "
  +:+ quote +:+ "1-5" +:+ quote +:+ ").".

Definition ffmpeg_required_message : string :=
  "[slidev] MP4 export requires ffmpeg. Please install ffmpeg and try again.".

Definition next_step_failed_message : string :=
  "[slidev] Failed to trigger next step in browser context.".

Definition advance_failed_message (previousStamp : string) : string :=
  "[slidev] Failed to advance from step " +:+ previousStamp.

(** What [genPageMp4] has in hand once its option checks have passed. *)
Record Mp4Plan : Type := mkMp4Plan {
  plan_fps : Z;                (* videoFps *)
  plan_interval : Z;           (* videoInterval *)
  plan_output : string;        (* output, with the suffix .mp4 *)
  plan_motionScale : Q;
  plan_playbackSpeedup : Q;
  plan_startSlideNo : Z;
  plan_endSlideNo : Z
}.

(** The head of [genPageMp4], up to and including the range check: the
    checks in the order of the source, each throwing its own message. *)
Definition mp4Preflight (withClicks : bool) (videoFps videoInterval : num)
    (output : string) (videoMotionScale : option scale_arg) (pages : list Z)
  : result Mp4Plan :=
  if negb withClicks then Throw clicks_disabled_message
  else if negb (isInteger videoFps) || num_lt videoFps (of_Z 1)
          || num_lt (of_Z 60) videoFps
  then Throw (invalid_fps_message videoFps)
  else if negb (isInteger videoInterval) || num_lt videoInterval (of_Z 0)
  then Throw (invalid_interval_message videoInterval)
  else
    let output := if endsWith output ".mp4" then output else output +:+ ".mp4" in
    match parseVideoMotionScale videoMotionScale with
    | Throw message => Throw message
    | Ok motionScale =>
        let playbackSpeedup :=
          if num_lt (of_Z 1) motionScale then motionScale else of_Z 1 in
        let startSlideNo := from_option id 1 (head pages) in
        let endSlideNo := from_option id startSlideNo (last pages) in
        if negb (isContiguousRange pages) then Throw contiguous_message
        else Ok {| plan_fps := to_Z videoFps;
                   plan_interval := to_Z videoInterval;
                   plan_output := output;
                   plan_motionScale := to_Q motionScale;
                   plan_playbackSpeedup := to_Q playbackSpeedup;
                   plan_startSlideNo := startSlideNo;
                   plan_endSlideNo := endSlideNo |}
    end.

(** The messages of the checks on fps, interval and motion scale,
    whatever text shows the rejected value. *)
Definition is_fps_message (message : string) : Prop :=
  exists shown,
    message = "[slidev] Invalid video fps " +:+ quote +:+ shown +:+ quote
              +:+ ". Expected an integer between 1 and 60.".

Definition is_interval_message (message : string) : Prop :=
  exists shown,
    message = "[slidev] Invalid video interval " +:+ quote +:+ shown +:+ quote
              +:+ ". Expected a non-negative integer.".

Definition is_motion_scale_message (message : string) : Prop :=
  exists shown,
    message = "[slidev] Invalid --video-motion-scale " +:+ quote +:+ shown
              +:+ quote +:+ ". Expected a number greater than 0.".

(** The input errors of an MP4 export that [export.ts] itself detects. *)
Definition valid_fps (videoFps : num) : bool :=
  isInteger videoFps && num_le (of_Z 1) videoFps && num_le videoFps (of_Z 60).

Definition valid_interval (videoInterval : num) : bool :=
  isInteger videoInterval && num_le (of_Z 0) videoInterval.

Definition valid_motion_scale (v : option scale_arg) : bool :=
  match parseVideoMotionScale v with Ok _ => true | Throw _ => false end.

End Options.

(** * The MP4 recorder ([genPageMp4] and its helpers)

    The recorder talks to the clock, the browser page and the encoder
    process.  These are an environment: a type [W] of worlds and one
    transition per call.  The recorder's own state is the frame counter,
    and, as ghost state, the log of the calls made so far. *)

Module Recorder.
Import JS Bridge Options.

(** A PNG image. *)
Definition Buffer : Type := list Byte.byte.

(** The clip rectangle [{ x, y, width, height }]. *)
Record Clip : Type := mkClip {
  clip_x : Z;
  clip_y : Z;
  clip_width : Z;
  clip_height : Z
}.

(** One entry of the log per call into the environment. *)
Inductive event : Type :=
| EvLaunch                             (* browser launched, page opened *)
| EvNow (t : Z)                        (* Date.now() returned t *)
| EvProbe (ok : bool)                  (* ffmpeg -version ran; ok iff it closed with code 0 *)
| EvGoto (slideNo clicks : Z)          (* goPlay: navigation and slide stabilisation *)
| EvBudget (css : string)              (* the transition duration was read *)
| EvSleep (ms : Q)                     (* a timer of ms milliseconds elapsed *)
| EvSettled (timeout : Q)              (* page.waitForFunction returned or timed out *)
| EvAnimationFrames                    (* two animation frames elapsed *)
| EvMotionScale (scale : Q)            (* motion dilation installed in the page *)
| EvSpawn (args : list string)         (* the encoder process was spawned *)
| EvTargetReady                        (* #slide-content is attached *)
| EvClip (clip : option Clip)          (* the clip rectangle was computed *)
| EvCapture (frame : Buffer)           (* a screenshot was taken *)
| EvWrite (frame : Buffer)             (* ffmpeg.stdin.write(frame) *)
| EvDrain                              (* the drain event arrived *)
| EvEnd                                (* ffmpeg.stdin.end() *)
| EvEncoderDone                        (* the encoder closed with code 0 *)
| EvStepInfo (step : StepInfo)         (* getStepInfo returned step *)
| EvNextStep (via : advance_via)       (* the callback of nextStep chose via *)
| EvAdvanced                           (* the page's next-step function returned *)
| EvRendered (format : Format)         (* a format other than MP4 was rendered *)
| EvFail (message : string).           (* the call threw or rejected *)

(** How a computation ends: with a value, with a thrown error, or not
    within the fuel given to its loops. *)
Inductive outcome (A : Type) : Type :=
| Ret (a : A)
| Err (message : string)
| OutOfFuel.
Arguments Ret {A} a.
Arguments Err {A} message.
Arguments OutOfFuel {A}.

(** Projections of a log. *)
Definition captures (l : list event) : list Buffer :=
  omap (fun e => match e with EvCapture f => Some f | _ => None end) l.

Definition writes (l : list event) : list Buffer :=
  omap (fun e => match e with EvWrite f => Some f | _ => None end) l.

Definition sleeps (l : list event) : list Q :=
  omap (fun e => match e with EvSleep ms => Some ms | _ => None end) l.

Definition readings (l : list event) : list Z :=
  omap (fun e => match e with EvNow t => Some t | _ => None end) l.

Definition steps (l : list event) : list StepInfo :=
  omap (fun e => match e with EvStepInfo s => Some s | _ => None end) l.

Definition failures (l : list event) : list string :=
  omap (fun e => match e with EvFail m => Some m | _ => None end) l.

Definition is_end (e : event) : bool :=
  match e with EvEnd => true | _ => false end.

(** How often [ffmpeg.stdin.end()] was called. *)
Definition end_count (l : list event) : nat := length (filter (fun e => is_end e = true) l).

Definition is_spawn (e : event) : bool :=
  match e with EvSpawn _ => true | _ => false end.

(** How often the encoder process was started. *)
Definition spawn_count (l : list event) : nat :=
  length (filter (fun e => is_spawn e = true) l).

Definition total_sleep (l : list event) : Q :=
  fold_right Qplus 0%Q (sleeps l).

(** The entries a capture can leave in the log. *)
Definition capture_event (e : event) : Prop :=
  match e with
  | EvCapture _ | EvWrite _ | EvDrain | EvNow _ | EvSleep _ | EvFail _ => True
  | _ => False
  end.

(** The entries a dwell can leave in the log: those of a capture and those
    of the wait for the step to settle. *)
Definition dwell_event (e : event) : Prop :=
  match e with
  | EvCapture _ | EvWrite _ | EvDrain | EvNow _ | EvSleep _ | EvFail _
  | EvBudget _ | EvSettled _ | EvAnimationFrames => True
  | _ => False
  end.

(** The entries the main loop can leave in the log. *)
Definition loop_event (e : event) : Prop :=
  match e with
  | EvCapture _ | EvWrite _ | EvDrain | EvNow _ | EvSleep _ | EvFail _
  | EvBudget _ | EvSettled _ | EvAnimationFrames | EvStepInfo _
  | EvNextStep _ | EvAdvanced => True
  | _ => False
  end.

(** A stretch of the log that only writes the frame [f] (and waits for
    the stream to drain). *)
Definition writes_only (f : Buffer) (l : list event) : Prop :=
  Forall (fun e => e = EvWrite f \/ e = EvDrain) l.

(** Entries that neither capture nor write a frame. *)
Definition neutral_event (e : event) : Prop :=
  match e with
  | EvCapture _ | EvWrite _ => False
  | _ => True
  end.

(** The entries that the recorder leaves in the log before the recording
    starts: no capture, no write, no closing of the encoder's input. *)
Definition setup_event (e : event) : Prop :=
  match e with
  | EvCapture _ | EvWrite _ | EvEnd => False
  | _ => True
  end.

(** [in_order cur l]: every frame written in [l] is the frame captured
    last before it, [cur] being the frame captured last before [l]. *)
Fixpoint in_order (cur : option Buffer) (l : list event) : Prop :=
  match l with
  | [] => True
  | EvCapture f :: r => in_order (Some f) r
  | EvWrite f :: r => cur = Some f /\ in_order cur r
  | _ :: r => in_order cur r
  end.

(** One round of capture: entries of a capture, among them one screenshot
    and no failure. *)
Definition capture_round (c : list event) : Prop :=
  Forall capture_event c /\ length (captures c) = 1%nat /\ failures c = [].

(** [waiting deadline previousStamp l]: [l] is a sequence of rounds of the
    transition wait in which no change was seen: each round reads the clock
    before the deadline, captures a frame, and reads a step whose key is
    still [previousStamp]. *)
Inductive waiting (deadline : Z) (previousStamp : string) : list event -> Prop :=
| waiting_done : waiting deadline previousStamp []
| waiting_round t c step rest :
    t < deadline ->
    capture_round c ->
    getStepKey step = previousStamp ->
    waiting deadline previousStamp rest ->
    waiting deadline previousStamp ([EvNow t] ++ c ++ [EvStepInfo step] ++ rest).

(** What the log [d] of a transition wait with outcome [o] looks like. *)
Definition wait_outcome (deadline : Z) (previousStamp : string)
    (o : outcome bool) (d : list event) : Prop :=
  match o with
  | Ret true =>
      exists d0 t c step,
        d = d0 ++ [EvNow t] ++ c ++ [EvStepInfo step]
        /\ waiting deadline previousStamp d0
        /\ t < deadline /\ capture_round c
        /\ getStepKey step <> previousStamp
  | Ret false =>
      exists d0 t,
        d = d0 ++ [EvNow t]
        /\ waiting deadline previousStamp d0 /\ deadline <= t
  | Err message =>
      exists d0 d1,
        d = d0 ++ d1
        /\ waiting deadline previousStamp d0
        /\ last d1 = Some (EvFail message)
  | OutOfFuel => waiting deadline previousStamp d
  end.

(** The frame captured last in [l], or [cur] when [l] captures none. *)
Definition cur_after (cur : option Buffer) (l : list event) : option Buffer :=
  match last (captures l) with
  | Some f => Some f
  | None => cur
  end.

(** The log of the [try] block: entries of the loop, then, if the block
    got that far, the closing of the input and the end of the encoder. *)
Definition tried (o : outcome unit) (d : list event) : Prop :=
  exists d0,
    Forall loop_event d0
    /\ match o with
       | Ret _ => d = d0 ++ [EvEnd; EvEncoderDone]
       | Err message => d = d0 \/ d = d0 ++ [EvEnd; EvFail message]
       | OutOfFuel => d = d0
       end.

(** Entries that are a write of [f] or neither capture nor write. *)
Definition write_or_neutral (f : Buffer) (e : event) : Prop :=
  e = EvWrite f \/ neutral_event e.

Section WithWorld.

Variable W : Type.

(** The environment.  A call that can throw or reject returns a [result]. *)
Record Env : Type := mkEnv {
  launchBrowser : W -> result unit * W;
  dateNow : W -> Z * W;
  ffmpegVersion : W -> bool * W;
  pageGotoPlay : Z -> Z -> W -> result unit * W;
  cssTransitionDuration : W -> result string * W;
  setTimeout : Q -> W -> W;
  waitForTransitions : Q -> W -> W;
  twoAnimationFrames : W -> result unit * W;
  installMotionScale : Q -> W -> result unit * W;
  spawnEncoder : list string -> W -> W;
  targetWaitFor : W -> result unit * W;
  evalClip : W -> result (option Clip) * W;
  screenshot : option Clip -> W -> result Buffer * W;
  stdinWrite : Buffer -> W -> bool * W;
  stdinDrain : W -> result unit * W;
  stdinEnd : W -> W;
  ffmpegDone : W -> result unit * W;
  pageWindow : W -> result Window * W;
  callNextStep : advance_via -> W -> result unit * W;
  renderFormat : Format -> W -> result unit * W
}.

Variable env : Env.

Record state : Type := mkState {
  world : W;
  log : list event;
  writtenFrames : Z
}.

Definition M (A : Type) : Type := state -> outcome A * state.

Definition ret {A : Type} (a : A) : M A := fun st => (Ret a, st).

Definition bind {A B : Type} (m : M A) (k : A -> M B) : M B :=
  fun st =>
    match m st with
    | (Ret a, st') => k a st'
    | (Err message, st') => (Err message, st')
    | (OutOfFuel, st') => (OutOfFuel, st')
    end.

Definition throw {A : Type} (message : string) : M A :=
  fun st => (Err message, st).

Definition out_of_fuel {A : Type} : M A := fun st => (OutOfFuel, st).

(** [try { m } catch (error) { handler(error) }] *)
Definition try_catch {A : Type} (m : M A) (handler : string -> M A) : M A :=
  fun st =>
    match m st with
    | (Err message, st') => handler message st'
    | r => r
    end.

Definition record (st : state) (w : W) (e : event) : state :=
  {| world := w; log := log st ++ [e]; writtenFrames := writtenFrames st |}.

(** A call that may throw; [ev] is its log entry when it returns. *)
Definition call {A : Type} (op : W -> result A * W) (ev : A -> event) : M A :=
  fun st =>
    match op (world st) with
    | (Ok a, w) => (Ret a, record st w (ev a))
    | (Throw message, w) => (Err message, record st w (EvFail message))
    end.

(** A call that always returns. *)
Definition call_total {A : Type} (op : W -> A * W) (ev : A -> event) : M A :=
  fun st => let '(a, w) := op (world st) in (Ret a, record st w (ev a)).

Definition act (op : W -> W) (e : event) : M unit :=
  fun st => (Ret tt, record st (op (world st)) e).

Definition getWrittenFrames : M Z := fun st => (Ret (writtenFrames st), st).

(** [writtenFrames += 1] *)
Definition countFrame : M unit :=
  fun st => (Ret tt, {| world := world st; log := log st;
                        writtenFrames := writtenFrames st + 1 |}).

Notation "'let*' x ':=' m 'in' k" := (bind m (fun x => k))
  (at level 10, x name, m at level 100, k at level 200).
Notation "m ;; k" := (bind m (fun _ => k))
  (at level 100, k at level 200, right associativity).

Definition now : M Z := call_total (dateNow env) EvNow.

(** [sleep(ms)]: no timer when [ms <= 0]. *)
Definition sleep (ms : Q) : M unit :=
  if Qle_bool ms 0 then ret tt else act (setTimeout env ms) (EvSleep ms).

(** [getTransitionSettleBudget]: the callback runs in the page on the
    computed property value; its result is a finite number. *)
Definition getTransitionSettleBudget : M Q :=
  let* css := call (cssTransitionDuration env) EvBudget in
  ret (to_Q (Stabilizer.getTransitionSettleBudget css)).

(** [waitForStepSettled(timeout)]; the rejection of [waitForFunction] is
    swallowed by its [.catch(() => {})]. *)
Definition waitForStepSettled (timeout : Q) : M unit :=
  let* settleBudget := getTransitionSettleBudget in
  sleep settleBudget ;;
  (let limit := Qmin timeout (settleBudget + 2000) in
   act (waitForTransitions env limit) (EvSettled limit)) ;;
  call (twoAnimationFrames env) (fun _ => EvAnimationFrames).

(** [goPlay(no, clicks)] *)
Definition goPlay (slideNo clicks : Z) : M unit :=
  call (pageGotoPlay env slideNo clicks) (fun _ => EvGoto slideNo clicks) ;;
  waitForStepSettled 10000.

(** [waitForFfmpeg] *)
Definition waitForFfmpeg : M unit :=
  let* ok := call_total (ffmpegVersion env) EvProbe in
  if ok then ret tt else throw ffmpeg_required_message.

(** [getStepInfo] *)
Definition getStepInfo : M StepInfo :=
  let* window := call (pageWindow env) (fun w => EvStepInfo (stepInfoOfWindow w)) in
  ret (stepInfoOfWindow window).

(** [nextStep]: [true] when a bridge function was called. *)
Definition nextStep : M bool :=
  let* window := call (pageWindow env) (fun w => EvNextStep (nextStepTarget w)) in
  match nextStepTarget window with
  | NoBridge => ret false
  | via => call (callNextStep env via) (fun _ => EvAdvanced) ;; ret true
  end.

Definition ffmpegArgs (plan : Mp4Plan) : list string :=
  [ "-y"; "-f"; "image2pipe"; "-framerate"; String_of_Z (plan_fps plan);
    "-vcodec"; "png"; "-i"; "-"; "-an"; "-c:v"; "libx264";
    "-preset"; "veryfast" ]
  ++ (if Qltb 1 (plan_playbackSpeedup plan)
      then [ "-vf";
             "setpts=PTS/" +:+ String_of_num (Fin (plan_playbackSpeedup plan));
             "-r"; String_of_Z (plan_fps plan) ]
      else [])
  ++ [ "-pix_fmt"; "yuv420p"; "-movflags"; "+faststart"; plan_output plan ].

Section Capture.

(** The constants of the capture closure. *)
Variable videoFps : Z.
Variable startedAt : Z.
Variable clip : option Clip.

(** [const frameInterval = 1000 / videoFps] *)
Definition frameInterval : Q := nearest_double (1000 / inject_Z videoFps).

(** [captureFrame] *)
Definition captureFrame : M Buffer := call (screenshot env clip) EvCapture.

(** [writeFrame]: wait for the drain event when [write] returns false. *)
Definition writeFrame (buffer : Buffer) : M unit :=
  let* flushed := call_total (stdinWrite env buffer) (fun _ => EvWrite buffer) in
  if flushed then ret tt else call (stdinDrain env) (fun _ => EvDrain).

Definition expectedFrames (elapsedMs : Z) : Z :=
  Z.max 1 (elapsedMs * videoFps / 1000).

(** [while (writtenFrames < expectedFrames) { await writeFrame(buffer);
    writtenFrames += 1 }], entered with [expectedFrames - writtenFrames <= n]:
    the body runs once per missing frame. *)
Fixpoint writeMissing (n : nat) (buffer : Buffer) : M unit :=
  match n with
  | O => ret tt
  | S n' => writeFrame buffer ;; countFrame ;; writeMissing n' buffer
  end.

(** [catchUpFrames] *)
Definition catchUpFrames (buffer : Buffer) : M unit :=
  let* t := now in
  let elapsedMs := t - startedAt in
  let* written := getWrittenFrames in
  writeMissing (Z.to_nat (expectedFrames elapsedMs - written)) buffer.

(** [nextFrameTime = (writtenFrames + 1) * frameInterval; sleepMs =
    nextFrameTime - elapsedMs], each operation rounding to the nearest
    double. *)
Definition pacingDelay (written elapsedMs : Z) : Q :=
  let nextFrameTime := nearest_double (inject_Z (written + 1) * frameInterval) in
  nearest_double (nextFrameTime - inject_Z elapsedMs).

(** [captureAndWriteFrame] *)
Definition captureAndWriteFrame : M Buffer :=
  let* frame := captureFrame in
  writeFrame frame ;;
  countFrame ;;
  catchUpFrames frame ;;
  let* t := now in
  let elapsedMs := t - startedAt in
  let* written := getWrittenFrames in
  let sleepMs := pacingDelay written elapsedMs in
  (if Qltb 0 sleepMs then sleep sleepMs else ret tt) ;;
  ret frame.

(** [while (Date.now() < deadline) await captureAndWriteFrame()] *)
Fixpoint captureUntil (fuel : nat) (deadline : Q) : M unit :=
  match fuel with
  | O => out_of_fuel
  | S fuel' =>
      let* t := now in
      if Qltb (inject_Z t) deadline
      then captureAndWriteFrame ;; captureUntil fuel' deadline
      else ret tt
  end.

(** [captureForDuration] *)
Definition captureForDuration (fuel : nat) (durationMs : Q) : M unit :=
  if Qle_bool durationMs 0 then ret tt
  else
    let* t := now in
    captureUntil fuel (inject_Z t + durationMs).

Definition transitionTimeoutMs (timeout : Z) : Z :=
  Z.min 10000 (Z.max 2000 timeout).

(** The transition wait: [true] when the step key changed before the
    deadline. *)
Fixpoint transitionWait (fuel : nat) (transitionDeadline : Z)
    (previousStamp : string) : M bool :=
  match fuel with
  | O => out_of_fuel
  | S fuel' =>
      let* t := now in
      if t <? transitionDeadline then
        captureAndWriteFrame ;;
        let* current := getStepInfo in
        if negb (String.eqb (getStepKey current) previousStamp) then ret true
        else transitionWait fuel' transitionDeadline previousStamp
      else ret false
  end.

Definition canAdvanceInRange (step : StepInfo) (endSlideNo : Z) : bool :=
  (no step <? endSlideNo)
  || ((no step =? endSlideNo) && (clicks step <? clicksTotal step)).

(** The hold on the current step, at the head of the loop body:
    [await waitForStepSettled(); await captureForDuration(videoInterval *
    playbackSpeedup)]. *)
Definition dwell (fuel : nat) (plan : Mp4Plan) : M unit :=
  waitForStepSettled 10000 ;;
  captureForDuration fuel
    (inject_Z (plan_interval plan) * plan_playbackSpeedup plan).

(** The stretch of the loop body after [nextStep()] has advanced: the
    deadline, the transition wait, and the error when nothing changed. *)
Definition awaitTransition (fuel : nat) (previousStamp : string) (timeout : Z)
  : M unit :=
  let* t := now in
  let transitionDeadline := t + transitionTimeoutMs timeout in
  let* changed := transitionWait fuel transitionDeadline previousStamp in
  if negb changed then throw (advance_failed_message previousStamp)
  else ret tt.

(** The [while (true)] loop of [genPageMp4]; [rounds] bounds its
    iterations and [fuel] those of each capture loop inside. *)
Fixpoint mainLoop (fuel rounds : nat) (plan : Mp4Plan) (timeout : Z) : M unit :=
  match rounds with
  | O => out_of_fuel
  | S rounds' =>
      dwell fuel plan ;;
      let* step := getStepInfo in
      if negb (hasNext step) || negb (canAdvanceInRange step (plan_endSlideNo plan))
      then ret tt
      else
        let previousStamp := getStepKey step in
        let* advanced := nextStep in
        if negb advanced then throw next_step_failed_message
        else
          awaitTransition fuel previousStamp timeout ;;
          let* transitionBudget := getTransitionSettleBudget in
          captureForDuration fuel transitionBudget ;;
          mainLoop fuel rounds' plan timeout
  end.

(** A frame written outside [captureAndWriteFrame] (the initial and the
    last one): capture, write, count, catch up. *)
Definition captureStill : M unit :=
  let* frame := captureFrame in
  writeFrame frame ;;
  countFrame ;;
  catchUpFrames frame.

(** The body of the [try] block. *)
Definition recording (fuel : nat) (plan : Mp4Plan) (timeout : Z) : M unit :=
  captureStill ;;
  mainLoop fuel fuel plan timeout ;;
  captureStill ;;
  act (stdinEnd env) EvEnd ;;
  call (ffmpegDone env) (fun _ => EvEncoderDone).

(** The [try]/[catch] and the [if (captureError)] block after it. *)
Definition guardedRecording (fuel : nat) (plan : Mp4Plan) (timeout : Z) : M unit :=
  let* captureError :=
    try_catch (recording fuel plan timeout ;; ret None)
              (fun error => ret (Some error)) in
  match captureError with
  | Some error =>
      act (stdinEnd env) EvEnd ;;
      try_catch (call (ffmpegDone env) (fun _ => EvEncoderDone))
                (fun _ => ret tt) ;;
      throw error
  | None => ret tt
  end.

End Capture.

(** [genPageMp4], from the encoder probe on. *)
Definition recordMp4 (fuel : nat) (plan : Mp4Plan) (timeout : Z) : M unit :=
  waitForFfmpeg ;;
  goPlay (plan_startSlideNo plan) 0 ;;
  (if Qltb 1 (plan_motionScale plan)
   then call (installMotionScale env (plan_motionScale plan))
             (fun _ => EvMotionScale (plan_motionScale plan))
   else ret tt) ;;
  (let args := ffmpegArgs plan in act (spawnEncoder env args) (EvSpawn args)) ;;
  call (targetWaitFor env) (fun _ => EvTargetReady) ;;
  let* clip := call (evalClip env) EvClip in
  let* startedAt := now in
  guardedRecording (plan_fps plan) startedAt clip fuel plan timeout.

(** [genPageMp4] *)
Definition genPageMp4 (fuel : nat) (withClicks : bool) (videoFps videoInterval : num)
    (output : string) (videoMotionScale : option scale_arg) (timeout : Z)
    (pages : list Z) : M unit :=
  match mp4Preflight withClicks videoFps videoInterval output videoMotionScale pages with
  | Throw message => throw message
  | Ok plan => recordMp4 fuel plan timeout
  end.

(** [parseRangeString] of [@slidev/parser/core] expands a range expression
    over a deck of [total] slides. *)
Variable parseRangeString : Z -> option string -> list Z.

(** [exportSlides].  The parameter defaults are those of the source; the
    renderers of the other formats are calls into the environment. *)
Definition exportSlides (fuel : nat) (o : ExportOptions) : M unit :=
  let pages := parseRangeString (total o) (range o) in
  call (launchBrowser env) (fun _ => EvLaunch) ;;
  match from_option id pdf (format o) with
  | mp4 =>
      genPageMp4 fuel
        (from_option id false (withClicks o))
        (from_option id (of_Z 30) (videoFps o))
        (from_option id (of_Z 2000) (videoInterval o))
        (from_option id "slides" (output o))
        (Some (from_option id (ScaleNumber (of_Z 1)) (videoMotionScale o)))
        (from_option id 30000 (timeout o))
        pages
  | other => call (renderFormat env other) (fun _ => EvRendered other)
  end.

(** The step a page without bridge is taken to be on. *)
Definition blank_step : StepInfo :=
  {| no := 0; clicks := 0; clicksTotal := 0; hasNext := false |}.

Definition initial (w : W) : state :=
  {| world := w; log := []; writtenFrames := 0 |}.

(** ** Environments in which time passes

    [time] is the clock of a world.  [Date.now()] reads it, no call of the
    capture loop sets it back, and a screenshot takes at least one
    millisecond. *)
Record Ticking (time : W -> Z) : Prop := mkTicking {
  tick_now : forall w, fst (dateNow env w) = time w
                       /\ time w <= time (snd (dateNow env w));
  tick_screenshot : forall c w, time w + 1 <= time (snd (screenshot env c w));
  tick_write : forall b w, time w <= time (snd (stdinWrite env b w));
  tick_drain : forall w, time w <= time (snd (stdinDrain env w));
  tick_timer : forall ms w, time w <= time (setTimeout env ms w);
  tick_page : forall w, time w <= time (snd (pageWindow env w))
}.

(** [advances time k m]: [m] never sets the clock back, and moves it on by
    at least [k] milliseconds when it returns. *)
Definition advances {A : Type} (time : W -> Z) (k : Z) (m : M A) : Prop :=
  forall st o st', m st = (o, st') ->
    time (world st) <= time (world st')
    /\ (forall a, o = Ret a -> time (world st) + k <= time (world st')).

(** ** Reading a run off its log *)

(** [emits P m]: whatever [m] does, it only appends to the log, and only
    entries that satisfy [P]. *)
Definition emits {A : Type} (P : event -> Prop) (m : M A) : Prop :=
  forall st o st', m st = (o, st') ->
    exists d, log st' = log st ++ d /\ Forall P d.

(** [tame P m]: moreover, when [m] throws, the error is the one that the
    environment call logged last has thrown. *)
Definition tame {A : Type} (P : event -> Prop) (m : M A) : Prop :=
  forall st o st', m st = (o, st') ->
    exists d, log st' = log st ++ d /\ Forall P d
              /\ (forall message, o = Err message -> last d = Some (EvFail message)).

(** [orderly m]: in what [m] appends to the log, every frame written is
    the frame captured last before it within that stretch. *)
Definition orderly {A : Type} (m : M A) : Prop :=
  forall st o st', m st = (o, st') ->
    exists d, log st' = log st ++ d /\ forall cur, in_order cur d.

(** [fuel_free m]: [m] has no loop that can run out of fuel. *)
Definition fuel_free {A : Type} (m : M A) : Prop :=
  forall st st', m st <> (OutOfFuel, st').

(** [keeps_count m]: [m] leaves the frame counter alone. *)
Definition keeps_count {A : Type} (m : M A) : Prop :=
  forall st o st', m st = (o, st') -> writtenFrames st' = writtenFrames st.

End WithWorld.

Arguments launchBrowser {W} e.
Arguments dateNow {W} e.
Arguments ffmpegVersion {W} e.
Arguments pageGotoPlay {W} e.
Arguments cssTransitionDuration {W} e.
Arguments setTimeout {W} e.
Arguments waitForTransitions {W} e.
Arguments twoAnimationFrames {W} e.
Arguments installMotionScale {W} e.
Arguments spawnEncoder {W} e.
Arguments targetWaitFor {W} e.
Arguments evalClip {W} e.
Arguments screenshot {W} e.
Arguments stdinWrite {W} e.
Arguments stdinDrain {W} e.
Arguments stdinEnd {W} e.
Arguments ffmpegDone {W} e.
Arguments pageWindow {W} e.
Arguments callNextStep {W} e.
Arguments renderFormat {W} e.
Arguments Ticking {W} env time.
Arguments tick_now {W env time} t w.
Arguments tick_screenshot {W env time} t c w.
Arguments tick_write {W env time} t b w.
Arguments tick_drain {W env time} t w.
Arguments tick_timer {W env time} t ms w.
Arguments tick_page {W env time} t w.
Arguments advances {W A} time k m.
Arguments emits {W A} P m.
Arguments tame {W A} P m.
Arguments orderly {W A} m.
Arguments fuel_free {W A} m.
Arguments keeps_count {W A} m.
Arguments initial {W} w.
Arguments world {W} s.
Arguments log {W} s.
Arguments writtenFrames {W} s.
Arguments mkState {W} world log writtenFrames.
Arguments ret {W A} a.
Arguments bind {W A B} m k.
Arguments throw {W A} message.
Arguments out_of_fuel {W A}.
Arguments try_catch {W A} m handler.
Arguments call {W A} op ev.
Arguments call_total {W A} op ev.
Arguments act {W} op e.
Arguments now {W}.
Arguments sleep {W}.
Arguments getTransitionSettleBudget {W}.
Arguments waitForStepSettled {W}.
Arguments goPlay {W}.
Arguments waitForFfmpeg {W}.
Arguments getStepInfo {W}.
Arguments nextStep {W}.
Arguments captureFrame {W}.
Arguments writeFrame {W}.
Arguments writeMissing {W}.
Arguments catchUpFrames {W}.
Arguments captureAndWriteFrame {W}.
Arguments captureUntil {W}.
Arguments captureForDuration {W}.
Arguments transitionWait {W}.
Arguments dwell {W}.
Arguments awaitTransition {W}.
Arguments mainLoop {W}.
Arguments captureStill {W}.
Arguments recording {W}.
Arguments guardedRecording {W}.
Arguments recordMp4 {W}.
Arguments genPageMp4 {W}.
Arguments exportSlides {W}.
Arguments getWrittenFrames {W}.
Arguments countFrame {W}.
Arguments record {W}.

End Recorder.

(** * A simulated environment

    A deterministic world to run the recorder on: a clock that advances
    with every screenshot and every timer, a page that holds a current step
    and steps through a fixed list, and an encoder that accepts every
    frame. *)

Module Sim.
Import JS Bridge Options Recorder.

Record Config : Type := mkConfig {
  shot_ms : Z;                        (* what a screenshot costs *)
  css : string;                       (* --slidev-transition-duration *)
  ffmpeg_installed : bool;
  encoder_exit : result unit;         (* how the encoder process ends *)
  target_attached : result unit;      (* target.waitFor() *)
  expose : StepInfo -> Window;        (* what the page puts on window *)
  advance_ms : Z;                     (* the time from nextStep() to the new step *)
  script : list StepInfo              (* the steps after the first one *)
}.

Record World : Type := mkWorld {
  clock : Z;
  current : StepInfo;                 (* the step on screen *)
  pending : option (Z * StepInfo);    (* a step that shows from a given time on *)
  upcoming : list StepInfo
}.

(** The step on screen at the present time. *)
Definition settle (w : World) : World :=
  match pending w with
  | Some (at_ms, step) =>
      if at_ms <=? clock w
      then {| clock := clock w; current := step; pending := None;
              upcoming := upcoming w |}
      else w
  | None => w
  end.

Definition elapse (ms : Z) (w : World) : World :=
  settle {| clock := clock w + ms; current := current w; pending := pending w;
            upcoming := upcoming w |}.

Definition frame_of (step : StepInfo) : Buffer :=
  match Byte.of_N (Z.to_N (no step mod 256)), Byte.of_N (Z.to_N (clicks step mod 256)) with
  | Some a, Some b => [a; b]
  | _, _ => []
  end.

Definition press_next (cfg : Config) (w : World) : World :=
  match upcoming w with
  | step :: rest =>
      settle {| clock := clock w; current := current w;
                pending := Some (clock w + advance_ms cfg, step);
                upcoming := rest |}
  | [] => w
  end.

Definition simEnv (cfg : Config) : Env World :=
  {| launchBrowser := fun w => (Ok tt, w);
     dateNow := fun w => (clock w, w);
     ffmpegVersion := fun w => (ffmpeg_installed cfg, w);
     pageGotoPlay := fun _ _ w => (Ok tt, elapse 1 w);
     cssTransitionDuration := fun w => (Ok (css cfg), w);
     setTimeout := fun ms w => elapse (Z.max 0 (Qceiling ms)) w;
     waitForTransitions := fun _ w => w;
     twoAnimationFrames := fun w => (Ok tt, elapse 1 w);
     installMotionScale := fun _ w => (Ok tt, w);
     spawnEncoder := fun _ w => w;
     targetWaitFor := fun w => (target_attached cfg, w);
     evalClip := fun w => (Ok None, w);
     screenshot := fun _ w => (Ok (frame_of (current w)), elapse (shot_ms cfg) w);
     stdinWrite := fun _ w => (true, w);
     stdinDrain := fun w => (Ok tt, w);
     stdinEnd := fun w => w;
     ffmpegDone := fun w => (encoder_exit cfg, w);
     pageWindow := fun w => (Ok (expose cfg (current w)), w);
     callNextStep := fun _ w => (Ok tt, press_next cfg w);
     renderFormat := fun _ w => (Ok tt, w) |}.

(** A page with the export bridge. *)
Definition with_bridge (step : StepInfo) : Window :=
  {| slidev_export := Some {| bridge_getStepInfo := Some step;
                              bridge_nextStep := true |};
     slidev := None |}.

(** A page with neither bridge. *)
Definition bare_page (step : StepInfo) : Window :=
  {| slidev_export := None; slidev := None |}.

Definition start_world (first : StepInfo) (rest : list StepInfo) : World :=
  {| clock := 1000; current := first; pending := None; upcoming := rest |}.

(** A two-slide deck without clicks, recorded at 40 ms per screenshot. *)
Definition two_slides : Config :=
  {| shot_ms := 40; css := "100ms"; ffmpeg_installed := true;
     encoder_exit := Ok tt; target_attached := Ok tt; expose := with_bridge;
     advance_ms := 50;
     script := [mkStepInfo 2 0 0 false] |}.

Definition two_slides_start : World :=
  start_world (mkStepInfo 1 0 0 true) (script two_slides).

(** The same deck with an encoder that exits with an error once its input
    is closed. *)
Definition failing_encoder : Config :=
  {| shot_ms := 40; css := "100ms"; ffmpeg_installed := true;
     encoder_exit := Throw "[slidev] ffmpeg exited with code 1";
     target_attached := Ok tt; expose := with_bridge;
     advance_ms := 50;
     script := [mkStepInfo 2 0 0 false] |}.

(** The same deck on a page where [#slide-content] never shows. *)
Definition detached_target : Config :=
  {| shot_ms := 40; css := "100ms"; ffmpeg_installed := true;
     encoder_exit := Ok tt;
     target_attached := Throw "locator.waitFor: Timeout 30000ms exceeded.";
     expose := with_bridge;
     advance_ms := 50;
     script := [mkStepInfo 2 0 0 false] |}.

(** The same deck on a page that shows neither bridge. *)
Definition bare_deck : Config :=
  {| shot_ms := 40; css := "100ms"; ffmpeg_installed := true;
     encoder_exit := Ok tt; target_attached := Ok tt; expose := bare_page;
     advance_ms := 50;
     script := [mkStepInfo 2 0 0 false] |}.

(** The plan of an export of slides 1 to 2 at 30 frames per second and
    200 ms per step. *)
Definition deck_plan : Mp4Plan :=
  {| plan_fps := 30; plan_interval := 200; plan_output := "out.mp4";
     plan_motionScale := 1; plan_playbackSpeedup := 1;
     plan_startSlideNo := 1; plan_endSlideNo := 2 |}.

(** The run of [genPageMp4] on the two-slide deck of [cfg], at 30 frames
    per second and 200 ms per step. *)
Definition record_deck (cfg : Config) : outcome unit * state World :=
  genPageMp4 (simEnv cfg) 1000 true (of_Z 30) (of_Z 200) "out" None 30000
             [1; 2] (initial two_slides_start).

(** [parseRangeString] for the decks used in the examples: the whole deck
    when no range is given. *)
Definition whole_deck (total : Z) (range : option string) : list Z :=
  map (fun i => Z.of_nat i + 1) (seq 0 (Z.to_nat total)).

End Sim.

(** * The export job service (export API plugin) *)

Module JobService.
Import Sanitize JS Options Recorder.

Inductive JobStatus : Type := running | done | error.

(** [VideoExportJob] *)
Record VideoExportJob : Type := mkJob {
  status : JobStatus;
  file : option string;
  error_message : option string;       (* the field [error] *)
  startedAt : Z;
  completedAt : option Z;
  durationMs : option Z
}.

Definition VIDEO_EXPORT_JOB_TTL_MS : Z := 10 * 60 * 1000.

Definition truthy (s : option string) : bool :=
  match s with
  | Some t => negb (String.eqb t "")
  | None => false
  end.

Definition or_else (s : option string) (d : string) : string :=
  if truthy s then from_option id d s else d.

Definition status_eqb (a b : JobStatus) : bool :=
  match a, b with
  | running, running | done, done | error, error => true
  | _, _ => false
  end.

Fixpoint drop_slashes (l : list ascii) : list ascii :=
  match l with
  | c :: r => if Ascii.eqb c "/"%char then drop_slashes r else l
  | [] => []
  end.

(** [path.basename(p)] of [node:path] on POSIX: what follows the last
    slash, trailing slashes apart. *)
Definition basename (path : string) : string :=
  let fix go (acc l : list ascii) : list ascii :=
    match l with
    | [] => acc
    | c :: r => if Ascii.eqb c "/"%char then go [] r else go (acc ++ [c]) r
    end in
  string_of_list_ascii
    (go [] (reverse (drop_slashes (reverse (list_ascii_of_string path))))).

(** [path.basename(p, ext)]: the suffix [ext] is taken off the base name,
    unless it is the whole base name; a path that is [ext] itself gives
    the empty string. *)
Definition basename_without (path ext : string) : string :=
  if String.eqb path ext then ""
  else
    let b := basename path in
    if endsWith b ext && negb (String.eqb b ext)
    then slice_drop_end (String.length ext) b
    else b.

(** [path.resolve(root, name)] for a file name under the absolute path
    [root]. *)
Definition path_resolve (root name : string) : string := root +:+ "/" +:+ name.

(** The object that [resolveJobResponse] returns. *)
Record JobResponse : Type := mkJobResponse {
  r_jobId : option string;
  r_status : JobStatus;
  r_file : option string;
  r_error : option string;
  r_startedAt : Z;
  r_completedAt : option Z;
  r_durationMs : Z;
  r_filename : option string;
  r_downloadUrl : option string
}.

Definition download_url (jobId : string) : string :=
  "/__slidev/export/video/" +:+ jobId +:+ "/download".

(** [resolveJobResponse(job, jobId)], [now] being [Date.now()]. *)
Definition resolveJobResponse (now : Z) (job : VideoExportJob)
    (jobId : option string) : JobResponse :=
  let resolvedDurationMs :=
    if status_eqb (status job) running
    then Z.max 0 (now - startedAt job)
    else from_option id
           (Z.max 0 (from_option id now (completedAt job) - startedAt job))
           (durationMs job) in
  {| r_jobId := if truthy jobId then jobId else None;
     r_status := status job;
     r_file := file job;
     r_error := error_message job;
     r_startedAt := startedAt job;
     r_completedAt := completedAt job;
     r_durationMs := resolvedDurationMs;
     r_filename := if truthy (file job) then basename <$> file job else None;
     r_downloadUrl :=
       if truthy jobId && status_eqb (status job) done
       then download_url <$> jobId
       else None |}.

(** The test of [cleanupJobs] for keeping a job. *)
Definition keep_job (now : Z) (job : VideoExportJob) : bool :=
  status_eqb (status job) running
  || negb (VIDEO_EXPORT_JOB_TTL_MS
           <? now - from_option id (startedAt job) (completedAt job)).

(** [cleanupJobs] *)
Definition cleanupJobs (now : Z) (jobs : gmap string VideoExportJob)
  : gmap string VideoExportJob :=
  filter (fun kv => keep_job now kv.2 = true) jobs.

(** The part of [options.data.config.export] that [getExportOptions]
    reads for an MP4 export. *)
Record ExportConfig : Type := mkExportConfig {
  cfg_format : option Format;
  cfg_output : option string;
  cfg_timeout : option Z;
  cfg_range : option string;
  cfg_withClicks : option bool;
  cfg_videoInterval : option num;
  cfg_videoFps : option num;
  cfg_videoSize : option string;
  cfg_videoMotionScale : option scale_arg
}.

(** [ResolvedSlidevOptions], as far as the service reads it. *)
Record ServerOptions : Type := mkServerOptions {
  entry : string;
  userRoot : string;
  exportFilename : option string;      (* options.data.config.exportFilename *)
  config_export : ExportConfig;        (* options.data.config.export *)
  slides_length : Z                    (* options.data.slides.length *)
}.

(** [ExportArgs]: the command-line names. *)
Record ExportArgs : Type := mkExportArgs {
  arg_entry : string;
  arg_format : option Format;
  arg_output : option string;
  arg_timeout : option Z;
  arg_range : option string;
  arg_dark : option bool;
  arg_with_clicks : option bool;
  arg_video_interval : option num;
  arg_video_fps : option num;
  arg_video_size : option string;
  arg_video_motion_scale : option scale_arg
}.

(** [a ?? b] on optional values. *)
Definition orElse {A : Type} (a b : option A) : option A :=
  match a with Some _ => a | None => b end.

(** [getExportOptions(args, options, outFilename)]: the merged
    configuration is [{ ...options.data.config.export, ...args,
    ...clearUndefined({...}) }]; a field of [args] that is [None] is a key
    that [args] does not have. *)
Definition getExportOptions (args : ExportArgs) (options : ServerOptions)
    (outFilename : option string) : result ExportOptions :=
  let cfg := config_export options in
  let output := orElse (arg_output args) (cfg_output cfg) in
  let format := orElse (arg_format args) (cfg_format cfg) in
  let timeout := orElse (arg_timeout args) (cfg_timeout cfg) in
  let range := orElse (arg_range args) (cfg_range cfg) in
  let withClicks := orElse (arg_with_clicks args) (cfg_withClicks cfg) in
  let videoInterval := orElse (arg_video_interval args) (cfg_videoInterval cfg) in
  let videoFps := orElse (arg_video_fps args) (cfg_videoFps cfg) in
  let videoSize := orElse (arg_video_size args) (cfg_videoSize cfg) in
  let videoMotionScale :=
    orElse (arg_video_motion_scale args) (cfg_videoMotionScale cfg) in
  match parseVideoSize videoSize with
  | Throw message => Throw message
  | Ok parsedVideoSize =>
      let outFilename :=
        or_else output
          (or_else outFilename
             (or_else (exportFilename options)
                (basename_without (arg_entry args) ".md" +:+ "-export"))) in
      Ok {| Options.output := Some outFilename;
            total := slides_length options;
            range := range;
            format := Some (from_option id pdf format);
            timeout := Some (from_option id 30000 timeout);
            withClicks :=
              Some (from_option id
                      (match format with
                       | Some pptx | Some mp4 => true
                       | _ => false
                       end) withClicks);
            videoInterval := Some (from_option id (of_Z 2000) videoInterval);
            videoFps := Some (from_option id (of_Z 30) videoFps);
            videoWidth := Some (from_option id 1920 (fst <$> parsedVideoSize));
            videoHeight := Some (from_option id 1080 (snd <$> parsedVideoSize));
            videoMotionScale :=
              Some (from_option id (ScaleNumber (of_Z 1)) videoMotionScale) |}
  end.

(** A JSON value, as far as the handler looks into it. *)
Inductive json : Type :=
| JNull
| JBool (b : bool)
| JNumber (n : num)
| JString (s : string)
| JCompound.                            (* an object or an array *)

(** The fields that the handler reads off the body of a
    [POST /export/video]; [None] is a missing field. *)
Record Payload : Type := mkPayload {
  p_videoInterval : option json;
  p_videoFps : option json;
  p_videoSize : option json;
  p_range : option json;
  p_dark : option json
}.

Definition empty_payload : Payload :=
  {| p_videoInterval := None; p_videoFps := None; p_videoSize := None;
     p_range := None; p_dark := None |}.

Definition json_truthy (v : option json) : bool :=
  match v with
  | Some (JBool b) => b
  | Some (JNumber n) => truthy_num n
  | Some (JString s) => negb (String.eqb s "")
  | Some JCompound => true
  | Some JNull | None => false
  end.

(** [typeof v === 'string'] *)
Definition as_string (v : option json) : option string :=
  match v with Some (JString s) => Some s | _ => None end.

(** [typeof v === 'boolean'] *)
Definition as_boolean (v : option json) : option bool :=
  match v with Some (JBool b) => Some b | _ => None end.

(** The message of the [TypeError] for calling a method that a value does
    not have. *)
Definition not_a_function (callee : string) : string :=
  callee +:+ " is not a function".

(** [Math.round] of a finite number. *)
Definition round (n : num) : Z :=
  match n with Fin q => Qfloor (q + (1 # 2)) | _ => 0 end.

(** [Number.isFinite(v)], with the number when it holds. *)
Definition finite (v : option json) : option num :=
  match v with
  | Some (JNumber x) => if isFinite x then Some x else None
  | _ => None
  end.

Definition getDefaultOutputBase (options : ServerOptions) : string :=
  let base := or_else (exportFilename options)
                (basename_without (entry options) ".md" +:+ "-export") in
  or_else (Some (sanitizePart base)) "slidev-export".

(** [payload.range?.trim() || 'all']: a range that is neither missing
    nor a string has no [trim]. *)
Definition rangeOrAll (range : option json) : result string :=
  match range with
  | None | Some JNull => Ok "all"
  | Some (JString r) => Ok (or_else (Some (str_trim r)) "all")
  | Some _ => Throw (not_a_function "payload.range?.trim")
  end.

(** [payload.videoSize || '1920x1080'], handed to [sanitizePart], which
    calls [trim] on it. *)
Definition sizeOrDefault (videoSize : option json) : result string :=
  if json_truthy videoSize then
    match videoSize with
    | Some (JString v) => Ok v
    | _ => Throw (not_a_function "value.trim")
    end
  else Ok "1920x1080".

(** [buildOutputFilename(payload, jobId)]; [timestamp] is
    [formatTimestamp()]. *)
Definition buildOutputFilename (options : ServerOptions) (payload : Payload)
    (jobId timestamp : string) : result string :=
  let outputBase := getDefaultOutputBase options in
  match rangeOrAll (p_range payload) with
  | Throw message => Throw message
  | Ok range =>
      let rangePart := sanitizePart range in
      let fpsPart :=
        match finite (p_videoFps payload) with
        | Some fps => String_of_Z (round fps) +:+ "fps"
        | None => "30fps"
        end in
      match sizeOrDefault (p_videoSize payload) with
      | Throw message => Throw message
      | Ok size =>
          let sizePart := or_else (Some (sanitizePart size)) "1920x1080" in
          let shortJobId :=
            string_of_list_ascii (take 8 (list_ascii_of_string jobId)) in
          Ok (outputBase +:+ "-" +:+ rangePart +:+ "-" +:+ fpsPart +:+ "-"
              +:+ sizePart +:+ "-" +:+ timestamp +:+ "-" +:+ shortJobId
              +:+ ".mp4")
      end
  end.

(** The [args] that the handler builds from the payload. *)
Definition buildExportArgs (options : ServerOptions) (payload : Payload)
    (output : string) : ExportArgs :=
  {| arg_entry := entry options;
     arg_format := Some mp4;
     arg_output := Some output;
     arg_timeout := None;
     arg_range :=
       match as_string (p_range payload) with
       | Some r => if String.eqb (str_trim r) "" then None else Some (str_trim r)
       | None => None
       end;
     arg_dark := as_boolean (p_dark payload);
     arg_with_clicks := None;
     arg_video_interval := finite (p_videoInterval payload);
     arg_video_fps := finite (p_videoFps payload);
     arg_video_size := as_string (p_videoSize payload);
     arg_video_motion_scale := None |}.

(** The longest prefix without a slash, and the rest. *)
Fixpoint up_to_slash (l : list ascii) : list ascii * list ascii :=
  match l with
  | [] => ([], [])
  | c :: r =>
      if Ascii.eqb c "/"%char then ([], l)
      else let '(a, b) := up_to_slash r in (c :: a, b)
  end.

(** The match of
    [/^\/__slidev\/export\/video(?:\/([^/]+)(?:\/(download))?)?$/]:
    the job id and the action. *)
Definition matchVideoUrl (url : string) : option (option string * option string) :=
  let prefix := list_ascii_of_string "/__slidev/export/video" in
  let l := list_ascii_of_string url in
  if starts_with prefix l then
    match drop (length prefix) l with
    | [] => Some (None, None)
    | c :: rest =>
        if Ascii.eqb c "/"%char then
          let '(jobId, tail) := up_to_slash rest in
          match jobId with
          | [] => None
          | _ =>
              if String.eqb (string_of_list_ascii tail) "" then
                Some (Some (string_of_list_ascii jobId), None)
              else if String.eqb (string_of_list_ascii tail) "/download" then
                Some (Some (string_of_list_ascii jobId), Some "download")
              else None
          end
        else None
    end
  else None.

Inductive Body : Type :=
| BodyJobs (jobs : list JobResponse)
| BodyJobId (jobId : string)
| BodyError (message : string)
| BodyJob (job : JobResponse)
| BodyStream (file : string).           (* createReadStream(file).pipe(res) *)

Record Response : Type := mkResponse {
  statusCode : Z;
  contentType : string;
  contentDisposition : option string;
  body : Body
}.

Definition json_response (code : Z) (b : Body) : Response :=
  {| statusCode := code; contentType := "application/json";
     contentDisposition := None; body := b |}.

(** What the handler hands to the background task. *)
Record Task : Type := mkTask {
  task_id : string;
  task_output : string;
  task_startedAt : Z;
  task_args : ExportArgs
}.

(** [payload] is the outcome of [getBodyJson(req)]: a rejection, or the
    fields of the parsed body, [None] when it is not an object. *)
Record Request : Type := mkRequest {
  method : string;
  url : option string;
  payload : result (option Payload)
}.

(** What a request reads from its surroundings: the clock, a fresh UUID,
    the formatted local time and the port of the dev server. *)
Record Ambient : Type := mkAmbient {
  amb_now : Z;
  amb_uuid : string;
  amb_timestamp : string;
  amb_port : option Z
}.

(** Insertion of a descriptor into a list sorted by [startedAt],
    descending, in front of those that started at the same time. *)
Fixpoint insert_job (r : JobResponse) (l : list JobResponse) : list JobResponse :=
  match l with
  | [] => [r]
  | x :: rest =>
      if r_startedAt x <=? r_startedAt r then r :: l else x :: insert_job r rest
  end.

(** [listJobs]: the descriptors, sorted (stably) by [startedAt],
    descending. *)
Definition listJobs (now : Z) (jobs : gmap string VideoExportJob) : list JobResponse :=
  foldr insert_job []
        ((fun kv => resolveJobResponse now kv.2 (Some kv.1)) <$> map_to_list jobs).

(** The [POST] branch. *)
Definition no_port_message : string :=
  "Unable to resolve dev server port for exporting".

(** What the [try] block of the [POST] branch does before it answers:
    the task it starts, or the error it throws. *)
Definition prepareExport (options : ServerOptions) (amb : Ambient)
    (payload : result (option Payload)) : result Task :=
  match payload with
  | Throw message => Throw message
  | Ok rawPayload =>
      let payload := from_option id empty_payload rawPayload in
      match amb_port amb with
      | None => Throw no_port_message
      | Some port =>
          if port =? 0 then Throw no_port_message
          else
            let id := amb_uuid amb in
            match buildOutputFilename options payload id (amb_timestamp amb) with
            | Throw message => Throw message
            | Ok filename =>
                let output := path_resolve (userRoot options) filename in
                Ok {| task_id := id; task_output := output;
                      task_startedAt := amb_now amb;
                      task_args := buildExportArgs options payload output |}
            end
      end
  end.

Definition running_job (task : Task) : VideoExportJob :=
  {| status := running; file := Some (task_output task);
     error_message := None; startedAt := task_startedAt task;
     completedAt := None; durationMs := None |}.

(** The [POST] branch. *)
Definition postVideo (options : ServerOptions) (amb : Ambient)
    (payload : result (option Payload)) (jobs : gmap string VideoExportJob)
  : gmap string VideoExportJob * Response * option Task :=
  match prepareExport options amb payload with
  | Throw message => (jobs, json_response 400 (BodyError message), None)
  | Ok task =>
      (<[task_id task := running_job task]> jobs,
       json_response 200 (BodyJobId (task_id task)),
       Some task)
  end.

(** The [GET /export/video/<id>/download] branch. *)
Definition downloadVideo (jobs : gmap string VideoExportJob) (jobId : string)
  : Response :=
  match jobs !! jobId with
  | Some job =>
      if status_eqb (status job) done && truthy (file job) then
        let f := from_option id "" (file job) in
        {| statusCode := 200; contentType := "video/mp4";
           contentDisposition :=
             Some ("attachment; filename=" +:+ quote +:+ basename f +:+ quote);
           body := BodyStream f |}
      else json_response 404 (BodyError "Export file not ready")
  | None => json_response 404 (BodyError "Export file not ready")
  end.

(** The [GET /export/video/<id>] branch. *)
Definition statusVideo (now : Z) (jobs : gmap string VideoExportJob)
    (jobId : string) : Response :=
  match jobs !! jobId with
  | Some job => json_response 200 (BodyJob (resolveJobResponse now job (Some jobId)))
  | None => json_response 404 (BodyError "Export job not found")
  end.

(** The middleware: the registry after the request, the response ([None]
    when the request is passed on with [next()]) and the background task
    it started. *)
Definition handle (options : ServerOptions) (amb : Ambient) (req : Request)
    (jobs : gmap string VideoExportJob)
  : gmap string VideoExportJob * option Response * option Task :=
  let jobs := cleanupJobs (amb_now amb) jobs in
  match url req ≫= matchVideoUrl with
  | None => (jobs, None, None)
  | Some (jobId, action) =>
      let is_download := bool_decide (action = Some "download") in
      if String.eqb (method req) "GET" && bool_decide (jobId = Some "jobs")
         && negb is_download
      then (jobs, Some (json_response 200 (BodyJobs (listJobs (amb_now amb) jobs))), None)
      else if String.eqb (method req) "POST" && negb (truthy jobId)
      then let '(jobs', response, task) := postVideo options amb (payload req) jobs in
           (jobs', Some response, task)
      else if String.eqb (method req) "GET" && truthy jobId && negb is_download
      then (jobs, Some (statusVideo (amb_now amb) jobs (from_option id "" jobId)), None)
      else if String.eqb (method req) "GET" && truthy jobId && is_download
      then (jobs, Some (downloadVideo jobs (from_option id "" jobId)), None)
      else (jobs, None, None)
  end.

(** The two [videoExportJobs.set] of the background task; a task that has
    not ended leaves the registry as it is. *)
Definition settled_job (task : Task) (completedAt : Z) (status : JobStatus)
    (message : option string) : VideoExportJob :=
  {| status := status; file := Some (task_output task);
     error_message := message; startedAt := task_startedAt task;
     completedAt := Some completedAt;
     durationMs := Some (Z.max 0 (completedAt - task_startedAt task)) |}.

Definition settleJob (task : Task) (completedAt : Z) (o : outcome unit)
    (jobs : gmap string VideoExportJob) : gmap string VideoExportJob :=
  match o with
  | Ret _ => <[task_id task := settled_job task completedAt done None]> jobs
  | Err message =>
      <[task_id task := settled_job task completedAt error (Some message)]> jobs
  | OutOfFuel => jobs
  end.

(** The background task: [exportSlides({ port, base, ...getExportOptions(args,
    options) })]. *)
Definition backgroundExport {W : Type} (env : Env W)
    (parseRangeString : Z -> option string -> list Z) (fuel : nat)
    (options : ServerOptions) (task : Task) : M W unit :=
  match getExportOptions (task_args task) options None with
  | Throw message => throw message
  | Ok exportOptions => exportSlides env parseRangeString fuel exportOptions
  end.

(** The service as a transition system: the registry and the background
    tasks that have not ended yet. *)
Record Service : Type := mkService {
  jobs : gmap string VideoExportJob;
  tasks : list Task
}.

Definition start : Service := {| jobs := ∅; tasks := [] |}.

(** A step of the service: a request comes in ([randomUUID()] gives an
    identifier of 36 characters), or a background task ends, with the
    outcome of its export run in some environment. *)
Definition after_request (options : ServerOptions) (amb : Ambient)
    (req : Request) (s : Service) : Service :=
  {| jobs := (handle options amb req (jobs s)).1.1;
     tasks := tasks s ++ option_list (handle options amb req (jobs s)).2 |}.

Inductive service_step (options : ServerOptions) : Service -> Service -> Prop :=
| step_request amb req s :
    String.length (amb_uuid amb) = 36%nat ->
    service_step options s (after_request options amb req s)
| step_settle {W : Type} (env : Env W) parseRangeString fuel st
    task completedAt o before after s :
    tasks s = before ++ task :: after ->
    fst (backgroundExport env parseRangeString fuel options task st) = o ->
    o <> OutOfFuel ->
    service_step options s
      {| jobs := settleJob task completedAt o (jobs s);
         tasks := before ++ after |}.

Definition reachable (options : ServerOptions) (s : Service) : Prop :=
  rtc (service_step options) start s.

(** Every registered job carries its identifier and its file, and so
    does every pending task. *)
Definition files_set (s : Service) : Prop :=
  (forall id job, jobs s !! id = Some job ->
     truthy (Some id) = true /\ truthy (file job) = true)
  /\ Forall (fun task => truthy (Some (task_id task)) = true
                         /\ truthy (Some (task_output task)) = true) (tasks s).



(** The descriptors a response carries. *)
Definition descriptors (response : option Response) : list JobResponse :=
  match body <$> response with
  | Some (BodyJob r) => [r]
  | Some (BodyJobs l) => l
  | _ => []
  end.

(** ** A deck of two slides, served from [/deck] *)

Definition no_config : ExportConfig :=
  {| cfg_format := None; cfg_output := None; cfg_timeout := None;
     cfg_range := None; cfg_withClicks := None; cfg_videoInterval := None;
     cfg_videoFps := None; cfg_videoSize := None; cfg_videoMotionScale := None |}.

Definition demo_options : ServerOptions :=
  {| entry := "/deck/slides.md"; userRoot := "/deck"; exportFilename := None;
     config_export := no_config; slides_length := 2 |}.

Definition demo_ambient (now : Z) : Ambient :=
  {| amb_now := now; amb_uuid := "123e4567-e89b-12d3-a456-426614174000";
     amb_timestamp := "20260101-120000"; amb_port := Some 3030 |}.

Definition post_request (p : Payload) : Request :=
  {| method := "POST"; url := Some "/__slidev/export/video";
     payload := Ok (Some p) |}.

Definition download_request (id : string) : Request :=
  {| method := "GET";
     url := Some ("/__slidev/export/video/" +:+ id +:+ "/download");
     payload := Ok None |}.


(** The task of a request without options. *)
Definition demo_task : Task :=
  let output :=
    "/deck/slides-export-all-30fps-1920x1080-20260101-120000-123e4567.mp4" in
  {| task_id := amb_uuid (demo_ambient 1000); task_output := output;
     task_startedAt := 1000;
     task_args := buildExportArgs demo_options empty_payload output |}.

(** The service after that request, and after its export has ended well. *)
Definition demo_posted : Service :=
  after_request demo_options (demo_ambient 1000) (post_request empty_payload) start.

Definition demo_done : Service :=
  {| jobs := settleJob demo_task 5000 (Ret tt) (jobs demo_posted);
     tasks := [] ++ [] |}.

End JobService.

(** * Further readings of the recorder's log *)

Module LogShapes.
Import JS Bridge Options Recorder.

(** The slide on which a recording of [pages] ends: [pages[pages.length -
    1] ?? (pages[0] ?? 1)]. *)
Definition endSlideOf (pages : list Z) : Z :=
  from_option id (from_option id 1 (head pages)) (last pages).

(** [advances_guarded endSlideNo prev l]: every call of [nextStep] in [l]
    directly follows a reading of a step that has a next step and lies
    inside the range; [prev] is the entry before [l]. *)
Fixpoint advances_guarded (endSlideNo : Z) (prev : option event) (l : list event)
  : Prop :=
  match l with
  | [] => True
  | e :: r =>
      match e with
      | EvNextStep _ =>
          match prev with
          | Some (EvStepInfo step) =>
              hasNext step = true /\ canAdvanceInRange step endSlideNo = true
          | _ => False
          end
      | _ => True
      end
      /\ advances_guarded endSlideNo (Some e) r
  end.

(** The entry before what follows [l]. *)
Definition last_event (prev : option event) (l : list event) : option event :=
  match last l with
  | Some e => Some e
  | None => prev
  end.

Definition is_next (e : event) : bool :=
  match e with EvNextStep _ => true | _ => false end.

Section Shapes.

Context {W : Type}.

(** [guards endSlideNo m]: in what [m] appends to the log, every call of
    [nextStep] is guarded, whatever came before. *)
Definition guards {A : Type} (endSlideNo : Z) (m : M W A) : Prop :=
  forall st o st', m st = (o, st') ->
    exists d, log st' = log st ++ d
              /\ forall prev, advances_guarded endSlideNo prev d.

(** [closes_last m]: what [m] appends to the log is a stretch in which
    the encoder's input is not closed, followed by a stretch in which no
    frame is captured or written. *)
Definition closes_last {A : Type} (m : M W A) : Prop :=
  forall st o st', m st = (o, st') ->
    exists a b, log st' = log st ++ a ++ b
                /\ Forall (fun e => is_end e = false) a
                /\ Forall neutral_event b.

(** [drifts k m]: when [m] returns, the frame counter has grown by the
    number of frames that [m] has written, plus [k]. *)
Definition drifts {A : Type} (k : Z) (m : M W A) : Prop :=
  forall st a st', m st = (Ret a, st') ->
    exists d, log st' = log st ++ d
              /\ writtenFrames st'
                 = writtenFrames st + Z.of_nat (length (writes d)) + k.

(** [caught_up videoFps startedAt frame w d w']: [d] is what a frame
    leaves in the log up to the end of its catch-up, the frame counter
    going from [w] to [w']: the screenshot [frame], its write, the clock
    reading [t1] of [catchUpFrames], and the copies of it that bring the
    counter up to [expectedFrames]. *)
Definition caught_up (videoFps startedAt : Z) (frame : Buffer) (w : Z)
    (d : list event) (w' : Z) : Prop :=
  exists t1 first copies,
    let expected := Z.max 1 ((t1 - startedAt) * videoFps / 1000) in
    d = [EvCapture frame] ++ first ++ [EvNow t1] ++ copies
    /\ writes_only frame first /\ writes first = [frame]
    /\ writes_only frame copies
    /\ writes copies = repeat frame (Z.to_nat (expected - (w + 1)))
    /\ w' = Z.max (w + 1) expected.

(** [pace videoFps startedAt w t2 p]: [p] is the pacing after a frame
    that left the counter at [w]: the clock reading [t2] and, when the
    delay computed from it in doubles is positive, a timer of that
    delay. *)
Definition pace (videoFps startedAt w t2 : Z) (p : list event) : Prop :=
  let frameInterval := nearest_double (1000 / inject_Z videoFps) in
  let nextFrameTime := nearest_double (inject_Z (w + 1) * frameInterval) in
  let sleepMs := nearest_double (nextFrameTime - inject_Z (t2 - startedAt)) in
  p = [EvNow t2] ++ (if Qltb 0 sleepMs then [EvSleep sleepMs] else []).

(** [paced videoFps startedAt w d w']: in the stretch [d] of the log,
    over which the frame counter goes from [w] to [w'], every screenshot
    is caught up and then paced, and every write is one of those of a
    catch-up. *)
Inductive paced (videoFps startedAt : Z) : Z -> list event -> Z -> Prop :=
| paced_nil w : paced videoFps startedAt w [] w
| paced_neutral w e d w' :
    neutral_event e ->
    paced videoFps startedAt w d w' ->
    paced videoFps startedAt w (e :: d) w'
| paced_frame w frame c w1 t2 p d w' :
    caught_up videoFps startedAt frame w c w1 ->
    pace videoFps startedAt w1 t2 p ->
    paced videoFps startedAt w1 d w' ->
    paced videoFps startedAt w (c ++ p ++ d) w'.

(** [paces videoFps startedAt m]: what [m] appends to the log when it
    returns is paced. *)
Definition paces {A : Type} (videoFps startedAt : Z) (m : M W A) : Prop :=
  forall st a st', m st = (Ret a, st') ->
    exists d, log st' = log st ++ d
              /\ paced videoFps startedAt (writtenFrames st) d (writtenFrames st').

(** [holding deadline step l]: [l] is a sequence of rounds of the
    transition wait in which the page still shows [step]: each round
    reads the clock before the deadline, captures a frame, and reads a
    step with the slide number and the click count of [step]. *)
Inductive holding (deadline : Z) (step : StepInfo) : list event -> Prop :=
| holding_done : holding deadline step []
| holding_round t c current rest :
    t < deadline ->
    capture_round c ->
    no current = no step ->
    clicks current = clicks step ->
    holding deadline step rest ->
    holding deadline step ([EvNow t] ++ c ++ [EvStepInfo current] ++ rest).

(** What the body of the main loop does once the transition wait has
    seen the step change: the capture through the settle budget, and the
    next turn of the loop. *)
Definition afterTransition (env : Env W) (videoFps startedAt : Z)
    (clip : option Clip) (fuel rounds : nat) (plan : Mp4Plan) (timeout : Z)
  : M W unit :=
  bind (getTransitionSettleBudget env)
    (fun transitionBudget =>
       bind (captureForDuration env videoFps startedAt clip fuel transitionBudget)
         (fun _ => mainLoop env videoFps startedAt clip fuel rounds plan timeout)).

(** [starts_once args m]: in what [m] appends to the log the encoder is
    started once at most, and then with the arguments [args]. *)
Definition starts_once {A : Type} (args : list string) (m : M W A) : Prop :=
  forall st o st', m st = (o, st') ->
    exists a rest,
      log st' = log st ++ a ++ rest
      /\ Forall (fun e => is_spawn e = false) a
      /\ (rest = []
          \/ exists b, rest = EvSpawn args :: b
                       /\ Forall (fun e => is_spawn e = false) b).

End Shapes.

End LogShapes.

(** * Further notions for the outline *)

Module TocShapes.
Import JS Toc.

(** [spine n depth tree]: the last item of [tree] has title level
    [depth], the last of its children the title level [depth + 1], and so
    on for [n] levels, where the children are empty. *)
Fixpoint spine (n : nat) (depth : Z) (tree : list TocItem) : Prop :=
  match n with
  | O => tree = []
  | S n' =>
      exists init l,
        tree = init ++ [l]
        /\ toc_titleLevel l = depth
        /\ spine n' (depth + 1) (toc_children l)
  end.

(** Title levels that never skip a level: every slide has a level, at
    least 1 and at most one more than the level before, [prev]. *)
Fixpoint gentle (prev : Z) (slides : list SlideInfo) : Prop :=
  match slides with
  | [] => True
  | s :: rest =>
      match level s with
      | Some l => 1 <= l <= prev + 1 /\ gentle l rest
      | None => False
      end
  end.

(** [on_spine tree stack]: [stack] lists the title levels of the last
    item of [tree], of the last of its children, and so on down to an item
    without children. *)
Inductive on_spine : list TocItem -> list Z -> Prop :=
| on_spine_nil : on_spine [] []
| on_spine_last init l stack :
    on_spine (toc_children l) stack ->
    on_spine (init ++ [l]) (toc_titleLevel l :: stack).

(** Where a slide goes, told from the title levels alone: coming from depth
    [lvl], a slide whose title level is deeper than [lvl] descends under
    the last item there if the title level of that item is shallower than
    its own; otherwise it joins at depth [lvl].  [stack] holds the title
    levels of the last items from depth [lvl] down; the result is the
    depth of the slide and the part of the stack above it. *)
Fixpoint place (stack : list Z) (level : option Z) (lvl : Z) : Z * list Z :=
  match stack, level with
  | top :: below, Some titleLevel =>
      if truthy_level level && (lvl <? titleLevel) && (top <? titleLevel)
      then let '(depth, kept) := place below level (lvl + 1) in
           (depth, top :: kept)
      else (lvl, [])
  | _, _ => (lvl, [])
  end.

(** The items of the outline of [slides], each at the depth that [place]
    gives it. *)
Fixpoint outline_items (slideIndexes : gmap Z Z) (stack : list Z)
    (slides : list SlideInfo) : list TocItem :=
  match slides with
  | [] => []
  | s :: rest =>
      let '(depth, kept) := place stack (level s) 1 in
      newItem s slideIndexes depth
      :: outline_items slideIndexes (kept ++ [from_option id depth (level s)])
           rest
  end.

(** A deck of two chapters, the first with two sections, and a slide
    without title. *)
Definition nested_deck : list SlideInfo :=
  [ mkSlideInfo 0 (Some "One") (Some 1) false;
    mkSlideInfo 1 (Some "One A") (Some 2) false;
    mkSlideInfo 2 None None false;
    mkSlideInfo 3 (Some "One B") (Some 2) false;
    mkSlideInfo 4 (Some "Two") (Some 1) false ].

End TocShapes.

(** * Further notions for the job service *)

Module JobShapes.
Import Sanitize JS Options Recorder JobService.

(** Descriptors in the order of [listJobs]: none started before one that
    follows it. *)
Fixpoint newest_first (l : list JobResponse) : Prop :=
  match l with
  | [] => True
  | x :: rest =>
      match rest with
      | y :: _ => r_startedAt y <= r_startedAt x
      | [] => True
      end
      /\ newest_first rest
  end.

(** A text without a slash. *)
Definition no_slash (s : string) : Prop :=
  Forall (fun c => c <> "/"%char) (list_ascii_of_string s).

Definition status_url (id : string) : string := "/__slidev/export/video/" +:+ id.

Definition status_request (id : string) : Request :=
  {| method := "GET"; url := Some (status_url id); payload := Ok None |}.

(** The time to which [cleanupJobs] compares: [job.completedAt ??
    job.startedAt]. *)
Definition settledAt (job : VideoExportJob) : Z :=
  from_option id (startedAt job) (completedAt job).

(** The fields of a job agree with its status. *)
Definition coherent (job : VideoExportJob) : Prop :=
  match status job with
  | running =>
      error_message job = None /\ completedAt job = None /\ durationMs job = None
  | done =>
      error_message job = None
      /\ exists c, completedAt job = Some c
                   /\ durationMs job = Some (Z.max 0 (c - startedAt job))
  | error =>
      (exists message, error_message job = Some message)
      /\ exists c, completedAt job = Some c
                   /\ durationMs job = Some (Z.max 0 (c - startedAt job))
  end.

(** A text of characters of the class [[\w.-]] only. *)
Definition safe (l : list ascii) : Prop := Forall (fun c => allowed c = true) l.

(** A request for the slides 1 to 3 at 24 frames a second. *)
Definition small_payload : Payload :=
  {| p_videoInterval := None; p_videoFps := Some (JNumber (of_Z 24));
     p_videoSize := Some (JString "1280x720");
     p_range := Some (JString " 1-3 "); p_dark := None |}.

(** A machine without [ffmpeg]. *)
Definition no_ffmpeg : Sim.Config :=
  {| Sim.shot_ms := 40; Sim.css := "100ms"; Sim.ffmpeg_installed := false;
     Sim.encoder_exit := Ok tt; Sim.target_attached := Ok tt;
     Sim.expose := Sim.with_bridge; Sim.advance_ms := 50;
     Sim.script := [Bridge.mkStepInfo 2 0 0 false] |}.

End JobShapes.

(** * The export page

    The part of the script of [export.vue] that starts an MP4 export and
    follows its job: [updateStoredVideoJobId], [queryVideoJobStatus],
    [pollVideoJob], [mp4] and the [onMounted] hook.  The page holds
    reactive cells and one key of [localStorage]; what [fetch] resolves to
    is given from outside, one reply for each request, in order. *)

Module Client.
Import JS.

(** The cells of the page that the export of a video reads and writes,
    the entry [slidev.export.video.jobId] of [localStorage], the addresses
    handed to [triggerDownload] and the requests sent, oldest first. *)
Record Page : Type := mkPage {
  videoExporting : bool;
  videoExportError : string;
  videoExportStatus : string;
  videoExportElapsedMs : num;
  videoExportJobId : string;
  videoDownloadReady : bool;
  videoDownloadFilename : string;
  storedJobId : option string;
  downloads : list string;
  requests : list (string * string)
}.

(** The cells as the script initialises them. *)
Definition fresh (stored : option string) : Page :=
  {| videoExporting := false; videoExportError := ""; videoExportStatus := "";
     videoExportElapsedMs := of_Z 0; videoExportJobId := "";
     videoDownloadReady := false; videoDownloadFilename := "";
     storedJobId := stored; downloads := []; requests := [] |}.

Definition set_exporting (b : bool) (c : Page) : Page :=
  mkPage b (videoExportError c) (videoExportStatus c) (videoExportElapsedMs c)
         (videoExportJobId c) (videoDownloadReady c) (videoDownloadFilename c)
         (storedJobId c) (downloads c) (requests c).

Definition set_error (message : string) (c : Page) : Page :=
  mkPage (videoExporting c) message (videoExportStatus c) (videoExportElapsedMs c)
         (videoExportJobId c) (videoDownloadReady c) (videoDownloadFilename c)
         (storedJobId c) (downloads c) (requests c).

Definition set_status (status : string) (c : Page) : Page :=
  mkPage (videoExporting c) (videoExportError c) status (videoExportElapsedMs c)
         (videoExportJobId c) (videoDownloadReady c) (videoDownloadFilename c)
         (storedJobId c) (downloads c) (requests c).

Definition set_elapsed (ms : num) (c : Page) : Page :=
  mkPage (videoExporting c) (videoExportError c) (videoExportStatus c) ms
         (videoExportJobId c) (videoDownloadReady c) (videoDownloadFilename c)
         (storedJobId c) (downloads c) (requests c).

Definition set_ready (b : bool) (c : Page) : Page :=
  mkPage (videoExporting c) (videoExportError c) (videoExportStatus c)
         (videoExportElapsedMs c) (videoExportJobId c) b
         (videoDownloadFilename c) (storedJobId c) (downloads c) (requests c).

Definition set_filename (name : string) (c : Page) : Page :=
  mkPage (videoExporting c) (videoExportError c) (videoExportStatus c)
         (videoExportElapsedMs c) (videoExportJobId c) (videoDownloadReady c)
         name (storedJobId c) (downloads c) (requests c).

(** [fetch(url, { method })] was called. *)
Definition requested (method url : string) (c : Page) : Page :=
  mkPage (videoExporting c) (videoExportError c) (videoExportStatus c)
         (videoExportElapsedMs c) (videoExportJobId c) (videoDownloadReady c)
         (videoDownloadFilename c) (storedJobId c) (downloads c)
         (requests c ++ [(method, url)]).

(** [triggerDownload(url)] *)
Definition triggerDownload (url : string) (c : Page) : Page :=
  mkPage (videoExporting c) (videoExportError c) (videoExportStatus c)
         (videoExportElapsedMs c) (videoExportJobId c) (videoDownloadReady c)
         (videoDownloadFilename c) (storedJobId c) (downloads c ++ [url])
         (requests c).

Definition truthy (s : option string) : bool :=
  match s with
  | Some t => negb (String.eqb t "")
  | None => false
  end.

(** [s || d] *)
Definition or_else (s : option string) (d : string) : string :=
  if truthy s then from_option id d s else d.

(** [updateStoredVideoJobId(jobId)] *)
Definition updateStoredVideoJobId (jobId : option string) (c : Page) : Page :=
  let id := or_else jobId "" in
  mkPage (videoExporting c) (videoExportError c) (videoExportStatus c)
         (videoExportElapsedMs c) id (videoDownloadReady c)
         (videoDownloadFilename c)
         (if truthy (Some id) then Some id else None)
         (downloads c) (requests c).

(** The computed cell [videoDownloadUrl]. *)
Definition videoDownloadUrl (c : Page) : string :=
  if truthy (Some (videoExportJobId c))
  then "/__slidev/export/video/" +:+ videoExportJobId c +:+ "/download"
  else "".

(** The fields that the script reads in the body of a response
    ([VideoExportStatusResponse], and [jobId] and [error] in the answer to
    the [POST]); an absent field is [None]. *)
Record Data : Type := mkData {
  d_status : option string;
  d_error : option string;
  d_durationMs : option num;
  d_filename : option string;
  d_downloadUrl : option string;
  d_jobId : option string
}.

Definition empty_data : Data := mkData None None None None None None.

(** A [Response]: its status code, and what [response.json()] resolves
    to, or the message it rejects with. *)
Record Response : Type := mkResponse {
  res_status : Z;
  res_json : result Data
}.

(** What a call of [fetch] resolves to, or the message it rejects with. *)
Definition Reply : Type := result Response.

(** [response.ok] *)
Definition ok (response : Response) : bool :=
  (200 <=? res_status response) && (res_status response <=? 299).

(** How a function of the script ends: it returns, it throws, or it
    waits for a reply that has not come. *)
Inductive run (A : Type) : Type :=
| Done (a : A)
| Thrown (message : string)
| Pending.
Arguments Done {A} a.
Arguments Thrown {A} message.
Arguments Pending {A}.

(** A job identifier in a template string. *)
Definition show (jobId : option string) : string :=
  from_option id "undefined" jobId.

Definition not_found_message : string :=
  "Export job not found or expired. Please export again.".

Definition query_failed_message (status : Z) : string :=
  "Failed to query mp4 export status (" +:+ String_of_Z status +:+ ")".

Definition start_failed_message (status : Z) : string :=
  "Failed to start mp4 export (" +:+ String_of_Z status +:+ ")".

(** The text that [queryVideoJobStatus] shows for a job status. *)
Definition shown_status (status : option string) : string :=
  match status with
  | Some s =>
      if String.eqb s "running" then "exporting"
      else if String.eqb s "done" then "done"
      else if String.eqb s "error" then "error"
      else or_else status ""
  | None => or_else status ""
  end.

Definition is_status (data : Data) (s : string) : bool :=
  match d_status data with
  | Some t => String.eqb t s
  | None => false
  end.

(** [queryVideoJobStatus(jobId)], [reply] being what its [fetch] resolves
    to. *)
Definition queryVideoJobStatus (reply : Reply) (jobId : string) (c : Page)
  : run Data * Page :=
  let c := requested "GET" ("/__slidev/export/video/" +:+ jobId) c in
  match reply with
  | Throw message => (Thrown message, c)
  | Ok statusResponse =>
      if res_status statusResponse =? 404
      then (Thrown not_found_message,
            set_ready false (updateStoredVideoJobId None c))
      else if negb (ok statusResponse)
      then (Thrown (query_failed_message (res_status statusResponse)), c)
      else
        match res_json statusResponse with
        | Throw message => (Thrown message, c)
        | Ok statusData =>
            let c :=
              match d_durationMs statusData with
              | Some ms => if isFinite ms then set_elapsed ms c else c
              | None => c
              end in
            let c := set_status (shown_status (d_status statusData)) c in
            let c :=
              if truthy (d_filename statusData)
              then set_filename (from_option id "" (d_filename statusData)) c
              else c in
            (Done statusData, c)
        end
  end.

(** [pollVideoJob(jobId, autoDownload)]: one turn of the loop for each
    reply; the pause of a second between two turns changes nothing of the
    page. *)
Fixpoint pollVideoJob (replies : list Reply) (jobId : string)
    (autoDownload : bool) (c : Page) : run unit * Page :=
  match replies with
  | [] => (Pending, requested "GET" ("/__slidev/export/video/" +:+ jobId) c)
  | reply :: rest =>
      match queryVideoJobStatus reply jobId c with
      | (Done statusData, c) =>
          if is_status statusData "done" then
            let c := set_exporting false (set_ready true c) in
            (Done tt,
             if autoDownload
             then triggerDownload
                    (or_else (d_downloadUrl statusData)
                       ("/__slidev/export/video/" +:+ jobId +:+ "/download")) c
             else c)
          else if is_status statusData "error" then
            (Thrown (or_else (d_error statusData) "MP4 export failed"),
             set_exporting false c)
          else pollVideoJob rest jobId autoDownload c
      | (Thrown message, c) => (Thrown message, c)
      | (Pending, c) => (Pending, c)
      end
  end.

(** The [try] block of [mp4]. *)
Definition startVideoExport (replies : list Reply) (c : Page) : run unit * Page :=
  let c := requested "POST" "/__slidev/export/video" c in
  match replies with
  | [] => (Pending, c)
  | Throw message :: _ => (Thrown message, c)
  | Ok response :: rest =>
      if negb (ok response) then
        let data := match res_json response with
                    | Ok data => data
                    | Throw _ => empty_data
                    end in
        (Thrown (or_else (d_error data)
                   (start_failed_message (res_status response))), c)
      else
        match res_json response with
        | Throw message => (Thrown message, c)
        | Ok data =>
            pollVideoJob rest (show (d_jobId data)) true
              (updateStoredVideoJobId (d_jobId data) c)
        end
  end.

(** [mp4()] *)
Definition mp4 (replies : list Reply) (c : Page) : run unit * Page :=
  if videoExporting c then (Done tt, c)
  else
    let c := set_exporting true c in
    let c := set_error "" c in
    let c := set_status "starting" c in
    let c := set_elapsed (of_Z 0) c in
    let c := set_ready false c in
    let c := set_filename "" c in
    let c := updateStoredVideoJobId None c in
    match startVideoExport replies c with
    | (Thrown message, c) => (Done tt, set_exporting false (set_error message c))
    | other => other
    end.

(** The [try] block of the [onMounted] hook. *)
Definition resumeVideoExport (replies : list Reply) (savedJobId : string)
    (c : Page) : run unit * Page :=
  match replies with
  | [] => (Pending,
           requested "GET" ("/__slidev/export/video/" +:+ savedJobId) c)
  | reply :: rest =>
      match queryVideoJobStatus reply savedJobId c with
      | (Done statusData, c) =>
          if is_status statusData "running"
          then pollVideoJob rest savedJobId false (set_exporting true c)
          else if is_status statusData "done"
          then (Done tt, set_exporting false (set_ready true c))
          else if is_status statusData "error"
          then (Done tt,
                set_error (or_else (d_error statusData) "MP4 export failed")
                  (set_exporting false c))
          else (Done tt, c)
      | (Thrown message, c) => (Thrown message, c)
      | (Pending, c) => (Pending, c)
      end
  end.

(** The [onMounted] hook. *)
Definition onMounted (replies : list Reply) (c : Page) : run unit * Page :=
  if truthy (storedJobId c) then
    let savedJobId := from_option id "" (storedJobId c) in
    let c := updateStoredVideoJobId (Some savedJobId) c in
    let c := set_error "" c in
    match resumeVideoExport replies savedJobId c with
    | (Thrown message, c) => (Done tt, set_error message c)
    | other => other
    end
  else (Done tt, c).

(** The stored identifier is the one the page shows. *)
Definition synced (c : Page) : Prop :=
  storedJobId c
  = if truthy (Some (videoExportJobId c)) then Some (videoExportJobId c) else None.

(** A server that accepts the job, reports it running once and then
    done. *)
Definition smooth_replies : list Reply :=
  [ Ok (mkResponse 200 (Ok (mkData None None None None None (Some "j1"))));
    Ok (mkResponse 200
          (Ok (mkData (Some "running") None (Some (of_Z 900)) None None None)));
    Ok (mkResponse 200
          (Ok (mkData (Some "done") None (Some (of_Z 2100)) (Some "deck.mp4")
                      (Some "/__slidev/export/video/j1/download") None))) ].

(** A job that is lost while the reloaded page follows it. *)
Definition lost_replies : list Reply :=
  [ Ok (mkResponse 200
          (Ok (mkData (Some "running") None (Some (of_Z 900)) None None None)));
    Ok (mkResponse 404 (Ok (mkData None (Some "Job not found") None None None None))) ].

End Client.

(** * A turn of the main loop on the two-slide deck *)

Module SimRuns.
Import JS Bridge Options Recorder Sim.

(** The states of the first turn of the loop, with 2 seconds for the
    transition: at its start, after the dwell, after the step was read,
    after [nextStep()]. *)
Definition loop_start : state World := initial two_slides_start.

Definition after_dwell : state World :=
  snd (dwell (simEnv two_slides) 30 1000 None 2001 deck_plan loop_start).

Definition after_reading : state World :=
  snd (getStepInfo (simEnv two_slides) after_dwell).

Definition after_nextStep : state World :=
  snd (nextStep (simEnv two_slides) after_reading).

Definition first_step : StepInfo := mkStepInfo 1 0 0 true.

Definition second_step : StepInfo := mkStepInfo 2 0 0 false.

End SimRuns.

(** * Properties *)

Module SanitizeProofs.
Import Sanitize.

Lemma replace_runs_Forall (P : ascii -> Prop) cls b l :
  P dash -> (forall c, cls c = false -> P c) -> Forall P (replace_runs cls b l).
Proof.
  intros Hd Hc. revert b.
  induction l as [|c r IH]; intros b; simpl; [constructor|].
  destruct (cls c) eqn:E.
  - destruct b; [apply IH | constructor; [exact Hd | apply IH]].
  - constructor; [apply Hc, E | apply IH].
Qed.

Lemma replace_runs_keeps (P : ascii -> Prop) cls b l :
  P dash -> Forall P l -> Forall P (replace_runs cls b l).
Proof.
  intros Hd Hl. revert b.
  induction Hl as [|c r Hc Hr IH]; intros b; simpl; [constructor|].
  destruct (cls c); [destruct b|]; try constructor; auto.
Qed.

Lemma is_dash_true c : is_dash c = true <-> c = dash.
Proof. apply Ascii.eqb_eq. Qed.

Lemma collapse_head_not_dash l :
  head (replace_runs is_dash true l) <> Some dash.
Proof.
  induction l as [|c r IH]; simpl; [discriminate|].
  destruct (is_dash c) eqn:E; [exact IH|].
  simpl. intros [= ->]. unfold is_dash in E. now rewrite Ascii.eqb_refl in E.
Qed.

Lemma collapse_no_double b l :
  has_double_dash (replace_runs is_dash b l) = false.
Proof.
  revert b. induction l as [|c r IH]; intros b; [reflexivity|].
  simpl. destruct (is_dash c) eqn:E.
  - destruct b; [apply IH|].
    simpl. specialize (IH true). pose proof (collapse_head_not_dash r) as Hh.
    destruct (replace_runs is_dash true r) as [|d r'] eqn:Er; [reflexivity|].
    rewrite IH, orb_false_r. simpl in Hh.
    destruct (is_dash d) eqn:Ed; [|now rewrite ?andb_false_r].
    apply is_dash_true in Ed. congruence.
  - simpl. specialize (IH false).
    destruct (replace_runs is_dash false r) as [|d r'] eqn:Er; [reflexivity|].
    now rewrite IH, orb_false_r, E.
Qed.

Lemma has_double_dash_spec l :
  has_double_dash l = true <-> exists l1 l2, l = l1 ++ dash :: dash :: l2.
Proof.
  induction l as [|c r IH]; simpl.
  - split; [discriminate | intros (l1 & l2 & H); now destruct l1].
  - destruct r as [|d r'].
    + split; [discriminate | intros (l1 & l2 & H)].
      destruct l1 as [|? [|? ?]]; discriminate.
    + rewrite orb_true_iff, andb_true_iff, !is_dash_true, IH. split.
      * intros [[-> ->] | (l1 & l2 & ->)]; [now exists [], r' |].
        now exists (c :: l1), l2.
      * intros (l1 & l2 & H). destruct l1 as [|x l1]; simpl in H.
        -- injection H as -> -> _. now left.
        -- injection H as -> H. right. now exists l1, l2.
Qed.

Lemma has_double_dash_reverse l :
  has_double_dash (reverse l) = has_double_dash l.
Proof.
  assert (forall k, has_double_dash k = true ->
                    has_double_dash (reverse k) = true) as H.
  { intros k (l1 & l2 & ->)%has_double_dash_spec. apply has_double_dash_spec.
    exists (reverse l2), (reverse l1).
    rewrite reverse_app, !reverse_cons, <- !app_assoc. reflexivity. }
  destruct (has_double_dash l) eqn:E; [now apply H|].
  destruct (has_double_dash (reverse l)) eqn:E'; [|reflexivity].
  apply H in E'. rewrite reverse_involutive in E'. congruence.
Qed.

Lemma drop_leading_no_double l :
  has_double_dash l = false -> has_double_dash (drop_leading_dash l) = false.
Proof.
  destruct l as [|c r]; [easy|]. unfold drop_leading_dash.
  destruct (is_dash c); [|easy].
  simpl. destruct r; [easy|]. now intros [_ ?]%orb_false_iff.
Qed.

Lemma drop_leading_head l :
  has_double_dash l = false -> head (drop_leading_dash l) <> Some dash.
Proof.
  destruct l as [|c r]; [easy|]. unfold drop_leading_dash.
  destruct (is_dash c) eqn:E.
  - simpl. destruct r as [|d r']; [easy|]. rewrite E. simpl.
    intros [Hd _]%orb_false_iff [= ->]. unfold is_dash in Hd.
    now rewrite Ascii.eqb_refl in Hd.
  - intros _ [= ->]. unfold is_dash in E. now rewrite Ascii.eqb_refl in E.
Qed.

Lemma drop_leading_Forall (P : ascii -> Prop) l :
  Forall P l -> Forall P (drop_leading_dash l).
Proof.
  intros H. destruct H as [|c r Hc Hr]; simpl; [constructor|].
  destruct (is_dash c); [assumption | now constructor].
Qed.

Lemma drop_leading_last l :
  last l <> Some dash -> last (drop_leading_dash l) <> Some dash.
Proof.
  destruct l as [|c r]; [easy|]. simpl drop_leading_dash.
  destruct (is_dash c); [|easy].
  destruct r; [easy|]. now rewrite last_cons_cons.
Qed.

Lemma trailing_no_double l :
  has_double_dash l = false -> has_double_dash (drop_trailing_dash l) = false.
Proof.
  intros H. unfold drop_trailing_dash.
  rewrite has_double_dash_reverse. apply drop_leading_no_double.
  now rewrite has_double_dash_reverse.
Qed.

Lemma strip_edge_shape l :
  has_double_dash l = false ->
  let r := strip_edge_dashes l in
  head r <> Some dash /\ last r <> Some dash /\ has_double_dash r = false.
Proof.
  intros H. cbn zeta. unfold strip_edge_dashes, drop_trailing_dash.
  pose proof (drop_leading_no_double l H) as Hm.
  pose proof (drop_leading_head l H) as Hh.
  set (m := drop_leading_dash l) in *.
  assert (has_double_dash (reverse m) = false) as Hr
    by now rewrite has_double_dash_reverse.
  rewrite head_reverse, last_reverse, has_double_dash_reverse.
  split; [|split].
  - apply drop_leading_last. now rewrite last_reverse.
  - now apply drop_leading_head.
  - now apply drop_leading_no_double.
Qed.

Lemma strip_edge_Forall (P : ascii -> Prop) l :
  Forall P l -> Forall P (strip_edge_dashes l).
Proof.
  intros H. unfold strip_edge_dashes, drop_trailing_dash.
  apply Forall_reverse, drop_leading_Forall, Forall_reverse.
  now apply drop_leading_Forall.
Qed.

Lemma allowed_dash : allowed dash = true.
Proof. reflexivity. Qed.

(** C9.  For every input string, [sanitizePart] returns a string whose
    characters all belong to the class [[\w.-]], that neither starts nor
    ends with a dash, and that contains no two consecutive dashes. *)
Theorem sanitizePart_shape (value : string) :
  let r := list_ascii_of_string (sanitizePart value) in
  Forall (fun c => allowed c = true) r
  /\ head r <> Some dash
  /\ last r <> Some dash
  /\ has_double_dash r = false.
Proof.
  cbn zeta. unfold sanitizePart.
  rewrite list_ascii_of_string_of_list_ascii. unfold sanitize_chars.
  set (t := trim (list_ascii_of_string value)).
  split.
  - apply strip_edge_Forall, replace_runs_keeps; [exact allowed_dash|].
    apply replace_runs_Forall; [exact allowed_dash|].
    intros c Hc. now apply negb_false_iff in Hc.
  - apply strip_edge_shape, collapse_no_double.
Qed.

Example sanitizePart_ex1 :
  sanitizePart "  my deck / v2 (final)  " = "my-deck-v2-final".
Proof. reflexivity. Qed.

Example sanitizePart_ex2 : sanitizePart "--a--b.c_d--" = "a-b.c_d".
Proof. reflexivity. Qed.

Example sanitizePart_ex3 : sanitizePart " ** " = "".
Proof. reflexivity. Qed.

End SanitizeProofs.

Module StabilizerProofs.
Import Sanitize JS Stabilizer.

Lemma string_of_list_ascii_app l1 l2 :
  string_of_list_ascii (l1 ++ l2)
  = string_of_list_ascii l1 +:+ string_of_list_ascii l2.
Proof. induction l1 as [|c r IH]; simpl; [reflexivity | now rewrite IH]. Qed.

Lemma list_ascii_of_string_app s1 s2 :
  list_ascii_of_string (s1 +:+ s2)
  = list_ascii_of_string s1 ++ list_ascii_of_string s2.
Proof. induction s1 as [|c r IH]; simpl; [reflexivity | now rewrite IH]. Qed.

Lemma string_app_assoc (s1 s2 s3 : string) :
  (s1 +:+ s2) +:+ s3 = s1 +:+ (s2 +:+ s3).
Proof.
  induction s1 as [|c r IH]; [reflexivity|].
  change (String c ((r +:+ s2) +:+ s3) = String c (r +:+ (s2 +:+ s3))).
  now rewrite IH.
Qed.

Lemma starts_with_spec p l :
  starts_with p l = true <-> exists r, l = p ++ r.
Proof.
  revert l. induction p as [|a p IH]; intros l; simpl.
  - split; [intros _; now exists l | reflexivity].
  - destruct l as [|b l].
    + split; [discriminate | intros [r [=]]].
    + rewrite andb_true_iff, Ascii.eqb_eq, IH. split.
      * intros [-> [r ->]]. now exists r.
      * intros [r [= -> ->]]. split; [reflexivity | now exists r].
Qed.

Lemma endsWith_spec s suffix :
  endsWith s suffix = true <-> exists p, s = p +:+ suffix.
Proof.
  unfold endsWith. rewrite starts_with_spec. split.
  - intros [r Hr]. exists (string_of_list_ascii (reverse r)).
    apply (f_equal reverse) in Hr.
    rewrite reverse_involutive, reverse_app, reverse_involutive in Hr.
    rewrite <- (string_of_list_ascii_of_string s), Hr.
    now rewrite string_of_list_ascii_app, string_of_list_ascii_of_string.
  - intros [p ->]. exists (reverse (list_ascii_of_string p)).
    now rewrite list_ascii_of_string_app, reverse_app.
Qed.

Lemma slice_drop_end_app p suffix :
  slice_drop_end (String.length suffix) (p +:+ suffix) = p.
Proof.
  unfold slice_drop_end. rewrite list_ascii_of_string_app.
  rewrite length_app.
  replace (String.length suffix) with (length (list_ascii_of_string suffix)).
  2:{ clear. induction suffix; simpl; [reflexivity | now f_equal]. }
  replace (_ + _ - _)%nat with (length (list_ascii_of_string p)) by lia.
  now rewrite take_app_length, string_of_list_ascii_of_string.
Qed.

(** [x || 0] on the result of [parseFloat] only replaces [NaN]: a parsed
    zero already is the number 0. *)
Lemma parseFloat_or_zero p :
  num_or (parseFloat p) (of_Z 0) = number_or_zero p.
Proof.
  unfold number_or_zero, num_or, parseFloat, parseFloat_chars.
  destruct (take_sign _) as [sg l1].
  destruct (starts_with _ l1); [now destruct (0 <? sg)|].
  destruct (take_digits l1) as [ip l2].
  destruct (match l2 with [] => _ | _ => _ end) as [fp l3].
  assert (forall x, num_or (of_decimal (Qred x)) (of_Z 0)
                    = match of_decimal (Qred x) with
                      | NaN => of_Z 0
                      | y => y
                      end) as Hfin.
  { intros x. unfold of_decimal.
    destruct (Qle_bool double_overflow _); [now destruct (0 <? _)|].
    destruct (Qle_bool _ double_underflow); [reflexivity|].
    unfold num_or, truthy_num.
    destruct (Qeq_bool (Qred x) 0) eqn:E; [|reflexivity]. simpl.
    apply Qeq_bool_eq in E. apply Qred_complete in E.
    rewrite (Qred_complete _ _ (Qred_correct x)) in E. now rewrite E. }
  unfold num_or in Hfin.
  destruct ip, fp; try reflexivity; apply Hfin.
Qed.

Lemma parseMs_duration raw : css_duration raw (parseMs raw).
Proof.
  unfold parseMs. destruct (String.eqb raw "") eqn:E0.
  { apply String.eqb_eq in E0 as ->. constructor. }
  apply String.eqb_neq in E0.
  destruct (endsWith raw "ms") eqn:Ems.
  { apply endsWith_spec in Ems as [p ->].
    pose proof (slice_drop_end_app p "ms") as Hp. simpl String.length in Hp.
    rewrite Hp, parseFloat_or_zero. constructor. }
  destruct (endsWith raw "s") eqn:Es.
  { apply endsWith_spec in Es as [p ->].
    pose proof (slice_drop_end_app p "s") as Hp. simpl String.length in Hp.
    rewrite Hp, parseFloat_or_zero. constructor.
    intros [p' ->]. rewrite string_app_assoc in Ems.
    assert (endsWith (p' +:+ "ms") "ms" = true) as H
      by (apply endsWith_spec; now exists p').
    change ("m" +:+ "s") with "ms" in Ems. congruence. }
  rewrite parseFloat_or_zero. now constructor.
Qed.

Lemma Qred_idem x : Qred (Qred x) = Qred x.
Proof. apply Qred_complete, Qred_correct. Qed.

Lemma num_add_canonical a b : canonical (num_add a b).
Proof. destruct a, b; simpl; auto using Qred_idem. Qed.

Lemma num_or_not_NaN a z : num_or a (of_Z z) <> NaN.
Proof. unfold num_or. destruct a; simpl; try easy. now destruct (Qeq_bool q 0). Qed.

Lemma parseMs_not_NaN raw : parseMs raw <> NaN.
Proof.
  unfold parseMs. destruct (String.eqb raw ""); [easy|].
  destruct (endsWith raw "ms"); [apply num_or_not_NaN|].
  destruct (endsWith raw "s"); [|apply num_or_not_NaN].
  pose proof (num_or_not_NaN (parseFloat (slice_drop_end 1 raw)) 0) as H.
  destruct (num_or _ _); try easy.
Qed.

Lemma canonical_eq q z : Qred q = q -> q == inject_Z z -> q = inject_Z z.
Proof.
  intros Hc He. apply Qred_complete in He. rewrite Hc in He. rewrite He.
  apply Qcanon.Qred_identity. simpl. apply Z.gcd_1_r.
Qed.

(** On numbers other than [NaN], [Math.max(lo, Math.min(hi, x))] is the
    clamp of [x] to [[lo, hi]]. *)
Lemma max_min_is_clamp x lo hi :
  x <> NaN -> canonical x -> (lo <= hi)%Z ->
  num_max (of_Z lo) (num_min (of_Z hi) x) = clamp x (of_Z lo) (of_Z hi).
Proof.
  intros Hx Hc Hle. unfold clamp, of_Z.
  destruct x as [| | |q]; [easy| | |].
  - simpl. unfold Qle_bool, Qltb, Qle_bool; simpl.
    rewrite !Z.mul_1_r. destruct (Z.leb_spec lo hi); [|lia].
    destruct (Z.leb_spec hi lo); simpl; [f_equal; f_equal; lia|reflexivity].
  - reflexivity.
  - simpl in Hc. simpl num_min. simpl num_lt. unfold Qltb.
    destruct (Qle_bool (inject_Z hi) q) eqn:E1.
    + apply Qle_bool_iff in E1.
      assert (inject_Z lo <= q)%Q as Hlo.
      { eapply Qle_trans; [|exact E1]. now rewrite <- Zle_Qle. }
      apply Qle_bool_iff in Hlo. rewrite Hlo. simpl.
      assert (Qle_bool (inject_Z lo) (inject_Z hi) = true) as ->
        by (apply Qle_bool_iff; now rewrite <- Zle_Qle).
      destruct (Qle_bool q (inject_Z hi)) eqn:E2; [|reflexivity].
      simpl. apply Qle_bool_iff in E2. f_equal. symmetry.
      apply canonical_eq; [exact Hc|]. now apply Qle_antisym.
    + simpl. destruct (Qle_bool (inject_Z lo) q) eqn:E2; simpl; [|reflexivity].
      assert (Qle_bool q (inject_Z hi) = true) as ->; [|reflexivity].
      apply Qle_bool_iff. apply Qnot_lt_le. intros Hlt.
      apply Qlt_le_weak, Qle_bool_iff in Hlt. congruence.
Qed.

Lemma budget_is_clamp css :
  getTransitionSettleBudget css
  = clamp (num_add (parseMs (str_trim css)) (of_Z 300)) (of_Z 120) (of_Z 3000).
Proof.
  unfold getTransitionSettleBudget. cbn zeta.
  apply max_min_is_clamp; [|apply num_add_canonical|lia].
  pose proof (parseMs_not_NaN (str_trim css)).
  destruct (parseMs (str_trim css)); easy.
Qed.

(** The budget is a finite number of milliseconds between 120 and 3000. *)
Lemma budget_bounds css :
  exists q, getTransitionSettleBudget css = Fin q /\ (120 <= q <= 3000)%Q.
Proof.
  rewrite budget_is_clamp.
  pose proof (parseMs_not_NaN (str_trim css)) as Hn.
  destruct (parseMs (str_trim css)) as [| | |d]; [easy| | |].
  - exists 3000%Q. split; [reflexivity|]. split; [discriminate | apply Qle_refl].
  - exists 120%Q. split; [reflexivity|]. split; [apply Qle_refl | discriminate].
  - unfold clamp. simpl num_add. set (x := Qred _). simpl num_lt. unfold Qltb.
    destruct (Qle_bool (inject_Z 120) x) eqn:E1; simpl.
    + destruct (Qle_bool x (inject_Z 3000)) eqn:E2; simpl.
      * exists x. split; [reflexivity|]. split; now apply Qle_bool_iff.
      * exists 3000%Q. split; [reflexivity|].
        split; [discriminate | apply Qle_refl].
    + exists 120%Q. split; [reflexivity|]. split; [apply Qle_refl | discriminate].
Qed.

Lemma string_app_inv_tail (s1 s2 t : string) : s1 +:+ t = s2 +:+ t -> s1 = s2.
Proof.
  intros H. apply (f_equal list_ascii_of_string) in H.
  rewrite !list_ascii_of_string_app in H. apply app_inv_tail in H.
  rewrite <- (string_of_list_ascii_of_string s1), H.
  apply string_of_list_ascii_of_string.
Qed.

(** A property value denotes one duration only. *)
Lemma css_duration_functional raw d1 d2 :
  css_duration raw d1 -> css_duration raw d2 -> d1 = d2.
Proof.
  assert (forall p, endsWith (p +:+ "ms") "s" = true) as Hms.
  { intros p. apply endsWith_spec. exists (p +:+ "m").
    now rewrite string_app_assoc. }
  assert (forall p, endsWith (p +:+ "s") "s" = true) as Hs.
  { intros p. apply endsWith_spec. now exists p. }
  assert (forall p, p +:+ "ms" <> "" /\ p +:+ "s" <> "") as Hne.
  { intros p. split; now destruct p. }
  intros H1 H2.
  destruct H1 as [|p|p Hp|v Hv Hv'];
    inversion H2 as [E|p' E|p' Hp' E|v' Hw Hw' E]; subst; try reflexivity;
    try (exfalso; first [ now apply (Hne p') | now apply (Hne p)
                        | congruence | now rewrite Hms in * | now rewrite Hs in * ]).
  - exfalso. exact (proj1 (Hne p') E).
  - exfalso. exact (proj1 (Hne p) (eq_sym E)).
  - now apply string_app_inv_tail in E as ->.
  - exfalso. apply Hp'. exists p.
    apply (string_app_inv_tail _ _ "s"). now rewrite string_app_assoc.
  - exfalso. apply Hp. exists p'.
    apply (string_app_inv_tail _ _ "s"). now rewrite string_app_assoc.
  - now apply string_app_inv_tail in E as ->.
Qed.

(** C8.  The settle budget equals the transition duration plus 300 ms,
    clamped to [[120 ms, 3000 ms]], where the duration is the trimmed value
    of [--slidev-transition-duration] read with an [ms] suffix, with an [s]
    suffix (times 1000) or without unit, an empty or unparsable text
    counting as 0.  The property value denotes exactly one duration. *)
Theorem settle_budget_is_clamped_duration (css : string) :
  exists d,
    css_duration (str_trim css) d
    /\ (forall d', css_duration (str_trim css) d' -> d' = d)
    /\ getTransitionSettleBudget css
       = clamp (num_add d (of_Z 300)) (of_Z 120) (of_Z 3000).
Proof.
  exists (parseMs (str_trim css)). split; [apply parseMs_duration|]. split.
  - intros d' Hd'. eapply css_duration_functional; [exact Hd'|].
    apply parseMs_duration.
  - apply budget_is_clamp.
Qed.

Example budget_ms : getTransitionSettleBudget " 500ms " = of_Z 800.
Proof. reflexivity. Qed.

Example budget_seconds : getTransitionSettleBudget "0.5s" = of_Z 800.
Proof. reflexivity. Qed.

Example budget_unitless : getTransitionSettleBudget "250" = of_Z 550.
Proof. reflexivity. Qed.

Example budget_empty : getTransitionSettleBudget "" = of_Z 300.
Proof. reflexivity. Qed.

Example budget_unparsable : getTransitionSettleBudget "fast" = of_Z 300.
Proof. reflexivity. Qed.

Example budget_upper : getTransitionSettleBudget "10s" = of_Z 3000.
Proof. reflexivity. Qed.

Example budget_lower : getTransitionSettleBudget "-900ms" = of_Z 120.
Proof. reflexivity. Qed.

End StabilizerProofs.

Module TocProofs.
Import JS Toc.

Lemma split_last_spec tree init l :
  split_last tree = Some (init, l) -> tree = init ++ [l].
Proof.
  revert init. induction tree as [|it rest IH]; intros init; simpl; [discriminate|].
  destruct (split_last rest) as [[i' l']|] eqn:E.
  - intros [= <- <-]. simpl. f_equal. now apply IH.
  - intros [= <- <-]. destruct rest as [|x rest]; [reflexivity|].
    simpl in E. now destruct (split_last rest) as [[? ?]|].
Qed.

Lemma descend_spec tree info lvl init l :
  descend tree info lvl = Some (init, l) ->
  tree = init ++ [l] /\ lvl < level_or_zero info.
Proof.
  intros H. split; [|eapply descend_deeper, H].
  unfold descend in H. destruct (level info) as [tl|]; [|discriminate].
  destruct (_ && _); [|discriminate].
  destruct (split_last tree) as [[i' l']|] eqn:E; [|discriminate].
  destruct (_ <? _); [|discriminate].
  injection H as <- <-. now apply split_last_spec.
Qed.

Lemma flat_app t1 t2 : flat (t1 ++ t2) = flat t1 ++ flat t2.
Proof. unfold flat. now rewrite map_app, concat_app. Qed.

Lemma flat_singleton it : flat [it] = set_children it [] :: flat (toc_children it).
Proof. destruct it. unfold flat. simpl. now rewrite app_nil_r. Qed.

(** [addToTree] appends exactly one item to the outline order, and places
    it at the requested level or deeper, never deeper than its title
    level. *)
Lemma flat_addToTree tree info slideIndexes lvl :
  exists lv,
    lvl <= lv /\ (lv = lvl \/ lv <= level_or_zero info)
    /\ flat (addToTree tree info slideIndexes lvl)
       = flat tree ++ [newItem info slideIndexes lv].
Proof.
  funelim (addToTree tree info slideIndexes lvl).
  - destruct H as (lv & Hle & Hb & Hflat).
    pose proof (descend_spec _ _ _ _ _ e) as [Htree Hdeep]. rewrite Htree.
    exists lv. split; [lia|]. split; [right; lia|].
    rewrite !flat_app, !flat_singleton. simpl. rewrite Hflat.
    now rewrite <- app_assoc.
  - exists lvl. split; [lia|]. split; [now left|].
    now rewrite flat_app, flat_singleton.
Qed.

Lemma levelled_item_unfold depth it :
  levelled_item depth it
  <-> toc_level it = depth /\ levelled (depth + 1) (toc_children it).
Proof.
  destruct it as [n cs l tl p h t]. simpl.
  assert (forall cs,
    (fix all (cs : list TocItem) : Prop :=
       match cs with
       | [] => True
       | c :: cs' => levelled_item (depth + 1) c /\ all cs'
       end) cs <-> levelled (depth + 1) cs) as H.
  { clear. induction cs as [|c cs IH]; [split; [constructor|easy]|].
    rewrite IH. unfold levelled. rewrite Forall_cons. reflexivity. }
  now rewrite H.
Qed.

Lemma levelled_addToTree tree info slideIndexes lvl :
  levelled lvl tree -> levelled lvl (addToTree tree info slideIndexes lvl).
Proof.
  funelim (addToTree tree info slideIndexes lvl); intros Hl.
  - pose proof (descend_spec _ _ _ _ _ e) as [Htree _]. rewrite Htree in Hl.
    apply Forall_app in Hl as [Hinit Hlast]. apply Forall_app. split; [exact Hinit|].
    rewrite Forall_singleton in Hlast. rewrite Forall_singleton.
    apply levelled_item_unfold in Hlast as [Hlv Hcs].
    apply levelled_item_unfold. split; [exact Hlv|]. simpl. now apply H.
  - apply Forall_app. split; [exact Hl|]. rewrite Forall_singleton.
    apply levelled_item_unfold. split; [reflexivity | constructor].
Qed.

Lemma fold_addToTree slideIndexes (slides : list SlideInfo) acc :
  levelled 1 acc ->
  let tree := fold_left (fun acc slide => addToTree acc slide slideIndexes 1)
                        slides acc in
  levelled 1 tree
  /\ map entry_of_item (flat tree)
     = map entry_of_item (flat acc) ++ map (entry_of_slide slideIndexes) slides
  /\ (Forall (fun it => 1 <= toc_level it <= Z.max 1 (toc_titleLevel it))
             (flat acc) ->
      Forall (fun it => 1 <= toc_level it <= Z.max 1 (toc_titleLevel it))
             (flat tree)).
Proof.
  cbn zeta. revert acc.
  induction slides as [|s slides IH]; intros acc Hacc; simpl.
  - split; [exact Hacc|]. split; [now rewrite app_nil_r | auto].
  - destruct (IH (addToTree acc s slideIndexes 1)) as (Hl & Hm & Hb);
      [now apply levelled_addToTree|].
    destruct (flat_addToTree acc s slideIndexes 1) as (lv & Hle & Hlv & Hflat).
    split; [exact Hl|]. split.
    + rewrite Hm, Hflat, map_app. simpl. now rewrite <- app_assoc.
    + intros Hacc'. apply Hb. rewrite Hflat. apply Forall_app. split; [exact Hacc'|].
      rewrite Forall_singleton. simpl. unfold level_or_zero in Hlv.
      destruct (level s) as [tl|]; simpl in *; lia.
Qed.

Lemma TocItem_nested_ind (P : TocItem -> Prop) :
  (forall it, Forall P (toc_children it) -> P it) -> forall it, P it.
Proof.
  intros H. fix IH 1. intros [n cs l tl p h t]. apply H. simpl.
  induction cs as [|c cs IHcs]; constructor; [apply IH | exact IHcs].
Qed.

Lemma append_nonempty_r (a b : string) : b <> "" -> a +:+ b <> "".
Proof. intros Hb. destruct a; [exact Hb | discriminate]. Qed.

Lemma outline_line_nonempty it : outline_line it <> "".
Proof. unfold outline_line. now apply append_nonempty_r. Qed.

Lemma concat_cons_nonempty x rest : x <> "" -> String.concat nl (x :: rest) <> "".
Proof.
  intros Hx. destruct rest as [|y rest]; [exact Hx|].
  simpl. destruct x; [easy | discriminate].
Qed.

Lemma concat_lines_app (l1 l2 : list string) :
  l1 <> [] -> l2 <> [] ->
  String.concat nl (l1 ++ l2)
  = String.concat nl l1 +:+ nl +:+ String.concat nl l2.
Proof.
  intros H1 H2. induction l1 as [|x l1 IH]; [easy|].
  destruct l1 as [|y l1].
  - simpl. destruct l2; [easy | reflexivity].
  - change (String.concat nl ((x :: y :: l1) ++ l2))
      with (x +:+ nl +:+ String.concat nl ((y :: l1) ++ l2)).
    rewrite IH by easy.
    change (String.concat nl (x :: y :: l1))
      with (x +:+ nl +:+ String.concat nl (y :: l1)).
    now rewrite !StabilizerProofs.string_app_assoc.
Qed.

Lemma concat_lines_concat (ls : list (list string)) :
  Forall (fun l => l <> []) ls ->
  String.concat nl (map (String.concat nl) ls) = String.concat nl (concat ls).
Proof.
  induction 1 as [|l ls Hl Hls IH]; [reflexivity|].
  destruct ls as [|l' ls].
  - simpl. now rewrite app_nil_r.
  - change (String.concat nl (map (String.concat nl) (l :: l' :: ls)))
      with (String.concat nl l +:+ nl
            +:+ String.concat nl (map (String.concat nl) (l' :: ls))).
    rewrite IH. change (concat (l :: l' :: ls)) with (l ++ concat (l' :: ls)).
    rewrite concat_lines_app; [reflexivity | exact Hl |].
    inversion Hls as [|? ? Hl' _]; subst. simpl. now destruct l'.
Qed.

Lemma join_outlines_somes (ss : list string) :
  Forall (fun t => t <> "") ss ->
  join_outlines (map Some ss) = String.concat nl ss.
Proof.
  intros H. unfold join_outlines. f_equal.
  induction H as [|t ss Ht Hss IH]; [reflexivity|].
  simpl. rewrite filter_cons_True.
  - cbn. f_equal. exact IH.
  - simpl. apply negb_true_iff, String.eqb_neq, Ht.
Qed.

Lemma length_pos_nonempty (t : string) :
  (0 <? String.length t)%nat = negb (String.eqb t "").
Proof. now destruct t. Qed.

Lemma outline_line_set_children it cs :
  outline_line (set_children it cs) = outline_line it.
Proof. reflexivity. Qed.

(** On items whose titles are all present, [makeOutline] writes the line
    of the item followed by the lines of its children. *)
Lemma makeOutline_item_lines it :
  Forall titled_item (flat_item it) ->
  makeOutline_item it
  = Some (String.concat nl (map outline_line (flat_item it))).
Proof.
  induction it as [it IH] using TocItem_nested_ind. intros Ht.
  destruct it as [n cs l tl p h t]. simpl in IH, Ht.
  apply Forall_cons in Ht as [Hroot Hcs]. unfold titled_item in Hroot.
  simpl in Hroot.
  assert (map makeOutline_item cs
          = map Some (map (fun c => String.concat nl (map outline_line (flat_item c))) cs))
    as Hmap.
  { clear Hroot. induction cs as [|c cs IHcs]; [reflexivity|].
    simpl in Hcs. apply Forall_app in Hcs as [Hc Hcs].
    inversion IH as [|? ? IHc IHcs']; subst. simpl.
    rewrite IHc by exact Hc. f_equal. now apply IHcs. }
  assert (join_outlines (map makeOutline_item cs)
          = String.concat nl (map outline_line (concat (map flat_item cs))))
    as Hjoin.
  { rewrite Hmap, join_outlines_somes.
    - rewrite <- map_map, concat_lines_concat.
      + now rewrite concat_map, map_map.
      + apply Forall_map, Forall_forall. intros c _. now destruct c.
    - apply Forall_map, Forall_forall. intros c _. destruct c. simpl.
      apply concat_cons_nonempty, outline_line_nonempty. }
  change (makeOutline_item (mkTocItem n cs l tl p h t)) with
    (let rootOutline :=
       if truthy_str t
       then Some (outline_line (mkTocItem n cs l tl p h t))
       else None in
     let childrenOutline := join_outlines (map makeOutline_item cs) in
     if (0 <? String.length childrenOutline)%nat
     then Some (show_outline rootOutline +:+ nl +:+ childrenOutline)
     else rootOutline).
  cbn zeta. rewrite Hroot, Hjoin, length_pos_nonempty.
  change (flat_item (mkTocItem n cs l tl p h t))
    with (set_children (mkTocItem n cs l tl p h t) []
          :: concat (map flat_item cs)).
  rewrite map_cons, outline_line_set_children.
  destruct (concat (map flat_item cs)) as [|x xs] eqn:E; [reflexivity|].
  rewrite (proj2 (String.eqb_neq _ _))
    by (apply concat_cons_nonempty, outline_line_nonempty).
  reflexivity.
Qed.

Lemma makeOutline_lines tree :
  Forall titled_item (flat tree) ->
  makeOutline tree = String.concat nl (map outline_line (flat tree)).
Proof.
  intros Ht. unfold makeOutline.
  assert (map makeOutline_item tree
          = map Some (map (fun c => String.concat nl (map outline_line (flat_item c))) tree))
    as ->.
  { induction tree as [|c cs IH]; [reflexivity|].
    unfold flat in Ht. simpl in Ht. apply Forall_app in Ht as [Hc Hcs].
    simpl. rewrite makeOutline_item_lines by exact Hc. f_equal. now apply IH. }
  rewrite join_outlines_somes.
  - rewrite <- map_map, concat_lines_concat.
    + unfold flat. now rewrite concat_map, map_map.
    + apply Forall_map, Forall_forall. intros c _. now destruct c.
  - apply Forall_map, Forall_forall. intros c _. destruct c. simpl.
    apply concat_cons_nonempty, outline_line_nonempty.
Qed.

(** C2, as the specification states it, fails: on a deck whose second title
    skips a heading level the outline has one dash where the title level
    minus 1 is two. *)
Lemma outline_dashes_are_not_title_level :
  makeOutline (tocTree skipping_deck one_page_per_slide)
  = "1||Intro" +:+ nl +:+ "2|-|Details"
  /\ claimed_outline skipping_deck one_page_per_slide
     = "1||Intro" +:+ nl +:+ "2|--|Details"
  /\ makeOutline (tocTree skipping_deck one_page_per_slide)
     <> claimed_outline skipping_deck one_page_per_slide.
Proof.
  assert (makeOutline (tocTree skipping_deck one_page_per_slide)
          = "1||Intro" +:+ nl +:+ "2|-|Details") as H1 by (vm_compute; reflexivity).
  assert (claimed_outline skipping_deck one_page_per_slide
          = "1||Intro" +:+ nl +:+ "2|--|Details") as H2 by (vm_compute; reflexivity).
  split; [exact H1|]. split; [exact H2|]. rewrite H1, H2. vm_compute. discriminate.
Qed.

Example outline_first_title_at_level_two :
  makeOutline
    (tocTree [mkSlideInfo 0 (Some "Intro") (Some 2) false] one_page_per_slide)
  = "1||Intro".
Proof. vm_compute. reflexivity. Qed.

End TocProofs.

Module OptionsProofs.
Import JS Options.

Lemma contiguous_chain pages : contiguous pages <-> chain None pages.
Proof.
  destruct pages as [|a rest]; [easy|].
  assert (forall a rest, contiguous (a :: rest) <-> chain (Some a) rest) as H.
  { clear. intros a rest. revert a.
    induction rest as [|b rest IH]; intros a; [easy|].
    change (contiguous (a :: b :: rest)) with (b = a + 1 /\ contiguous (b :: rest)).
    simpl chain. now rewrite IH. }
  simpl chain. rewrite <- H. tauto.
Qed.

Lemma every_indexed_chain (before l : list Z) :
  let pages := before ++ l in
  forallb (fun '(index, value) =>
             match index with
             | O => true
             | S k =>
                 match pages !! k with
                 | Some previous => value =? previous + 1
                 | None => false
                 end
             end)
          (imap (fun i v => ((length before + i)%nat, v)) l) = true
  <-> chain (last before) l.
Proof.
  cbn zeta. revert before. induction l as [|v r IH]; intros before; [easy|].
  rewrite imap_cons. simpl forallb. rewrite andb_true_iff. simpl chain.
  assert (imap ((fun i v0 => ((length before + i)%nat, v0)) ∘ S) r
          = imap (fun i v0 => ((length (before ++ [v]) + i)%nat, v0)) r) as ->.
  { apply imap_ext. intros i x _. simpl. rewrite length_app. simpl.
    f_equal. lia. }
  replace (before ++ v :: r) with ((before ++ [v]) ++ r)
    by now rewrite <- app_assoc.
  rewrite IH, last_snoc.
  replace ((before ++ [v]) ++ r) with (before ++ v :: r)
    by now rewrite <- app_assoc.
  apply and_iff_compat_r.
  rewrite Nat.add_0_r.
  destruct before as [|b0 before'] using rev_ind; [easy|].
  rewrite length_app, last_snoc. simpl length.
  replace (length before' + 1)%nat with (S (length before')) by lia.
  rewrite <- app_assoc. simpl.
  rewrite lookup_app_r by lia. rewrite Nat.sub_diag. simpl.
  apply Z.eqb_eq.
Qed.

(** [isContiguousRange] decides that each element is the previous one
    plus 1. *)
Lemma isContiguousRange_spec pages :
  isContiguousRange pages = true <-> contiguous pages.
Proof.
  rewrite contiguous_chain. unfold isContiguousRange.
  exact (every_indexed_chain [] pages).
Qed.

End OptionsProofs.

Module RecorderProofs.
Import JS Bridge Options Recorder.

Section Facts.

Context {W : Type} (env : Env W).

Abbreviation M := (M W).

Lemma bind_Ret_inv {A B} (m : M A) (k : A -> M B) st b st' :
  bind m k st = (Ret b, st') ->
  exists a st1, m st = (Ret a, st1) /\ k a st1 = (Ret b, st').
Proof.
  unfold bind. destruct (m st) as [[a| |] st1]; try discriminate.
  intros H. now exists a, st1.
Qed.

Lemma bind_inv {A B} (m : M A) (k : A -> M B) st o st' :
  bind m k st = (o, st') ->
  (exists a st1, m st = (Ret a, st1) /\ k a st1 = (o, st'))
  \/ (exists message, m st = (Err message, st') /\ o = Err message)
  \/ (m st = (OutOfFuel, st') /\ o = OutOfFuel).
Proof.
  unfold bind. destruct (m st) as [[a|message|] st1]; intros H.
  - left. now exists a, st1.
  - injection H as <- <-. right. left. now exists message.
  - injection H as <- <-. now right; right.
Qed.

Lemma call_Ret_inv {A} (op : W -> result A * W) ev st a st' :
  call op ev st = (Ret a, st') ->
  exists w, op (world st) = (Ok a, w) /\ st' = record st w (ev a).
Proof.
  unfold call. destruct (op (world st)) as [[a'|m] w]; [|discriminate].
  intros [= <- <-]. now exists w.
Qed.

Lemma call_total_inv {A} (op : W -> A * W) ev st o st' :
  call_total op ev st = (o, st') ->
  exists a w, op (world st) = (a, w) /\ o = Ret a /\ st' = record st w (ev a).
Proof.
  unfold call_total. destruct (op (world st)) as [a w].
  intros [= <- <-]. now exists a, w.
Qed.

Lemma projections_app :
  forall l1 l2,
    captures (l1 ++ l2) = captures l1 ++ captures l2
    /\ writes (l1 ++ l2) = writes l1 ++ writes l2
    /\ sleeps (l1 ++ l2) = sleeps l1 ++ sleeps l2
    /\ readings (l1 ++ l2) = readings l1 ++ readings l2.
Proof. intros. unfold captures, writes, sleeps, readings. now rewrite !omap_app. Qed.

(** *** What a computation can leave in the log *)

Lemma emits_ret {A} P (a : A) : emits P (ret (W:=W) a).
Proof. intros st o st' [= <- <-]. exists []. now rewrite app_nil_r. Qed.

Lemma emits_throw {A} P message : emits P (throw (W:=W) (A:=A) message).
Proof. intros st o st' [= <- <-]. exists []. now rewrite app_nil_r. Qed.

Lemma emits_out_of_fuel {A} P : emits P (out_of_fuel (W:=W) (A:=A)).
Proof. intros st o st' [= <- <-]. exists []. now rewrite app_nil_r. Qed.

Lemma emits_bind {A B} P (m : M A) (k : A -> M B) :
  emits P m -> (forall a, emits P (k a)) -> emits P (bind m k).
Proof.
  intros Hm Hk st o st' H.
  apply bind_inv in H as [(a & st1 & H1 & H2) | [(msg & H1 & ->) | [H1 ->]]];
    try (now apply Hm in H1).
  apply Hm in H1 as (d1 & E1 & F1). apply Hk in H2 as (d2 & E2 & F2).
  exists (d1 ++ d2). split; [now rewrite E2, E1, app_assoc|].
  now apply Forall_app.
Qed.

Lemma emits_try_catch {A} P (m : M A) handler :
  emits P m -> (forall e, emits P (handler e)) -> emits P (try_catch m handler).
Proof.
  intros Hm Hh st o st' H. unfold try_catch in H.
  destruct (m st) as [[a|msg|] st1] eqn:E.
  - injection H as <- <-. apply (Hm _ _ _ E).
  - apply Hm in E as (d1 & E1 & F1). apply Hh in H as (d2 & E2 & F2).
    exists (d1 ++ d2). split; [now rewrite E2, E1, app_assoc|].
    now apply Forall_app.
  - injection H as <- <-. apply (Hm _ _ _ E).
Qed.

Lemma emits_call {A} (P : event -> Prop) (op : W -> result A * W) ev :
  (forall a, P (ev a)) -> (forall message, P (EvFail message)) ->
  emits P (call op ev).
Proof.
  intros Hev Hfail st o st' H. unfold call in H.
  destruct (op (world st)) as [[a|msg] w]; injection H as <- <-; simpl;
    eexists; (split; [reflexivity|]); repeat constructor; auto.
Qed.

Lemma emits_call_total {A} (P : event -> Prop) (op : W -> A * W) ev :
  (forall a, P (ev a)) -> emits P (call_total op ev).
Proof.
  intros Hev st o st' H. unfold call_total in H.
  destruct (op (world st)) as [a w]. injection H as <- <-. simpl.
  eexists; (split; [reflexivity|]); repeat constructor; auto.
Qed.

Lemma emits_act (P : event -> Prop) (op : W -> W) e :
  P e -> emits P (act op e).
Proof.
  intros He st o st' [= <- <-]. simpl.
  eexists; (split; [reflexivity|]); repeat constructor; auto.
Qed.

Lemma emits_getWrittenFrames P : emits P (getWrittenFrames (W:=W)).
Proof. intros st o st' [= <- <-]. exists []. now rewrite app_nil_r. Qed.

Lemma emits_countFrame P : emits P (countFrame (W:=W)).
Proof. intros st o st' [= <- <-]. exists []. simpl. now rewrite app_nil_r. Qed.

Lemma emits_weaken {A} (P Q : event -> Prop) (m : M A) :
  (forall e, P e -> Q e) -> emits P m -> emits Q m.
Proof.
  intros HPQ Hm st o st' H. apply Hm in H as (d & E & F).
  exists d. split; [exact E|]. eapply Forall_impl; eauto.
Qed.

Lemma tame_emits {A} P (m : M A) : tame P m -> emits P m.
Proof. intros H st o st' E. apply H in E as (d & E1 & F & _). now exists d. Qed.

Lemma tame_ret {A} P (a : A) : tame P (ret (W:=W) a).
Proof.
  intros st o st' [= <- <-]. exists []. rewrite app_nil_r.
  split_and!; [reflexivity | constructor | discriminate].
Qed.

Lemma tame_bind {A B} P (m : M A) (k : A -> M B) :
  tame P m -> (forall a, tame P (k a)) -> tame P (bind m k).
Proof.
  intros Hm Hk st o st' H.
  apply bind_inv in H as [(a & st1 & H1 & H2) | [(msg & H1 & ->) | [H1 ->]]].
  - apply Hm in H1 as (d1 & E1 & F1 & _). apply Hk in H2 as (d2 & E2 & F2 & L2).
    exists (d1 ++ d2). split_and!; [now rewrite E2, E1, app_assoc | now apply Forall_app |].
    intros msg Ho. specialize (L2 msg Ho). rewrite last_app, L2. reflexivity.
  - apply Hm in H1 as (d1 & E1 & F1 & L1). exists d1. split_and!; auto.
    intros message [= <-]. now apply L1.
  - apply Hm in H1 as (d1 & E1 & F1 & L1). exists d1. split_and!; auto.
    discriminate.
Qed.

Lemma tame_call {A} (P : event -> Prop) (op : W -> result A * W) ev :
  (forall a, P (ev a)) -> (forall message, P (EvFail message)) ->
  tame P (call op ev).
Proof.
  intros Hev Hfail st o st' H. unfold call in H.
  destruct (op (world st)) as [[a|msg] w]; injection H as <- <-; simpl;
    eexists; (split_and!; [reflexivity | repeat constructor; auto |]).
  - discriminate.
  - now intros ? [= <-].
Qed.

Lemma tame_call_total {A} (P : event -> Prop) (op : W -> A * W) ev :
  (forall a, P (ev a)) -> tame P (call_total op ev).
Proof.
  intros Hev st o st' H. unfold call_total in H.
  destruct (op (world st)) as [a w]. injection H as <- <-. simpl.
  eexists; (split_and!; [reflexivity | repeat constructor; auto | discriminate]).
Qed.

Lemma tame_act (P : event -> Prop) (op : W -> W) e :
  P e -> tame P (act op e).
Proof.
  intros He st o st' [= <- <-]. simpl.
  eexists; (split_and!; [reflexivity | repeat constructor; auto | discriminate]).
Qed.

Lemma tame_getWrittenFrames P : tame P (getWrittenFrames (W:=W)).
Proof.
  intros st o st' [= <- <-]. exists []. rewrite app_nil_r.
  split_and!; [reflexivity | constructor | discriminate].
Qed.

Lemma tame_countFrame P : tame P (countFrame (W:=W)).
Proof.
  intros st o st' [= <- <-]. exists []. simpl. rewrite app_nil_r.
  split_and!; [reflexivity | constructor | discriminate].
Qed.

Lemma tame_out_of_fuel {A} P : tame P (out_of_fuel (W:=W) (A:=A)).
Proof.
  intros st o st' [= <- <-]. exists []. rewrite app_nil_r.
  split_and!; [reflexivity | constructor | discriminate].
Qed.

Lemma tame_weaken {A} (P Q : event -> Prop) (m : M A) :
  (forall e, P e -> Q e) -> tame P m -> tame Q m.
Proof.
  intros HPQ Hm st o st' H. apply Hm in H as (d & E & F & L).
  exists d. split_and!; auto. eapply Forall_impl; eauto.
Qed.

Lemma fuel_free_ret {A} (a : A) : fuel_free (ret (W:=W) a).
Proof. intros st st'. discriminate. Qed.

Lemma fuel_free_throw {A} message : fuel_free (throw (W:=W) (A:=A) message).
Proof. intros st st'. discriminate. Qed.

Lemma fuel_free_bind {A B} (m : M A) (k : A -> M B) :
  fuel_free m -> (forall a, fuel_free (k a)) -> fuel_free (bind m k).
Proof.
  intros Hm Hk st st' H.
  apply bind_inv in H as [(a & st1 & H1 & H2) | [(msg & H1 & [=]) | [H1 _]]].
  - now apply Hk in H2.
  - now apply Hm in H1.
Qed.

Lemma fuel_free_call {A} (op : W -> result A * W) ev : fuel_free (call op ev).
Proof.
  intros st st'. unfold call. now destruct (op (world st)) as [[a|msg] w].
Qed.

Lemma fuel_free_call_total {A} (op : W -> A * W) ev : fuel_free (call_total op ev).
Proof. intros st st'. unfold call_total. now destruct (op (world st)). Qed.

Lemma fuel_free_act (op : W -> W) e : fuel_free (act op e).
Proof. intros st st'. discriminate. Qed.

Lemma fuel_free_getWrittenFrames : fuel_free (getWrittenFrames (W:=W)).
Proof. intros st st'. discriminate. Qed.

Lemma fuel_free_countFrame : fuel_free (countFrame (W:=W)).
Proof. intros st st'. discriminate. Qed.

End Facts.

Ltac tame_step :=
  first
    [ apply tame_ret | apply tame_out_of_fuel
    | apply tame_getWrittenFrames | apply tame_countFrame
    | apply tame_bind; [|intros ?]
    | apply tame_call; [intros ?; try exact I | intros ?; try exact I]
    | apply tame_call_total; intros ?; try exact I
    | apply tame_act; try exact I
    | match goal with
      | |- tame _ (if ?b then _ else _) => destruct b
      | |- tame _ (match ?x with _ => _ end) => destruct x
      end ].

Ltac tame_auto := repeat tame_step.

Ltac fuel_free_step :=
  first
    [ apply fuel_free_ret | apply fuel_free_throw
    | apply fuel_free_getWrittenFrames | apply fuel_free_countFrame
    | apply fuel_free_call | apply fuel_free_call_total | apply fuel_free_act
    | apply fuel_free_bind; [|intros ?]
    | match goal with
      | |- fuel_free (if ?b then _ else _) => destruct b
      | |- fuel_free (match ?x with _ => _ end) => destruct x
      end ].

Ltac fuel_free_auto := repeat fuel_free_step.

(** Breaks a goal [emits P m] along the structure of [m]; what is left are
    the goals [P e] for the log entries of [m] that do not hold by
    computation. *)
Ltac emits_step :=
  first
    [ apply emits_ret | apply emits_throw | apply emits_out_of_fuel
    | apply emits_getWrittenFrames | apply emits_countFrame
    | apply emits_bind; [|intros ?]
    | apply emits_try_catch; [|intros ?]
    | apply emits_call; [intros ?; try exact I | intros ?; try exact I]
    | apply emits_call_total; intros ?; try exact I
    | apply emits_act; try exact I
    | match goal with
      | |- emits _ (if ?b then _ else _) => destruct b
      | |- emits _ (match ?x with _ => _ end) => destruct x
      end ].

Ltac emits_auto := repeat emits_step.

Section CaptureFacts.

Context {W : Type} (env : Env W).
Variables (videoFps startedAt : Z) (clip : option Clip).

Lemma tame_now : tame capture_event (now env).
Proof. unfold now. tame_auto. Qed.

Lemma tame_sleep ms : tame capture_event (sleep env ms).
Proof. unfold sleep. tame_auto. Qed.

Lemma tame_captureFrame : tame capture_event (captureFrame env clip).
Proof. unfold captureFrame. tame_auto. Qed.

Lemma tame_writeFrame b : tame capture_event (writeFrame env b).
Proof. unfold writeFrame. tame_auto. Qed.

Lemma tame_writeMissing n b : tame capture_event (writeMissing env n b).
Proof.
  induction n as [|n IH]; simpl; [tame_auto|].
  apply tame_bind; [apply tame_writeFrame|intros _].
  apply tame_bind; [apply tame_countFrame|intros _]. exact IH.
Qed.

Lemma tame_catchUpFrames b :
  tame capture_event (catchUpFrames env videoFps startedAt b).
Proof.
  unfold catchUpFrames.
  apply tame_bind; [apply tame_now|intros t].
  apply tame_bind; [apply tame_getWrittenFrames|intros w].
  apply tame_writeMissing.
Qed.

Lemma tame_captureAndWriteFrame :
  tame capture_event (captureAndWriteFrame env videoFps startedAt clip).
Proof.
  unfold captureAndWriteFrame.
  apply tame_bind; [apply tame_captureFrame|intros frame].
  apply tame_bind; [apply tame_writeFrame|intros _].
  apply tame_bind; [apply tame_countFrame|intros _].
  apply tame_bind; [apply tame_catchUpFrames|intros _].
  apply tame_bind; [apply tame_now|intros t].
  apply tame_bind; [apply tame_getWrittenFrames|intros w].
  apply tame_bind; [|intros _; apply tame_ret].
  destruct (Qltb _ _); [apply tame_sleep | apply tame_ret].
Qed.

Lemma tame_captureUntil fuel deadline :
  tame capture_event (captureUntil env videoFps startedAt clip fuel deadline).
Proof.
  induction fuel as [|fuel IH]; simpl; [apply tame_out_of_fuel|].
  apply tame_bind; [apply tame_now|intros t].
  destruct (Qltb _ _); [|apply tame_ret].
  apply tame_bind; [apply tame_captureAndWriteFrame|intros _]. exact IH.
Qed.

Lemma tame_captureForDuration fuel durationMs :
  tame capture_event
        (captureForDuration env videoFps startedAt clip fuel durationMs).
Proof.
  unfold captureForDuration. destruct (Qle_bool _ _); [apply tame_ret|].
  apply tame_bind; [apply tame_now|intros t]. apply tame_captureUntil.
Qed.

Lemma tame_captureStill :
  tame capture_event (captureStill env videoFps startedAt clip).
Proof.
  unfold captureStill.
  apply tame_bind; [apply tame_captureFrame|intros frame].
  apply tame_bind; [apply tame_writeFrame|intros _].
  apply tame_bind; [apply tame_countFrame|intros _].
  apply tame_catchUpFrames.
Qed.

Lemma fuel_free_writeMissing n b : fuel_free (writeMissing env n b).
Proof.
  induction n as [|n IH]; simpl; [apply fuel_free_ret|].
  unfold writeFrame. fuel_free_auto. exact IH.
Qed.

Lemma fuel_free_captureAndWriteFrame :
  fuel_free (captureAndWriteFrame env videoFps startedAt clip).
Proof.
  unfold captureAndWriteFrame, captureFrame, writeFrame, catchUpFrames, now, sleep.
  fuel_free_auto; apply fuel_free_writeMissing.
Qed.

Lemma fuel_free_captureStill :
  fuel_free (captureStill env videoFps startedAt clip).
Proof.
  unfold captureStill, captureFrame, writeFrame, catchUpFrames, now.
  fuel_free_auto; apply fuel_free_writeMissing.
Qed.

(** *** Frame scheduling *)

Lemma writes_only_app f l1 l2 :
  writes_only f l1 -> writes_only f l2 -> writes_only f (l1 ++ l2).
Proof. intros. now apply Forall_app. Qed.

Lemma writes_app l1 l2 : writes (l1 ++ l2) = writes l1 ++ writes l2.
Proof. unfold writes. now rewrite omap_app. Qed.

Lemma writeFrame_Ret b st u st' :
  writeFrame env b st = (Ret u, st') ->
  exists d, log st' = log st ++ d /\ writes_only b d /\ writes d = [b]
            /\ writtenFrames st' = writtenFrames st.
Proof.
  unfold writeFrame. intros H.
  apply bind_Ret_inv in H as (flushed & st1 & H1 & H2).
  apply call_total_inv in H1 as (a & w & _ & [= <-] & ->).
  destruct flushed.
  - injection H2 as <- <-. exists [EvWrite b]. simpl.
    split_and!; try reflexivity. repeat constructor; now left.
  - apply call_Ret_inv in H2 as (w2 & _ & ->). exists [EvWrite b; EvDrain].
    simpl. rewrite <- app_assoc.
    split_and!; try reflexivity.
    constructor; [now left|]. constructor; [now right|]. constructor.
Qed.

Lemma writeMissing_Ret n b st u st' :
  writeMissing env n b st = (Ret u, st') ->
  exists d, log st' = log st ++ d /\ writes_only b d /\ writes d = repeat b n
            /\ writtenFrames st' = writtenFrames st + Z.of_nat n.
Proof.
  revert st. induction n as [|n IH]; intros st H; simpl in H.
  - injection H as <- <-. exists []. rewrite app_nil_r.
    split_and!; try reflexivity; [constructor | simpl; lia].
  - apply bind_Ret_inv in H as (u1 & st1 & H1 & H).
    apply bind_Ret_inv in H as (u2 & st2 & H2 & H).
    apply writeFrame_Ret in H1 as (d1 & E1 & O1 & W1 & C1).
    injection H2 as <- <-.
    apply IH in H as (d2 & E2 & O2 & W2 & C2). simpl in E2, C2.
    exists (d1 ++ d2). rewrite E2, E1, app_assoc, writes_app, W1, W2, C2, C1.
    split_and!; try reflexivity; [now apply writes_only_app | lia].
Qed.

Lemma now_inv st o st' :
  now env st = (o, st') ->
  exists t, o = Ret t /\ log st' = log st ++ [EvNow t]
            /\ writtenFrames st' = writtenFrames st.
Proof.
  unfold now. intros H. apply call_total_inv in H as (t & w & _ & -> & ->).
  now exists t.
Qed.

Lemma catchUpFrames_Ret b st u st' :
  catchUpFrames env videoFps startedAt b st = (Ret u, st') ->
  exists t d,
    log st' = log st ++ EvNow t :: d
    /\ writes_only b d
    /\ writes d
       = repeat b (Z.to_nat (expectedFrames videoFps (t - startedAt)
                             - writtenFrames st))
    /\ writtenFrames st'
       = Z.max (writtenFrames st) (expectedFrames videoFps (t - startedAt)).
Proof.
  unfold catchUpFrames. intros H.
  apply bind_Ret_inv in H as (t & st1 & H1 & H).
  apply now_inv in H1 as (t' & [= <-] & E1 & C1).
  apply bind_Ret_inv in H as (written & st2 & H2 & H).
  injection H2 as <- <-.
  apply writeMissing_Ret in H as (d & E & O & Wd & C).
  exists t, d. rewrite C1 in Wd, C. rewrite E, E1, <- app_assoc, C.
  split_and!; auto. lia.
Qed.

Lemma sleep_inv ms st o st' :
  sleep env ms st = (o, st') ->
  o = Ret tt
  /\ log st' = log st ++ (if Qle_bool ms 0 then [] else [EvSleep ms])
  /\ writtenFrames st' = writtenFrames st.
Proof.
  unfold sleep. destruct (Qle_bool ms 0); intros [= <- <-]; simpl;
    now rewrite ?app_nil_r.
Qed.

(** What a [captureAndWriteFrame] that returns has done. *)
Lemma captureAndWriteFrame_Ret st frame st' :
  captureAndWriteFrame env videoFps startedAt clip st = (Ret frame, st') ->
  exists t1 t2 first copies,
    let expected := Z.max 1 ((t1 - startedAt) * videoFps / 1000) in
    let written := Z.max (writtenFrames st + 1) expected in
    let sleepMs := pacingDelay videoFps written (t2 - startedAt) in
    log st'
    = log st ++ [EvCapture frame] ++ first ++ [EvNow t1] ++ copies
        ++ [EvNow t2] ++ (if Qltb 0 sleepMs then [EvSleep sleepMs] else [])
    /\ writes_only frame first /\ writes first = [frame]
    /\ writes_only frame copies
    /\ writes copies = repeat frame (Z.to_nat (expected - (writtenFrames st + 1)))
    /\ writtenFrames st' = written
    /\ expected <= writtenFrames st'
    /\ (total_sleep (if Qltb 0 sleepMs then [EvSleep sleepMs] else [])
        == Qmax 0 sleepMs)%Q.
Proof.
  unfold captureAndWriteFrame. intros H.
  apply bind_Ret_inv in H as (f & st1 & H1 & H).
  apply call_Ret_inv in H1 as (w1 & _ & ->).
  apply bind_Ret_inv in H as (u2 & st2 & H2 & H).
  apply writeFrame_Ret in H2 as (d2 & E2 & O2 & W2 & C2).
  apply bind_Ret_inv in H as (u3 & st3 & H3 & H). injection H3 as <- <-.
  apply bind_Ret_inv in H as (u4 & st4 & H4 & H).
  apply catchUpFrames_Ret in H4 as (t1 & d4 & E4 & O4 & W4 & C4).
  apply bind_Ret_inv in H as (t2 & st5 & H5 & H).
  apply now_inv in H5 as (t2' & [= <-] & E5 & C5).
  apply bind_Ret_inv in H as (written & st6 & H6 & H). injection H6 as <- <-.
  apply bind_Ret_inv in H as (u7 & st7 & H7 & H). injection H as <- <-.
  simpl in E2, C2, E4, C4. unfold expectedFrames in *.
  set (expected := Z.max 1 ((t1 - startedAt) * videoFps / 1000)) in *.
  assert (writtenFrames st5 = Z.max (writtenFrames st + 1) expected) as Hw
    by (rewrite C5, C4, C2; reflexivity).
  exists t1, t2, d2, d4. cbn zeta. fold expected.
  rewrite <- Hw.
  set (sleepMs := pacingDelay videoFps (writtenFrames st5) (t2 - startedAt)) in *.
  assert (log st7 = log st5 ++ (if Qltb 0 sleepMs then [EvSleep sleepMs] else []))
    as E7.
  { unfold Qltb in *. destruct (Qle_bool sleepMs 0) eqn:Es; simpl in H7.
    - injection H7 as _ <-. now rewrite app_nil_r.
    - apply sleep_inv in H7 as (_ & E7 & _). now rewrite Es in E7. }
  assert (writtenFrames st7 = writtenFrames st5) as C7.
  { destruct (Qltb 0 sleepMs); [now apply sleep_inv in H7|].
    now injection H7 as _ <-. }
  split.
  { rewrite E7, E5, E4, E2. simpl. now rewrite <- !app_assoc. }
  split_and!; auto.
  - rewrite W4, C2. reflexivity.
  - rewrite C7, Hw. lia.
  - unfold Qltb. destruct (Qle_bool sleepMs 0) eqn:Es; simpl.
    + apply Qle_bool_iff in Es. symmetry. unfold total_sleep. simpl.
      apply Q.max_l. exact Es.
    + unfold total_sleep. simpl. rewrite Qplus_0_r. symmetry. apply Q.max_r.
      apply Qlt_le_weak, Qnot_le_lt. intros Hle.
      apply Qle_bool_iff in Hle. congruence.
Qed.

(** *** The transition wait *)

Lemma writes_only_quiet f l :
  writes_only f l ->
  Forall capture_event l /\ captures l = [] /\ failures l = [].
Proof.
  induction 1 as [|e l [-> | ->] Hl (IH1 & IH2 & IH3)]; simpl;
    split_and!; try constructor; auto; exact I.
Qed.

Lemma captureAndWriteFrame_round st frame st' :
  captureAndWriteFrame env videoFps startedAt clip st = (Ret frame, st') ->
  exists c, log st' = log st ++ c /\ capture_round c.
Proof.
  intros H.
  apply captureAndWriteFrame_Ret in H
    as (t1 & t2 & first & copies & E & O1 & _ & O2 & _).
  cbn zeta in E. eexists. split; [exact E|].
  apply writes_only_quiet in O1 as (F1 & C1 & X1).
  apply writes_only_quiet in O2 as (F2 & C2 & X2).
  unfold capture_round, captures, failures in *.
  rewrite !omap_app, C1, C2, X1, X2.
  split_and!.
  - repeat (apply Forall_app; split); auto; try (repeat constructor; exact I).
    destruct (Qltb _ _); repeat constructor.
  - now destruct (Qltb _ _).
  - now destruct (Qltb _ _).
Qed.

Lemma getStepInfo_inv st o st' :
  getStepInfo env st = (o, st') ->
  (exists window w, pageWindow env (world st) = (Ok window, w)
                    /\ o = Ret (stepInfoOfWindow window)
                    /\ log st' = log st ++ [EvStepInfo (stepInfoOfWindow window)]
                    /\ writtenFrames st' = writtenFrames st)
  \/ (exists message, o = Err message /\ log st' = log st ++ [EvFail message]).
Proof.
  unfold getStepInfo, bind, call.
  destruct (pageWindow env (world st)) as [[window|message] w]; intros [= <- <-].
  - left. now exists window, w.
  - right. now exists message.
Qed.

Lemma waiting_app deadline prev d1 d2 :
  waiting deadline prev d1 -> waiting deadline prev d2 ->
  waiting deadline prev (d1 ++ d2).
Proof.
  induction 1 as [|t c step rest Ht Hc Hs Hr IH]; intros H2; [exact H2|].
  rewrite <- !app_assoc. constructor; auto.
Qed.

Lemma transitionWait_spec fuel deadline prev st :
  let '(o, st') :=
    transitionWait env videoFps startedAt clip fuel deadline prev st in
  exists d, log st' = log st ++ d /\ wait_outcome deadline prev o d.
Proof.
  revert st. induction fuel as [|fuel IH]; intros st; simpl.
  { exists []. rewrite app_nil_r. split; [reflexivity | constructor]. }
  unfold bind at 1.
  destruct (now env st) as [o1 st1] eqn:E1.
  apply now_inv in E1 as (t & -> & L1 & _).
  destruct (t <? deadline) eqn:Et.
  2:{ exists [EvNow t]. split; [exact L1|]. exists [], t.
      split_and!; [reflexivity | constructor | lia]. }
  apply Z.ltb_lt in Et. unfold bind at 1.
  destruct (captureAndWriteFrame env videoFps startedAt clip st1)
    as [[frame|message|] st2] eqn:E2.
  - apply captureAndWriteFrame_round in E2 as (c & L2 & Hc).
    unfold bind at 1.
    destruct (getStepInfo env st2) as [o3 st3] eqn:E3.
    apply getStepInfo_inv in E3
      as [(window & w & _ & -> & L3 & _) | (message & -> & L3)].
    + set (step := stepInfoOfWindow window) in *.
      destruct (String.eqb (getStepKey step) prev) eqn:Ek; simpl.
      * apply String.eqb_eq in Ek. specialize (IH st3).
        destruct (transitionWait env videoFps startedAt clip fuel deadline prev st3)
          as [o st'].
        destruct IH as (d & L & Ho).
        assert (waiting deadline prev ([EvNow t] ++ c ++ [EvStepInfo step] ++ []))
          as Hround by (constructor; auto; constructor).
        rewrite app_nil_r in Hround.
        exists (([EvNow t] ++ c ++ [EvStepInfo step]) ++ d).
        split; [rewrite L, L3, L2, L1; now rewrite <- !app_assoc|].
        destruct o as [[|]| |]; simpl in *.
        -- destruct Ho as (d0 & t' & c' & step' & -> & Hw & Hrest).
           exists (([EvNow t] ++ c ++ [EvStepInfo step]) ++ d0), t', c', step'.
           split; [now rewrite <- !app_assoc|].
           split; [now apply waiting_app | exact Hrest].
        -- destruct Ho as (d0 & t' & -> & Hw & Hrest).
           exists (([EvNow t] ++ c ++ [EvStepInfo step]) ++ d0), t'.
           split; [now rewrite <- !app_assoc|].
           split; [now apply waiting_app | exact Hrest].
        -- destruct Ho as (d0 & d1 & -> & Hw & Hrest).
           exists (([EvNow t] ++ c ++ [EvStepInfo step]) ++ d0), d1.
           split; [now rewrite <- !app_assoc|].
           split; [now apply waiting_app | exact Hrest].
        -- exact (waiting_app deadline prev _ d Hround Ho).
      * apply String.eqb_neq in Ek.
        exists ([EvNow t] ++ c ++ [EvStepInfo step]).
        split; [rewrite L3, L2, L1; now rewrite <- !app_assoc|].
        exists [], t, c, step. split_and!; auto. constructor.
    + exists ([EvNow t] ++ c ++ [EvFail message]).
      split; [rewrite L3, L2, L1; now rewrite <- !app_assoc|].
      exists [], ([EvNow t] ++ c ++ [EvFail message]).
      split_and!; [reflexivity | constructor |].
      now rewrite !last_app.
  - apply tame_captureAndWriteFrame in E2 as (d & L2 & _ & Hlast).
    exists ([EvNow t] ++ d). split; [rewrite L2, L1; now rewrite <- app_assoc|].
    exists [], ([EvNow t] ++ d). split_and!; [reflexivity | constructor |].
    rewrite last_app, (Hlast message eq_refl). reflexivity.
  - now apply fuel_free_captureAndWriteFrame in E2.
Qed.

(** After [nextStep()] the recorder reads the clock ([t0]) and sets
    the deadline [t0 + min(10000, max(2000, timeout))].  It then repeats
    rounds, each made of a clock reading before the deadline, the capture
    of a frame and a reading of the step, for as long as the step key is
    the saved one.  The wait ends normally on the first step whose key
    differs; when instead the clock is read at or past the deadline, the
    export fails with "[slidev] Failed to advance from step <key>".  The
    only other ends are a failure of the environment (a capture or a page
    call that threw) and the exhaustion of the fuel between two rounds. *)
Lemma transition_wait_shape
    (fuel : nat) (previousStamp : string) (timeout : Z) (st : state W) :
  let '(o, st') :=
    awaitTransition env videoFps startedAt clip fuel previousStamp timeout st in
  exists t0 d,
    log st' = log st ++ [EvNow t0] ++ d
    /\ let deadline := t0 + Z.min 10000 (Z.max 2000 timeout) in
       match o with
       | Ret _ =>
           exists d0 t c step,
             d = d0 ++ [EvNow t] ++ c ++ [EvStepInfo step]
             /\ waiting deadline previousStamp d0
             /\ t < deadline /\ capture_round c
             /\ getStepKey step <> previousStamp
       | Err message =>
           (exists d0 t,
              d = d0 ++ [EvNow t]
              /\ waiting deadline previousStamp d0 /\ deadline <= t
              /\ message = "[slidev] Failed to advance from step " +:+ previousStamp)
           \/ (exists d0 d1,
                 d = d0 ++ d1
                 /\ waiting deadline previousStamp d0
                 /\ last d1 = Some (EvFail message))
       | OutOfFuel => waiting deadline previousStamp d
       end.
Proof.
  unfold awaitTransition. unfold bind at 1.
  destruct (now env st) as [o1 st1] eqn:E1.
  apply now_inv in E1 as (t0 & -> & L1 & _).
  unfold bind at 1. unfold transitionTimeoutMs.
  set (deadline := t0 + Z.min 10000 (Z.max 2000 timeout)).
  pose proof (transitionWait_spec fuel deadline previousStamp st1) as H.
  destruct (transitionWait env videoFps startedAt clip fuel deadline previousStamp st1)
    as [o st'].
  destruct H as (d & L & Ho).
  destruct o as [[|]|message|]; simpl.
  - exists t0, d. split; [rewrite L, L1; now rewrite <- app_assoc | exact Ho].
  - exists t0, d. split; [rewrite L, L1; now rewrite <- app_assoc|].
    left. destruct Ho as (d0 & t & -> & Hw & Ht). now exists d0, t.
  - exists t0, d. split; [rewrite L, L1; now rewrite <- app_assoc|].
    right. exact Ho.
  - exists t0, d. split; [rewrite L, L1; now rewrite <- app_assoc | exact Ho].
Qed.

(** *** The main loop on a page without bridge *)

Lemma capture_is_dwell_event e : capture_event e -> dwell_event e.
Proof. now destruct e. Qed.

Lemma dwell_is_loop_event e : dwell_event e -> loop_event e.
Proof. now destruct e. Qed.

Lemma tame_getTransitionSettleBudget :
  tame dwell_event (getTransitionSettleBudget env).
Proof. unfold getTransitionSettleBudget. tame_auto. Qed.

Lemma tame_waitForStepSettled timeout :
  tame dwell_event (waitForStepSettled env timeout).
Proof.
  unfold waitForStepSettled.
  apply tame_bind; [apply tame_getTransitionSettleBudget|intros budget].
  apply tame_bind;
    [eapply tame_weaken; [apply capture_is_dwell_event | apply tame_sleep]|intros _].
  tame_auto.
Qed.

Lemma tame_dwell fuel plan :
  tame dwell_event (dwell env videoFps startedAt clip fuel plan).
Proof.
  unfold dwell.
  apply tame_bind; [apply tame_waitForStepSettled|intros _].
  eapply tame_weaken; [apply capture_is_dwell_event | apply tame_captureForDuration].
Qed.

Lemma no_bridge_blank window :
  no_bridge window -> stepInfoOfWindow window = blank_step.
Proof. intros [Hb Hn]. unfold stepInfoOfWindow. now rewrite Hb, Hn. Qed.

(** On a page that shows neither bridge, the callback of
    [getStepInfo] returns [{ no: 0, clicks: 0, clicksTotal: 0, hasNext:
    false }].  The main loop then runs its first dwell, reads that step
    once and leaves: the log of the loop is the log [d] of the dwell
    followed by the one step reading, [nextStep] is never called, and the
    loop can only fail with an error thrown by the environment (during the
    dwell or by the page call of [getStepInfo]), never with an error of
    the recorder about a missing bridge. *)
Lemma no_bridge_loop_shape
    (fuel rounds : nat) (plan : Mp4Plan) (timeout : Z) (st : state W) :
  (forall w window w', pageWindow env w = (Ok window, w') -> no_bridge window) ->
  (forall window, no_bridge window -> stepInfoOfWindow window = blank_step)
  /\ let '(o, st') :=
       mainLoop env videoFps startedAt clip fuel (S rounds) plan timeout st in
     let '(o1, st1) := dwell env videoFps startedAt clip fuel plan st in
     exists d rest,
       log st1 = log st ++ d
       /\ log st' = log st ++ d ++ rest
       /\ Forall dwell_event d
       /\ Forall (fun e => forall via, e <> EvNextStep via) (d ++ rest)
       /\ match o with
          | Ret _ => o1 = Ret tt /\ rest = [EvStepInfo blank_step]
          | Err message => last (d ++ rest) = Some (EvFail message)
          | OutOfFuel => o1 = OutOfFuel /\ rest = []
          end.
Proof.
  intros Hpage. split; [exact no_bridge_blank|].
  simpl mainLoop. unfold bind at 1.
  destruct (dwell env videoFps startedAt clip fuel plan st) as [o1 st1] eqn:E1.
  pose proof (tame_dwell _ _ _ _ _ E1) as (d & L1 & F1 & X1).
  assert (Forall (fun e => forall via, e <> EvNextStep via) d) as N1.
  { eapply Forall_impl; [exact F1|]. intros e He via ->. exact He. }
  destruct o1 as [[]|message|].
  - unfold bind at 1. destruct (getStepInfo env st1) as [o2 st2] eqn:E2.
    apply getStepInfo_inv in E2
      as [(window & w & Hw & -> & L2 & _) | (message & -> & L2)].
    + rewrite (no_bridge_blank window (Hpage _ _ _ Hw)) in *. simpl.
      exists d, [EvStepInfo blank_step].
      split_and!; auto; [now rewrite L2, L1, <- app_assoc|].
      apply Forall_app. split; [exact N1|]. repeat constructor. discriminate.
    + exists d, [EvFail message].
      split_and!; auto; [now rewrite L2, L1, <- app_assoc | | now rewrite last_app].
      apply Forall_app. split; [exact N1|]. repeat constructor. discriminate.
  - exists d, []. rewrite !app_nil_r. split_and!; auto.
  - exists d, []. rewrite !app_nil_r. split_and!; auto.
Qed.

End CaptureFacts.

(** *** Termination of the capture loops when time passes *)

Section Liveness.

Context {W : Type} (env : Env W) (time : W -> Z) (Htick : Ticking env time).
Variables (videoFps startedAt : Z) (clip : option Clip).

Abbreviation M := (M W).

Lemma advances_ret {A} (a : A) : advances time 0 (ret (W:=W) a).
Proof. intros st o st' [= <- <-]. split; [lia | intros; lia]. Qed.

Lemma advances_bind {A B} k1 k2 (m : M A) (k : A -> M B) :
  0 <= k1 ->
  advances time k1 m -> (forall a, advances time k2 (k a)) ->
  advances time (k1 + k2) (bind m k).
Proof.
  intros Hk1 Hm Hk st o st' H.
  apply bind_inv in H as [(a & st1 & H1 & H2) | [(msg & H1 & ->) | [H1 ->]]].
  - apply Hm in H1 as [M1 R1]. apply Hk in H2 as [M2 R2].
    specialize (R1 a eq_refl). split; [lia|].
    intros b ->. specialize (R2 b eq_refl). lia.
  - apply Hm in H1 as [M1 _]. split; [exact M1 | discriminate].
  - apply Hm in H1 as [M1 _]. split; [exact M1 | discriminate].
Qed.

Lemma advances_weaken {A} k k' (m : M A) :
  k' <= k -> advances time k m -> advances time k' m.
Proof.
  intros Hk Hm st o st' H. apply Hm in H as [M1 R1]. split; [exact M1|].
  intros a Ha. specialize (R1 a Ha). lia.
Qed.

Lemma advances_call {A} k (op : W -> result A * W) ev :
  0 <= k -> (forall w, time w + k <= time (snd (op w))) ->
  advances time k (call op ev).
Proof.
  intros Hk Hop st o st' H. unfold call in H. specialize (Hop (world st)).
  destruct (op (world st)) as [[a|msg] w]; injection H as <- <-; simpl in *;
    (split; [lia | intros; lia]).
Qed.

Lemma advances_call_total {A} (op : W -> A * W) ev :
  (forall w, time w <= time (snd (op w))) ->
  advances time 0 (call_total op ev).
Proof.
  intros Hop st o st' H. unfold call_total in H. specialize (Hop (world st)).
  destruct (op (world st)) as [a w]. injection H as <- <-. simpl in *.
  split; [lia | intros; lia].
Qed.

Lemma advances_act (op : W -> W) e :
  (forall w, time w <= time (op w)) -> advances time 0 (act op e).
Proof.
  intros Hop st o st' [= <- <-]. specialize (Hop (world st)). simpl.
  split; [lia | intros; lia].
Qed.

Lemma advances_getWrittenFrames : advances time 0 (getWrittenFrames (W:=W)).
Proof. intros st o st' [= <- <-]. split; [lia | intros; lia]. Qed.

Lemma advances_countFrame : advances time 0 (countFrame (W:=W)).
Proof. intros st o st' [= <- <-]. simpl. split; [lia | intros; lia]. Qed.

Lemma advances_now : advances time 0 (now env).
Proof. apply advances_call_total. intros w. apply (tick_now Htick). Qed.

Lemma now_reads_time st t st' :
  now env st = (Ret t, st') -> t = time (world st).
Proof.
  unfold now, call_total. pose proof (tick_now Htick (world st)) as [H _].
  destruct (dateNow env (world st)) as [t' w]. simpl in H.
  now intros [= <- _].
Qed.

Lemma advances_sleep ms : advances time 0 (sleep env ms).
Proof.
  unfold sleep. destruct (Qle_bool ms 0); [apply advances_ret|].
  apply advances_act. apply (tick_timer Htick).
Qed.

Lemma advances_writeFrame b : advances time 0 (writeFrame env b).
Proof.
  unfold writeFrame. apply (advances_bind 0 0); [lia | |intros [|]].
  - apply advances_call_total. apply (tick_write Htick).
  - apply advances_ret.
  - apply advances_call; [lia|]. intros w.
    pose proof (tick_drain Htick w). lia.
Qed.

Lemma advances_writeMissing n b : advances time 0 (writeMissing env n b).
Proof.
  induction n as [|n IH]; simpl; [apply advances_ret|].
  apply (advances_bind 0 0); [lia | apply advances_writeFrame | intros _].
  apply (advances_bind 0 0); [lia | apply advances_countFrame | intros _].
  exact IH.
Qed.

Lemma advances_catchUpFrames b :
  advances time 0 (catchUpFrames env videoFps startedAt b).
Proof.
  unfold catchUpFrames.
  apply (advances_bind 0 0); [lia | apply advances_now | intros t].
  apply (advances_bind 0 0); [lia | apply advances_getWrittenFrames | intros w].
  apply advances_writeMissing.
Qed.

(** A capture takes at least the millisecond of its screenshot. *)
Lemma advances_captureAndWriteFrame :
  advances time 1 (captureAndWriteFrame env videoFps startedAt clip).
Proof.
  unfold captureAndWriteFrame.
  apply (advances_bind 1 0); [lia | | intros frame].
  { apply advances_call; [lia|]. intros w. apply (tick_screenshot Htick). }
  apply (advances_bind 0 0); [lia | apply advances_writeFrame | intros _].
  apply (advances_bind 0 0); [lia | apply advances_countFrame | intros _].
  apply (advances_bind 0 0); [lia | apply advances_catchUpFrames | intros _].
  apply (advances_bind 0 0); [lia | apply advances_now | intros t].
  apply (advances_bind 0 0); [lia | apply advances_getWrittenFrames | intros w].
  apply (advances_bind 0 0); [lia | | intros _; apply advances_ret].
  destruct (Qltb _ _); [apply advances_sleep | apply advances_ret].
Qed.

Lemma advances_getStepInfo : advances time 0 (getStepInfo env).
Proof.
  unfold getStepInfo.
  apply (advances_bind 0 0); [lia | | intros w; apply advances_ret].
  apply advances_call; [lia|]. intros w.
  pose proof (tick_page Htick w). lia.
Qed.

Lemma Qltb_lt x y : Qltb x y = true -> (x < y)%Q.
Proof.
  unfold Qltb. intros H. apply negb_true_iff in H.
  apply Qnot_le_lt. intros Hle. apply Qle_bool_iff in Hle. congruence.
Qed.

(** [captureUntil] ends within one round per millisecond that is left. *)
Lemma captureUntil_enough_fuel fuel deadline st :
  (Z.to_nat (Qceiling deadline - time (world st)) < fuel)%nat ->
  fst (captureUntil env videoFps startedAt clip fuel deadline st) <> OutOfFuel.
Proof.
  revert st. induction fuel as [|fuel IH]; intros st Hf; [lia|]. simpl.
  unfold bind at 1. destruct (now env st) as [o1 st1] eqn:E1.
  pose proof (advances_now _ _ _ E1) as [M1 _].
  pose proof E1 as E1'. apply now_inv in E1' as (t & -> & _).
  apply now_reads_time in E1 as ->.
  destruct (Qltb _ _) eqn:Et; [|discriminate].
  apply Qltb_lt in Et.
  assert (time (world st) < Qceiling deadline) as Hlt.
  { rewrite Zlt_Qlt. eapply Qlt_le_trans; [exact Et | apply Qle_ceiling]. }
  unfold bind at 1.
  destruct (captureAndWriteFrame env videoFps startedAt clip st1)
    as [[frame|message|] st2] eqn:E2; [|discriminate|].
  - apply advances_captureAndWriteFrame in E2 as [_ R2].
    specialize (R2 frame eq_refl). apply IH. lia.
  - now apply fuel_free_captureAndWriteFrame in E2.
Qed.

Lemma captureForDuration_enough_fuel fuel durationMs st :
  (Z.to_nat (Qceiling durationMs) < fuel)%nat ->
  fst (captureForDuration env videoFps startedAt clip fuel durationMs st)
  <> OutOfFuel.
Proof.
  intros Hf. unfold captureForDuration.
  destruct (Qle_bool durationMs 0); [discriminate|].
  unfold bind. destruct (now env st) as [o1 st1] eqn:E1.
  pose proof (advances_now _ _ _ E1) as [M1 _].
  pose proof E1 as E1'. apply now_inv in E1' as (t & -> & _).
  apply now_reads_time in E1 as ->.
  apply captureUntil_enough_fuel.
  assert (Qceiling (inject_Z (time (world st)) + durationMs)
          <= time (world st) + Qceiling durationMs) as Hc.
  { rewrite <- (Qceiling_Z (time (world st) + Qceiling durationMs)).
    apply Qceiling_resp_le. rewrite inject_Z_plus.
    apply Qplus_le_r, Qle_ceiling. }
  lia.
Qed.

(** The transition wait ends within one round per millisecond of its
    timeout. *)
Lemma transitionWait_enough_fuel fuel deadline prev st :
  (Z.to_nat (deadline - time (world st)) < fuel)%nat ->
  fst (transitionWait env videoFps startedAt clip fuel deadline prev st)
  <> OutOfFuel.
Proof.
  revert st. induction fuel as [|fuel IH]; intros st Hf; [lia|]. simpl.
  unfold bind at 1. destruct (now env st) as [o1 st1] eqn:E1.
  pose proof (advances_now _ _ _ E1) as [M1 _].
  pose proof E1 as E1'. apply now_inv in E1' as (t & -> & _).
  apply now_reads_time in E1 as ->.
  destruct (_ <? _) eqn:Et; [|discriminate]. apply Z.ltb_lt in Et.
  unfold bind at 1.
  destruct (captureAndWriteFrame env videoFps startedAt clip st1)
    as [[frame|message|] st2] eqn:E2; [|discriminate|].
  - apply advances_captureAndWriteFrame in E2 as [_ R2].
    specialize (R2 frame eq_refl). unfold bind at 1.
    destruct (getStepInfo env st2) as [[step|message|] st3] eqn:E3;
      [|discriminate|].
    + apply advances_getStepInfo in E3 as [M3 _].
      destruct (negb _); [discriminate|]. apply IH. lia.
    + apply getStepInfo_inv in E3 as [(? & ? & _ & [=] & _) | (? & [=] & _)].
  - now apply fuel_free_captureAndWriteFrame in E2.
Qed.

Lemma awaitTransition_enough_fuel fuel prev timeout st :
  (Z.to_nat (Z.min 10000 (Z.max 2000 timeout)) < fuel)%nat ->
  fst (awaitTransition env videoFps startedAt clip fuel prev timeout st)
  <> OutOfFuel.
Proof.
  intros Hf. unfold awaitTransition. unfold bind at 1.
  destruct (now env st) as [o1 st1] eqn:E1.
  pose proof (advances_now _ _ _ E1) as [M1 _].
  pose proof E1 as E1'. apply now_inv in E1' as (t & -> & _).
  apply now_reads_time in E1 as ->.
  unfold bind at 1, transitionTimeoutMs.
  pose proof (transitionWait_enough_fuel fuel
                (time (world st) + Z.min 10000 (Z.max 2000 timeout)) prev st1) as H.
  destruct (transitionWait _ _ _ _ _ _ _ st1) as [[[|]|message|] st2];
    try discriminate.
  simpl in H. exfalso. apply H; [lia | reflexivity].
Qed.

Lemma fuel_free_waitForStepSettled timeout :
  fuel_free (waitForStepSettled env timeout).
Proof.
  unfold waitForStepSettled, getTransitionSettleBudget, sleep. fuel_free_auto.
Qed.

Lemma dwell_enough_fuel fuel plan st :
  (Z.to_nat (Qceiling (inject_Z (plan_interval plan) * plan_playbackSpeedup plan))
   < fuel)%nat ->
  fst (dwell env videoFps startedAt clip fuel plan st) <> OutOfFuel.
Proof.
  intros Hf. unfold dwell, bind.
  destruct (waitForStepSettled env 10000 st) as [[[]|message|] st1] eqn:E1;
    [|discriminate|].
  - now apply captureForDuration_enough_fuel.
  - now apply fuel_free_waitForStepSettled in E1.
Qed.

End Liveness.

(** *** Frames reach the encoder in capture order *)

Section OrderFacts.

Context {W : Type} (env : Env W).
Variables (videoFps startedAt : Z) (clip : option Clip).

Abbreviation M := (M W).

Lemma captures_app l1 l2 : captures (l1 ++ l2) = captures l1 ++ captures l2.
Proof. unfold captures. now rewrite omap_app. Qed.

Lemma cur_after_app cur l1 l2 :
  cur_after cur (l1 ++ l2) = cur_after (cur_after cur l1) l2.
Proof.
  unfold cur_after. rewrite captures_app, last_app.
  destruct (last (captures l2)); [reflexivity|]. reflexivity.
Qed.

Lemma in_order_app cur l1 l2 :
  in_order cur (l1 ++ l2) <-> in_order cur l1 /\ in_order (cur_after cur l1) l2.
Proof.
  revert cur. induction l1 as [|e l1 IH]; intros cur.
  - simpl. unfold cur_after. simpl. tauto.
  - assert (forall c, cur_after c (e :: l1)
                      = cur_after (match e with EvCapture f => Some f | _ => c end) l1)
      as Hc.
    { intros c. unfold cur_after. destruct e; simpl; try reflexivity.
      rewrite last_cons. now destruct (last (captures l1)). }
    rewrite Hc. destruct e; simpl; rewrite IH; tauto.
Qed.

Lemma in_order_neutral cur l :
  Forall neutral_event l -> in_order cur l /\ cur_after cur l = cur.
Proof.
  induction 1 as [|e l He Hl [IH1 IH2]]; [split; [exact I | reflexivity]|].
  unfold cur_after in *. destruct e; simpl in *; try contradiction; now split.
Qed.

Lemma in_order_writes f l :
  Forall (write_or_neutral f) l ->
  in_order (Some f) l /\ cur_after (Some f) l = Some f.
Proof.
  induction 1 as [|e l He Hl [IH1 IH2]]; [split; [exact I | reflexivity]|].
  unfold cur_after in *. destruct He as [-> | He]; [now split|].
  destruct e; simpl in *; try contradiction; now split.
Qed.

Lemma orderly_ret {A} (a : A) : orderly (ret (W:=W) a).
Proof. intros st o st' [= <- <-]. exists []. now rewrite app_nil_r. Qed.

Lemma orderly_throw {A} message : orderly (throw (W:=W) (A:=A) message).
Proof. intros st o st' [= <- <-]. exists []. now rewrite app_nil_r. Qed.

Lemma orderly_out_of_fuel {A} : orderly (out_of_fuel (W:=W) (A:=A)).
Proof. intros st o st' [= <- <-]. exists []. now rewrite app_nil_r. Qed.

Lemma orderly_bind {A B} (m : M A) (k : A -> M B) :
  orderly m -> (forall a, orderly (k a)) -> orderly (bind m k).
Proof.
  intros Hm Hk st o st' H.
  apply bind_inv in H as [(a & st1 & H1 & H2) | [(msg & H1 & ->) | [H1 ->]]];
    try (now apply Hm in H1).
  apply Hm in H1 as (d1 & E1 & F1). apply Hk in H2 as (d2 & E2 & F2).
  exists (d1 ++ d2). split; [now rewrite E2, E1, app_assoc|].
  intros cur. apply in_order_app. split; auto.
Qed.

Lemma orderly_try_catch {A} (m : M A) handler :
  orderly m -> (forall e, orderly (handler e)) -> orderly (try_catch m handler).
Proof.
  intros Hm Hh st o st' H. unfold try_catch in H.
  destruct (m st) as [[a|msg|] st1] eqn:E.
  - injection H as <- <-. apply (Hm _ _ _ E).
  - apply Hm in E as (d1 & E1 & F1). apply Hh in H as (d2 & E2 & F2).
    exists (d1 ++ d2). split; [now rewrite E2, E1, app_assoc|].
    intros cur. apply in_order_app. split; auto.
  - injection H as <- <-. apply (Hm _ _ _ E).
Qed.

Lemma orderly_neutral {A} (m : M A) : emits neutral_event m -> orderly m.
Proof.
  intros Hm st o st' H. apply Hm in H as (d & E & F). exists d.
  split; [exact E|]. intros cur. now apply in_order_neutral.
Qed.

Lemma capture_then_writes {A} (k : Buffer -> M A) :
  (forall f, emits (write_or_neutral f) (k f)) ->
  orderly (bind (captureFrame env clip) k).
Proof.
  intros Hk st o st' H.
  apply bind_inv in H as [(f & st1 & H1 & H2) | [(msg & H1 & ->) | [H1 ->]]].
  - apply call_Ret_inv in H1 as (w & _ & ->).
    apply Hk in H2 as (d2 & E2 & F2). simpl in E2.
    exists ([EvCapture f] ++ d2). split; [now rewrite E2, <- app_assoc|].
    intros cur. simpl. now apply in_order_writes.
  - unfold captureFrame, call in H1.
    destruct (screenshot env clip (world st)) as [[f|m] w]; [discriminate|].
    injection H1 as <- <-. exists [EvFail m]. simpl. split; [reflexivity|].
    now intros cur.
  - now apply fuel_free_call in H1.
Qed.

Lemma emits_writes_writeMissing f n :
  emits (write_or_neutral f) (writeMissing env n f).
Proof.
  induction n as [|n IH]; simpl; [apply emits_ret|].
  apply emits_bind; [|intros _; apply emits_bind; [apply emits_countFrame|intros _; exact IH]].
  unfold writeFrame. emits_auto; first [now left | now right].
Qed.

Lemma emits_writes_catchUpFrames f :
  emits (write_or_neutral f) (catchUpFrames env videoFps startedAt f).
Proof.
  unfold catchUpFrames, now.
  apply emits_bind; [emits_auto; now right|intros t].
  apply emits_bind; [apply emits_getWrittenFrames|intros w].
  apply emits_writes_writeMissing.
Qed.

Lemma orderly_captureAndWriteFrame :
  orderly (captureAndWriteFrame env videoFps startedAt clip).
Proof.
  unfold captureAndWriteFrame. apply capture_then_writes. intros f.
  apply emits_bind; [unfold writeFrame; emits_auto; first [now left | now right]|intros _].
  apply emits_bind; [apply emits_countFrame|intros _].
  apply emits_bind; [apply emits_writes_catchUpFrames|intros _].
  unfold now, sleep. emits_auto; now right.
Qed.

Lemma orderly_captureStill :
  orderly (captureStill env videoFps startedAt clip).
Proof.
  unfold captureStill. apply capture_then_writes. intros f.
  apply emits_bind; [unfold writeFrame; emits_auto; first [now left | now right]|intros _].
  apply emits_bind; [apply emits_countFrame|intros _].
  apply emits_writes_catchUpFrames.
Qed.

Lemma orderly_now : orderly (now env).
Proof. apply orderly_neutral. unfold now. emits_auto. Qed.

Lemma orderly_captureUntil fuel deadline :
  orderly (captureUntil env videoFps startedAt clip fuel deadline).
Proof.
  induction fuel as [|fuel IH]; simpl; [apply orderly_out_of_fuel|].
  apply orderly_bind; [apply orderly_now|intros t].
  destruct (Qltb _ _); [|apply orderly_ret].
  apply orderly_bind; [apply orderly_captureAndWriteFrame|intros _]. exact IH.
Qed.

Lemma orderly_captureForDuration fuel durationMs :
  orderly (captureForDuration env videoFps startedAt clip fuel durationMs).
Proof.
  unfold captureForDuration. destruct (Qle_bool _ _); [apply orderly_ret|].
  apply orderly_bind; [apply orderly_now|intros t]. apply orderly_captureUntil.
Qed.

Lemma orderly_getStepInfo : orderly (getStepInfo env).
Proof. apply orderly_neutral. unfold getStepInfo. emits_auto. Qed.

Lemma orderly_nextStep : orderly (nextStep env).
Proof. apply orderly_neutral. unfold nextStep. emits_auto. Qed.

Lemma orderly_getTransitionSettleBudget : orderly (getTransitionSettleBudget env).
Proof. apply orderly_neutral. unfold getTransitionSettleBudget. emits_auto. Qed.

Lemma orderly_waitForStepSettled timeout : orderly (waitForStepSettled env timeout).
Proof.
  apply orderly_neutral.
  unfold waitForStepSettled, getTransitionSettleBudget, sleep. emits_auto.
Qed.

Lemma orderly_transitionWait fuel deadline prev :
  orderly (transitionWait env videoFps startedAt clip fuel deadline prev).
Proof.
  induction fuel as [|fuel IH]; simpl; [apply orderly_out_of_fuel|].
  apply orderly_bind; [apply orderly_now|intros t].
  destruct (_ <? _); [|apply orderly_ret].
  apply orderly_bind; [apply orderly_captureAndWriteFrame|intros _].
  apply orderly_bind; [apply orderly_getStepInfo|intros step].
  destruct (negb _); [apply orderly_ret | exact IH].
Qed.

Lemma orderly_mainLoop fuel rounds plan timeout :
  orderly (mainLoop env videoFps startedAt clip fuel rounds plan timeout).
Proof.
  induction rounds as [|rounds IH]; simpl; [apply orderly_out_of_fuel|].
  apply orderly_bind; [|intros _].
  { unfold dwell. apply orderly_bind; [apply orderly_waitForStepSettled|intros _].
    apply orderly_captureForDuration. }
  apply orderly_bind; [apply orderly_getStepInfo|intros step].
  destruct (_ || _); [apply orderly_ret|].
  apply orderly_bind; [apply orderly_nextStep|intros advanced].
  destruct (negb advanced); [apply orderly_throw|].
  apply orderly_bind; [|intros _].
  { unfold awaitTransition. apply orderly_bind; [apply orderly_now|intros t].
    apply orderly_bind; [apply orderly_transitionWait|intros changed].
    destruct (negb changed); [apply orderly_throw | apply orderly_ret]. }
  apply orderly_bind; [apply orderly_getTransitionSettleBudget|intros budget].
  apply orderly_bind; [apply orderly_captureForDuration|intros _]. exact IH.
Qed.

Lemma orderly_guardedRecording fuel plan timeout :
  orderly (guardedRecording env videoFps startedAt clip fuel plan timeout).
Proof.
  unfold guardedRecording, recording.
  apply orderly_bind; [|intros [error|]].
  - apply orderly_try_catch; [|intros e; apply orderly_ret].
    apply orderly_bind; [|intros _; apply orderly_ret].
    apply orderly_bind; [apply orderly_captureStill|intros _].
    apply orderly_bind; [apply orderly_mainLoop|intros _].
    apply orderly_bind; [apply orderly_captureStill|intros _].
    apply orderly_neutral. emits_auto.
  - apply orderly_bind; [apply orderly_neutral; emits_auto|intros _].
    apply orderly_bind; [|intros _; apply orderly_throw].
    apply orderly_neutral. emits_auto.
  - apply orderly_ret.
Qed.

End OrderFacts.

(** *** How often the encoder's input is closed *)

Section EndFacts.

Context {W : Type} (env : Env W).
Variables (videoFps startedAt : Z) (clip : option Clip).

Lemma capture_is_loop_event e : capture_event e -> loop_event e.
Proof. now destruct e. Qed.

Lemma emits_loop_captureForDuration fuel durationMs :
  emits loop_event (captureForDuration env videoFps startedAt clip fuel durationMs).
Proof.
  eapply emits_weaken; [apply capture_is_loop_event|].
  apply tame_emits, tame_captureForDuration.
Qed.

Lemma emits_loop_captureAndWriteFrame :
  emits loop_event (captureAndWriteFrame env videoFps startedAt clip).
Proof.
  eapply emits_weaken; [apply capture_is_loop_event|].
  apply tame_emits, tame_captureAndWriteFrame.
Qed.

Lemma emits_loop_captureStill :
  emits loop_event (captureStill env videoFps startedAt clip).
Proof.
  eapply emits_weaken; [apply capture_is_loop_event|].
  apply tame_emits, tame_captureStill.
Qed.

Lemma emits_loop_now : emits loop_event (now env).
Proof. unfold now. emits_auto. Qed.

Lemma emits_loop_getStepInfo : emits loop_event (getStepInfo env).
Proof. unfold getStepInfo. emits_auto. Qed.

Lemma emits_loop_nextStep : emits loop_event (nextStep env).
Proof. unfold nextStep. emits_auto. Qed.

Lemma emits_loop_budget : emits loop_event (getTransitionSettleBudget env).
Proof. unfold getTransitionSettleBudget. emits_auto. Qed.

Lemma emits_loop_dwell fuel plan :
  emits loop_event (dwell env videoFps startedAt clip fuel plan).
Proof.
  eapply emits_weaken; [apply dwell_is_loop_event|].
  apply tame_emits, tame_dwell.
Qed.

Lemma emits_loop_transitionWait fuel deadline prev :
  emits loop_event (transitionWait env videoFps startedAt clip fuel deadline prev).
Proof.
  induction fuel as [|fuel IH]; simpl; [apply emits_out_of_fuel|].
  apply emits_bind; [apply emits_loop_now|intros t].
  destruct (_ <? _); [|apply emits_ret].
  apply emits_bind; [apply emits_loop_captureAndWriteFrame|intros _].
  apply emits_bind; [apply emits_loop_getStepInfo|intros step].
  destruct (negb _); [apply emits_ret | exact IH].
Qed.

Lemma emits_loop_mainLoop fuel rounds plan timeout :
  emits loop_event (mainLoop env videoFps startedAt clip fuel rounds plan timeout).
Proof.
  induction rounds as [|rounds IH]; simpl; [apply emits_out_of_fuel|].
  apply emits_bind; [apply emits_loop_dwell|intros _].
  apply emits_bind; [apply emits_loop_getStepInfo|intros step].
  destruct (_ || _); [apply emits_ret|].
  apply emits_bind; [apply emits_loop_nextStep|intros advanced].
  destruct (negb advanced); [apply emits_throw|].
  apply emits_bind; [|intros _].
  { unfold awaitTransition. apply emits_bind; [apply emits_loop_now|intros t].
    apply emits_bind; [apply emits_loop_transitionWait|intros changed].
    destruct (negb changed); [apply emits_throw | apply emits_ret]. }
  apply emits_bind; [apply emits_loop_budget|intros budget].
  apply emits_bind; [apply emits_loop_captureForDuration|intros _]. exact IH.
Qed.

Lemma end_count_app l1 l2 : end_count (l1 ++ l2) = (end_count l1 + end_count l2)%nat.
Proof. unfold end_count. now rewrite filter_app, length_app. Qed.

Lemma end_count_loop d : Forall loop_event d -> end_count d = 0%nat.
Proof.
  induction 1 as [|e d He Hd IH]; [reflexivity|].
  change (e :: d) with ([e] ++ d). rewrite end_count_app, IH.
  now destruct e.
Qed.

Lemma tried_after {A} (m : Recorder.M W A) (k : A -> Recorder.M W unit) :
  emits loop_event m ->
  (forall a st o st', k a st = (o, st') ->
     exists d, log st' = log st ++ d /\ tried o d) ->
  forall st o st', bind m k st = (o, st') ->
    exists d, log st' = log st ++ d /\ tried o d.
Proof.
  intros Hm Hk st o st' H.
  apply bind_inv in H as [(a & st1 & H1 & H2) | [(msg & H1 & ->) | [H1 ->]]].
  - apply Hm in H1 as (d1 & E1 & F1).
    apply Hk in H2 as (d2 & E2 & d0 & F0 & Ho).
    exists (d1 ++ d2). split; [now rewrite E2, E1, app_assoc|].
    exists (d1 ++ d0). split; [now apply Forall_app|].
    destruct o as [u|message|]; try (now rewrite Ho, <- ?app_assoc).
    destruct Ho as [-> | ->]; [now left | right; now rewrite <- app_assoc].
  - apply Hm in H1 as (d1 & E1 & F1). exists d1. split; [exact E1|].
    exists d1. split; [exact F1 | now left].
  - apply Hm in H1 as (d1 & E1 & F1). exists d1. split; [exact E1|].
    exists d1. split; [exact F1 | reflexivity].
Qed.

Lemma recording_tried fuel plan timeout st :
  let '(o, st') := recording env videoFps startedAt clip fuel plan timeout st in
  exists d, log st' = log st ++ d /\ tried o d.
Proof.
  destruct (recording env videoFps startedAt clip fuel plan timeout st)
    as [o st'] eqn:E. revert st o st' E. unfold recording.
  apply tried_after; [apply emits_loop_captureStill|intros _].
  apply tried_after; [apply emits_loop_mainLoop|intros _].
  apply tried_after; [apply emits_loop_captureStill|intros _].
  intros st o st' H. unfold bind, act, call in H. simpl in H.
  destruct (ffmpegDone env (stdinEnd env (world st))) as [[[]|message] w];
    injection H as <- <-; simpl.
  - exists [EvEnd; EvEncoderDone]. split; [now rewrite <- app_assoc|].
    exists []. split; [constructor | reflexivity].
  - exists [EvEnd; EvFail message]. split; [now rewrite <- app_assoc|].
    exists []. split; [constructor | now right].
Qed.

(** The recorder closes the encoder's input once when the recording
    succeeds and once when a capture fails; when the encoder itself fails
    after its input was closed, the input is closed a second time. *)
Lemma guardedRecording_ends fuel plan timeout st :
  let '(o, st') :=
    guardedRecording env videoFps startedAt clip fuel plan timeout st in
  exists d0 tail,
    log st' = log st ++ d0 ++ tail
    /\ Forall loop_event d0
    /\ match o with
       | Ret _ => tail = [EvEnd; EvEncoderDone]
       | Err message =>
           exists x, is_end x = false
                     /\ (tail = [EvEnd; x]
                         \/ tail = [EvEnd; EvFail message; EvEnd; x])
       | OutOfFuel => tail = []
       end.
Proof.
  unfold guardedRecording. unfold bind at 1, try_catch, bind at 1.
  pose proof (recording_tried fuel plan timeout st) as H.
  destruct (recording env videoFps startedAt clip fuel plan timeout st)
    as [[[]|message|] st1]; destruct H as (d & L & d0 & F0 & Ho).
  - exists d0, [EvEnd; EvEncoderDone]. simpl. now rewrite L, Ho.
  - unfold ret at 1. unfold bind, act, try_catch, call, throw, ret. simpl.
    destruct (ffmpegDone env (stdinEnd env (world st1))) as [[[]|m2] w]; simpl;
      destruct Ho as [-> | ->];
      try (exists d0, [EvEnd; EvEncoderDone]; rewrite L, <- !app_assoc;
           split_and!; auto; exists EvEncoderDone; split; [reflexivity | now left]);
      try (exists d0, [EvEnd; EvFail message; EvEnd; EvEncoderDone];
           rewrite L, <- !app_assoc;
           split_and!; auto; exists EvEncoderDone; split; [reflexivity | now right]);
      try (exists d0, [EvEnd; EvFail m2]; rewrite L, <- !app_assoc;
           split_and!; auto; exists (EvFail m2); split; [reflexivity | now left]);
      try (exists d0, [EvEnd; EvFail message; EvEnd; EvFail m2];
           rewrite L, <- !app_assoc;
           split_and!; auto; exists (EvFail m2); split; [reflexivity | now right]).
  - exists d0, []. simpl. rewrite app_nil_r. now rewrite L, Ho.
Qed.

End EndFacts.

Section PreflightFacts.

Context {W : Type} (env : Env W).

Lemma fps_check_valid videoFps :
  negb (isInteger videoFps) || num_lt videoFps (of_Z 1) || num_lt (of_Z 60) videoFps
  = negb (valid_fps videoFps).
Proof.
  unfold valid_fps. destruct videoFps as [| | |q]; try reflexivity.
  unfold isInteger, num_lt, num_le, of_Z, Qltb.
  destruct (Zpos (Qden (Qred q)) =? 1), (Qle_bool (inject_Z 1) q),
    (Qle_bool q (inject_Z 60)); reflexivity.
Qed.

Lemma interval_check_valid videoInterval :
  negb (isInteger videoInterval) || num_lt videoInterval (of_Z 0)
  = negb (valid_interval videoInterval).
Proof.
  unfold valid_interval. destruct videoInterval as [| | |q]; try reflexivity.
  unfold isInteger, num_lt, num_le, of_Z, Qltb.
  destruct (Zpos (Qden (Qred q)) =? 1), (Qle_bool (inject_Z 0) q); reflexivity.
Qed.

(** The checks at the head of [genPageMp4] on a range that is not
    contiguous: the first one that fails gives the message. *)
Lemma preflight_non_contiguous withClicks videoFps videoInterval output scale pages :
  isContiguousRange pages = false ->
  exists message,
    mp4Preflight withClicks videoFps videoInterval output scale pages = Throw message
    /\ (withClicks = false -> message = clicks_disabled_message)
    /\ (withClicks = true -> valid_fps videoFps = false -> is_fps_message message)
    /\ (withClicks = true -> valid_fps videoFps = true ->
        valid_interval videoInterval = false -> is_interval_message message)
    /\ (withClicks = true -> valid_fps videoFps = true ->
        valid_interval videoInterval = true -> valid_motion_scale scale = false ->
        is_motion_scale_message message
        /\ forall text, scale = Some (ScaleString text) ->
             message = invalid_motion_scale (ScaleString text))
    /\ (withClicks = true -> valid_fps videoFps = true ->
        valid_interval videoInterval = true -> valid_motion_scale scale = true ->
        message = contiguous_message).
Proof.
  intros Hp. unfold mp4Preflight.
  rewrite fps_check_valid, interval_check_valid. unfold valid_motion_scale.
  destruct withClicks; simpl;
    [|eexists; split; [reflexivity | split_and!; congruence]].
  destruct (valid_fps videoFps); simpl.
  2:{ eexists; split; [reflexivity | split_and!; try congruence].
      intros _ _. now eexists. }
  destruct (valid_interval videoInterval); simpl.
  2:{ eexists; split; [reflexivity | split_and!; try congruence].
      intros _ _ _. now eexists. }
  destruct (parseVideoMotionScale scale) as [motionScale|message] eqn:E.
  - rewrite Hp. simpl. eexists; split; [reflexivity | split_and!; congruence].
  - eexists; split; [reflexivity | split_and!; try congruence].
    intros _ _ _ _. unfold parseVideoMotionScale in E.
    destruct scale as [v|]; [|discriminate].
    destruct (_ || _); [|discriminate]. injection E as <-.
    split; [now eexists|]. now intros text [= ->].
Qed.

(** C6, as the code has it.  An MP4 export whose expanded range is not
    contiguous fails inside [genPageMp4] before anything is done: the
    state, and with it the log, is as before the call, so the encoder was
    neither probed nor spawned.  The message is that of the first check
    that fails, in the order of the source: the with-clicks message
    (which does not contain "contiguous") when with-clicks is false; else
    the fps message when fps is not an integer from 1 to 60; else the
    interval message when the interval is not a non-negative integer; else
    the motion-scale message when the motion scale is not a finite number
    above 0 (for a scale given as text, with that text); else the message
    about the range, which contains "contiguous". *)
Theorem non_contiguous_range_fails_before_encoder
    (fuel : nat) (withClicks : bool) (videoFps videoInterval : num)
    (output : string) (scale : option scale_arg) (timeout : Z)
    (pages : list Z) (st : state W) :
  ~ contiguous pages ->
  exists message,
    genPageMp4 env fuel withClicks videoFps videoInterval output scale timeout
               pages st = (Err message, st)
    /\ (withClicks = false ->
        message = clicks_disabled_message
        /\ includes message "contiguous" = false)
    /\ (withClicks = true -> valid_fps videoFps = false -> is_fps_message message)
    /\ (withClicks = true -> valid_fps videoFps = true ->
        valid_interval videoInterval = false -> is_interval_message message)
    /\ (withClicks = true -> valid_fps videoFps = true ->
        valid_interval videoInterval = true -> valid_motion_scale scale = false ->
        is_motion_scale_message message
        /\ forall text, scale = Some (ScaleString text) ->
             message = invalid_motion_scale (ScaleString text))
    /\ (withClicks = true -> valid_fps videoFps = true ->
        valid_interval videoInterval = true -> valid_motion_scale scale = true ->
        message = contiguous_message
        /\ includes message "contiguous" = true).
Proof.
  intros Hn.
  assert (isContiguousRange pages = false) as Hp.
  { destruct (isContiguousRange pages) eqn:E; [|reflexivity].
    now apply OptionsProofs.isContiguousRange_spec in E. }
  destruct (preflight_non_contiguous withClicks videoFps videoInterval output
              scale pages Hp) as (message & Hm & H1 & H2 & H3 & H4 & H5).
  exists message. unfold genPageMp4. rewrite Hm.
  split_and!; [reflexivity | | exact H2 | exact H3 | exact H4 |].
  - intros Hc. rewrite (H1 Hc). split; reflexivity.
  - intros A B C D. rewrite (H5 A B C D). split; reflexivity.
Qed.

End PreflightFacts.

(** *** The whole job *)

Section JobFacts.

Context {W : Type} (env : Env W).

Lemma setup_is_neutral e : setup_event e -> neutral_event e.
Proof. now destruct e. Qed.

Lemma end_count_setup d : Forall setup_event d -> end_count d = 0%nat.
Proof.
  induction 1 as [|e d He Hd IH]; [reflexivity|].
  change (e :: d) with ([e] ++ d). rewrite end_count_app, IH.
  now destruct e.
Qed.

Lemma emits_setup_waitForFfmpeg : emits setup_event (waitForFfmpeg env).
Proof. unfold waitForFfmpeg. emits_auto. Qed.

Lemma emits_setup_goPlay slideNo clicks : emits setup_event (goPlay env slideNo clicks).
Proof.
  unfold goPlay, waitForStepSettled, getTransitionSettleBudget, sleep. emits_auto.
Qed.

Lemma emits_setup_motionScale plan :
  emits setup_event
    (if Qltb 1 (plan_motionScale plan)
     then call (installMotionScale env (plan_motionScale plan))
               (fun _ => EvMotionScale (plan_motionScale plan))
     else ret tt).
Proof. destruct (Qltb _ _); emits_auto. Qed.

(** The frames reach the encoder in the order of their capture. *)
Lemma orderly_recordMp4 fuel plan timeout : orderly (recordMp4 env fuel plan timeout).
Proof.
  unfold recordMp4.
  apply orderly_bind; [|intros _].
  { apply orderly_neutral. eapply emits_weaken; [apply setup_is_neutral|].
    apply emits_setup_waitForFfmpeg. }
  apply orderly_bind; [|intros _].
  { apply orderly_neutral. eapply emits_weaken; [apply setup_is_neutral|].
    apply emits_setup_goPlay. }
  apply orderly_bind; [|intros _].
  { apply orderly_neutral. eapply emits_weaken; [apply setup_is_neutral|].
    apply emits_setup_motionScale. }
  apply orderly_bind; [apply orderly_neutral; emits_auto|intros _].
  apply orderly_bind; [apply orderly_neutral; emits_auto|intros _].
  apply orderly_bind; [apply orderly_neutral; emits_auto|intros clip].
  apply orderly_bind; [apply orderly_now|intros startedAt].
  apply orderly_guardedRecording.
Qed.

Lemma orderly_genPageMp4 fuel withClicks videoFps videoInterval output scale
    timeout pages :
  orderly (genPageMp4 env fuel withClicks videoFps videoInterval output scale
                      timeout pages).
Proof.
  unfold genPageMp4. destruct (mp4Preflight _ _ _ _ _ _);
    [apply orderly_recordMp4 | apply orderly_throw].
Qed.

(** In every run of [genPageMp4], whatever its end, each frame written
    to the encoder is the frame captured last before it. *)
Lemma frames_in_capture_order fuel withClicks videoFps videoInterval output scale
    timeout pages w :
  in_order None
    (log (snd (genPageMp4 env fuel withClicks videoFps videoInterval output scale
                          timeout pages (initial w)))).
Proof.
  destruct (genPageMp4 env fuel withClicks videoFps videoInterval output scale
                       timeout pages (initial w)) as [o st'] eqn:E.
  apply orderly_genPageMp4 in E as (d & L & Hd). simpl in *. rewrite L. apply Hd.
Qed.

(** [closes n m]: a run of [m] that returns has closed the encoder's
    input [n] times. *)
Lemma closes_after {A} (n : nat) (m : Recorder.M W A) (k : A -> Recorder.M W unit) :
  emits setup_event m ->
  (forall a st st', k a st = (Ret tt, st') ->
     end_count (log st') = (end_count (log st) + n)%nat) ->
  forall st st', bind m k st = (Ret tt, st') ->
    end_count (log st') = (end_count (log st) + n)%nat.
Proof.
  intros Hm Hk st st' H. apply bind_Ret_inv in H as (a & st1 & H1 & H2).
  apply Hm in H1 as (d & L & F). apply Hk in H2. rewrite H2, L, end_count_app.
  now rewrite (end_count_setup d F), Nat.add_0_r.
Qed.

(** A job that succeeds has closed the encoder's input once. *)
Lemma success_closes_once fuel withClicks videoFps videoInterval output scale
    timeout pages st st' :
  genPageMp4 env fuel withClicks videoFps videoInterval output scale timeout
             pages st = (Ret tt, st') ->
  end_count (log st') = (end_count (log st) + 1)%nat.
Proof.
  unfold genPageMp4.
  destruct (mp4Preflight _ _ _ _ _ _) as [plan|message]; [|discriminate].
  revert st st'. unfold recordMp4.
  apply closes_after; [apply emits_setup_waitForFfmpeg|intros _].
  apply closes_after; [apply emits_setup_goPlay|intros _].
  apply closes_after; [apply emits_setup_motionScale|intros _].
  apply closes_after; [emits_auto|intros _].
  apply closes_after; [emits_auto|intros _].
  apply closes_after; [emits_auto|intros clip].
  apply closes_after; [unfold now; emits_auto|intros startedAt].
  intros st st' H.
  pose proof (guardedRecording_ends env (plan_fps plan) startedAt clip fuel plan
                timeout st) as G.
  rewrite H in G. destruct G as (d0 & tail & L & F & ->).
  rewrite L, !end_count_app, (end_count_loop d0 F).
  change (end_count [EvEnd; EvEncoderDone]) with 1%nat. lia.
Qed.

End JobFacts.

(** *** The loop, with a clock that runs *)

Section LoopFacts.

Context {W : Type} (env : Env W) (time : W -> Z) (Htick : Ticking env time).
Variables (videoFps startedAt : Z) (clip : option Clip).

(** C10.  On a page that shows neither bridge, the callback of
    [getStepInfo] returns [{ no: 0, clicks: 0, clicksTotal: 0, hasNext:
    false }].  The main loop then runs its first dwell, reads that step
    once and leaves: the log of the loop is the log [d] of the dwell
    followed by the one step reading, [nextStep] is never called, and the
    loop can only fail with an error thrown by the environment (during the
    dwell or by the page call of [getStepInfo]), never with an error of
    the recorder about a missing bridge.  The dwell ends, as a screenshot
    takes at least a millisecond. *)
Theorem no_bridge_loop_ends_after_first_dwell
    (fuel rounds : nat) (plan : Mp4Plan) (timeout : Z) (st : state W) :
  (forall w window w', pageWindow env w = (Ok window, w') -> no_bridge window) ->
  (Z.to_nat (Qceiling (inject_Z (plan_interval plan) * plan_playbackSpeedup plan))
   < fuel)%nat ->
  (forall window, no_bridge window -> stepInfoOfWindow window = blank_step)
  /\ let '(o, st') :=
       mainLoop env videoFps startedAt clip fuel (S rounds) plan timeout st in
     let '(o1, st1) := dwell env videoFps startedAt clip fuel plan st in
     exists d rest,
       log st1 = log st ++ d
       /\ log st' = log st ++ d ++ rest
       /\ Forall dwell_event d
       /\ Forall (fun e => forall via, e <> EvNextStep via) (d ++ rest)
       /\ match o with
          | Ret _ => o1 = Ret tt /\ rest = [EvStepInfo blank_step]
          | Err message => last (d ++ rest) = Some (EvFail message)
          | OutOfFuel => False
          end.
Proof.
  intros Hpage Hf.
  pose proof (dwell_enough_fuel env time Htick videoFps startedAt clip fuel plan st Hf)
    as Hl.
  pose proof (no_bridge_loop_shape env videoFps startedAt clip fuel rounds plan
                timeout st Hpage) as [Hb Hs].
  split; [exact Hb|].
  destruct (mainLoop env videoFps startedAt clip fuel (S rounds) plan timeout st)
    as [o st'].
  destruct (dwell env videoFps startedAt clip fuel plan st) as [o1 st1].
  destruct Hs as (d & rest & L1 & L & F & N & Ho). exists d, rest.
  split_and!; auto.
  destruct o as [u|message|]; [exact Ho | exact Ho |].
  destruct Ho as [-> _]. now simpl in Hl.
Qed.

End LoopFacts.

End RecorderProofs.

(** ** Runs of the recorder against the simulated page *)

Module SimProofs.
Import JS Bridge Options Recorder Sim.

Lemma clock_settle w : clock (settle w) = clock w.
Proof.
  unfold settle. destruct (pending w) as [[at_ms step]|]; [|reflexivity].
  now destruct (at_ms <=? clock w).
Qed.

Lemma clock_elapse ms w : clock (elapse ms w) = clock w + ms.
Proof. unfold elapse. now rewrite clock_settle. Qed.

(** In the simulation time passes, as long as a screenshot costs at
    least a millisecond. *)
Lemma simEnv_ticking cfg : 1 <= shot_ms cfg -> Ticking (simEnv cfg) clock.
Proof.
  intros Hshot. constructor; simpl; intros.
  - split; [reflexivity | lia].
  - rewrite clock_elapse. lia.
  - lia.
  - lia.
  - rewrite clock_elapse. lia.
  - lia.
Qed.

Lemma bare_deck_has_no_bridge w window w' :
  pageWindow (simEnv bare_deck) w = (Ok window, w') -> no_bridge window.
Proof. intros [= <- _]. split; reflexivity. Qed.

(** The recording of the two-slide deck succeeds, reads the steps 1-0,
    then 2-0 (the change) and 2-0 (the end of the deck), and closes the
    encoder's input once. *)
Example two_slides_recorded :
  fst (record_deck two_slides) = Ret tt
  /\ map getStepKey (steps (log (snd (record_deck two_slides)))) = ["1-0"; "2-0"; "2-0"]
  /\ end_count (log (snd (record_deck two_slides))) = 1%nat.
Proof. vm_compute. split_and!; reflexivity. Qed.

(** C3, where the code departs from it.  When the encoder exits with an
    error after the last frame, [await ffmpegDone] throws inside the [try]
    block, after [ffmpeg.stdin.end()] has been called there, and the
    [if (captureError)] block calls it again: two calls in one job.  When
    [target.waitFor()] throws, the encoder has been spawned and the
    function is left before the [try] block: no call at all. *)
Theorem stdin_end_count_on_error_paths :
  (fst (record_deck failing_encoder) = Err "[slidev] ffmpeg exited with code 1"
   /\ end_count (log (snd (record_deck failing_encoder))) = 2%nat)
  /\ (fst (record_deck detached_target)
      = Err "locator.waitFor: Timeout 30000ms exceeded."
      /\ spawn_count (log (snd (record_deck detached_target))) = 1%nat
      /\ end_count (log (snd (record_deck detached_target))) = 0%nat).
Proof. vm_compute. split_and!; reflexivity. Qed.

(** A page that stays on step 1-0: the wait gives up at the deadline. *)
Example transition_wait_times_out :
  fst (awaitTransition (simEnv two_slides) 30 1000 None 2001 "1-0" 0
         (initial two_slides_start))
  = Err "[slidev] Failed to advance from step 1-0".
Proof. vm_compute. reflexivity. Qed.

Lemma no_bridge_loop_ends_after_first_dwell_witness :
  Ticking (simEnv bare_deck) clock
  /\ (forall w window w',
        pageWindow (simEnv bare_deck) w = (Ok window, w') -> no_bridge window)
  /\ (Z.to_nat (Qceiling (inject_Z (plan_interval deck_plan)
                          * plan_playbackSpeedup deck_plan)) < 1000)%nat
  /\ (forall window, no_bridge window -> stepInfoOfWindow window = blank_step)
  /\ let '(o, st') :=
       mainLoop (simEnv bare_deck) 30 1000 None 1000 3 deck_plan 30000
         (initial two_slides_start) in
     let '(o1, st1) :=
       dwell (simEnv bare_deck) 30 1000 None 1000 deck_plan
         (initial two_slides_start) in
     exists d rest,
       log st1 = log (initial two_slides_start) ++ d
       /\ log st' = log (initial two_slides_start) ++ d ++ rest
       /\ Forall dwell_event d
       /\ Forall (fun e => forall via, e <> EvNextStep via) (d ++ rest)
       /\ match o with
          | Ret _ => o1 = Ret tt /\ rest = [EvStepInfo blank_step]
          | Err message => last (d ++ rest) = Some (EvFail message)
          | OutOfFuel => False
          end.
Proof.
  assert (Ticking (simEnv bare_deck) clock) as Htick
    by (apply simEnv_ticking; simpl; lia).
  assert (Z.to_nat (Qceiling (inject_Z (plan_interval deck_plan)
                              * plan_playbackSpeedup deck_plan)) < 1000)%nat as Hf
    by (vm_compute; lia).
  pose proof (RecorderProofs.no_bridge_loop_ends_after_first_dwell
                (simEnv bare_deck) clock Htick 30 1000 None 1000 2 deck_plan 30000
                (initial two_slides_start) bare_deck_has_no_bridge Hf) as [Hb Hs].
  split_and!;
    [exact Htick | exact bare_deck_has_no_bridge | exact Hf | exact Hb | exact Hs].
Defined.

(** The range 1,3 on the two-slide page: the export fails on the range
    check and nothing has been logged. *)
Lemma non_contiguous_range_fails_before_encoder_witness :
  ~ contiguous [1; 3]
  /\ exists message,
       genPageMp4 (simEnv two_slides) 1000 true (of_Z 30) (of_Z 200) "out" None
                  30000 [1; 3] (initial two_slides_start)
       = (Err message, initial two_slides_start)
       /\ (true = false ->
           message = clicks_disabled_message
           /\ includes message "contiguous" = false)
       /\ (true = true -> valid_fps (of_Z 30) = false -> is_fps_message message)
       /\ (true = true -> valid_fps (of_Z 30) = true ->
           valid_interval (of_Z 200) = false -> is_interval_message message)
       /\ (true = true -> valid_fps (of_Z 30) = true ->
           valid_interval (of_Z 200) = true -> valid_motion_scale None = false ->
           is_motion_scale_message message
           /\ forall text, None = Some (ScaleString text) ->
                message = invalid_motion_scale (ScaleString text))
       /\ (true = true -> valid_fps (of_Z 30) = true ->
           valid_interval (of_Z 200) = true -> valid_motion_scale None = true ->
           message = contiguous_message
           /\ includes message "contiguous" = true).
Proof.
  assert (~ contiguous [1; 3]) as Hn by (simpl; lia).
  split; [exact Hn|].
  exact (RecorderProofs.non_contiguous_range_fails_before_encoder
           (simEnv two_slides) 1000 true (of_Z 30) (of_Z 200) "out" None 30000
           [1; 3] (initial two_slides_start) Hn).
Defined.

(** The range 1,3 with valid options: the message about the range. *)
Example non_contiguous_message :
  genPageMp4 (simEnv two_slides) 1000 true (of_Z 30) (of_Z 200) "out" None
             30000 [1; 3] (initial two_slides_start)
  = (Err contiguous_message, initial two_slides_start).
Proof. vm_compute. reflexivity. Qed.

(** A motion scale that overflows the doubles is [Infinity], and is
    rejected before the range is looked at. *)
Example non_contiguous_with_overflowing_scale :
  genPageMp4 (simEnv two_slides) 1000 true (of_Z 30) (of_Z 200) "out"
             (Some (ScaleString "1e400")) 30000 [1; 3] (initial two_slides_start)
  = (Err (invalid_motion_scale (ScaleString "1e400")),
     initial two_slides_start)
  /\ parseFloat "1e400" = PInf
  /\ parseFloat "-1e400" = NInf
  /\ parseFloat "1e-400" = Fin 0.
Proof. vm_compute. split_and!; reflexivity. Qed.

(** C6, as the specification states it, fails: with [withClicks] false
    the range 1,3 is never looked at, and the export fails on the first
    check, with a message that does not contain "contiguous". *)
Lemma non_contiguous_with_clicks_disabled :
  ~ contiguous [1; 3]
  /\ exists message,
       fst (genPageMp4 (simEnv two_slides) 1000 false (of_Z 30) (of_Z 200) "out"
                       None 30000 [1; 3] (initial two_slides_start))
       = Err message
       /\ includes message "contiguous" = false.
Proof.
  split; [simpl; lia|].
  exists clicks_disabled_message. split; vm_compute; reflexivity.
Qed.

End SimProofs.

(** ** The export job service *)

Module JobServiceProofs.
Import Sanitize JS Options Recorder JobService.

Lemma truthy_Some s : truthy (Some s) = true <-> s <> "".
Proof.
  unfold truthy. destruct (String.eqb_spec s ""); simpl; split; congruence.
Qed.

Lemma truthy_length n s : String.length s = S n -> truthy (Some s) = true.
Proof. intros H. apply truthy_Some. now intros ->. Qed.

Lemma string_app_nonempty a b : b <> "" -> a +:+ b <> "".
Proof.
  intros Hb H. destruct a as [|c a]; [now apply Hb|].
  change (String c (a +:+ b) = "") in H. discriminate.
Qed.

Lemma path_resolve_truthy root name : truthy (Some (path_resolve root name)) = true.
Proof.
  apply truthy_Some. unfold path_resolve. apply string_app_nonempty.
  now destruct name.
Qed.

Lemma status_eqb_spec a b : status_eqb a b = true <-> a = b.
Proof. destruct a, b; simpl; split; congruence. Qed.

(** *** The registry keeps identifiers and files *)

Lemma cleanupJobs_lookup now jobs id job :
  cleanupJobs now jobs !! id = Some job ->
  jobs !! id = Some job /\ keep_job now job = true.
Proof. unfold cleanupJobs. now rewrite map_lookup_filter_Some. Qed.

Lemma prepareExport_task options amb payload task :
  prepareExport options amb payload = Ok task ->
  task_id task = amb_uuid amb
  /\ task_startedAt task = amb_now amb
  /\ truthy (Some (task_output task)) = true
  /\ arg_format (task_args task) = Some mp4.
Proof.
  unfold prepareExport. destruct payload as [rawPayload|message]; [|discriminate].
  destruct (amb_port amb) as [port|]; [|discriminate].
  destruct (port =? 0); [discriminate|].
  destruct (buildOutputFilename _ _ _ _) as [filename|message]; [|discriminate].
  intros [= <-]. simpl. split_and!; auto. apply path_resolve_truthy.
Qed.

(** What a request does to the registry: it drops the jobs that have
    expired and, when it starts an export, adds the new job as running. *)
Lemma handle_registry options amb req jobs :
  let '(jobs', response, started) := handle options amb req jobs in
  match started with
  | Some task =>
      prepareExport options amb (payload req) = Ok task
      /\ jobs' = <[task_id task := running_job task]> (cleanupJobs (amb_now amb) jobs)
  | None => jobs' = cleanupJobs (amb_now amb) jobs
  end.
Proof.
  unfold handle. destruct (url req ≫= matchVideoUrl) as [[jobId action]|];
    [|reflexivity].
  destruct (_ && _ && _); [reflexivity|].
  destruct (_ && _).
  - unfold postVideo.
    destruct (prepareExport options amb (payload req)) as [task|message] eqn:E;
      [split; reflexivity | reflexivity].
  - destruct (_ && _ && _); [reflexivity|]. destruct (_ && _ && _); reflexivity.
Qed.

Lemma files_set_start : files_set start.
Proof. split; [intros id job; simpl; now rewrite lookup_empty | constructor]. Qed.

Lemma files_set_step options s s' :
  service_step options s s' -> files_set s -> files_set s'.
Proof.
  intros Hstep [Hjobs Htasks]. destruct Hstep as [amb req s Hid | W env parse fuel st
    task completedAt o before after s Hs Ho Hfuel]; unfold after_request; simpl.
  - pose proof (handle_registry options amb req (jobs s)) as H.
    destruct (handle options amb req (jobs s)) as [[jobs' response] started].
    simpl. destruct started as [task|].
    + destruct H as [Hp ->].
      apply prepareExport_task in Hp as (Ht & _ & Hout & _).
      assert (truthy (Some (task_id task)) = true) as Htid
        by (rewrite Ht; eapply truthy_length; exact Hid).
      split; simpl.
      * intros id job. rewrite lookup_insert_Some.
        intros [[<- <-] | [_ Hl]]; [now split|].
        apply cleanupJobs_lookup in Hl as [Hl _]. eauto.
      * apply Forall_app. split; [exact Htasks|]. now repeat constructor.
    + subst jobs'. split; simpl.
      * intros id job Hl. apply cleanupJobs_lookup in Hl as [Hl _]. eauto.
      * now rewrite app_nil_r.
  - rewrite Hs in Htasks. apply Forall_app in Htasks as [Hb Ha].
    apply Forall_cons in Ha as [[Htid Hout] Ha].
    split; simpl; [|apply Forall_app; now split].
    intros id job. unfold settleJob. destruct o as [u|message|].
    + rewrite lookup_insert_Some. intros [[<- <-] | [_ Hl]]; [now split | eauto].
    + rewrite lookup_insert_Some. intros [[<- <-] | [_ Hl]]; [now split | eauto].
    + eauto.
Qed.

Lemma reachable_files_set options s : reachable options s -> files_set s.
Proof.
  unfold reachable. apply (rtc_ind_r (fun s => files_set s));
    [apply files_set_start|].
  intros y z _ Hstep IH. eapply files_set_step; eauto.
Qed.

(** *** Descriptors *)

Lemma matchVideoUrl_id url id action :
  matchVideoUrl url = Some (Some id, action) -> truthy (Some id) = true.
Proof.
  unfold matchVideoUrl. destruct (starts_with _ _); [|discriminate].
  destruct (drop _ _) as [|c rest]; [discriminate|].
  destruct (Ascii.eqb c "/"); [|discriminate].
  destruct (up_to_slash rest) as [[|j jobId] tail]; [discriminate|].
  destruct (String.eqb _ ""); [intros [= <- _]; reflexivity|].
  destruct (String.eqb _ "/download"); [intros [= <- _]; reflexivity | discriminate].
Qed.

Lemma download_url_nonempty id : download_url id <> "".
Proof. unfold download_url. discriminate. Qed.

(** [downloadUrl] is set exactly for a job with an identifier whose
    status is done. *)
Lemma resolveJobResponse_downloadUrl now job id :
  truthy (Some id) = true ->
  r_status (resolveJobResponse now job (Some id)) = status job
  /\ r_file (resolveJobResponse now job (Some id)) = file job
  /\ ((exists u, r_downloadUrl (resolveJobResponse now job (Some id)) = Some u
                 /\ u <> "")
      <-> status job = done).
Proof.
  intros Hid. split_and!; [reflexivity..|].
  assert (r_downloadUrl (resolveJobResponse now job (Some id))
          = if status_eqb (status job) done then Some (download_url id) else None)
    as -> by (unfold resolveJobResponse; cbn [r_downloadUrl]; now rewrite Hid).
  rewrite <- status_eqb_spec. destruct (status_eqb (status job) done); simpl.
  - split; [reflexivity|]. intros _. eexists. split; [reflexivity|].
    apply download_url_nonempty.
  - split; [intros (u & [=] & _) | discriminate].
Qed.

Lemma elem_of_insert_job r x l : x ∈ insert_job r l -> x = r \/ x ∈ l.
Proof.
  induction l as [|y l IH]; simpl.
  - rewrite list_elem_of_singleton. now left.
  - destruct (r_startedAt y <=? r_startedAt r).
    + rewrite elem_of_cons. tauto.
    + rewrite !elem_of_cons. intros [-> | H]; [tauto|]. apply IH in H. tauto.
Qed.

Lemma elem_of_listJobs now jobs r :
  r ∈ listJobs now jobs ->
  exists id job, jobs !! id = Some job /\ r = resolveJobResponse now job (Some id).
Proof.
  unfold listJobs. intros H.
  assert (r ∈ (fun kv : string * VideoExportJob =>
                 resolveJobResponse now kv.2 (Some kv.1)) <$> map_to_list jobs)
    as Hin.
  { induction (_ <$> map_to_list jobs) as [|y l IH]; simpl in H; [exact H|].
    apply elem_of_insert_job in H as [-> | H]; [left | right; auto]. }
  apply list_elem_of_fmap in Hin as ([id job] & -> & Hin).
  apply elem_of_map_to_list in Hin. now exists id, job.
Qed.

(** Every descriptor in a response describes a job of the registry. *)
Lemma descriptors_handle options amb req jobs r :
  r ∈ descriptors (handle options amb req jobs).1.2 ->
  exists id job,
    cleanupJobs (amb_now amb) jobs !! id = Some job
    /\ r = resolveJobResponse (amb_now amb) job (Some id).
Proof.
  unfold descriptors, handle.
  destruct (url req ≫= matchVideoUrl) as [[jobId action]|];
    [|simpl; now rewrite elem_of_nil].
  destruct (_ && _ && _); [simpl; apply elem_of_listJobs|].
  destruct (_ && _).
  { unfold postVideo. destruct (prepareExport _ _ _); simpl; now rewrite elem_of_nil. }
  destruct (_ && _ && _).
  { simpl. unfold statusVideo. destruct jobId as [id|]; simpl.
    - destruct (cleanupJobs (amb_now amb) jobs !! id) as [job|] eqn:E; simpl;
        [|now rewrite elem_of_nil].
      rewrite list_elem_of_singleton. intros ->. now exists id, job.
    - destruct (cleanupJobs (amb_now amb) jobs !! "") as [job|] eqn:E; simpl;
        [|now rewrite elem_of_nil].
      rewrite list_elem_of_singleton. intros ->. now exists "", job. }
  destruct (_ && _ && _); [|simpl; now rewrite elem_of_nil].
  simpl. unfold downloadVideo.
  destruct (cleanupJobs (amb_now amb) jobs !! _) as [job|]; [|simpl; now rewrite elem_of_nil].
  destruct (_ && _); simpl; now rewrite elem_of_nil.
Qed.

Lemma handle_download options amb req jobs id :
  method req = "GET" ->
  url req ≫= matchVideoUrl = Some (Some id, Some "download") ->
  (handle options amb req jobs).1.2
  = Some (downloadVideo (cleanupJobs (amb_now amb) jobs) id).
Proof.
  intros Hm Hu. unfold handle. rewrite Hu, Hm.
  assert (truthy (Some id) = true) as Hid.
  { destruct (url req) as [u|]; [|discriminate]. simpl in Hu.
    now apply matchVideoUrl_id in Hu. }
  rewrite Hid. simpl. now rewrite andb_false_r.
Qed.

Lemma demo_done_reachable : reachable demo_options demo_done.
Proof.
  unfold reachable.
  eapply rtc_l; [apply (step_request demo_options (demo_ambient 1000)
                          (post_request empty_payload) start); reflexivity|].
  eapply rtc_l; [|apply rtc_refl].
  apply (step_settle demo_options (Sim.simEnv Sim.two_slides) Sim.whole_deck 1000
           (initial Sim.two_slides_start) demo_task 5000 (Ret tt) [] []
           (after_request demo_options (demo_ambient 1000)
              (post_request empty_payload) start)).
  - vm_compute. reflexivity.
  - vm_compute. reflexivity.
  - discriminate.
Defined.

(** The finished export of the deck can be downloaded; ten minutes later
    the job has expired. *)
Example demo_download :
  statusCode <$> (handle demo_options (demo_ambient 6000)
                    (download_request (task_id demo_task)) (jobs demo_done)).1.2
  = Some 200
  /\ statusCode <$> (handle demo_options (demo_ambient 700000)
                       (download_request (task_id demo_task)) (jobs demo_done)).1.2
     = Some 404.
Proof. vm_compute. split; reflexivity. Qed.

(** *** Input errors *)

Lemma getExportOptions_format args options outFilename o :
  getExportOptions args options outFilename = Ok o ->
  arg_format args = Some mp4 -> format o = Some mp4.
Proof.
  unfold getExportOptions. destruct (parseVideoSize _); [|discriminate].
  intros [= <-] Hf. simpl. now rewrite Hf.
Qed.





(** A range that is not a string has no [trim]: the request is answered
    400 and no job is recorded. *)
Example range_without_trim :
  handle demo_options (demo_ambient 1000)
    (post_request {| p_videoInterval := None; p_videoFps := None;
                     p_videoSize := None; p_range := Some (JNumber (of_Z 3));
                     p_dark := None |}) ∅
  = (∅, Some (json_response 400 (BodyError "payload.range?.trim is not a function")),
     None).
Proof. vm_compute. reflexivity. Qed.

End JobServiceProofs.

(** ** Decimal numerals *)

Module NumeralProofs.
Import Sanitize JS Options.

Lemma digit_of_pretty_N_char d :
  (d < 10)%N -> digit_of (pretty_N_char d) = Some (Z.of_N d).
Proof.
  intros Hd.
  assert (d = 0 \/ d = 1 \/ d = 2 \/ d = 3 \/ d = 4 \/ d = 5 \/ d = 6 \/ d = 7
          \/ d = 8 \/ d = 9)%N as H by lia.
  repeat (destruct H as [-> | H]; [reflexivity|]). now subst.
Qed.

Lemma take_digits_app ds rest :
  Forall (fun c => is_Some (digit_of c)) ds ->
  take_digits (ds ++ rest)
  = (omap digit_of ds ++ (take_digits rest).1, (take_digits rest).2).
Proof.
  induction 1 as [|c ds [d Hc] Hds IH]; simpl.
  - now destruct (take_digits rest).
  - rewrite Hc, IH. reflexivity.
Qed.

Lemma omap_digits_length ds :
  Forall (fun c => is_Some (digit_of c)) ds ->
  length (omap digit_of ds) = length ds.
Proof.
  induction 1 as [|c ds [d Hc] Hds IH]; simpl; [reflexivity|].
  rewrite Hc. simpl. f_equal. exact IH.
Qed.

(** [pretty_N_go x s] puts the digits of [x], most significant first, in
    front of [s]; read back, they give [x]. *)
Lemma pretty_N_go_digits (x : N) :
  exists ds,
    (forall s, pretty_N_go x s = string_of_list_ascii ds +:+ s)
    /\ Forall (fun c => is_Some (digit_of c)) ds
    /\ ((0 < x)%N -> ds <> [])
    /\ forall t,
         digits_value (omap digit_of ds ++ t)
         = fold_left (fun acc d => 10 * acc + d) t (Z.of_N x).
Proof.
  induction (N.lt_wf_0 x) as [x _ IH].
  assert (x = 0 \/ 0 < x)%N as [-> | Hx] by lia.
  - exists []. split_and!; [reflexivity | constructor | lia | reflexivity].
  - destruct (IH (x `div` 10)%N) as (ds & Hgo & Hds & _ & Hval).
    { now apply N.div_lt. }
    assert (x `mod` 10 < 10)%N as Hm by now apply N.mod_lt.
    exists (ds ++ [pretty_N_char (x `mod` 10)]). split_and!.
    + intros s. rewrite pretty_N_go_step by exact Hx. rewrite Hgo.
      rewrite StabilizerProofs.string_of_list_ascii_app.
      now rewrite StabilizerProofs.string_app_assoc.
    + apply Forall_app. split; [exact Hds|]. constructor; [|constructor].
      rewrite digit_of_pretty_N_char by exact Hm. eauto.
    + intros _ H. now apply app_eq_nil in H as [_ [=]].
    + intros t. rewrite omap_app. simpl.
      rewrite digit_of_pretty_N_char by exact Hm. simpl.
      rewrite <- app_assoc. simpl. rewrite Hval. simpl. f_equal.
      rewrite (N.div_mod x 10) at 3 by lia. lia.
Qed.

(** The numeral of a number that is not negative: digits, at least one,
    that give the number back. *)
Lemma pretty_nonneg_digits (z : Z) :
  0 <= z ->
  exists ds,
    String_of_Z z = string_of_list_ascii ds
    /\ ds <> []
    /\ Forall (fun c => is_Some (digit_of c)) ds
    /\ digits_value (omap digit_of ds) = z.
Proof.
  intros Hz. destruct z as [|p|p]; [|clear Hz|lia].
  - exists ["0"%char]. split_and!; [reflexivity | discriminate | | reflexivity].
    repeat constructor. now exists 0.
  - destruct (pretty_N_go_digits (Npos p)) as (ds & Hgo & Hds & Hne & Hval).
    exists ds. split_and!; auto.
    + unfold String_of_Z, pretty, pretty_Z, pretty, pretty_positive, pretty, pretty_N.
      rewrite decide_False by discriminate. rewrite Hgo.
      clear. induction ds as [|c ds IH]; [reflexivity|].
      simpl. change (String c (string_of_list_ascii ds +:+ "")
                     = String c (string_of_list_ascii ds)). now rewrite IH.
    + apply Hne. lia.
    + specialize (Hval []). rewrite app_nil_r in Hval. exact Hval.
Qed.

Lemma take_digits_inv l vals rest :
  take_digits l = (vals, rest) ->
  exists ds,
    l = ds ++ rest
    /\ Forall (fun c => is_Some (digit_of c)) ds
    /\ vals = omap digit_of ds.
Proof.
  revert vals rest. induction l as [|c l IH]; intros vals rest; simpl.
  - intros [= <- <-]. exists []. split_and!; [reflexivity | constructor | reflexivity].
  - destruct (digit_of c) as [d|] eqn:Hc.
    + destruct (take_digits l) as [vs r]. intros [= <- <-].
      destruct (IH vs r eq_refl) as (ds & -> & Hds & ->).
      exists (c :: ds). split_and!; [reflexivity | | simpl; now rewrite Hc].
      constructor; [now exists d | exact Hds].
    + intros [= <- <-]. exists []. split_and!; [reflexivity | constructor | reflexivity].
Qed.

Lemma list_ascii_of_string_inj s1 s2 :
  list_ascii_of_string s1 = list_ascii_of_string s2 -> s1 = s2.
Proof.
  intros H. apply (f_equal string_of_list_ascii) in H.
  now rewrite !string_of_list_ascii_of_string in H.
Qed.

(** The numeral of an integer: a dash when it is negative, then the
    digits of its absolute value. *)
Lemma pretty_Z_chars (z : Z) :
  exists sign ds,
    list_ascii_of_string (String_of_Z z) = sign ++ ds
    /\ ((z < 0 /\ sign = [dash]) \/ (0 <= z /\ sign = []))
    /\ ds <> []
    /\ Forall (fun c => is_Some (digit_of c)) ds
    /\ digits_value (omap digit_of ds) = Z.abs z.
Proof.
  destruct (Z_lt_le_dec z 0) as [Hz | Hz].
  - destruct z as [|p|p]; try lia.
    destruct (pretty_nonneg_digits (Zpos p)) as (ds & Hp & Hne & Hds & Hval); [lia|].
    exists [dash], ds. split_and!; auto.
    change (String_of_Z (Z.neg p)) with ("-" +:+ String_of_Z (Zpos p)).
    rewrite Hp, StabilizerProofs.list_ascii_of_string_app.
    now rewrite list_ascii_of_string_of_list_ascii.
  - destruct (pretty_nonneg_digits z Hz) as (ds & Hp & Hne & Hds & Hval).
    exists [], ds. split_and!; auto; [|lia].
    rewrite Hp. now rewrite list_ascii_of_string_of_list_ascii.
Qed.

(** X1.  [parseVideoSize] reads back a size written as [<width>x<height>]:
    for positive integers below [2^53] (which [Number] represents exactly)
    the result is the pair of the two numbers. *)
Theorem parseVideoSize_reads_back (width height : Z) :
  0 < width < 2 ^ 53 -> 0 < height < 2 ^ 53 ->
  parseVideoSize (Some (String_of_Z width +:+ "x" +:+ String_of_Z height))
  = Ok (Some (width, height)).
Proof.
  intros Hw Hh.
  destruct (pretty_nonneg_digits width) as (ws & Ew & Nw & Dw & Vw); [lia|].
  destruct (pretty_nonneg_digits height) as (hs & Eh & Nh & Dh & Vh); [lia|].
  unfold parseVideoSize.
  assert (list_ascii_of_string (String_of_Z width +:+ "x" +:+ String_of_Z height)
          = ws ++ "x"%char :: hs) as Hl.
  { rewrite Ew, Eh, !StabilizerProofs.list_ascii_of_string_app.
    now rewrite !list_ascii_of_string_of_list_ascii. }
  destruct (String.eqb_spec
              (String_of_Z width +:+ "x" +:+ String_of_Z height) "") as [E|_].
  { apply (f_equal list_ascii_of_string) in E. rewrite Hl in E.
    now destruct ws. }
  unfold match_video_size. rewrite Hl, take_digits_app by exact Dw.
  change (take_digits ("x"%char :: hs)) with (@nil Z, "x"%char :: hs).
  simpl fst. simpl snd. rewrite app_nil_r.
  destruct (omap digit_of ws) as [|w0 wv] eqn:Ews.
  { apply (f_equal length) in Ews. rewrite omap_digits_length in Ews by exact Dw.
    now destruct ws. }
  simpl orb. cbv iota.
  rewrite <- (app_nil_r hs), take_digits_app by exact Dh.
  change (take_digits []) with (@nil Z, @nil ascii).
  simpl fst. simpl snd. rewrite !app_nil_r.
  destruct (omap digit_of hs) as [|h0 hv] eqn:Ehs.
  { apply (f_equal length) in Ehs. rewrite omap_digits_length in Ehs by exact Dh.
    now destruct hs. }
  rewrite Vw, Vh. unfold overflows.
  assert (2 ^ 53 < 2 ^ 1024 - 2 ^ 970) as Hbig by (vm_compute; reflexivity).
  rewrite !(proj2 (Z.leb_gt _ _)) by lia. reflexivity.
Qed.

Lemma parseVideoSize_reads_back_witness :
  0 < 1920 < 2 ^ 53 /\ 0 < 1080 < 2 ^ 53
  /\ parseVideoSize (Some (String_of_Z 1920 +:+ "x" +:+ String_of_Z 1080))
     = Ok (Some (1920, 1080)).
Proof.
  assert (0 < 1920 < 2 ^ 53) as Hw by (split; reflexivity).
  assert (0 < 1080 < 2 ^ 53) as Hh by (split; reflexivity).
  split; [exact Hw | split; [exact Hh|]].
  exact (parseVideoSize_reads_back 1920 1080 Hw Hh).
Defined.

(** X2.  What [parseVideoSize] accepts: when it returns a size, the text
    is a group of digits, an [x] or [X], and a group of digits, both
    groups non-empty; width and height are positive, and they are the
    numbers the groups denote whenever these are below [2^53]. *)
Theorem parseVideoSize_accepts_only_sizes (value : string) (width height : Z) :
  parseVideoSize (Some value) = Ok (Some (width, height)) ->
  exists ws sep hs,
    list_ascii_of_string value = ws ++ sep :: hs
    /\ (sep = "x"%char \/ sep = "X"%char)
    /\ ws <> [] /\ hs <> []
    /\ Forall (fun c => is_Some (digit_of c)) ws
    /\ Forall (fun c => is_Some (digit_of c)) hs
    /\ 0 < width /\ 0 < height
    /\ (digits_value (omap digit_of ws) < 2 ^ 53 ->
        width = digits_value (omap digit_of ws))
    /\ (digits_value (omap digit_of hs) < 2 ^ 53 ->
        height = digits_value (omap digit_of hs)).
Proof.
  unfold parseVideoSize. destruct (String.eqb value ""); [discriminate|].
  unfold match_video_size.
  destruct (take_digits (list_ascii_of_string value)) as [wv rest] eqn:Ew.
  apply take_digits_inv in Ew as (ws & Hl & Dw & ->).
  destruct (omap digit_of ws) as [|w0 wv] eqn:Ews; [discriminate|].
  destruct rest as [|sep rest]; [discriminate|].
  destruct (Ascii.eqb sep "x" || Ascii.eqb sep "X") eqn:Esep; [|discriminate].
  destruct (take_digits rest) as [hv rest'] eqn:Eh.
  apply take_digits_inv in Eh as (hs & -> & Dh & ->).
  destruct (omap digit_of hs) as [|h0 hv] eqn:Ehs; [discriminate|].
  destruct rest' as [|c r]; [|discriminate]. rewrite app_nil_r in Hl.
  destruct (overflows _ || overflows _ || _ || _) eqn:Echeck; [discriminate|].
  intros [= <- <-].
  apply orb_false_iff in Echeck as [Echeck Hh0].
  apply orb_false_iff in Echeck as [_ Hw0].
  exists ws, sep, hs. split_and!; auto; try lia.
  - apply orb_true_iff in Esep as [E | E]; apply Ascii.eqb_eq in E; auto.
  - intros ->. discriminate.
  - intros ->. discriminate.
  - intros _. now rewrite Ews.
  - intros _. now rewrite Ehs.
Qed.

Lemma parseVideoSize_accepts_only_sizes_witness :
  parseVideoSize (Some "1280X720") = Ok (Some (1280, 720))
  /\ exists ws sep hs,
       list_ascii_of_string "1280X720" = ws ++ sep :: hs
       /\ (sep = "x"%char \/ sep = "X"%char)
       /\ ws <> [] /\ hs <> []
       /\ Forall (fun c => is_Some (digit_of c)) ws
       /\ Forall (fun c => is_Some (digit_of c)) hs
       /\ 0 < 1280 /\ 0 < 720
       /\ (digits_value (omap digit_of ws) < 2 ^ 53 ->
           1280 = digits_value (omap digit_of ws))
       /\ (digits_value (omap digit_of hs) < 2 ^ 53 ->
           720 = digits_value (omap digit_of hs)).
Proof.
  split; [reflexivity|].
  exact (parseVideoSize_accepts_only_sizes "1280X720" 1280 720 eq_refl).
Defined.

(** A numeral followed by a dash ends at that dash. *)
Lemma numeral_dash_inj (z1 z2 : Z) (r1 r2 : chars) :
  list_ascii_of_string (String_of_Z z1) ++ dash :: r1
  = list_ascii_of_string (String_of_Z z2) ++ dash :: r2 ->
  z1 = z2 /\ r1 = r2.
Proof.
  destruct (pretty_Z_chars z1) as (s1 & ds1 & -> & Hs1 & Hn1 & Hd1 & Hv1).
  destruct (pretty_Z_chars z2) as (s2 & ds2 & -> & Hs2 & Hn2 & Hd2 & Hv2).
  assert (forall ds r, Forall (fun c => is_Some (digit_of c)) ds ->
            take_digits (ds ++ dash :: r) = (omap digit_of ds, dash :: r)) as Htake.
  { intros ds r Hds. rewrite take_digits_app by exact Hds.
    change (take_digits (dash :: r)) with (@nil Z, dash :: r).
    simpl. now rewrite app_nil_r. }
  assert (forall ds r ds' r', Forall (fun c => is_Some (digit_of c)) ds' ->
            ds' <> [] -> dash :: ds ++ r <> ds' ++ r') as Hmix.
  { intros ds r ds' r' Hds' Hne H. destruct Hds' as [|c ds' [d Hc] _]; [congruence|].
    injection H as <- _. discriminate. }
  rewrite <- !app_assoc.
  destruct Hs1 as [[Hz1 ->] | [Hz1 ->]], Hs2 as [[Hz2 ->] | [Hz2 ->]]; simpl; intros H.
  - injection H as H. apply (f_equal take_digits) in H.
    rewrite !Htake in H by assumption. injection H as Hv Hr.
    split; [|exact Hr]. rewrite Hv in Hv1. lia.
  - exfalso. exact (Hmix ds1 (dash :: r1) ds2 (dash :: r2) Hd2 Hn2 H).
  - exfalso. symmetry in H.
    exact (Hmix ds2 (dash :: r2) ds1 (dash :: r1) Hd1 Hn1 H).
  - apply (f_equal take_digits) in H.
    rewrite !Htake in H by assumption. injection H as Hv Hr.
    split; [|exact Hr]. rewrite Hv in Hv1. lia.
Qed.

(** X3.  The step key tells steps apart: two steps have the same key
    exactly when they have the same slide number and the same click
    count, so that the transition wait sees every change of either. *)
Theorem getStepKey_tells_steps_apart (a b : Bridge.StepInfo) :
  Bridge.getStepKey a = Bridge.getStepKey b
  <-> Bridge.no a = Bridge.no b /\ Bridge.clicks a = Bridge.clicks b.
Proof.
  unfold Bridge.getStepKey. split; [|now intros [-> ->]].
  intros H. apply (f_equal list_ascii_of_string) in H.
  rewrite !StabilizerProofs.list_ascii_of_string_app in H.
  change (list_ascii_of_string "-") with [dash] in H. simpl app in H.
  apply numeral_dash_inj in H as [Hno Hc]. split; [exact Hno|].
  apply list_ascii_of_string_inj in Hc. now apply (inj pretty) in Hc.
Qed.

End NumeralProofs.

(** ** The wait for the next step *)

Module TransitionProofs.
Import JS Bridge Options Recorder LogShapes RecorderProofs.

(** Steps with the same key show the same slide and the same click. *)
Lemma same_key_same_step (a b : StepInfo) :
  getStepKey a = getStepKey b <-> no a = no b /\ clicks a = clicks b.
Proof.
  unfold getStepKey. split; [|now intros [-> ->]].
  intros H. apply (f_equal list_ascii_of_string) in H.
  rewrite !StabilizerProofs.list_ascii_of_string_app in H.
  change (list_ascii_of_string "-") with [Sanitize.dash] in H. simpl app in H.
  apply NumeralProofs.numeral_dash_inj in H as [Hno Hc]. split; [exact Hno|].
  apply NumeralProofs.list_ascii_of_string_inj in Hc.
  now apply (inj pretty) in Hc.
Qed.

Lemma waiting_holding deadline step d :
  waiting deadline (getStepKey step) d -> holding deadline step d.
Proof.
  induction 1 as [|t c current rest Ht Hc Hk Hw IH]; [constructor|].
  apply same_key_same_step in Hk as [Hn Hcl]. now constructor.
Qed.

Section Wait.

Context {W : Type} (env : Env W) (time : W -> Z) (Htick : Ticking env time).
Variables (videoFps startedAt : Z) (clip : option Clip).

(** C4.  In a turn of the main loop in which the dwell has ended, the
    step read after it ([step]) has a next step inside the range, and
    [nextStep()] has returned true, the recorder reads the clock ([t0])
    and sets the deadline [t0 + min(10000, max(2000, timeout))].  It then
    repeats rounds, each made of a clock reading before the deadline, the
    capture of a frame and a reading of the step, for as long as the step
    read has the slide number and the click count of [step], the step
    saved before [nextStep()].  There are three ends.  A step is read
    whose slide number or click count differs: the loop goes on, with the
    capture through the settle budget and its next turn.  The clock is
    read at or past the deadline: the export fails with
    "[slidev] Failed to advance from step <no>-<clicks>", the key of the
    saved step.  A capture or a page call throws: the export fails with
    that error.  As a screenshot takes at least a millisecond, the wait
    ends within [min(10000, max(2000, timeout))] rounds. *)
Theorem transition_wait_until_change_or_deadline
    (fuel rounds : nat) (plan : Mp4Plan) (timeout : Z)
    (st st1 st2 st3 : state W) (step : StepInfo) :
  (Z.to_nat (Z.min 10000 (Z.max 2000 timeout)) < fuel)%nat ->
  dwell env videoFps startedAt clip fuel plan st = (Ret tt, st1) ->
  getStepInfo env st1 = (Ret step, st2) ->
  hasNext step = true ->
  canAdvanceInRange step (plan_endSlideNo plan) = true ->
  nextStep env st2 = (Ret true, st3) ->
  let '(o, st') :=
    mainLoop env videoFps startedAt clip fuel (S rounds) plan timeout st in
  exists t0 d st4,
    let deadline := t0 + Z.min 10000 (Z.max 2000 timeout) in
    log st4 = log st3 ++ [EvNow t0] ++ d
    /\ ((exists d0 t c current,
           d = d0 ++ [EvNow t] ++ c ++ [EvStepInfo current]
           /\ holding deadline step d0
           /\ t < deadline /\ capture_round c
           /\ (no current <> no step \/ clicks current <> clicks step)
           /\ (o, st')
              = afterTransition env videoFps startedAt clip fuel rounds plan
                  timeout st4)
        \/ (exists d0 t,
              d = d0 ++ [EvNow t]
              /\ holding deadline step d0 /\ deadline <= t
              /\ st' = st4
              /\ o = Err ("[slidev] Failed to advance from step "
                          +:+ String_of_Z (no step) +:+ "-"
                          +:+ String_of_Z (clicks step)))
        \/ (exists d0 d1 message,
              d = d0 ++ d1
              /\ holding deadline step d0
              /\ last d1 = Some (EvFail message)
              /\ st' = st4 /\ o = Err message)).
Proof.
  intros Hf Hdwell Hstep Hnext Hrange Hadv.
  cbn [mainLoop]. unfold bind at 1. rewrite Hdwell.
  unfold bind at 1. rewrite Hstep. rewrite Hnext, Hrange. cbn [negb orb].
  unfold bind at 1. rewrite Hadv. cbn [negb].
  pose proof (awaitTransition_enough_fuel env time Htick videoFps startedAt clip
                fuel (getStepKey step) timeout st3 Hf) as Hl.
  pose proof (transition_wait_shape env videoFps startedAt clip fuel
                (getStepKey step) timeout st3) as Hs.
  unfold bind at 1.
  destruct (awaitTransition env videoFps startedAt clip fuel (getStepKey step)
              timeout st3) as [o4 st4].
  destruct Hs as (t0 & d & L & Ho).
  destruct o4 as [[]|message|]; [| |now simpl in Hl].
  - destruct (bind (getTransitionSettleBudget env) _ st4) as [o st'] eqn:E.
    exists t0, d, st4. cbv zeta in *. split; [exact L|]. left.
    destruct Ho as (d0 & t & c & current & -> & Hw & Ht & Hc & Hk).
    exists d0, t, c, current.
    split_and!; auto using waiting_holding.
    destruct (Z.eq_dec (no current) (no step)) as [En|En]; [|now left].
    destruct (Z.eq_dec (clicks current) (clicks step)) as [Ec|Ec]; [|now right].
    exfalso. apply Hk. now apply same_key_same_step.
  - exists t0, d, st4. cbv zeta in *. split; [exact L|]. right.
    destruct Ho as [(d0 & t & -> & Hw & Ht & ->) | (d0 & d1 & -> & Hw & Hlast)].
    + left. exists d0, t. split_and!; auto using waiting_holding.
    + right. exists d0, d1, message. split_and!; auto using waiting_holding.
Qed.

End Wait.

End TransitionProofs.

(** ** More on the outline *)

Module TocExtras.
Import JS Toc TocShapes TocProofs.

Lemma split_last_app init l : split_last (init ++ [l]) = Some (init, l).
Proof.
  induction init as [|x init IH]; [reflexivity|].
  simpl. now rewrite IH.
Qed.

(** On a tree whose right spine reaches down far enough, [addToTree]
    places a slide at its title level, and the spine then ends at the new
    item. *)
Lemma addToTree_on_spine tree info slideIndexes lvl n tl :
  level info = Some tl ->
  1 <= tl -> lvl <= tl <= lvl + Z.of_nat n ->
  spine n lvl tree ->
  flat (addToTree tree info slideIndexes lvl)
  = flat tree ++ [newItem info slideIndexes tl]
  /\ spine (Z.to_nat (tl - lvl + 1)) lvl (addToTree tree info slideIndexes lvl).
Proof.
  intros Hlevel Hpos. revert n.
  funelim (addToTree tree info slideIndexes lvl); intros n Hrange Hspine.
  - pose proof (descend_spec _ _ _ _ _ e) as [Htree Hdeep].
    unfold level_or_zero in Hdeep. rewrite Hlevel in Hdeep. simpl in Hdeep.
    destruct n as [|n]; simpl in Hspine.
    { subst tree. now destruct init. }
    destruct Hspine as (init' & l' & Htree' & Htl & Hsp).
    rewrite Htree in Htree'. apply app_inj_tail in Htree' as [<- <-].
    destruct (H tl Hlevel Hpos n) as [Hflat Hsp']; [lia | exact Hsp |].
    split.
    + rewrite Htree, !flat_app, !flat_singleton. simpl. rewrite Hflat.
      now rewrite <- app_assoc.
    + replace (Z.to_nat (tl - lvl + 1)) with (S (Z.to_nat (tl - (lvl + 1) + 1)))
        by lia.
      simpl. eexists init, _. split_and!; [reflexivity | exact Htl | exact Hsp'].
  - assert (tl = lvl) as ->.
    { destruct (Z.eq_dec tl lvl) as [E|E]; [exact E | exfalso].
      destruct n as [|n]; [lia|]. simpl in Hspine.
      destruct Hspine as (init & l' & -> & Htl & _).
      pose proof e as He. clear - He Hlevel Htl Hpos Hrange E.
      unfold descend in He. rewrite Hlevel, split_last_app, Htl in He.
      assert (truthy_level (Some tl) = true) as Ht
        by (simpl; apply negb_true_iff, Z.eqb_neq; lia).
      assert ((lvl <? tl) = true) as Hlt by (apply Z.ltb_lt; lia).
      rewrite Ht, Hlt in He. discriminate He. }
    split.
    + rewrite flat_app, flat_singleton. reflexivity.
    + replace (Z.to_nat (lvl - lvl + 1)) with 1%nat by lia. simpl.
      exists tree, (newItem info slideIndexes lvl).
      split_and!; [reflexivity | | reflexivity].
      simpl. now rewrite Hlevel.
Qed.

Lemma fold_on_spine slideIndexes (slides : list SlideInfo) prev acc :
  0 <= prev -> gentle prev slides -> spine (Z.to_nat prev) 1 acc ->
  flat (fold_left (fun acc slide => addToTree acc slide slideIndexes 1) slides acc)
  = flat acc
    ++ map (fun s => newItem s slideIndexes (level_or_zero s)) slides.
Proof.
  revert prev acc. induction slides as [|s slides IH]; intros prev acc Hp Hg Hs.
  - simpl. now rewrite app_nil_r.
  - simpl in Hg. destruct (level s) as [l|] eqn:El; [|contradiction].
    destruct Hg as [Hl Hg].
    destruct (addToTree_on_spine acc s slideIndexes 1 (Z.to_nat prev) l)
      as [Hflat Hsp]; [exact El | lia | lia | exact Hs |].
    replace (l - 1 + 1) with l in Hsp by lia.
    simpl. rewrite (IH l) by (first [lia | assumption]).
    rewrite Hflat, <- app_assoc. unfold level_or_zero. now rewrite El.
Qed.

(** X18.  When the title levels of a deck never skip a level (the first
    titled slide has level 1, and every other titled slide has a level
    between 1 and one more than that of the titled slide before it), every
    line of the outline has as many dashes as the title level of its
    slide minus 1: the outline is the one line per titled slide,
    [<page>|<dashes>|<title>], that the title levels dictate. *)
Theorem outline_follows_title_levels
    (slides : list SlideInfo) (slideIndexes : gmap Z Z) :
  gentle 0 (filter (fun slide => truthy_str (title slide) = true) slides) ->
  makeOutline (tocTree slides slideIndexes) = claimed_outline slides slideIndexes.
Proof.
  intros Hg. unfold tocTree, claimed_outline.
  set (titled := filter _ slides) in *.
  pose proof (fold_on_spine slideIndexes titled 0 [] (Z.le_refl 0) Hg eq_refl)
    as Hflat.
  change (flat []) with (@nil TocItem) in Hflat. simpl in Hflat.
  assert (Forall (fun s => truthy_str (title s) = true) titled) as Ht.
  { subst titled. apply Forall_forall. intros x Hx.
    now apply list_elem_of_filter in Hx as [Hx _]. }
  rewrite makeOutline_lines.
  - rewrite Hflat, map_map. reflexivity.
  - rewrite Hflat. apply Forall_map. exact Ht.
Qed.

Lemma outline_follows_title_levels_witness :
  gentle 0 (filter (fun slide => truthy_str (title slide) = true) nested_deck)
  /\ makeOutline (tocTree nested_deck one_page_per_slide)
     = claimed_outline nested_deck one_page_per_slide.
Proof.
  assert (gentle 0 (filter (fun slide => truthy_str (title slide) = true)
                      nested_deck)) as Hg
    by (vm_compute; repeat split; discriminate).
  split; [exact Hg|].
  exact (outline_follows_title_levels nested_deck one_page_per_slide Hg).
Defined.

End TocExtras.

(** ** The outline, line by line *)

Module OutlineProofs.
Import JS Toc TocShapes TocProofs TocExtras.

Lemma descend_inv tree info lvl init l :
  descend tree info lvl = Some (init, l) ->
  exists titleLevel,
    level info = Some titleLevel
    /\ truthy_level (level info) && (lvl <? titleLevel) = true
    /\ tree = init ++ [l]
    /\ (toc_titleLevel l <? titleLevel) = true.
Proof.
  unfold descend. destruct (level info) as [tl|]; [|discriminate].
  destruct (_ && _) eqn:E1; [|discriminate].
  destruct (split_last tree) as [[i' l']|] eqn:E2; [|discriminate].
  destruct (toc_titleLevel l' <? tl) eqn:E3; [|discriminate].
  intros [= <- <-]. exists tl. split_and!; auto.
  now apply split_last_spec.
Qed.

Lemma on_spine_snoc init l stack :
  on_spine (init ++ [l]) stack ->
  exists below, stack = toc_titleLevel l :: below
                /\ on_spine (toc_children l) below.
Proof.
  intros H. inversion H as [E | init' l' below Hc E].
  - now destruct init.
  - apply app_inj_tail in E as [-> ->]. now exists below.
Qed.

(** [addToTree] puts a slide where [place] says. *)
Lemma addToTree_place tree info slideIndexes lvl stack :
  on_spine tree stack ->
  flat (addToTree tree info slideIndexes lvl)
  = flat tree ++ [newItem info slideIndexes (place stack (level info) lvl).1]
  /\ on_spine (addToTree tree info slideIndexes lvl)
       ((place stack (level info) lvl).2
        ++ [from_option id (place stack (level info) lvl).1 (level info)]).
Proof.
  revert stack.
  funelim (addToTree tree info slideIndexes lvl); intros stack Hs.
  - pose proof (descend_inv _ _ _ _ _ e) as (tl & Hl & Hc & Htree & Ht).
    rewrite Htree in Hs. apply on_spine_snoc in Hs as (below & -> & Hb).
    destruct (H below Hb) as [Hflat Hsp]. clear H.
    rewrite Hl in *. cbn [place]. rewrite Hc, Ht. cbn [andb].
    destruct (place below (Some tl) (lvl + 1)) as [depth kept] eqn:Ep.
    cbn [fst snd] in *. split.
    + rewrite Htree, !flat_app, !flat_singleton. simpl. rewrite Hflat.
      now rewrite <- app_assoc.
    + change ((toc_titleLevel l :: kept) ++ [from_option id depth (Some tl)])
        with (toc_titleLevel (set_children l
                (addToTree (toc_children l) info slideIndexes (lvl + 1)))
              :: (kept ++ [from_option id depth (Some tl)])).
      constructor. exact Hsp.
  - assert (place stack (level info) lvl = (lvl, [])) as ->.
    { destruct Hs as [|init l below Hb]; [reflexivity|].
      pose proof e as He. clear - He. unfold descend in He.
      cbn [place]. destruct (level info) as [tl|]; [|reflexivity].
      simpl truthy_level in *.
      destruct (negb (tl =? 0) && (lvl <? tl)); [|reflexivity].
      rewrite split_last_app in He.
      destruct (toc_titleLevel l <? tl); [discriminate | reflexivity]. }
    cbn [fst snd]. split.
    + now rewrite flat_app, flat_singleton.
    + change ([] ++ [from_option id lvl (level info)])
        with [toc_titleLevel (newItem info slideIndexes lvl)].
      constructor. simpl. constructor.
Qed.

Lemma fold_place slideIndexes (slides : list SlideInfo) acc stack :
  on_spine acc stack ->
  flat (fold_left (fun acc slide => addToTree acc slide slideIndexes 1) slides acc)
  = flat acc ++ outline_items slideIndexes stack slides.
Proof.
  revert acc stack. induction slides as [|s slides IH]; intros acc stack Hs.
  - simpl. now rewrite app_nil_r.
  - destruct (addToTree_place acc s slideIndexes 1 stack Hs) as [Hflat Hsp].
    simpl. rewrite (IH _ _ Hsp), Hflat.
    destruct (place stack (level s) 1) as [depth kept].
    now rewrite <- app_assoc.
Qed.

(** C2, as the code has it.  For every deck, the outline is the
    newline-join of exactly one line per titled slide, in deck order; the
    line of a slide is [<page>|<dashes>|<title>] with the page and title of
    that slide, and the number of dashes is the depth of the slide in the
    TOC tree minus 1.  The depth is found from the root (depth 1): a slide
    whose title level is deeper than the depth reached descends under the
    last item there if that item's title level is shallower than its own,
    and otherwise joins at the depth reached.  The depth is at least 1 and
    at most the title level (when that is at least 1).  On a deck whose
    title levels never skip a level, the depth of every slide is its title
    level, and the outline is the one the specification describes: as
    many dashes as the title level minus 1. *)
Theorem outline_one_line_per_titled_slide
    (slides : list SlideInfo) (slideIndexes : gmap Z Z) :
  let titled := filter (fun slide => truthy_str (title slide) = true) slides in
  let tree := tocTree slides slideIndexes in
  makeOutline tree
  = String.concat nl (map outline_line (outline_items slideIndexes [] titled))
  /\ flat tree = outline_items slideIndexes [] titled
  /\ map entry_of_item (flat tree) = map (entry_of_slide slideIndexes) titled
  /\ levelled 1 tree
  /\ Forall (fun it => 1 <= toc_level it <= Z.max 1 (toc_titleLevel it))
            (flat tree)
  /\ (gentle 0 titled ->
      map toc_level (flat tree) = map level_or_zero titled
      /\ makeOutline tree = claimed_outline slides slideIndexes).
Proof.
  cbn zeta. unfold tocTree.
  set (titled := filter _ slides).
  destruct (fold_addToTree slideIndexes titled []) as (Hl & Hm & Hb);
    [constructor|]. cbn zeta in *.
  pose proof (fold_place slideIndexes titled [] [] on_spine_nil) as Hflat.
  set (tree := fold_left _ titled []) in *.
  change (flat []) with (@nil TocItem) in *. simpl in Hm, Hflat.
  assert (map toc_title (flat tree) = map title titled) as Ht.
  { apply (f_equal (map snd)) in Hm. now rewrite !map_map in Hm. }
  assert (Forall titled_item (flat tree)) as Htitled.
  { assert (Forall (fun t => truthy_str t = true) (map title titled)) as Hall.
    { apply Forall_map. subst titled. apply Forall_forall.
      intros x Hx. now apply list_elem_of_filter in Hx as [Hx _]. }
    rewrite <- Ht in Hall. now apply Forall_map in Hall. }
  split; [rewrite <- Hflat; now apply makeOutline_lines|].
  split; [exact Hflat|]. split; [exact Hm|]. split; [exact Hl|].
  split; [apply Hb; constructor|].
  - intros Hg.
    pose proof (fold_on_spine slideIndexes titled 0 [] (Z.le_refl 0) Hg eq_refl)
      as Hgentle.
    fold tree in Hgentle. change (flat []) with (@nil TocItem) in Hgentle.
    simpl in Hgentle. split.
    + rewrite Hgentle, map_map. reflexivity.
    + rewrite makeOutline_lines by exact Htitled.
      rewrite Hgentle, map_map. reflexivity.
Qed.

(** The deck with two chapters: the depths are the title levels. *)
Example nested_deck_outline :
  map toc_level (outline_items one_page_per_slide []
                   (filter (fun slide => truthy_str (title slide) = true)
                           nested_deck))
  = [1; 2; 2; 1]
  /\ map toc_level (outline_items one_page_per_slide []
                      (filter (fun slide => truthy_str (title slide) = true)
                              skipping_deck))
     = [1; 2].
Proof. vm_compute. split; reflexivity. Qed.

End OutlineProofs.

(** ** More on the recorder *)

Module RecorderExtras.
Import JS Bridge Options Recorder LogShapes RecorderProofs.

(** *** Nothing is written once the input is closed *)

Section CloseFacts.

Context {W : Type} (env : Env W).

Lemma closes_quiet {A} (m : M W A) :
  emits (fun e => is_end e = false) m -> closes_last m.
Proof.
  intros Hm st o st' H. apply Hm in H as (d & L & F).
  exists d, []. rewrite app_nil_r. split_and!; auto.
Qed.

Lemma closes_bind_l {A B} (m : M W A) (k : A -> M W B) :
  emits (fun e => is_end e = false) m -> (forall a, closes_last (k a)) ->
  closes_last (bind m k).
Proof.
  intros Hm Hk st o st' H.
  apply bind_inv in H as [(a & st1 & H1 & H2) | [(msg & H1 & ->) | [H1 ->]]].
  - apply Hm in H1 as (d1 & L1 & F1). apply Hk in H2 as (x & y & L2 & Fx & Fy).
    exists (d1 ++ x), y. rewrite L2, L1, <- !app_assoc.
    split_and!; auto. now apply Forall_app.
  - now apply (closes_quiet m Hm) in H1.
  - now apply (closes_quiet m Hm) in H1.
Qed.

Lemma closes_bind_r {A B} (m : M W A) (k : A -> M W B) :
  closes_last m -> (forall a, emits neutral_event (k a)) ->
  closes_last (bind m k).
Proof.
  intros Hm Hk st o st' H.
  apply bind_inv in H as [(a & st1 & H1 & H2) | [(msg & H1 & ->) | [H1 ->]]].
  - apply Hm in H1 as (x & y & L1 & Fx & Fy). apply Hk in H2 as (d2 & L2 & F2).
    exists x, (y ++ d2). rewrite L2, L1, <- !app_assoc.
    split_and!; auto. now apply Forall_app.
  - now apply Hm in H1.
  - now apply Hm in H1.
Qed.

Lemma closes_try_catch {A} (m : M W A) handler :
  closes_last m -> (forall e, emits neutral_event (handler e)) ->
  closes_last (try_catch m handler).
Proof.
  intros Hm Hh st o st' H. unfold try_catch in H.
  destruct (m st) as [[a|msg|] st1] eqn:E.
  - injection H as <- <-. now apply Hm in E.
  - apply Hm in E as (x & y & L1 & Fx & Fy). apply Hh in H as (d2 & L2 & F2).
    exists x, (y ++ d2). rewrite L2, L1, <- !app_assoc.
    split_and!; auto. now apply Forall_app.
  - injection H as <- <-. now apply Hm in E.
Qed.

Lemma loop_not_end e : loop_event e -> is_end e = false.
Proof. now destruct e. Qed.

Lemma setup_not_end e : setup_event e -> is_end e = false.
Proof. now destruct e. Qed.

Lemma closes_guardedRecording videoFps startedAt clip fuel plan timeout :
  closes_last (guardedRecording env videoFps startedAt clip fuel plan timeout).
Proof.
  unfold guardedRecording. apply closes_bind_r.
  - apply closes_try_catch; [|intros e; apply emits_ret].
    apply closes_bind_r; [|intros _; apply emits_ret].
    unfold recording.
    apply closes_bind_l; [|intros _].
    { eapply emits_weaken; [apply loop_not_end | apply emits_loop_captureStill]. }
    apply closes_bind_l; [|intros _].
    { eapply emits_weaken; [apply loop_not_end | apply emits_loop_mainLoop]. }
    apply closes_bind_l; [|intros _].
    { eapply emits_weaken; [apply loop_not_end | apply emits_loop_captureStill]. }
    intros st o st' H. exists []. simpl.
    assert (emits neutral_event
              (bind (act (stdinEnd env) EvEnd)
                 (fun _ => call (ffmpegDone env) (fun _ => EvEncoderDone)))) as Hn
      by emits_auto.
    apply Hn in H as (d & L & F). exists d. split_and!; auto.
  - intros [error|]; emits_auto.
Qed.

Lemma closes_genPageMp4 fuel withClicks videoFps videoInterval output scale
    timeout pages :
  closes_last (genPageMp4 env fuel withClicks videoFps videoInterval output scale
                          timeout pages).
Proof.
  unfold genPageMp4.
  destruct (mp4Preflight _ _ _ _ _ _) as [plan|message];
    [|apply closes_quiet, emits_throw].
  unfold recordMp4.
  apply closes_bind_l; [|intros _].
  { eapply emits_weaken; [apply setup_not_end | apply emits_setup_waitForFfmpeg]. }
  apply closes_bind_l; [|intros _].
  { eapply emits_weaken; [apply setup_not_end | apply emits_setup_goPlay]. }
  apply closes_bind_l; [|intros _].
  { eapply emits_weaken; [apply setup_not_end | apply emits_setup_motionScale]. }
  apply closes_bind_l; [emits_auto; reflexivity|intros _].
  apply closes_bind_l; [emits_auto; reflexivity|intros _].
  apply closes_bind_l; [emits_auto; reflexivity|intros clip].
  apply closes_bind_l; [unfold now; emits_auto; reflexivity|intros startedAt].
  apply closes_guardedRecording.
Qed.

Lemma neutral_no_frames l :
  Forall neutral_event l -> captures l = [] /\ writes l = [].
Proof.
  induction 1 as [|e l He Hl [IH1 IH2]]; [now split|].
  destruct e; simpl in *; try contradiction; now split.
Qed.

Lemma end_in_tail (a b l1 l2 : list event) :
  Forall (fun e => is_end e = false) a ->
  a ++ b = l1 ++ EvEnd :: l2 ->
  exists b1, b = b1 ++ EvEnd :: l2.
Proof.
  intros Ha. revert l1. induction Ha as [|x a Hx Ha IH]; intros l1 H.
  - now exists l1.
  - destruct l1 as [|y l1]; simpl in H.
    + injection H as -> _. discriminate.
    + injection H as _ H. now apply IH in H.
Qed.

(** X4.  In every run of [genPageMp4], whatever its end, nothing is
    captured and nothing is written to the encoder after
    [ffmpeg.stdin.end()] has been called. *)
Theorem no_frame_after_close
    (fuel : nat) (withClicks : bool) (videoFps videoInterval : num)
    (output : string) (scale : option scale_arg) (timeout : Z)
    (pages : list Z) (st : state W) :
  let '(o, st') :=
    genPageMp4 env fuel withClicks videoFps videoInterval output scale timeout
               pages st in
  exists d,
    log st' = log st ++ d
    /\ forall l1 l2, d = l1 ++ EvEnd :: l2 -> captures l2 = [] /\ writes l2 = [].
Proof.
  destruct (genPageMp4 env fuel withClicks videoFps videoInterval output scale
                       timeout pages st) as [o st'] eqn:E.
  apply closes_genPageMp4 in E as (a & b & L & Fa & Fb).
  exists (a ++ b). split; [exact L|]. intros l1 l2 H.
  apply end_in_tail in H as (b1 & ->); [|exact Fa].
  apply Forall_app in Fb as [_ Fb]. apply Forall_cons in Fb as [_ Fb].
  now apply neutral_no_frames.
Qed.

End CloseFacts.

(** *** The frame counter *)

Section DriftFacts.

Context {W : Type} (env : Env W).

Lemma drifts_ret {A} (a : A) : drifts 0 (ret (W:=W) a).
Proof.
  intros st a' st' [= <- <-]. exists []. rewrite app_nil_r. simpl. split; [reflexivity | lia].
Qed.

Lemma drifts_throw {A} k message : drifts k (throw (W:=W) (A:=A) message).
Proof. intros st a st' [=]. Qed.

Lemma drifts_out_of_fuel {A} k : drifts k (out_of_fuel (W:=W) (A:=A)).
Proof. intros st a st' [=]. Qed.

Lemma drifts_bind {A B} k1 k2 (m : M W A) (k : A -> M W B) :
  drifts k1 m -> (forall a, drifts k2 (k a)) -> drifts (k1 + k2) (bind m k).
Proof.
  intros Hm Hk st b st' H. apply bind_Ret_inv in H as (a & st1 & H1 & H2).
  apply Hm in H1 as (d1 & L1 & C1). apply Hk in H2 as (d2 & L2 & C2).
  exists (d1 ++ d2). rewrite L2, L1, <- app_assoc. split; [reflexivity|].
  rewrite writes_app, length_app. lia.
Qed.

Lemma drifts_call {A} (op : W -> result A * W) ev :
  (forall a, writes [ev a] = []) -> drifts 0 (call op ev).
Proof.
  intros Hev st a st' H. apply call_Ret_inv in H as (w & _ & ->).
  exists [ev a]. rewrite Hev. simpl. split; [reflexivity | lia].
Qed.

Lemma drifts_call_total {A} (op : W -> A * W) ev :
  (forall a, writes [ev a] = []) -> drifts 0 (call_total op ev).
Proof.
  intros Hev st a st' H. apply call_total_inv in H as (a' & w & _ & [= <-] & ->).
  exists [ev a]. rewrite Hev. simpl. split; [reflexivity | lia].
Qed.

Lemma drifts_act (op : W -> W) e : writes [e] = [] -> drifts 0 (act op e).
Proof.
  intros He st a st' H. unfold act in H. injection H as _ <-.
  exists [e]. rewrite He. simpl. split; [reflexivity | lia].
Qed.

Lemma drifts_getWrittenFrames : drifts 0 (getWrittenFrames (W:=W)).
Proof.
  intros st a st' [= _ <-]. exists []. rewrite app_nil_r. simpl.
  split; [reflexivity | lia].
Qed.

Lemma drifts_countFrame : drifts 1 (countFrame (W:=W)).
Proof.
  intros st a st' H. unfold countFrame in H. injection H as _ <-.
  exists []. rewrite app_nil_r. simpl. split; [reflexivity | lia].
Qed.

Lemma drifts_writeFrame b : drifts (-1) (writeFrame env b).
Proof.
  intros st u st' H. apply writeFrame_Ret in H as (d & L & _ & Wd & C).
  exists d. rewrite Wd, C. simpl. split; [exact L | lia].
Qed.

End DriftFacts.

Ltac drifts_step :=
  first
    [ apply drifts_ret | apply drifts_throw | apply drifts_out_of_fuel
    | apply drifts_getWrittenFrames
    | apply (drifts_bind 0 0); [|intros ?]
    | apply drifts_call; intros ?; reflexivity
    | apply drifts_call_total; intros ?; reflexivity
    | apply drifts_act; reflexivity
    | match goal with
      | |- drifts _ (if ?b then _ else _) => destruct b
      | |- drifts _ (match ?x with _ => _ end) => destruct x
      end ].

Ltac drifts_auto := repeat drifts_step.

Section DriftLoops.

Context {W : Type} (env : Env W).
Variables (videoFps startedAt : Z) (clip : option Clip).

Lemma drifts_writeMissing n b : drifts 0 (writeMissing env n b).
Proof.
  induction n as [|n IH]; simpl; [apply drifts_ret|].
  apply (drifts_bind (-1) 1); [apply drifts_writeFrame|intros _].
  apply (drifts_bind 1 0); [apply drifts_countFrame|intros _]. exact IH.
Qed.

Lemma drifts_catchUpFrames b : drifts 0 (catchUpFrames env videoFps startedAt b).
Proof.
  unfold catchUpFrames, now.
  apply (drifts_bind 0 0); [drifts_auto|intros t].
  apply (drifts_bind 0 0); [drifts_auto|intros w]. apply drifts_writeMissing.
Qed.

Lemma drifts_captureStill : drifts 0 (captureStill env videoFps startedAt clip).
Proof.
  unfold captureStill, captureFrame.
  apply (drifts_bind 0 0); [drifts_auto|intros frame].
  apply (drifts_bind (-1) 1); [apply drifts_writeFrame|intros _].
  apply (drifts_bind 1 0); [apply drifts_countFrame|intros _].
  apply drifts_catchUpFrames.
Qed.

Lemma drifts_captureAndWriteFrame :
  drifts 0 (captureAndWriteFrame env videoFps startedAt clip).
Proof.
  unfold captureAndWriteFrame, captureFrame.
  apply (drifts_bind 0 0); [drifts_auto|intros frame].
  apply (drifts_bind (-1) 1); [apply drifts_writeFrame|intros _].
  apply (drifts_bind 1 0); [apply drifts_countFrame|intros _].
  apply (drifts_bind 0 0); [apply drifts_catchUpFrames|intros _].
  unfold now, sleep. drifts_auto.
Qed.

Lemma drifts_captureUntil fuel deadline :
  drifts 0 (captureUntil env videoFps startedAt clip fuel deadline).
Proof.
  induction fuel as [|fuel IH]; simpl; [apply drifts_out_of_fuel|].
  apply (drifts_bind 0 0); [unfold now; drifts_auto|intros t].
  destruct (Qltb _ _); [|apply drifts_ret].
  apply (drifts_bind 0 0); [apply drifts_captureAndWriteFrame|intros _]. exact IH.
Qed.

Lemma drifts_captureForDuration fuel durationMs :
  drifts 0 (captureForDuration env videoFps startedAt clip fuel durationMs).
Proof.
  unfold captureForDuration. destruct (Qle_bool _ _); [apply drifts_ret|].
  apply (drifts_bind 0 0); [unfold now; drifts_auto|intros t].
  apply drifts_captureUntil.
Qed.

Lemma drifts_transitionWait fuel deadline prev :
  drifts 0 (transitionWait env videoFps startedAt clip fuel deadline prev).
Proof.
  induction fuel as [|fuel IH]; simpl; [apply drifts_out_of_fuel|].
  apply (drifts_bind 0 0); [unfold now; drifts_auto|intros t].
  destruct (_ <? _); [|apply drifts_ret].
  apply (drifts_bind 0 0); [apply drifts_captureAndWriteFrame|intros _].
  apply (drifts_bind 0 0); [unfold getStepInfo; drifts_auto|intros step].
  destruct (negb _); [apply drifts_ret | exact IH].
Qed.

Lemma drifts_mainLoop fuel rounds plan timeout :
  drifts 0 (mainLoop env videoFps startedAt clip fuel rounds plan timeout).
Proof.
  induction rounds as [|rounds IH]; simpl; [apply drifts_out_of_fuel|].
  apply (drifts_bind 0 0); [|intros _].
  { unfold dwell. apply (drifts_bind 0 0); [|intros _].
    - unfold waitForStepSettled, getTransitionSettleBudget, sleep. drifts_auto.
    - apply drifts_captureForDuration. }
  apply (drifts_bind 0 0); [unfold getStepInfo; drifts_auto|intros step].
  destruct (_ || _); [apply drifts_ret|].
  apply (drifts_bind 0 0); [unfold nextStep; drifts_auto|intros advanced].
  destruct (negb advanced); [apply drifts_throw|].
  apply (drifts_bind 0 0); [|intros _].
  { unfold awaitTransition. apply (drifts_bind 0 0); [unfold now; drifts_auto|intros t].
    apply (drifts_bind 0 0); [apply drifts_transitionWait|intros changed].
    destruct (negb changed); [apply drifts_throw | apply drifts_ret]. }
  apply (drifts_bind 0 0); [unfold getTransitionSettleBudget; drifts_auto|intros budget].
  apply (drifts_bind 0 0); [apply drifts_captureForDuration|intros _]. exact IH.
Qed.

Lemma drifts_recording fuel plan timeout :
  drifts 0 (recording env videoFps startedAt clip fuel plan timeout).
Proof.
  unfold recording.
  apply (drifts_bind 0 0); [apply drifts_captureStill|intros _].
  apply (drifts_bind 0 0); [apply drifts_mainLoop|intros _].
  apply (drifts_bind 0 0); [apply drifts_captureStill|intros _].
  drifts_auto.
Qed.

(** A recording that returns is one whose [try] block returned. *)
Lemma guardedRecording_Ret fuel plan timeout st u st' :
  guardedRecording env videoFps startedAt clip fuel plan timeout st = (Ret u, st') ->
  recording env videoFps startedAt clip fuel plan timeout st = (Ret tt, st').
Proof.
  unfold guardedRecording, bind at 1, try_catch, bind at 1.
  destruct (recording env videoFps startedAt clip fuel plan timeout st)
    as [[[]|message|] st1]; simpl.
  - unfold ret. intros H. now injection H as _ <-.
  - unfold bind, act, try_catch, call, throw, ret. simpl.
    destruct (ffmpegDone env _) as [[[]|m2] w]; discriminate.
  - discriminate.
Qed.

Lemma drifts_guardedRecording fuel plan timeout :
  drifts 0 (guardedRecording env videoFps startedAt clip fuel plan timeout).
Proof.
  intros st u st' H. apply guardedRecording_Ret in H.
  now apply drifts_recording in H.
Qed.

End DriftLoops.

Section DriftJob.

Context {W : Type} (env : Env W).

Lemma drifts_genPageMp4 fuel withClicks videoFps videoInterval output scale
    timeout pages :
  drifts 0 (genPageMp4 env fuel withClicks videoFps videoInterval output scale
                       timeout pages).
Proof.
  unfold genPageMp4.
  destruct (mp4Preflight _ _ _ _ _ _) as [plan|message]; [|apply drifts_throw].
  unfold recordMp4, waitForFfmpeg, goPlay, waitForStepSettled,
    getTransitionSettleBudget, sleep, now.
  apply (drifts_bind 0 0); [drifts_auto|intros _].
  apply (drifts_bind 0 0); [drifts_auto|intros _].
  apply (drifts_bind 0 0); [drifts_auto|intros _].
  apply (drifts_bind 0 0); [drifts_auto|intros _].
  apply (drifts_bind 0 0); [drifts_auto|intros _].
  apply (drifts_bind 0 0); [drifts_auto|intros clip].
  apply (drifts_bind 0 0); [drifts_auto|intros startedAt].
  apply drifts_guardedRecording.
Qed.

(** X5.  When [genPageMp4] succeeds, the frame counter [writtenFrames],
    which starts at 0, equals the number of frames written to the
    encoder. *)
Theorem frame_counter_matches_writes
    (fuel : nat) (withClicks : bool) (videoFps videoInterval : num)
    (output : string) (scale : option scale_arg) (timeout : Z)
    (pages : list Z) (w : W) :
  let '(o, st') :=
    genPageMp4 env fuel withClicks videoFps videoInterval output scale timeout
               pages (initial w) in
  match o with
  | Ret _ => writtenFrames st' = Z.of_nat (length (writes (log st')))
  | _ => True
  end.
Proof.
  destruct (genPageMp4 env fuel withClicks videoFps videoInterval output scale
                       timeout pages (initial w)) as [[[]|message|] st'] eqn:E;
    [|exact I..].
  apply drifts_genPageMp4 in E as (d & L & C). simpl in L, C.
  rewrite L, C. lia.
Qed.

Lemma preflight_fps withClicks videoFps videoInterval output scale pages plan :
  mp4Preflight withClicks videoFps videoInterval output scale pages = Ok plan ->
  plan_fps plan = to_Z videoFps.
Proof.
  unfold mp4Preflight. destruct (negb withClicks); [discriminate|].
  destruct (_ || _ || _); [discriminate|]. destruct (_ || _); [discriminate|].
  destruct (parseVideoMotionScale scale); [|discriminate].
  destruct (negb (isContiguousRange pages)); [discriminate|].
  now intros [= <-].
Qed.

(** What the last frame of a recording leaves behind: the clock reading
    of its catch-up, the copies it wrote, and a counter that has caught
    up with that reading. *)
Lemma captureStill_Ret videoFps startedAt clip st u st' :
  captureStill env videoFps startedAt clip st = (Ret u, st') ->
  exists frame head t copies,
    log st' = log st ++ head ++ [EvNow t] ++ copies
    /\ writes_only frame copies
    /\ Z.max 1 ((t - startedAt) * videoFps / 1000) <= writtenFrames st'.
Proof.
  unfold captureStill. intros H.
  apply bind_Ret_inv in H as (frame & st1 & H1 & H).
  apply call_Ret_inv in H1 as (w1 & _ & ->).
  apply bind_Ret_inv in H as (u2 & st2 & H2 & H).
  apply writeFrame_Ret in H2 as (d2 & E2 & _ & _ & C2).
  apply bind_Ret_inv in H as (u3 & st3 & H3 & H). injection H3 as <- <-.
  apply catchUpFrames_Ret in H as (t & d & E & O & _ & C).
  simpl in E, E2, C. exists frame, ([EvCapture frame] ++ d2), t, d.
  split_and!; auto.
  - rewrite E, E2. simpl. now rewrite <- !app_assoc.
  - rewrite C. unfold expectedFrames. lia.
Qed.

(** X6.  When [genPageMp4] succeeds, the recording started at the clock
    reading [startedAt] that follows the evaluation of the clip, and [t]
    is the last clock reading before the input is closed, then the encoder
    has received at least [max(1, floor((t - startedAt) * fps / 1000))]
    frames: the video is not shorter than the time the recording took. *)
Theorem frames_cover_elapsed_time
    (fuel : nat) (withClicks : bool) (videoFps videoInterval : num)
    (output : string) (scale : option scale_arg) (timeout : Z)
    (pages : list Z) (w : W) :
  let '(o, st') :=
    genPageMp4 env fuel withClicks videoFps videoInterval output scale timeout
               pages (initial w) in
  match o with
  | Ret _ =>
      exists setup clip startedAt body frame t copies,
        log st'
        = setup ++ [EvClip clip; EvNow startedAt] ++ body ++ [EvNow t] ++ copies
            ++ [EvEnd; EvEncoderDone]
        /\ Forall setup_event setup
        /\ writes_only frame copies
        /\ Z.max 1 ((t - startedAt) * to_Z videoFps / 1000)
           <= Z.of_nat (length (writes (log st')))
  | _ => True
  end.
Proof.
  destruct (genPageMp4 env fuel withClicks videoFps videoInterval output scale
                       timeout pages (initial w)) as [[[]|message|] st'] eqn:E;
    [|exact I..].
  pose proof (drifts_genPageMp4 _ _ _ _ _ _ _ _ _ _ _ E) as (dall & Lall & Call).
  simpl in Lall, Call.
  unfold genPageMp4 in E.
  destruct (mp4Preflight _ _ _ _ _ _) as [plan|message] eqn:P; [|discriminate].
  apply preflight_fps in P. unfold recordMp4 in E.
  apply bind_Ret_inv in E as (u1 & st1 & H1 & E).
  apply emits_setup_waitForFfmpeg in H1 as (d1 & L1 & F1).
  apply bind_Ret_inv in E as (u2 & st2 & H2 & E).
  apply emits_setup_goPlay in H2 as (d2 & L2 & F2).
  apply bind_Ret_inv in E as (u3 & st3 & H3 & E).
  apply emits_setup_motionScale in H3 as (d3 & L3 & F3).
  apply bind_Ret_inv in E as (u4 & st4 & H4 & E).
  injection H4 as _ <-.
  apply bind_Ret_inv in E as (u5 & st5 & H5 & E).
  apply call_Ret_inv in H5 as (w5 & _ & ->).
  apply bind_Ret_inv in E as (clip & st6 & H6 & E).
  apply call_Ret_inv in H6 as (w6 & _ & ->).
  apply bind_Ret_inv in E as (startedAt & st7 & H7 & E).
  apply now_inv in H7 as (t0 & [= <-] & L7 & _).
  apply guardedRecording_Ret in E. unfold recording in E.
  apply bind_Ret_inv in E as (u8 & st8 & H8 & E).
  apply emits_loop_captureStill in H8 as (d8 & L8 & _).
  apply bind_Ret_inv in E as (u9 & st9 & H9 & E).
  apply emits_loop_mainLoop in H9 as (d9 & L9 & _).
  apply bind_Ret_inv in E as (u10 & st10 & H10 & E).
  apply captureStill_Ret in H10 as (frame & hd & t & copies & L10 & O10 & C10).
  apply bind_Ret_inv in E as (u11 & st11 & H11 & E).
  injection H11 as _ <-.
  apply call_Ret_inv in E as (w12 & _ & ->).
  simpl in *.
  exists (d1 ++ d2 ++ d3 ++ [EvSpawn (ffmpegArgs plan); EvTargetReady]), clip,
    startedAt, (d8 ++ d9 ++ hd), frame, t, copies.
  split_and!; auto.
  - rewrite L10, L9, L8, L7. simpl. rewrite L3, L2, L1. simpl.
    rewrite <- !app_assoc. reflexivity.
  - repeat (apply Forall_app; split); auto. repeat constructor.
  - rewrite <- P, Lall. lia.
Qed.

End DriftJob.

(** *** The range *)

Section RangeFacts.

Context {W : Type} (env : Env W).
Variable endSlideNo : Z.

Lemma last_event_app prev l1 l2 :
  last_event prev (l1 ++ l2) = last_event (last_event prev l1) l2.
Proof.
  unfold last_event. rewrite last_app. now destruct (last l2).
Qed.

Lemma advances_guarded_app prev l1 l2 :
  advances_guarded endSlideNo prev (l1 ++ l2)
  <-> advances_guarded endSlideNo prev l1
      /\ advances_guarded endSlideNo (last_event prev l1) l2.
Proof.
  revert prev. induction l1 as [|e l1 IH]; intros prev.
  - simpl. unfold last_event. simpl. tauto.
  - assert (last_event prev (e :: l1) = last_event (Some e) l1) as ->.
    { unfold last_event. rewrite last_cons. now destruct (last l1). }
    simpl. rewrite IH. tauto.
Qed.

Lemma guarded_quiet prev l :
  Forall (fun e => is_next e = false) l -> advances_guarded endSlideNo prev l.
Proof.
  intros H. revert prev. induction H as [|e l He Hl IH]; intros prev; [exact I|].
  simpl. split; [|apply IH]. now destruct e.
Qed.

Lemma guards_quiet {A} (m : M W A) :
  emits (fun e => is_next e = false) m -> guards endSlideNo m.
Proof.
  intros Hm st o st' H. apply Hm in H as (d & L & F). exists d.
  split; [exact L|]. intros prev. now apply guarded_quiet.
Qed.

Lemma guards_bind {A B} (m : M W A) (k : A -> M W B) :
  guards endSlideNo m -> (forall a, guards endSlideNo (k a)) ->
  guards endSlideNo (bind m k).
Proof.
  intros Hm Hk st o st' H.
  apply bind_inv in H as [(a & st1 & H1 & H2) | [(msg & H1 & ->) | [H1 ->]]];
    try (now apply Hm in H1).
  apply Hm in H1 as (d1 & L1 & G1). apply Hk in H2 as (d2 & L2 & G2).
  exists (d1 ++ d2). split; [now rewrite L2, L1, app_assoc|].
  intros prev. apply advances_guarded_app. split; auto.
Qed.

Lemma guards_try_catch {A} (m : M W A) handler :
  guards endSlideNo m -> (forall e, guards endSlideNo (handler e)) ->
  guards endSlideNo (try_catch m handler).
Proof.
  intros Hm Hh st o st' H. unfold try_catch in H.
  destruct (m st) as [[a|msg|] st1] eqn:E.
  - injection H as <- <-. now apply Hm in E.
  - apply Hm in E as (d1 & L1 & G1). apply Hh in H as (d2 & L2 & G2).
    exists (d1 ++ d2). split; [now rewrite L2, L1, app_assoc|].
    intros prev. apply advances_guarded_app. split; auto.
  - injection H as <- <-. now apply Hm in E.
Qed.

(** What a call of [nextStep] leaves in the log. *)
Lemma nextStep_inv st o st' :
  nextStep env st = (o, st') ->
  (exists via tail,
     log st' = log st ++ EvNextStep via :: tail
     /\ Forall (fun e => is_next e = false) tail)
  \/ (exists message, log st' = log st ++ [EvFail message] /\ o = Err message).
Proof.
  unfold nextStep, bind, call.
  destruct (pageWindow env (world st)) as [[window|message] w]; simpl.
  - destruct (nextStepTarget window); simpl.
    + destruct (callNextStep env ViaBridge w) as [[[]|m] w2]; intros [= <- <-];
        left; exists ViaBridge; eexists; simpl; rewrite <- app_assoc;
        (split; [reflexivity | repeat constructor]).
    + destruct (callNextStep env ViaNav w) as [[[]|m] w2]; intros [= <- <-];
        left; exists ViaNav; eexists; simpl; rewrite <- app_assoc;
        (split; [reflexivity | repeat constructor]).
    + intros [= <- <-]. left. exists NoBridge, []. simpl.
      split; [reflexivity | constructor].
  - intros [= <- <-]. right. now exists message.
Qed.

(** The reading of the step, the exit test and the call of [nextStep]. *)
Lemma guards_step_then_next {A} (stay : A) (K : StepInfo -> bool -> M W A) :
  (forall step advanced, guards endSlideNo (K step advanced)) ->
  guards endSlideNo
    (bind (getStepInfo env)
       (fun step =>
          if negb (hasNext step) || negb (canAdvanceInRange step endSlideNo)
          then ret stay
          else bind (nextStep env) (K step))).
Proof.
  intros HK st o st' H.
  apply bind_inv in H as [(step & st1 & H1 & H2) | [(msg & H1 & ->) | [H1 ->]]].
  - apply getStepInfo_inv in H1
      as [(window & w & _ & [= ->] & L1 & _) | (message & [=] & _)].
    set (step := stepInfoOfWindow window) in *.
    destruct (negb (hasNext step) || negb (canAdvanceInRange step endSlideNo)) eqn:Ec.
    + injection H2 as <- <-. exists [EvStepInfo step]. split; [exact L1|].
      intros prev. simpl. auto.
    + apply orb_false_iff in Ec as [Eh Er].
      apply negb_false_iff in Eh, Er.
      apply bind_inv in H2 as [(adv & st2 & H2 & H3) | [(msg & H2 & ->) | [H2 ->]]].
      * pose proof (nextStep_inv _ _ _ H2) as [(via & tail & L2 & F2) | (m & _ & [=])].
        apply HK in H3 as (d3 & L3 & G3).
        exists ([EvStepInfo step] ++ (EvNextStep via :: tail) ++ d3).
        split; [rewrite L3, L2, L1; now rewrite <- !app_assoc|].
        intros prev. simpl. split; [exact I|]. split; [now split|].
        apply advances_guarded_app. split; [now apply guarded_quiet | apply G3].
      * pose proof (nextStep_inv _ _ _ H2) as [(via & tail & L2 & F2) | (m & L2 & _)].
        -- exists ([EvStepInfo step] ++ EvNextStep via :: tail).
           split; [rewrite L2, L1; now rewrite <- !app_assoc|].
           intros prev. simpl. split; [exact I|]. split; [now split|].
           now apply guarded_quiet.
        -- exists [EvStepInfo step; EvFail m].
           split; [rewrite L2, L1; now rewrite <- !app_assoc|].
           intros prev. simpl. auto.
      * pose proof (nextStep_inv _ _ _ H2) as [(via & tail & L2 & F2) | (m & L2 & _)].
        -- exists ([EvStepInfo step] ++ EvNextStep via :: tail).
           split; [rewrite L2, L1; now rewrite <- !app_assoc|].
           intros prev. simpl. split; [exact I|]. split; [now split|].
           now apply guarded_quiet.
        -- exists [EvStepInfo step; EvFail m].
           split; [rewrite L2, L1; now rewrite <- !app_assoc|].
           intros prev. simpl. auto.
  - apply getStepInfo_inv in H1
      as [(window & w & _ & [=] & _) | (message & _ & L1)].
    exists [EvFail message]. split; [exact L1|]. intros prev. simpl. auto.
  - apply getStepInfo_inv in H1
      as [(window & w & _ & [=] & _) | (message & [=] & _)].
Qed.

End RangeFacts.

Section RangeLoops.

Context {W : Type} (env : Env W).
Variables (videoFps startedAt : Z) (clip : option Clip).

Lemma capture_not_next e : capture_event e -> is_next e = false.
Proof. now destruct e. Qed.

Lemma dwell_not_next e : dwell_event e -> is_next e = false.
Proof. now destruct e. Qed.

Lemma quiet_transitionWait fuel deadline prev :
  emits (fun e => is_next e = false)
    (transitionWait env videoFps startedAt clip fuel deadline prev).
Proof.
  induction fuel as [|fuel IH]; simpl; [apply emits_out_of_fuel|].
  apply emits_bind; [unfold now; emits_auto; reflexivity|intros t].
  destruct (_ <? _); [|apply emits_ret].
  apply emits_bind; [|intros _].
  { eapply emits_weaken; [apply capture_not_next|].
    apply tame_emits, tame_captureAndWriteFrame. }
  apply emits_bind; [unfold getStepInfo; emits_auto; reflexivity|intros step].
  destruct (negb _); [apply emits_ret | exact IH].
Qed.

Lemma guards_mainLoop fuel rounds plan timeout :
  guards (plan_endSlideNo plan)
    (mainLoop env videoFps startedAt clip fuel rounds plan timeout).
Proof.
  induction rounds as [|rounds IH]; simpl;
    [apply guards_quiet, emits_out_of_fuel|].
  apply guards_bind; [|intros _].
  { apply guards_quiet. eapply emits_weaken; [apply dwell_not_next|].
    apply tame_emits, tame_dwell. }
  apply (guards_step_then_next env (plan_endSlideNo plan) tt
           (fun step advanced =>
              if negb advanced then throw next_step_failed_message
              else
                bind (awaitTransition env videoFps startedAt clip fuel
                        (getStepKey step) timeout)
                  (fun _ =>
                     bind (getTransitionSettleBudget env)
                       (fun transitionBudget =>
                          bind (captureForDuration env videoFps startedAt clip fuel
                                  transitionBudget)
                            (fun _ => mainLoop env videoFps startedAt clip fuel
                                        rounds plan timeout))))).
  intros step advanced. destruct (negb advanced);
    [apply guards_quiet, emits_throw|].
  apply guards_bind; [|intros _].
  { apply guards_quiet. unfold awaitTransition.
    apply emits_bind; [unfold now; emits_auto; reflexivity|intros t].
    apply emits_bind; [apply quiet_transitionWait|intros changed].
    destruct (negb changed); [apply emits_throw | apply emits_ret]. }
  apply guards_bind; [|intros budget].
  { apply guards_quiet. unfold getTransitionSettleBudget. emits_auto; reflexivity. }
  apply guards_bind; [|intros _; exact IH].
  apply guards_quiet. eapply emits_weaken; [apply capture_not_next|].
  apply tame_emits, tame_captureForDuration.
Qed.

Lemma guards_guardedRecording fuel plan timeout :
  guards (plan_endSlideNo plan)
    (guardedRecording env videoFps startedAt clip fuel plan timeout).
Proof.
  assert (emits (fun e => is_next e = false)
            (captureStill env videoFps startedAt clip)) as Hstill.
  { eapply emits_weaken; [apply capture_not_next|].
    apply tame_emits, tame_captureStill. }
  unfold guardedRecording. apply guards_bind; [|intros [error|]].
  - apply guards_try_catch; [|intros e; apply guards_quiet, emits_ret].
    apply guards_bind; [|intros _; apply guards_quiet, emits_ret].
    unfold recording.
    apply guards_bind; [now apply guards_quiet|intros _].
    apply guards_bind; [apply guards_mainLoop|intros _].
    apply guards_bind; [now apply guards_quiet|intros _].
    apply guards_quiet. emits_auto; reflexivity.
  - apply guards_quiet. emits_auto; reflexivity.
  - apply guards_quiet, emits_ret.
Qed.

End RangeLoops.

Section RangeJob.

Context {W : Type} (env : Env W).

Lemma preflight_endSlide withClicks videoFps videoInterval output scale pages plan :
  mp4Preflight withClicks videoFps videoInterval output scale pages = Ok plan ->
  plan_endSlideNo plan = endSlideOf pages.
Proof.
  unfold mp4Preflight. destruct (negb withClicks); [discriminate|].
  destruct (_ || _ || _); [discriminate|]. destruct (_ || _); [discriminate|].
  destruct (parseVideoMotionScale scale); [|discriminate].
  destruct (negb (isContiguousRange pages)); [discriminate|].
  now intros [= <-].
Qed.

(** X7.  The recorder never steps past the range: in every run of
    [genPageMp4], each call of [nextStep] directly follows a reading of a
    step that has a next step and that lies before the last slide of the
    range, or on it with clicks left. *)
Theorem nextStep_only_inside_range
    (fuel : nat) (withClicks : bool) (videoFps videoInterval : num)
    (output : string) (scale : option scale_arg) (timeout : Z)
    (pages : list Z) (st : state W) :
  let '(o, st') :=
    genPageMp4 env fuel withClicks videoFps videoInterval output scale timeout
               pages st in
  exists d,
    log st' = log st ++ d /\ advances_guarded (endSlideOf pages) None d.
Proof.
  destruct (genPageMp4 env fuel withClicks videoFps videoInterval output scale
                       timeout pages st) as [o st'] eqn:E.
  assert (guards (endSlideOf pages)
            (genPageMp4 env fuel withClicks videoFps videoInterval output scale
                        timeout pages)) as G.
  { unfold genPageMp4.
    destruct (mp4Preflight _ _ _ _ _ _) as [plan|message] eqn:P;
      [|apply guards_quiet, emits_throw].
    apply preflight_endSlide in P as <-. unfold recordMp4.
    apply guards_bind; [|intros _].
    { apply guards_quiet. unfold waitForFfmpeg. emits_auto; reflexivity. }
    apply guards_bind; [|intros _].
    { apply guards_quiet.
      unfold goPlay, waitForStepSettled, getTransitionSettleBudget, sleep.
      emits_auto; reflexivity. }
    apply guards_bind; [apply guards_quiet; emits_auto; reflexivity|intros _].
    apply guards_bind; [apply guards_quiet; emits_auto; reflexivity|intros _].
    apply guards_bind; [apply guards_quiet; emits_auto; reflexivity|intros _].
    apply guards_bind; [apply guards_quiet; emits_auto; reflexivity|intros clip].
    apply guards_bind;
      [apply guards_quiet; unfold now; emits_auto; reflexivity|intros startedAt].
    apply guards_guardedRecording. }
  apply G in E as (d & L & Gd). exists d. split; [exact L | apply Gd].
Qed.

End RangeJob.

(** *** The plan of a recording *)

Section PlanFacts.

Lemma integer_is_floor q :
  isInteger (Fin q) = true -> (inject_Z (Qfloor q) == q)%Q.
Proof.
  unfold isInteger. intros H. apply Z.eqb_eq in H.
  transitivity (Qred q); [|apply Qred_correct].
  rewrite (Qfloor_comp q (Qred q)) by (symmetry; apply Qred_correct).
  destruct (Qred q) as [n d]. simpl in H. injection H as ->.
  change (n # 1) with (inject_Z n). rewrite Qfloor_Z. reflexivity.
Qed.

Lemma contiguous_run a rest :
  contiguous (a :: rest) ->
  a :: rest = map (fun i => a + Z.of_nat i) (seq 0 (S (length rest))).
Proof.
  revert a. induction rest as [|b rest IH]; intros a H.
  - simpl. f_equal. lia.
  - destruct H as [-> H]. specialize (IH _ H).
    change (seq 0 (S (length (a + 1 :: rest))))
      with (0%nat :: seq 1 (S (length rest))).
    rewrite <- seq_shift, map_cons, map_map. f_equal; [lia|].
    rewrite IH at 1. apply map_ext. intros i. lia.
Qed.

Lemma contiguous_last a rest :
  contiguous (a :: rest) -> last (a :: rest) = Some (a + Z.of_nat (length rest)).
Proof.
  revert a. induction rest as [|b rest IH]; intros a H.
  - simpl. f_equal. lia.
  - destruct H as [-> H]. rewrite last_cons_cons, (IH _ H). f_equal.
    simpl length. lia.
Qed.

(** X8.  A plan that passes the checks at the head of [genPageMp4]:
    clicks are on; fps is an integer from 1 to 60 and the interval an
    integer that is not negative; the output path ends in [.mp4]; the
    motion scale is positive and the playback speed-up is the larger of 1
    and the motion scale; the pages are the run [start, start + 1, ...], on
    which the recording ends with its last page.  An empty list of pages
    passes too, as a recording of slide 1. *)
Theorem preflight_plan_is_valid
    (withClicks : bool) (videoFps videoInterval : num) (output : string)
    (scale : option scale_arg) (pages : list Z) (plan : Mp4Plan) :
  mp4Preflight withClicks videoFps videoInterval output scale pages = Ok plan ->
  withClicks = true
  /\ videoFps = Fin (to_Q videoFps)
  /\ (inject_Z (plan_fps plan) == to_Q videoFps)%Q
  /\ 1 <= plan_fps plan <= 60
  /\ videoInterval = Fin (to_Q videoInterval)
  /\ (inject_Z (plan_interval plan) == to_Q videoInterval)%Q
  /\ 0 <= plan_interval plan
  /\ endsWith (plan_output plan) ".mp4" = true
  /\ (plan_output plan = output \/ plan_output plan = output +:+ ".mp4")
  /\ (0 < plan_motionScale plan)%Q
  /\ (plan_playbackSpeedup plan == Qmax 1 (plan_motionScale plan))%Q
  /\ pages = map (fun i => plan_startSlideNo plan + Z.of_nat i)
                 (seq 0 (length pages))
  /\ plan_endSlideNo plan
     = plan_startSlideNo plan + Z.max 0 (Z.of_nat (length pages) - 1)
  /\ (pages = [] -> plan_startSlideNo plan = 1).
Proof.
  unfold mp4Preflight.
  destruct withClicks; simpl negb; cbv iota; [|discriminate].
  rewrite fps_check_valid, interval_check_valid.
  destruct (valid_fps videoFps) eqn:Vf; simpl; [|discriminate].
  destruct (valid_interval videoInterval) eqn:Vi; simpl; [|discriminate].
  destruct (parseVideoMotionScale scale) as [motionScale|message] eqn:Vs;
    [|discriminate].
  destruct (isContiguousRange pages) eqn:Vp; simpl; [|discriminate].
  intros [= <-]. simpl.
  unfold valid_fps in Vf. apply andb_true_iff in Vf as [Vf Vf60].
  apply andb_true_iff in Vf as [Vfi Vf1].
  unfold valid_interval in Vi. apply andb_true_iff in Vi as [Vii Vi0].
  destruct videoFps as [| | |f]; try discriminate.
  destruct videoInterval as [| | |v]; try discriminate.
  simpl in *. apply Qle_bool_iff in Vf1, Vf60, Vi0.
  pose proof (integer_is_floor f Vfi) as Hf.
  pose proof (integer_is_floor v Vii) as Hv.
  assert (0 < to_Q motionScale /\ to_Q (if num_lt (of_Z 1) motionScale
                                        then motionScale else of_Z 1)
                                  == Qmax 1 (to_Q motionScale))%Q as [Hs Hp].
  { unfold parseVideoMotionScale in Vs.
    assert (isFinite motionScale = true /\ num_le motionScale (of_Z 0) = false)
      as [Hfin Hpos].
    { destruct scale as [v0|]; [|injection Vs as <-; split; reflexivity].
      destruct (negb (isFinite _) || num_le _ (of_Z 0)) eqn:E; [discriminate|].
      injection Vs as <-. apply orb_false_iff in E as [E1 E2].
      now apply negb_false_iff in E1. }
    destruct motionScale as [| | |m]; try discriminate. simpl in *.
    split.
    - apply Qnot_le_lt. intros Hle. apply Qle_bool_iff in Hle.
      unfold inject_Z in Hpos. congruence.
    - unfold Qltb. destruct (Qle_bool m (inject_Z 1)) eqn:E; simpl.
      + apply Qle_bool_iff in E. symmetry. apply Q.max_l. exact E.
      + symmetry. apply Q.max_r. apply Qlt_le_weak, Qnot_le_lt. intros Hle.
        apply Qle_bool_iff in Hle. unfold inject_Z in E. congruence. }
  apply OptionsProofs.isContiguousRange_spec in Vp.
  split_and!; auto.
  - rewrite Zle_Qle, Hf. exact Vf1.
  - rewrite Zle_Qle, Hf. exact Vf60.
  - rewrite Zle_Qle, Hv. exact Vi0.
  - destruct (endsWith output ".mp4") eqn:E; [exact E|].
    apply StabilizerProofs.endsWith_spec. now exists output.
  - destruct (endsWith output ".mp4"); [now left | now right].
  - destruct pages as [|a rest]; [reflexivity|]. simpl head. simpl from_option.
    now apply contiguous_run.
  - destruct pages as [|a rest]; [reflexivity|]. simpl head. simpl from_option.
    rewrite (contiguous_last a rest Vp). simpl from_option.
    change (length (a :: rest)) with (S (length rest)). lia.
  - now intros ->.
Qed.

Lemma preflight_plan_is_valid_witness :
  mp4Preflight true (of_Z 30) (of_Z 200) "out" None [1; 2]
  = Ok Sim.deck_plan
  /\ true = true
  /\ of_Z 30 = Fin (to_Q (of_Z 30))
  /\ (inject_Z (plan_fps Sim.deck_plan) == to_Q (of_Z 30))%Q
  /\ 1 <= plan_fps Sim.deck_plan <= 60
  /\ of_Z 200 = Fin (to_Q (of_Z 200))
  /\ (inject_Z (plan_interval Sim.deck_plan) == to_Q (of_Z 200))%Q
  /\ 0 <= plan_interval Sim.deck_plan
  /\ endsWith (plan_output Sim.deck_plan) ".mp4" = true
  /\ (plan_output Sim.deck_plan = "out"
      \/ plan_output Sim.deck_plan = "out" +:+ ".mp4")
  /\ (0 < plan_motionScale Sim.deck_plan)%Q
  /\ (plan_playbackSpeedup Sim.deck_plan
      == Qmax 1 (plan_motionScale Sim.deck_plan))%Q
  /\ [1; 2] = map (fun i => plan_startSlideNo Sim.deck_plan + Z.of_nat i)
                  (seq 0 (length [1; 2]))
  /\ plan_endSlideNo Sim.deck_plan
     = plan_startSlideNo Sim.deck_plan
       + Z.max 0 (Z.of_nat (length [1; 2]) - 1)
  /\ ([1; 2] = [] -> plan_startSlideNo Sim.deck_plan = 1).
Proof.
  split; [reflexivity|].
  exact (preflight_plan_is_valid true (of_Z 30) (of_Z 200) "out" None [1; 2]
           Sim.deck_plan eq_refl).
Defined.

End PlanFacts.

(** *** How long a capture lasts *)

Section DurationFacts.

Context {W : Type} (env : Env W) (time : W -> Z) (Htick : Ticking env time).
Variables (videoFps startedAt : Z) (clip : option Clip).



End DurationFacts.

(** *** The encoder is probed first *)

Section ProbeFacts.

Context {W : Type} (env : Env W).

Lemma closes_grows {A} (m : M W A) : closes_last m -> emits (fun _ => True) m.
Proof.
  intros Hm st o st' H. apply Hm in H as (a & b & L & _ & _).
  exists (a ++ b). split; [exact L|]. apply Forall_forall. auto.
Qed.

Lemma setup_grows {A} (m : M W A) : emits setup_event m -> emits (fun _ => True) m.
Proof. apply emits_weaken. auto. Qed.

(** X17.  [genPageMp4] touches neither the page nor the encoder before
    [ffmpeg -version] has succeeded.  A run adds nothing to the log when
    an option check fails; it adds the failed probe alone, and throws the
    message that asks for ffmpeg, when the probe fails; in every other
    run the successful probe comes first. *)
Theorem encoder_probed_first
    (fuel : nat) (withClicks : bool) (videoFps videoInterval : num)
    (output : string) (scale : option scale_arg) (timeout : Z)
    (pages : list Z) (st : state W) :
  let '(o, st') :=
    genPageMp4 env fuel withClicks videoFps videoInterval output scale timeout
               pages st in
  exists d,
    log st' = log st ++ d
    /\ ((d = []
         /\ exists message,
              o = Err message
              /\ mp4Preflight withClicks videoFps videoInterval output scale pages
                 = Throw message)
        \/ (d = [EvProbe false] /\ o = Err ffmpeg_required_message)
        \/ (exists rest, d = EvProbe true :: rest)).
Proof.
  destruct (genPageMp4 env fuel withClicks videoFps videoInterval output scale
                       timeout pages st) as [o st'] eqn:E.
  unfold genPageMp4 in E.
  destruct (mp4Preflight withClicks videoFps videoInterval output scale pages)
    as [plan|message] eqn:P.
  - unfold recordMp4 in E.
    apply bind_inv in E as [(a & st1 & H1 & H2) | [(msg & H1 & ->) | [H1 ->]]].
    + assert (log st1 = log st ++ [EvProbe true]) as L1.
      { unfold waitForFfmpeg, bind, call_total, ret, throw in H1.
        destruct (ffmpegVersion env (world st)) as [[] w]; [|discriminate].
        now injection H1 as _ <-. }
      assert (forall B (m : M W B) o st', m st1 = (o, st') ->
                emits (fun _ => True) m ->
                exists d, log st' = log st1 ++ d) as Hgrow.
      { intros B m o' st'' Hrun Hm. apply Hm in Hrun as (d & L & _).
        now exists d. }
      eapply Hgrow in H2 as (d & L2); cycle 1.
      { apply emits_bind; [apply setup_grows, emits_setup_goPlay|intros _].
        apply emits_bind; [apply setup_grows, emits_setup_motionScale|intros _].
        apply emits_bind; [emits_auto|intros _].
        apply emits_bind; [emits_auto|intros _].
        apply emits_bind; [emits_auto|intros clip].
        apply emits_bind; [unfold now; emits_auto|intros startedAt].
        apply closes_grows, closes_guardedRecording. }
      exists (EvProbe true :: d). split; [|right; right; now exists d].
      rewrite L2, L1, <- app_assoc. reflexivity.
    + unfold waitForFfmpeg, bind, call_total, ret, throw in H1.
      destruct (ffmpegVersion env (world st)) as [[] w]; [discriminate|].
      injection H1 as <- <-. exists [EvProbe false]. split; [reflexivity|].
      right; left. now split.
    + unfold waitForFfmpeg, bind, call_total, ret, throw in H1.
      destruct (ffmpegVersion env (world st)) as [[] w]; discriminate.
  - unfold throw in E. injection E as <- <-. exists []. rewrite app_nil_r.
    split; [reflexivity|]. left. split; [reflexivity|]. now exists message.
Qed.

End ProbeFacts.

(** *** One encoder for a job *)

Section SpawnFacts.

Context {W : Type} (env : Env W).

Lemma once_quiet {A} args (m : M W A) :
  emits (fun e => is_spawn e = false) m -> starts_once args m.
Proof.
  intros Hm st o st' H. apply Hm in H as (d & L & F).
  exists d, []. rewrite app_nil_r. split_and!; auto.
Qed.

Lemma once_bind_l {A B} args (m : M W A) (k : A -> M W B) :
  emits (fun e => is_spawn e = false) m -> (forall a, starts_once args (k a)) ->
  starts_once args (bind m k).
Proof.
  intros Hm Hk st o st' H.
  apply bind_inv in H as [(a & st1 & H1 & H2) | [(msg & H1 & ->) | [H1 ->]]].
  - apply Hm in H1 as (d1 & L1 & F1).
    apply Hk in H2 as (x & rest & L2 & Fx & Hrest).
    exists (d1 ++ x), rest. rewrite L2, L1, <- !app_assoc.
    split_and!; auto. now apply Forall_app.
  - now apply (once_quiet args m Hm) in H1.
  - now apply (once_quiet args m Hm) in H1.
Qed.

Lemma once_spawn_then {B} args (op : W -> W) (k : unit -> M W B) :
  (forall u, emits (fun e => is_spawn e = false) (k u)) ->
  starts_once args (bind (act op (EvSpawn args)) k).
Proof.
  intros Hk st o st' H. unfold bind, act in H.
  apply Hk in H as (b & L & F). simpl in L.
  exists [], (EvSpawn args :: b). simpl. rewrite L, <- app_assoc.
  split_and!; [reflexivity | constructor | right; now exists b].
Qed.

Lemma loop_not_spawn e : loop_event e -> is_spawn e = false.
Proof. now destruct e. Qed.

Lemma quiet_guardedRecording videoFps startedAt clip fuel plan timeout :
  emits (fun e => is_spawn e = false)
    (guardedRecording env videoFps startedAt clip fuel plan timeout).
Proof.
  unfold guardedRecording. apply emits_bind; [|intros [error|]].
  - apply emits_try_catch; [|intros e; apply emits_ret].
    apply emits_bind; [|intros _; apply emits_ret].
    unfold recording.
    apply emits_bind; [|intros _].
    { eapply emits_weaken; [apply loop_not_spawn | apply emits_loop_captureStill]. }
    apply emits_bind; [|intros _].
    { eapply emits_weaken; [apply loop_not_spawn | apply emits_loop_mainLoop]. }
    apply emits_bind; [|intros _].
    { eapply emits_weaken; [apply loop_not_spawn | apply emits_loop_captureStill]. }
    emits_auto; reflexivity.
  - emits_auto; reflexivity.
  - apply emits_ret.
Qed.

Lemma once_recordMp4 fuel plan timeout :
  starts_once (ffmpegArgs plan) (recordMp4 env fuel plan timeout).
Proof.
  unfold recordMp4.
  apply once_bind_l; [unfold waitForFfmpeg; emits_auto; reflexivity|intros _].
  apply once_bind_l; [|intros _].
  { unfold goPlay, waitForStepSettled, getTransitionSettleBudget, sleep.
    emits_auto; reflexivity. }
  apply once_bind_l; [emits_auto; reflexivity|intros _].
  apply once_spawn_then. intros _.
  apply emits_bind; [emits_auto; reflexivity|intros _].
  apply emits_bind; [emits_auto; reflexivity|intros clip].
  apply emits_bind; [unfold now; emits_auto; reflexivity|intros startedAt].
  apply quiet_guardedRecording.
Qed.

End SpawnFacts.

End RecorderExtras.

(** ** The dwell on the simulated deck *)

Module SimExtras.
Import JS Recorder Sim SimProofs.

(** On the two-slide deck a dwell of 200 ms returns. *)
Example dwell_returns :
  fst (captureForDuration (simEnv two_slides) 30 1000 None 201 (inject_Z 200)
         (initial two_slides_start))
  = Ret tt.
Proof. vm_compute. reflexivity. Qed.


Lemma transition_wait_until_change_or_deadline_witness :
  Ticking (simEnv two_slides) clock
  /\ (Z.to_nat (Z.min 10000 (Z.max 2000 0)) < 2001)%nat
  /\ dwell (simEnv two_slides) 30 1000 None 2001 deck_plan SimRuns.loop_start
     = (Ret tt, SimRuns.after_dwell)
  /\ getStepInfo (simEnv two_slides) SimRuns.after_dwell
     = (Ret SimRuns.first_step, SimRuns.after_reading)
  /\ Bridge.hasNext SimRuns.first_step = true
  /\ canAdvanceInRange SimRuns.first_step (Options.plan_endSlideNo deck_plan)
     = true
  /\ nextStep (simEnv two_slides) SimRuns.after_reading
     = (Ret true, SimRuns.after_nextStep)
  /\ let '(o, st') :=
       mainLoop (simEnv two_slides) 30 1000 None 2001 2 deck_plan 0
         SimRuns.loop_start in
     exists t0 d st4,
       let deadline := t0 + Z.min 10000 (Z.max 2000 0) in
       log st4 = log SimRuns.after_nextStep ++ [EvNow t0] ++ d
       /\ ((exists d0 t c current,
              d = d0 ++ [EvNow t] ++ c ++ [EvStepInfo current]
              /\ LogShapes.holding deadline SimRuns.first_step d0
              /\ t < deadline /\ capture_round c
              /\ (Bridge.no current <> Bridge.no SimRuns.first_step
                  \/ Bridge.clicks current <> Bridge.clicks SimRuns.first_step)
              /\ (o, st')
                 = LogShapes.afterTransition (simEnv two_slides) 30 1000 None
                     2001 1 deck_plan 0 st4)
           \/ (exists d0 t,
                 d = d0 ++ [EvNow t]
                 /\ LogShapes.holding deadline SimRuns.first_step d0
                 /\ deadline <= t
                 /\ st' = st4
                 /\ o = Err ("[slidev] Failed to advance from step "
                             +:+ String_of_Z (Bridge.no SimRuns.first_step) +:+ "-"
                             +:+ String_of_Z (Bridge.clicks SimRuns.first_step)))
           \/ (exists d0 d1 message,
                 d = d0 ++ d1
                 /\ LogShapes.holding deadline SimRuns.first_step d0
                 /\ last d1 = Some (EvFail message)
                 /\ st' = st4 /\ o = Err message)).
Proof.
  assert (Ticking (simEnv two_slides) clock) as Htick
    by (apply simEnv_ticking; simpl; lia).
  assert (Z.to_nat (Z.min 10000 (Z.max 2000 0)) < 2001)%nat as Hf by lia.
  assert (dwell (simEnv two_slides) 30 1000 None 2001 deck_plan SimRuns.loop_start
          = (Ret tt, SimRuns.after_dwell)) as H1 by (vm_compute; reflexivity).
  assert (getStepInfo (simEnv two_slides) SimRuns.after_dwell
          = (Ret SimRuns.first_step, SimRuns.after_reading)) as H2
    by (vm_compute; reflexivity).
  assert (Bridge.hasNext SimRuns.first_step = true) as H3 by reflexivity.
  assert (canAdvanceInRange SimRuns.first_step (Options.plan_endSlideNo deck_plan)
          = true) as H4 by reflexivity.
  assert (nextStep (simEnv two_slides) SimRuns.after_reading
          = (Ret true, SimRuns.after_nextStep)) as H5 by (vm_compute; reflexivity).
  split_and!; [exact Htick | exact Hf | exact H1 | exact H2 | exact H3 | exact H4
              | exact H5 |].
  exact (TransitionProofs.transition_wait_until_change_or_deadline
           (simEnv two_slides) clock Htick 30 1000 None 2001 1 deck_plan 0
           SimRuns.loop_start SimRuns.after_dwell SimRuns.after_reading
           SimRuns.after_nextStep SimRuns.first_step Hf H1 H2 H3 H4 H5).
Defined.

(** On that run the transition wait sees the step change: the loop reads
    the first step after its dwell, the second step in the first round of
    the wait, and the second step again after the next dwell, where it
    ends. *)
Example transition_wait_sees_the_change :
  let '(o, st') :=
    mainLoop (simEnv two_slides) 30 1000 None 2001 2 deck_plan 0
      SimRuns.loop_start in
  o = Ret tt
  /\ steps (log st')
     = [SimRuns.first_step; SimRuns.second_step; SimRuns.second_step]
  /\ failures (log st') = [].
Proof. vm_compute. repeat split. Qed.

End SimExtras.

(** ** The pacing of the frames *)

Module PacingProofs.
Import JS Bridge Options Recorder LogShapes RecorderProofs RecorderExtras.

Section PaceFacts.

Context {W : Type} (env : Env W).
Variables (videoFps startedAt : Z) (clip : option Clip).

Lemma paced_app w d1 w1 d2 w2 :
  paced videoFps startedAt w d1 w1 ->
  paced videoFps startedAt w1 d2 w2 ->
  paced videoFps startedAt w (d1 ++ d2) w2.
Proof.
  induction 1 as [w|w e d w' He Hd IH|w frame c w1' t2 p d w' Hc Hp Hd IH];
    intros H2.
  - exact H2.
  - simpl. apply paced_neutral; auto.
  - rewrite <- !app_assoc. eapply paced_frame; eauto.
Qed.

Lemma paced_quiet w d :
  Forall neutral_event d -> paced videoFps startedAt w d w.
Proof. induction 1; constructor; auto. Qed.

Lemma paces_ret {A} (a : A) : paces videoFps startedAt (ret (W:=W) a).
Proof.
  intros st a' st' [= <- <-]. exists []. rewrite app_nil_r.
  split; [reflexivity | constructor].
Qed.

Lemma paces_throw {A} message :
  paces videoFps startedAt (throw (W:=W) (A:=A) message).
Proof. intros st a st' [=]. Qed.

Lemma paces_out_of_fuel {A} :
  paces videoFps startedAt (out_of_fuel (W:=W) (A:=A)).
Proof. intros st a st' [=]. Qed.

Lemma paces_bind {A B} (m : M W A) (k : A -> M W B) :
  paces videoFps startedAt m -> (forall a, paces videoFps startedAt (k a)) ->
  paces videoFps startedAt (bind m k).
Proof.
  intros Hm Hk st b st' H. apply bind_Ret_inv in H as (a & st1 & H1 & H2).
  apply Hm in H1 as (d1 & L1 & P1). apply Hk in H2 as (d2 & L2 & P2).
  exists (d1 ++ d2). rewrite L2, L1, <- app_assoc. split; [reflexivity|].
  eapply paced_app; eauto.
Qed.

(** A computation that neither captures nor writes is paced. *)
Lemma paces_quiet {A} (m : M W A) :
  emits neutral_event m -> drifts 0 m -> paces videoFps startedAt m.
Proof.
  intros He Hd st a st' H. pose proof (He _ _ _ H) as (d & L & F).
  apply Hd in H as (d' & L' & C).
  assert (d' = d) as -> by (rewrite L in L'; now apply app_inv_head in L').
  exists d. split; [exact L|].
  pose proof (neutral_no_frames _ F) as [_ Hw]. rewrite Hw in C. simpl in C.
  replace (writtenFrames st') with (writtenFrames st) by lia.
  now apply paced_quiet.
Qed.

Lemma paces_now : paces videoFps startedAt (now env).
Proof. apply paces_quiet; unfold now; [emits_auto | drifts_auto]. Qed.

Lemma paces_getStepInfo : paces videoFps startedAt (getStepInfo env).
Proof. apply paces_quiet; unfold getStepInfo; [emits_auto | drifts_auto]. Qed.

Lemma paces_nextStep : paces videoFps startedAt (nextStep env).
Proof. apply paces_quiet; unfold nextStep; [emits_auto | drifts_auto]. Qed.

Lemma paces_budget : paces videoFps startedAt (getTransitionSettleBudget env).
Proof.
  apply paces_quiet; unfold getTransitionSettleBudget; [emits_auto | drifts_auto].
Qed.

Lemma paces_waitForStepSettled timeout :
  paces videoFps startedAt (waitForStepSettled env timeout).
Proof.
  apply paces_quiet; unfold waitForStepSettled, getTransitionSettleBudget, sleep;
    [emits_auto | drifts_auto].
Qed.

(** What a frame written by [captureAndWriteFrame] leaves in the log. *)
Lemma captureAndWriteFrame_paced st frame st' :
  captureAndWriteFrame env videoFps startedAt clip st = (Ret frame, st') ->
  exists c t2 p,
    log st' = log st ++ c ++ p
    /\ caught_up videoFps startedAt frame (writtenFrames st) c (writtenFrames st')
    /\ pace videoFps startedAt (writtenFrames st') t2 p
    /\ (total_sleep p
        == Qmax 0 (pacingDelay videoFps (writtenFrames st') (t2 - startedAt)))%Q.
Proof.
  intros H.
  apply captureAndWriteFrame_Ret in H
    as (t1 & t2 & first & copies & L & O1 & W1 & O2 & W2 & C & _ & S).
  cbn zeta in *. rewrite <- C in L, S.
  exists ([EvCapture frame] ++ first ++ [EvNow t1] ++ copies), t2,
    ([EvNow t2]
     ++ (if Qltb 0 (pacingDelay videoFps (writtenFrames st') (t2 - startedAt))
         then [EvSleep (pacingDelay videoFps (writtenFrames st') (t2 - startedAt))]
         else [])).
  split_and!.
  - rewrite L, <- !app_assoc. reflexivity.
  - exists t1, first, copies. cbn zeta. split_and!; auto.
  - reflexivity.
  - exact S.
Qed.

(** What a frame written outside [captureAndWriteFrame] leaves there. *)
Lemma captureStill_caught_up st u st' :
  captureStill env videoFps startedAt clip st = (Ret u, st') ->
  exists frame c,
    log st' = log st ++ c
    /\ caught_up videoFps startedAt frame (writtenFrames st) c (writtenFrames st').
Proof.
  unfold captureStill. intros H.
  apply bind_Ret_inv in H as (frame & st1 & H1 & H).
  apply call_Ret_inv in H1 as (w1 & _ & ->).
  apply bind_Ret_inv in H as (u2 & st2 & H2 & H).
  apply writeFrame_Ret in H2 as (d2 & E2 & O2 & W2 & C2).
  apply bind_Ret_inv in H as (u3 & st3 & H3 & H). injection H3 as <- <-.
  apply catchUpFrames_Ret in H as (t & d & E & O & Wd & C).
  simpl in E, E2, C, C2, Wd. unfold expectedFrames in *.
  exists frame, ([EvCapture frame] ++ d2 ++ [EvNow t] ++ d).
  split.
  - rewrite E, E2. simpl. now rewrite <- !app_assoc.
  - exists t, d2, d. cbn zeta. split_and!; auto.
    + rewrite Wd, C2. reflexivity.
    + rewrite C, C2. reflexivity.
Qed.

Lemma paces_captureAndWriteFrame :
  paces videoFps startedAt (captureAndWriteFrame env videoFps startedAt clip).
Proof.
  intros st frame st' H.
  apply captureAndWriteFrame_paced in H as (c & t2 & p & L & Hc & Hp & _).
  exists (c ++ p). split; [exact L|].
  rewrite <- (app_nil_r p). eapply paced_frame; eauto. constructor.
Qed.

Lemma paces_captureUntil fuel deadline :
  paces videoFps startedAt (captureUntil env videoFps startedAt clip fuel deadline).
Proof.
  induction fuel as [|fuel IH]; simpl; [apply paces_out_of_fuel|].
  apply paces_bind; [apply paces_now|intros t].
  destruct (Qltb _ _); [|apply paces_ret].
  apply paces_bind; [apply paces_captureAndWriteFrame|intros _]. exact IH.
Qed.

Lemma paces_captureForDuration fuel durationMs :
  paces videoFps startedAt
        (captureForDuration env videoFps startedAt clip fuel durationMs).
Proof.
  unfold captureForDuration. destruct (Qle_bool _ _); [apply paces_ret|].
  apply paces_bind; [apply paces_now|intros t]. apply paces_captureUntil.
Qed.

Lemma paces_transitionWait fuel deadline prev :
  paces videoFps startedAt
        (transitionWait env videoFps startedAt clip fuel deadline prev).
Proof.
  induction fuel as [|fuel IH]; simpl; [apply paces_out_of_fuel|].
  apply paces_bind; [apply paces_now|intros t].
  destruct (_ <? _); [|apply paces_ret].
  apply paces_bind; [apply paces_captureAndWriteFrame|intros _].
  apply paces_bind; [apply paces_getStepInfo|intros step].
  destruct (negb _); [apply paces_ret | exact IH].
Qed.

Lemma paces_mainLoop fuel rounds plan timeout :
  paces videoFps startedAt
        (mainLoop env videoFps startedAt clip fuel rounds plan timeout).
Proof.
  induction rounds as [|rounds IH]; simpl; [apply paces_out_of_fuel|].
  apply paces_bind; [|intros _].
  { unfold dwell. apply paces_bind; [apply paces_waitForStepSettled|intros _].
    apply paces_captureForDuration. }
  apply paces_bind; [apply paces_getStepInfo|intros step].
  destruct (_ || _); [apply paces_ret|].
  apply paces_bind; [apply paces_nextStep|intros advanced].
  destruct (negb advanced); [apply paces_throw|].
  apply paces_bind; [|intros _].
  { unfold awaitTransition. apply paces_bind; [apply paces_now|intros t].
    apply paces_bind; [apply paces_transitionWait|intros changed].
    destruct (negb changed); [apply paces_throw | apply paces_ret]. }
  apply paces_bind; [apply paces_budget|intros budget].
  apply paces_bind; [apply paces_captureForDuration|intros _]. exact IH.
Qed.

(** The loop begins with the wait for the step to settle, which reads the
    transition duration first. *)
Lemma mainLoop_starts_settling fuel rounds plan timeout st u st' d :
  mainLoop env videoFps startedAt clip fuel rounds plan timeout st = (Ret u, st') ->
  log st' = log st ++ d ->
  exists css rest, d = EvBudget css :: rest.
Proof.
  destruct rounds as [|rounds]; simpl; [discriminate|]. intros H L.
  apply bind_Ret_inv in H as (u1 & st1 & H1 & H).
  unfold dwell in H1. apply bind_Ret_inv in H1 as (u2 & st2 & H2 & H1).
  unfold waitForStepSettled in H2.
  apply bind_Ret_inv in H2 as (b & st3 & H3 & H2).
  unfold getTransitionSettleBudget in H3.
  apply bind_Ret_inv in H3 as (css & st4 & H4 & H3).
  apply call_Ret_inv in H4 as (w4 & _ & ->). injection H3 as _ <-.
  assert (exists d2, log st2 = (log st ++ [EvBudget css]) ++ d2) as (d2 & L2).
  { match type of H2 with
    | ?k _ = _ => assert (emits loop_event k) as Hk
    end.
    { unfold sleep. emits_auto. }
    apply Hk in H2 as (d2 & L2 & _). now exists d2. }
  apply emits_loop_captureForDuration in H1 as (d1 & L1 & _).
  assert (exists d3, log st' = log st1 ++ d3) as (d3 & L3).
  { match type of H with
    | ?k _ = _ => assert (emits loop_event k) as Hk
    end.
    { apply emits_bind; [apply emits_loop_getStepInfo|intros step].
      destruct (_ || _); [apply emits_ret|].
      apply emits_bind; [apply emits_loop_nextStep|intros advanced].
      destruct (negb advanced); [apply emits_throw|].
      apply emits_bind; [|intros _].
      { unfold awaitTransition. apply emits_bind; [apply emits_loop_now|intros t].
        apply emits_bind; [apply emits_loop_transitionWait|intros changed].
        destruct (negb changed); [apply emits_throw | apply emits_ret]. }
      apply emits_bind; [apply emits_loop_budget|intros budget].
      apply emits_bind; [apply emits_loop_captureForDuration|intros _].
      apply emits_loop_mainLoop. }
    apply Hk in H as (d3 & L3 & _). now exists d3. }
  rewrite L3, L1, L2, <- !app_assoc in L. apply app_inv_head in L.
  exists css, (d2 ++ d1 ++ d3). now rewrite <- L.
Qed.

End PaceFacts.

Section PaceJob.

Context {W : Type} (env : Env W).

(** The set-up of the recording leaves the frame counter alone. *)
Lemma setup_keeps_count {A} (m : M W A) st a st' :
  emits setup_event m -> drifts 0 m ->
  m st = (Ret a, st') ->
  exists d, log st' = log st ++ d /\ Forall setup_event d
            /\ writtenFrames st' = writtenFrames st.
Proof.
  intros He Hd H. pose proof (He _ _ _ H) as (d & L & F).
  apply Hd in H as (d' & L' & C).
  assert (d' = d) as -> by (rewrite L in L'; now apply app_inv_head in L').
  exists d. split_and!; auto.
  assert (Forall neutral_event d) as Fn
    by (eapply Forall_impl; [exact F|]; apply setup_is_neutral).
  pose proof (neutral_no_frames _ Fn) as [_ Hw]. rewrite Hw in C. simpl in C. lia.
Qed.

(** C5.  Every frame is written, counted and caught up: after the
    screenshot and its write the clock is read ([t1]), and the frame is
    written again until the counter is [max(1, floor((t1 - startedAt) *
    fps / 1000))] at least.  A frame captured by [captureAndWriteFrame],
    that is, one of the loop, is then paced: the clock is read again
    ([t2]) and a timer runs for [(writtenFrames + 1) * (1000 / fps) - (t2
    - startedAt)] milliseconds, computed in doubles, when that is
    positive; the function has no loop that can fail to end and throws
    only what the screenshot or the encoder's input has thrown.  The
    initial and the last frame are caught up but not paced.  So a
    recording that succeeds shows, from the reading of [startedAt] on:
    the initial frame with its catch-up; the loop, which begins with the
    reading of the transition duration and in which every screenshot is
    caught up and then paced; the last frame with its catch-up; the
    closing of the encoder's input. *)
Theorem frames_caught_up_and_loop_frames_paced
    (fuel : nat) (withClicks : bool) (videoFps videoInterval : num)
    (output : string) (scale : option scale_arg) (timeout : Z)
    (pages : list Z) (w : W) :
  (forall fps startedAt clip st,
      let '(o, st') := captureAndWriteFrame env fps startedAt clip st in
      match o with
      | Ret frame =>
          exists c t2 p,
            log st' = log st ++ c ++ p
            /\ caught_up fps startedAt frame (writtenFrames st) c (writtenFrames st')
            /\ pace fps startedAt (writtenFrames st') t2 p
            /\ (total_sleep p
                == Qmax 0 (pacingDelay fps (writtenFrames st') (t2 - startedAt)))%Q
      | Err message =>
          exists d, log st' = log st ++ d /\ last d = Some (EvFail message)
      | OutOfFuel => False
      end)
  /\ (forall fps startedAt clip st,
        let '(o, st') := captureStill env fps startedAt clip st in
        match o with
        | Ret _ =>
            exists frame c,
              log st' = log st ++ c
              /\ caught_up fps startedAt frame (writtenFrames st) c
                           (writtenFrames st')
        | Err message =>
            exists d, log st' = log st ++ d /\ last d = Some (EvFail message)
        | OutOfFuel => False
        end)
  /\ (let '(o, st') :=
        genPageMp4 env fuel withClicks videoFps videoInterval output scale
                   timeout pages (initial w) in
      match o with
      | Ret _ =>
          exists setup clip startedAt initialFrame first w1 loop w2 lastFrame last,
            log st'
            = setup ++ [EvClip clip; EvNow startedAt] ++ first ++ loop ++ last
                ++ [EvEnd; EvEncoderDone]
            /\ Forall setup_event setup
            /\ caught_up (to_Z videoFps) startedAt initialFrame 0 first w1
            /\ (exists css rest, loop = EvBudget css :: rest)
            /\ paced (to_Z videoFps) startedAt w1 loop w2
            /\ caught_up (to_Z videoFps) startedAt lastFrame w2 last
                         (writtenFrames st')
      | _ => True
      end).
Proof.
  split_and!.
  - intros fps startedAt clip st.
    destruct (captureAndWriteFrame env fps startedAt clip st)
      as [[frame|message|] st'] eqn:E.
    + now apply captureAndWriteFrame_paced in E.
    + apply tame_captureAndWriteFrame in E as (d & L & _ & X).
      exists d. split; [exact L | now apply X].
    + now apply fuel_free_captureAndWriteFrame in E.
  - intros fps startedAt clip st.
    destruct (captureStill env fps startedAt clip st)
      as [[u|message|] st'] eqn:E.
    + now apply captureStill_caught_up in E.
    + apply tame_captureStill in E as (d & L & _ & X).
      exists d. split; [exact L | now apply X].
    + now apply fuel_free_captureStill in E.
  - destruct (genPageMp4 env fuel withClicks videoFps videoInterval output scale
                         timeout pages (initial w)) as [[[]|message|] st'] eqn:E;
      [|exact I..].
    unfold genPageMp4 in E.
    destruct (mp4Preflight _ _ _ _ _ _) as [plan|message] eqn:P; [|discriminate].
    apply preflight_fps in P. unfold recordMp4 in E.
    apply bind_Ret_inv in E as (u1 & st1 & H1 & E).
    apply setup_keeps_count in H1 as (d1 & L1 & F1 & C1);
      [|apply emits_setup_waitForFfmpeg|unfold waitForFfmpeg; drifts_auto].
    apply bind_Ret_inv in E as (u2 & st2 & H2 & E).
    apply setup_keeps_count in H2 as (d2 & L2 & F2 & C2);
      [|apply emits_setup_goPlay
       |unfold goPlay, waitForStepSettled, getTransitionSettleBudget, sleep;
        drifts_auto].
    apply bind_Ret_inv in E as (u3 & st3 & H3 & E).
    apply setup_keeps_count in H3 as (d3 & L3 & F3 & C3);
      [|apply emits_setup_motionScale|drifts_auto].
    apply bind_Ret_inv in E as (u4 & st4 & H4 & E).
    injection H4 as _ <-.
    apply bind_Ret_inv in E as (u5 & st5 & H5 & E).
    apply call_Ret_inv in H5 as (w5 & _ & ->).
    apply bind_Ret_inv in E as (clip & st6 & H6 & E).
    apply call_Ret_inv in H6 as (w6 & _ & ->).
    apply bind_Ret_inv in E as (startedAt & st7 & H7 & E).
    apply now_inv in H7 as (t0 & [= <-] & L7 & C7).
    apply guardedRecording_Ret in E. unfold recording in E.
    apply bind_Ret_inv in E as (u8 & st8 & H8 & E).
    apply captureStill_caught_up in H8 as (f1 & s1 & L8 & K8).
    apply bind_Ret_inv in E as (u9 & st9 & H9 & E).
    pose proof (paces_mainLoop _ _ _ _ _ _ _ _ _ _ _ H9) as (d9 & L9 & P9).
    pose proof (mainLoop_starts_settling _ _ _ _ _ _ _ _ _ _ _ _ H9 L9)
      as (css & rest & Hd9).
    apply bind_Ret_inv in E as (u10 & st10 & H10 & E).
    apply captureStill_caught_up in H10 as (f2 & s2 & L10 & K10).
    apply bind_Ret_inv in E as (u11 & st11 & H11 & E).
    injection H11 as _ <-.
    apply call_Ret_inv in E as (w12 & _ & ->).
    simpl in *. rewrite P in *.
    exists (d1 ++ d2 ++ d3 ++ [EvSpawn (ffmpegArgs plan); EvTargetReady]), clip,
      startedAt, f1, s1, (writtenFrames st8), d9, (writtenFrames st9), f2, s2.
    split_and!.
    + rewrite L10, L9, L8, L7. simpl. rewrite L3, L2, L1. simpl.
      rewrite <- !app_assoc. reflexivity.
    + repeat (apply Forall_app; split); auto. repeat constructor.
    + replace 0 with (writtenFrames st7) by lia. exact K8.
    + now exists css, rest.
    + exact P9.
    + exact K10.
Qed.

End PaceJob.

(** Some doubles: 0.1 and 1000/30 are not doubles and round to their
    neighbours; integers are kept up to [2^53], and rounded to even
    significands above; below [2^-1022] the doubles are [2^-1074]
    apart. *)
Example nearest_double_values :
  nearest_double (1 # 10) = (3602879701896397 # 2 ^ 55)%Q
  /\ nearest_double (1000 / inject_Z 30) = (4691249611844267 # 2 ^ 47)%Q
  /\ nearest_double (inject_Z (2 ^ 53)) = inject_Z (2 ^ 53)
  /\ nearest_double (inject_Z (2 ^ 53 + 1)) = inject_Z (2 ^ 53)
  /\ nearest_double (inject_Z (2 ^ 53 + 3)) = inject_Z (2 ^ 53 + 4)
  /\ nearest_double (- (5 # 2)) = (- (5 # 2))%Q
  /\ nearest_double (3 # 2 ^ 1075) = (1 # 2 ^ 1073)%Q
  /\ nearest_double (1 # 2 ^ 1075) = 0%Q.
Proof. vm_compute. repeat split. Qed.

(** The delay is computed in doubles: at 30 frames per second, with 14
    frames written and 500 ms gone, [(14 + 1) * (1000 / 30) - 500] is
    [2^-44], not 0, and a timer is set. *)
Example pacing_is_computed_in_doubles :
  pacingDelay 30 14 500 = (1 # 2 ^ 44)%Q
  /\ Qltb 0 (pacingDelay 30 14 500) = true
  /\ (inject_Z (14 + 1) * (1000 / inject_Z 30) - inject_Z 500 == 0)%Q.
Proof. vm_compute. repeat split. Qed.

(** C5, counterexample.  On the two-slide deck, recorded at 30 frames per
    second from the clock reading 1402 on, the initial frame is captured,
    written and caught up at 1442, with one frame written.  The pacing of
    the claim would now sleep [(1 + 1) * (1000 / 30) - 40], that is 80/3
    milliseconds, before the next screenshot.  What the recorder does up
    to the next screenshot is to wait for the step to settle, with a
    timer of 400 ms, and to read the clock for the dwell: the only sleep
    of that stretch is not the pacing one.  Nor does anything follow the
    catch-up of the last frame but the closing of the encoder's input. *)
Lemma initial_and_last_frame_are_not_paced :
  let run := Sim.record_deck Sim.two_slides in
  let between :=
    [EvBudget "100ms"; EvSleep 400; EvSettled 2400; EvAnimationFrames;
     EvNow 1843; EvNow 1843] in
  let claimed := Qmax 0 (inject_Z (1 + 1) * (1000 / inject_Z 30)
                         - inject_Z (1442 - 1402)) in
  fst run = Ret tt
  /\ (exists setup frame rest,
        log (snd run)
        = setup ++ [EvClip None; EvNow 1402]
            ++ [EvCapture frame; EvWrite frame; EvNow 1442]
            ++ between ++ [EvCapture frame] ++ rest
        /\ captures setup = [] /\ writes setup = [])
  /\ sleeps between = [400%Q]
  /\ (claimed == 80 # 3)%Q
  /\ ~ (400 == claimed)%Q
  /\ (forall t2 n, ~ pace 30 1402 1 t2 (firstn n between))
  /\ (exists body frame,
        log (snd run)
        = body ++ [EvCapture frame; EvWrite frame; EvNow 3276; EvWrite frame]
            ++ [EvEnd; EvEncoderDone]).
Proof.
  cbv zeta. split_and!.
  - vm_compute. reflexivity.
  - exists (firstn 8 (log (snd (Sim.record_deck Sim.two_slides)))),
      [Byte.x01; Byte.x00],
      (skipn 20 (log (snd (Sim.record_deck Sim.two_slides)))).
    split_and!; vm_compute; reflexivity.
  - reflexivity.
  - vm_compute. reflexivity.
  - vm_compute. discriminate.
  - intros t2 n H. unfold pace in H. destruct n; discriminate H.
  - exists (rev (skipn 6 (rev (log (snd (Sim.record_deck Sim.two_slides)))))),
      [Byte.x02; Byte.x00].
    vm_compute. reflexivity.
Qed.



End PacingProofs.
(** ** More on the job service *)

Module JobServiceExtras.
Import Sanitize JS Options Recorder JobService JobShapes JobServiceProofs.

(** *** Eviction *)

Lemma keep_job_spec now job :
  keep_job now job = true
  <-> status job = running \/ now - settledAt job <= VIDEO_EXPORT_JOB_TTL_MS.
Proof.
  unfold keep_job, settledAt. rewrite orb_true_iff, negb_true_iff, Z.ltb_ge.
  now rewrite status_eqb_spec.
Qed.

(** [cleanupJobs] keeps the running jobs and the jobs that settled no
    more than ten minutes ago, unchanged. *)
Lemma cleanupJobs_lookup_iff now jobs id job :
  cleanupJobs now jobs !! id = Some job
  <-> jobs !! id = Some job
      /\ (status job = running \/ now - settledAt job <= VIDEO_EXPORT_JOB_TTL_MS).
Proof.
  unfold cleanupJobs. rewrite map_lookup_filter_Some. simpl.
  now rewrite keep_job_spec.
Qed.

(** X10.  Cleaning up at every request is the same as cleaning up once:
    with a clock that does not run backwards, a clean-up after a clean-up
    leaves what the later one alone would leave.  In particular a second
    clean-up at the same time changes nothing. *)
Theorem cleanup_composes (now later : Z) (jobs : gmap string VideoExportJob) :
  now <= later ->
  cleanupJobs later (cleanupJobs now jobs) = cleanupJobs later jobs.
Proof.
  intros Hle. apply map_eq. intros id. apply option_eq. intros job.
  rewrite !cleanupJobs_lookup_iff.
  split; [tauto|]. intros [Hl Hk]. split_and!; auto.
  destruct Hk as [Hk | Hk]; [now left | right; lia].
Qed.

Lemma cleanup_composes_witness :
  1000 <= 6000
  /\ cleanupJobs 6000 (cleanupJobs 1000 (jobs demo_done))
     = cleanupJobs 6000 (jobs demo_done).
Proof.
  assert (1000 <= 6000) as H by lia.
  split; [exact H|]. exact (cleanup_composes 1000 6000 (jobs demo_done) H).
Defined.

(** *** The list of jobs *)

Lemma insert_job_perm r l : insert_job r l ≡ₚ r :: l.
Proof.
  induction l as [|x l IH]; simpl; [reflexivity|].
  destruct (r_startedAt x <=? r_startedAt r); [reflexivity|].
  rewrite IH. apply Permutation_swap.
Qed.

Lemma newest_first_cons x l :
  newest_first (x :: l)
  <-> (forall y, head l = Some y -> r_startedAt y <= r_startedAt x)
      /\ newest_first l.
Proof.
  destruct l as [|y l]; simpl.
  - split; [intros _; split; [discriminate | exact I] | tauto].
  - split.
    + intros [H1 H2]. split; [now intros ? [= <-] | exact H2].
    + intros [H1 H2]. split; [now apply H1 | exact H2].
Qed.

Lemma head_insert_job r l y :
  head (insert_job r l) = Some y -> y = r \/ head l = Some y.
Proof.
  destruct l as [|x l]; simpl; [intros [= <-]; now left|].
  destruct (r_startedAt x <=? r_startedAt r); simpl; intros [= <-]; auto.
Qed.

Lemma insert_job_sorted r l : newest_first l -> newest_first (insert_job r l).
Proof.
  induction l as [|x l IH]; intros Hl; [simpl; auto|].
  cbn [insert_job]. destruct (r_startedAt x <=? r_startedAt r) eqn:E.
  - apply Z.leb_le in E. apply newest_first_cons. split; [|exact Hl].
    now intros y [= <-].
  - apply Z.leb_gt in E. apply newest_first_cons in Hl as [Hx Hl].
    apply newest_first_cons. split; [|now apply IH].
    intros y Hy. apply head_insert_job in Hy as [-> | Hy]; [lia | now apply Hx].
Qed.

(** X11.  [listJobs] lists every job of the registry exactly once, each
    with its identifier, and no job before one that started later. *)
Theorem listJobs_newest_first_and_complete
    (now : Z) (jobs : gmap string VideoExportJob) :
  newest_first (listJobs now jobs)
  /\ listJobs now jobs
     ≡ₚ (fun kv => resolveJobResponse now kv.2 (Some kv.1)) <$> map_to_list jobs
  /\ length (listJobs now jobs) = size jobs
  /\ forall r,
       r ∈ listJobs now jobs
       <-> exists id job,
             jobs !! id = Some job /\ r = resolveJobResponse now job (Some id).
Proof.
  unfold listJobs.
  set (l := (fun kv : string * VideoExportJob =>
               resolveJobResponse now kv.2 (Some kv.1)) <$> map_to_list jobs).
  assert (newest_first (foldr insert_job [] l) /\ foldr insert_job [] l ≡ₚ l)
    as [Hs Hp].
  { induction l as [|x l [IH1 IH2]]; simpl; [split; [exact I | reflexivity]|].
    split; [now apply insert_job_sorted|]. now rewrite insert_job_perm, IH2. }
  split_and!; auto.
  - rewrite Hp. subst l. now rewrite length_fmap, length_map_to_list.
  - intros r. rewrite Hp. subst l. rewrite list_elem_of_fmap. split.
    + intros ([id job] & -> & Hin). apply elem_of_map_to_list in Hin.
      now exists id, job.
    + intros (id & job & Hl & ->). exists (id, job). split; [reflexivity|].
      now apply elem_of_map_to_list.
Qed.

(** *** Jobs and their status *)

Lemma coherent_step options s s' :
  service_step options s s' ->
  (forall id job, jobs s !! id = Some job -> coherent job) ->
  forall id job, jobs s' !! id = Some job -> coherent job.
Proof.
  intros Hstep Hjobs.
  destruct Hstep as [amb req s Hid | W env parse fuel st
    task completedAt o before after s Hs Ho Hfuel]; unfold after_request; simpl.
  - pose proof (handle_registry options amb req (jobs s)) as H.
    destruct (handle options amb req (jobs s)) as [[jobs' response] started].
    simpl. intros id job. destruct started as [task|].
    + destruct H as [_ ->]. rewrite lookup_insert_Some.
      intros [[<- <-] | [_ Hl]]; [now split_and!|].
      apply cleanupJobs_lookup in Hl as [Hl _]. eauto.
    + subst jobs'. intros Hl. apply cleanupJobs_lookup in Hl as [Hl _]. eauto.
  - intros id job. unfold settleJob. destruct o as [u|message|].
    + rewrite lookup_insert_Some. intros [[<- <-] | [_ Hl]]; [|eauto].
      split; [reflexivity|]. now exists completedAt.
    + rewrite lookup_insert_Some. intros [[<- <-] | [_ Hl]]; [|eauto].
      split; [now exists message|]. now exists completedAt.
    + eauto.
Qed.

Lemma reachable_coherent options s :
  reachable options s -> forall id job, jobs s !! id = Some job -> coherent job.
Proof.
  unfold reachable.
  apply (rtc_ind_r (fun s => forall id job, jobs s !! id = Some job -> coherent job)).
  - intros id job. simpl. now rewrite lookup_empty.
  - intros y z _ Hstep IH. eapply coherent_step; eauto.
Qed.

(** X12.  In every state the service can reach, each descriptor a
    response carries is well formed: it names its job; its duration is
    not negative; it carries an error message exactly when its status is
    error, and a completion time exactly when its status is not running;
    its file name is the base name of its file. *)
Theorem descriptors_are_well_formed
    (options : ServerOptions) (s : Service) (amb : Ambient) (req : Request) :
  reachable options s ->
  forall r, r ∈ descriptors (handle options amb req (jobs s)).1.2 ->
    (exists id, r_jobId r = Some id /\ id <> "")
    /\ 0 <= r_durationMs r
    /\ (is_Some (r_error r) <-> r_status r = error)
    /\ (is_Some (r_completedAt r) <-> r_status r <> running)
    /\ (exists f, r_file r = Some f /\ r_filename r = Some (basename f)).
Proof.
  intros Hreach r Hr.
  apply descriptors_handle in Hr as (id & job & Hl & ->).
  apply cleanupJobs_lookup in Hl as [Hl _].
  pose proof (reachable_coherent options s Hreach id job Hl) as Hc.
  apply reachable_files_set in Hreach as [Hfiles _].
  destruct (Hfiles id job Hl) as [Hid Hfile].
  unfold resolveJobResponse. cbn [r_jobId r_durationMs r_error r_status
    r_completedAt r_file r_filename].
  rewrite Hid, Hfile. unfold coherent in Hc.
  split_and!.
  - exists id. split; [reflexivity|]. now apply truthy_Some.
  - destruct (status job); simpl.
    + lia.
    + destruct Hc as (_ & c & _ & ->). simpl. lia.
    + destruct Hc as (_ & c & _ & ->). simpl. lia.
  - destruct (status job).
    + destruct Hc as (-> & _). split; [intros [x [=]] | discriminate].
    + destruct Hc as (-> & _). split; [intros [x [=]] | discriminate].
    + destruct Hc as ((message & ->) & _). split; [reflexivity | eauto].
  - destruct (status job).
    + destruct Hc as (_ & -> & _). split; [intros [x [=]] | congruence].
    + destruct Hc as (_ & c & -> & _). split; [discriminate | eauto].
    + destruct Hc as (_ & c & -> & _). split; [discriminate | eauto].
  - destruct (file job) as [f|]; [|discriminate]. now exists f.
Qed.

Lemma descriptors_are_well_formed_witness :
  reachable demo_options demo_done
  /\ forall r,
       r ∈ descriptors (handle demo_options (demo_ambient 6000)
                          (status_request (task_id demo_task))
                          (jobs demo_done)).1.2 ->
       (exists id, r_jobId r = Some id /\ id <> "")
       /\ 0 <= r_durationMs r
       /\ (is_Some (r_error r) <-> r_status r = error)
       /\ (is_Some (r_completedAt r) <-> r_status r <> running)
       /\ (exists f, r_file r = Some f /\ r_filename r = Some (basename f)).
Proof.
  split; [exact demo_done_reachable|].
  exact (descriptors_are_well_formed demo_options demo_done (demo_ambient 6000)
           (status_request (task_id demo_task)) demo_done_reachable).
Defined.

(** *** Routes *)

Lemma up_to_slash_spec l jobId tail :
  up_to_slash l = (jobId, tail) ->
  l = jobId ++ tail
  /\ Forall (fun c => c <> "/"%char) jobId
  /\ (tail = [] \/ exists r, tail = "/"%char :: r).
Proof.
  revert jobId tail. induction l as [|c l IH]; intros jobId tail; simpl.
  - intros [= <- <-]. split_and!; [reflexivity | constructor | now left].
  - destruct (Ascii.eqb_spec c "/") as [-> | Hc].
    + intros [= <- <-]. split_and!; [reflexivity | constructor | right; eauto].
    + destruct (up_to_slash l) as [a b]. intros [= <- <-].
      destruct (IH a b eq_refl) as (-> & Ha & Hb).
      split_and!; [reflexivity | now constructor | exact Hb].
Qed.

Lemma up_to_slash_app l tail :
  Forall (fun c => c <> "/"%char) l ->
  (tail = [] \/ exists r, tail = "/"%char :: r) ->
  up_to_slash (l ++ tail) = (l, tail).
Proof.
  intros Hl Ht. induction Hl as [|c l Hc Hl IH]; simpl.
  - destruct Ht as [-> | (r & ->)]; reflexivity.
  - destruct (Ascii.eqb_spec c "/") as [-> | _]; [congruence|].
    now rewrite IH.
Qed.

Lemma string_of_list_ascii_nil l : string_of_list_ascii l = "" -> l = [].
Proof. now destruct l. Qed.

Lemma matchVideoUrl_chars url :
  matchVideoUrl url
  = match list_ascii_of_string url with l =>
      if starts_with (list_ascii_of_string "/__slidev/export/video") l then
        match drop 22 l with
        | [] => Some (None, None)
        | c :: rest =>
            if Ascii.eqb c "/" then
              let '(jobId, tail) := up_to_slash rest in
              match jobId with
              | [] => None
              | _ =>
                  if String.eqb (string_of_list_ascii tail) "" then
                    Some (Some (string_of_list_ascii jobId), None)
                  else if String.eqb (string_of_list_ascii tail) "/download" then
                    Some (Some (string_of_list_ascii jobId), Some "download")
                  else None
              end
            else None
        end
      else None
    end.
Proof. reflexivity. Qed.

(** The texts that the route matches with a job identifier. *)
Lemma matchVideoUrl_with_id url id action :
  matchVideoUrl url = Some (Some id, action)
  <-> id <> "" /\ no_slash id
      /\ ((action = None /\ url = status_url id)
          \/ (action = Some "download" /\ url = download_url id)).
Proof.
  rewrite matchVideoUrl_chars. split.
  - destruct (starts_with _ _) eqn:Es; [|discriminate].
    apply StabilizerProofs.starts_with_spec in Es as (rest & Hl).
    rewrite Hl. change 22%nat with (length (list_ascii_of_string "/__slidev/export/video")).
    rewrite drop_app_length.
    destruct rest as [|c rest]; [discriminate|].
    destruct (Ascii.eqb_spec c "/") as [-> | _]; [|discriminate].
    destruct (up_to_slash rest) as [jobId tail] eqn:Eu.
    apply up_to_slash_spec in Eu as (-> & Hj & Ht).
    destruct jobId as [|j jobId]; [discriminate|].
    assert (url = "/__slidev/export/video/"
                  +:+ string_of_list_ascii (j :: jobId)
                  +:+ string_of_list_ascii tail) as Hurl.
    { apply NumeralProofs.list_ascii_of_string_inj. rewrite Hl.
      rewrite !StabilizerProofs.list_ascii_of_string_app,
        !list_ascii_of_string_of_list_ascii. reflexivity. }
    assert (string_of_list_ascii (j :: jobId) <> ""
            /\ no_slash (string_of_list_ascii (j :: jobId))) as [Hne Hns].
    { split; [discriminate|]. unfold no_slash.
      now rewrite list_ascii_of_string_of_list_ascii. }
    remember (string_of_list_ascii (j :: jobId)) as id0 eqn:Eid. clear Eid.
    destruct (String.eqb_spec (string_of_list_ascii tail) "") as [E | _].
    + intros [= <- <-]. split_and!; auto.
      left. split; [reflexivity|]. rewrite Hurl, E. unfold status_url.
      f_equal. clear. induction id0 as [|c t IH]; [reflexivity|].
      change (String c (t +:+ "") = String c t). now rewrite IH.
    + destruct (String.eqb_spec (string_of_list_ascii tail) "/download") as [E | _];
        [|discriminate].
      intros [= <- <-]. split_and!; auto.
      right. split; [reflexivity|]. rewrite Hurl, E. reflexivity.
  - intros (Hne & Hns & Hcase). unfold no_slash in Hns.
    assert (list_ascii_of_string id <> []) as Hne'.
    { intros E. apply Hne. apply NumeralProofs.list_ascii_of_string_inj.
      now rewrite E. }
    assert (forall tail,
              (tail = [] \/ exists r, tail = "/"%char :: r) ->
              list_ascii_of_string
                ("/__slidev/export/video/" +:+ id +:+ string_of_list_ascii tail)
              = list_ascii_of_string "/__slidev/export/video"
                  ++ "/"%char :: list_ascii_of_string id ++ tail) as Hl.
    { intros tail _. rewrite !StabilizerProofs.list_ascii_of_string_app,
        list_ascii_of_string_of_list_ascii. reflexivity. }
    destruct Hcase as [[-> ->] | [-> ->]].
    + unfold status_url.
      replace ("/__slidev/export/video/" +:+ id)
        with ("/__slidev/export/video/" +:+ id +:+ string_of_list_ascii []).
      2:{ f_equal. clear. simpl. induction id as [|c t IH]; [reflexivity|].
          change (String c (t +:+ "") = String c t). now rewrite IH. }
      rewrite Hl by now left.
      rewrite (proj2 (StabilizerProofs.starts_with_spec _ _)) by eauto.
      change 22%nat
        with (length (list_ascii_of_string "/__slidev/export/video")).
      rewrite drop_app_length. simpl Ascii.eqb. cbv iota.
      rewrite up_to_slash_app by auto.
      destruct (list_ascii_of_string id) as [|c r] eqn:Ei; [congruence|].
      simpl String.eqb. cbv iota. rewrite <- Ei.
      now rewrite string_of_list_ascii_of_string.
    + unfold download_url.
      change "/download" with (string_of_list_ascii (list_ascii_of_string "/download")).
      rewrite Hl by (right; eexists; reflexivity).
      rewrite (proj2 (StabilizerProofs.starts_with_spec _ _)) by eauto.
      change 22%nat
        with (length (list_ascii_of_string "/__slidev/export/video")).
      rewrite drop_app_length. simpl Ascii.eqb. cbv iota.
      rewrite up_to_slash_app by (auto; right; eexists; reflexivity).
      destruct (list_ascii_of_string id) as [|c r] eqn:Ei; [congruence|].
      rewrite <- Ei. rewrite !string_of_list_ascii_of_string. reflexivity.
Qed.

(** X13.  The route of the service matches exactly three kinds of
    paths: [/__slidev/export/video] itself, that path followed by a slash
    and a job identifier (not empty, without slash), and the latter
    followed by [/download].  So the status and download links that the
    service hands out for a job lead back to that job. *)
Theorem video_routes (url : string) (jobId action : option string) :
  matchVideoUrl url = Some (jobId, action)
  <-> (jobId = None /\ action = None /\ url = "/__slidev/export/video")
      \/ (exists id,
            jobId = Some id /\ id <> "" /\ no_slash id
            /\ ((action = None /\ url = status_url id)
                \/ (action = Some "download" /\ url = download_url id))).
Proof.
  destruct jobId as [id|].
  - rewrite matchVideoUrl_with_id. split.
    + intros H. right. now exists id.
    + intros [(H & _) | (id' & [= <-] & H)]; [discriminate | exact H].
  - split.
    + rewrite matchVideoUrl_chars.
      destruct (starts_with _ _) eqn:Es; [|discriminate].
      apply StabilizerProofs.starts_with_spec in Es as (rest & Hl).
      rewrite Hl.
      change 22%nat with (length (list_ascii_of_string "/__slidev/export/video")).
      rewrite drop_app_length. destruct rest as [|c rest].
      * intros [= <-]. left. split_and!; auto.
        apply NumeralProofs.list_ascii_of_string_inj. rewrite Hl.
        now rewrite app_nil_r.
      * destruct (Ascii.eqb c "/"); [|discriminate].
        destruct (up_to_slash rest) as [[|j r] tail]; [discriminate|].
        destruct (String.eqb _ ""); [discriminate|].
        destruct (String.eqb _ "/download"); discriminate.
    + intros [(_ & -> & ->) | (id & [=] & _)]. reflexivity.
Qed.

(** *** Following a job *)

(** X14.  The download link of a finished job works for ten minutes: in
    a state the service can reach, the link in the descriptor of a job
    whose status is done (and whose identifier has no slash) is answered
    with the job's file, as a [video/mp4] attachment, as long as the job
    settled no more than ten minutes ago, and with 404 after that. *)
Theorem download_link_works
    (options : ServerOptions) (s : Service) (amb : Ambient)
    (id : string) (job : VideoExportJob) :
  reachable options s ->
  jobs s !! id = Some job ->
  status job = done ->
  no_slash id ->
  exists u f,
    r_downloadUrl (resolveJobResponse (amb_now amb) job (Some id)) = Some u
    /\ file job = Some f
    /\ (handle options amb {| method := "GET"; url := Some u; payload := Ok None |}
          (jobs s)).1.2
       = Some (if amb_now amb - settledAt job <=? 10 * 60 * 1000
               then {| statusCode := 200; contentType := "video/mp4";
                       contentDisposition :=
                         Some ("attachment; filename=" +:+ quote +:+ basename f
                               +:+ quote);
                       body := BodyStream f |}
               else json_response 404 (BodyError "Export file not ready")).
Proof.
  intros Hreach Hl Hdone Hns.
  apply reachable_files_set in Hreach as [Hfiles _].
  destruct (Hfiles id job Hl) as [Hid Hfile].
  destruct (file job) as [f|] eqn:Ef; [|discriminate].
  exists (download_url id), f. split_and!; auto.
  - unfold resolveJobResponse. cbn [r_downloadUrl]. rewrite Hid, Hdone. reflexivity.
  - rewrite (handle_download options amb _ (jobs s) id); [|reflexivity|].
    2:{ simpl. apply matchVideoUrl_with_id. split_and!; auto.
        now apply truthy_Some. }
    f_equal. unfold downloadVideo.
    destruct (amb_now amb - settledAt job <=? 10 * 60 * 1000) eqn:Et.
    + apply Z.leb_le in Et.
      rewrite (proj2 (cleanupJobs_lookup_iff (amb_now amb) (jobs s) id job));
        [|split; [exact Hl | now right]].
      rewrite Hdone, Ef. simpl status_eqb. rewrite Hfile. reflexivity.
    + apply Z.leb_gt in Et.
      destruct (cleanupJobs (amb_now amb) (jobs s) !! id) as [job'|] eqn:Ec;
        [|reflexivity].
      apply cleanupJobs_lookup_iff in Ec as [Hl' [Hr | Ht]].
      * rewrite Hl in Hl'. injection Hl' as <-. congruence.
      * rewrite Hl in Hl'. injection Hl' as <-.
        unfold VIDEO_EXPORT_JOB_TTL_MS in Ht. lia.
Qed.

Lemma demo_job_done :
  jobs demo_done !! task_id demo_task
  = Some (settled_job demo_task 5000 done None).
Proof. vm_compute. reflexivity. Qed.

Lemma demo_id_no_slash : no_slash (task_id demo_task).
Proof. unfold no_slash. vm_compute. repeat constructor; discriminate. Qed.

Lemma download_link_works_witness :
  reachable demo_options demo_done
  /\ jobs demo_done !! task_id demo_task
     = Some (settled_job demo_task 5000 done None)
  /\ status (settled_job demo_task 5000 done None) = done
  /\ no_slash (task_id demo_task)
  /\ exists u f,
       r_downloadUrl (resolveJobResponse (amb_now (demo_ambient 6000))
                        (settled_job demo_task 5000 done None)
                        (Some (task_id demo_task))) = Some u
       /\ file (settled_job demo_task 5000 done None) = Some f
       /\ (handle demo_options (demo_ambient 6000)
             {| method := "GET"; url := Some u; payload := Ok None |}
             (jobs demo_done)).1.2
          = Some (if amb_now (demo_ambient 6000)
                     - settledAt (settled_job demo_task 5000 done None)
                     <=? 10 * 60 * 1000
                  then {| statusCode := 200; contentType := "video/mp4";
                          contentDisposition :=
                            Some ("attachment; filename=" +:+ quote +:+ basename f
                                  +:+ quote);
                          body := BodyStream f |}
                  else json_response 404 (BodyError "Export file not ready")).
Proof.
  split_and!; [exact demo_done_reachable | exact demo_job_done | reflexivity
              | exact demo_id_no_slash |].
  exact (download_link_works demo_options demo_done (demo_ambient 6000)
           (task_id demo_task) (settled_job demo_task 5000 done None)
           demo_done_reachable demo_job_done eq_refl demo_id_no_slash).
Defined.



(** *** The name of the video file *)

Lemma safe_app a b : safe a -> safe b -> safe (a ++ b).
Proof. apply Forall_app_2. Qed.

Lemma safe_string_app a b :
  safe (list_ascii_of_string a) -> safe (list_ascii_of_string b) ->
  safe (list_ascii_of_string (a +:+ b)).
Proof.
  intros Ha Hb. rewrite StabilizerProofs.list_ascii_of_string_app.
  now apply safe_app.
Qed.

Lemma sanitizePart_safe value : safe (list_ascii_of_string (sanitizePart value)).
Proof.
  unfold sanitizePart, sanitize_chars. rewrite list_ascii_of_string_of_list_ascii.
  apply SanitizeProofs.strip_edge_Forall, SanitizeProofs.replace_runs_keeps;
    [reflexivity|].
  apply SanitizeProofs.replace_runs_Forall; [reflexivity|].
  intros c Hc. now apply negb_false_iff in Hc.
Qed.

Lemma or_else_safe s d :
  safe (list_ascii_of_string s) -> safe (list_ascii_of_string d) ->
  safe (list_ascii_of_string (or_else (Some s) d)).
Proof. intros Hs Hd. unfold or_else. now destruct (truthy (Some s)). Qed.

Lemma digit_allowed c : is_Some (digit_of c) -> allowed c = true.
Proof.
  unfold digit_of, allowed, is_word.
  destruct ((48 <=? code c)%N && (code c <=? 57)%N); [reflexivity|].
  intros [z [=]].
Qed.

Lemma String_of_Z_safe z : safe (list_ascii_of_string (String_of_Z z)).
Proof.
  destruct (NumeralProofs.pretty_Z_chars z) as (sign & ds & -> & Hs & _ & Hd & _).
  apply safe_app.
  - destruct Hs as [[_ ->] | [_ ->]]; repeat constructor.
  - eapply Forall_impl; [exact Hd | exact digit_allowed].
Qed.

Lemma safe_forallb l : forallb allowed l = true -> safe l.
Proof.
  intros H. apply Forall_forall. intros c Hc.
  apply list_elem_of_In in Hc. exact (proj1 (forallb_forall _ _) H c Hc).
Qed.

Lemma safe_no_slash l : safe l -> Forall (fun c => c <> "/"%char) l.
Proof.
  intros H. eapply Forall_impl; [exact H|].
  intros c Hc ->. discriminate Hc.
Qed.

Lemma drop_slashes_id l :
  head l <> None -> Forall (fun c => c <> "/"%char) l -> drop_slashes l = l.
Proof.
  destruct l as [|c r]; [easy|]. intros _ H. apply Forall_cons in H as [Hc _].
  simpl. apply Ascii.eqb_neq in Hc. now rewrite Hc.
Qed.

(** The base name of a file directly under a directory is its name. *)
Lemma basename_resolve root name :
  name <> "" -> no_slash name -> basename (path_resolve root name) = name.
Proof.
  intros Hne Hns. unfold basename, path_resolve.
  rewrite !StabilizerProofs.list_ascii_of_string_app.
  set (n := list_ascii_of_string name) in *.
  set (r := list_ascii_of_string root).
  change (list_ascii_of_string "/") with ["/"%char].
  assert (n <> []) as Hn.
  { intros E. apply Hne. apply NumeralProofs.list_ascii_of_string_inj.
    exact E. }
  assert (drop_slashes (reverse (r ++ ["/"%char] ++ n))
          = reverse (r ++ ["/"%char] ++ n)) as ->.
  { rewrite !reverse_app. rewrite <- app_assoc.
    destruct (reverse n) as [|c t] eqn:E.
    - apply (f_equal reverse) in E. rewrite reverse_involutive in E.
      now destruct Hn.
    - assert (c <> "/"%char) as Hc.
      { assert (Forall (fun c => c <> "/"%char) (reverse n)) as H
          by now apply Forall_reverse.
        rewrite E in H. now apply Forall_cons in H as [H _]. }
      simpl. apply Ascii.eqb_neq in Hc. now rewrite Hc. }
  rewrite reverse_involutive.
  set (go := fix go (acc l : list ascii) : list ascii :=
         match l with
         | [] => acc
         | c :: r => if Ascii.eqb c "/"%char then go [] r else go (acc ++ [c]) r
         end).
  assert (forall l acc, Forall (fun c => c <> "/"%char) l -> go acc l = acc ++ l)
    as Hplain.
  { induction l as [|c l IH]; intros acc Hl; simpl.
    - now rewrite app_nil_r.
    - apply Forall_cons in Hl as [Hc Hl]. apply Ascii.eqb_neq in Hc.
      rewrite Hc, IH by exact Hl. now rewrite <- app_assoc. }
  assert (forall pre acc, go acc (pre ++ ["/"%char] ++ n) = n) as Hlast.
  { induction pre as [|c pre IH]; intros acc; simpl.
    - now rewrite Hplain.
    - destruct (Ascii.eqb c "/"); apply IH. }
  rewrite Hlast. apply string_of_list_ascii_of_string.
Qed.

(** X16.  The name of the video file is safe whatever the request says:
    when the time stamp and the first eight characters of the job
    identifier consist of characters of [[\w.-]] (both are made by the
    server), and the frame rate in the payload, if any, rounds to an
    integer below 2^53 in absolute value (so that it is written with all
    its digits), then the name that [buildOutputFilename] builds consists
    of such characters only and ends in [.mp4].  It therefore names a
    file directly in the user's root directory, and it is the file name
    under which the video is later offered. *)
Theorem output_filename_is_safe
    (options : ServerOptions) (payload : Payload) (jobId timestamp name : string) :
  safe (list_ascii_of_string timestamp) ->
  safe (take 8 (list_ascii_of_string jobId)) ->
  (forall fps, finite (p_videoFps payload) = Some fps ->
               Z.abs (round fps) < 2 ^ 53) ->
  buildOutputFilename options payload jobId timestamp = Ok name ->
  safe (list_ascii_of_string name)
  /\ no_slash name
  /\ endsWith name ".mp4" = true
  /\ basename (path_resolve (userRoot options) name) = name.
Proof.
  intros Ht Hj _ Hb.
  assert (safe (list_ascii_of_string name)) as Hsafe.
  { unfold buildOutputFilename in Hb.
    destruct (rangeOrAll (p_range payload)) as [range|]; [|discriminate].
    destruct (sizeOrDefault (p_videoSize payload)) as [size|]; [|discriminate].
    injection Hb as <-.
    assert (safe (list_ascii_of_string "-")) as Hdash by (repeat constructor).
    repeat apply safe_string_app; auto using sanitizePart_safe.
    - unfold getDefaultOutputBase. apply or_else_safe; [apply sanitizePart_safe|].
      repeat constructor.
    - destruct (finite (p_videoFps payload)).
      + apply safe_string_app; [apply String_of_Z_safe | repeat constructor].
      + repeat constructor.
    - apply or_else_safe; [apply sanitizePart_safe | repeat constructor].
    - now rewrite list_ascii_of_string_of_list_ascii.
    - repeat constructor. }
  assert (endsWith name ".mp4" = true) as Hend.
  { unfold buildOutputFilename in Hb.
    destruct (rangeOrAll (p_range payload)) as [range|]; [|discriminate].
    destruct (sizeOrDefault (p_videoSize payload)) as [size|]; [|discriminate].
    injection Hb as <-. apply StabilizerProofs.endsWith_spec.
    eexists. rewrite <- !StabilizerProofs.string_app_assoc. reflexivity. }
  assert (no_slash name) as Hns by now apply safe_no_slash.
  split_and!; auto.
  apply basename_resolve; [|exact Hns].
  apply StabilizerProofs.endsWith_spec in Hend as [p ->].
  now apply string_app_nonempty.
Qed.

(** *** The file that the encoder writes *)

Lemma buildOutputFilename_mp4 options payload jobId timestamp name :
  buildOutputFilename options payload jobId timestamp = Ok name ->
  endsWith name ".mp4" = true.
Proof.
  unfold buildOutputFilename.
  destruct (rangeOrAll (p_range payload)) as [range|]; [|discriminate].
  destruct (sizeOrDefault (p_videoSize payload)) as [size|]; [|discriminate].
  intros [= <-]. apply StabilizerProofs.endsWith_spec.
  eexists. rewrite <- !StabilizerProofs.string_app_assoc. reflexivity.
Qed.

Lemma prepareExport_output options amb payload task :
  prepareExport options amb payload = Ok task ->
  endsWith (task_output task) ".mp4" = true
  /\ arg_output (task_args task) = Some (task_output task).
Proof.
  unfold prepareExport. destruct payload as [rawPayload|message]; [|discriminate].
  destruct (amb_port amb) as [port|]; [|discriminate].
  destruct (port =? 0); [discriminate|].
  destruct (buildOutputFilename _ _ _ _) as [filename|message] eqn:E;
    [|discriminate].
  intros [= <-]. simpl. split; [|reflexivity].
  apply buildOutputFilename_mp4 in E.
  apply StabilizerProofs.endsWith_spec in E as [p ->].
  apply StabilizerProofs.endsWith_spec.
  exists (userRoot options +:+ "/" +:+ p). unfold path_resolve.
  now rewrite !StabilizerProofs.string_app_assoc.
Qed.

Lemma getExportOptions_output args options o output :
  getExportOptions args options None = Ok o ->
  arg_output args = Some output -> output <> "" ->
  Options.output o = Some output.
Proof.
  unfold getExportOptions. destruct (parseVideoSize _); [|discriminate].
  intros [= <-] Ho Hne. simpl. rewrite Ho. simpl. unfold or_else at 1.
  now rewrite (proj2 (truthy_Some output) Hne).
Qed.

Lemma preflight_output withClicks videoFps videoInterval output scale pages plan :
  mp4Preflight withClicks videoFps videoInterval output scale pages = Ok plan ->
  endsWith output ".mp4" = true ->
  plan_output plan = output.
Proof.
  unfold mp4Preflight. intros H He. rewrite He in H.
  destruct (negb withClicks); [discriminate|].
  destruct (_ || _); [discriminate|].
  destruct (_ || _); [discriminate|].
  destruct (parseVideoMotionScale scale); [|discriminate].
  destruct (negb (isContiguousRange pages)); [discriminate|].
  now injection H as <-.
Qed.

Lemma last_ffmpegArgs plan : last (ffmpegArgs plan) = Some (plan_output plan).
Proof.
  unfold ffmpegArgs. rewrite !app_assoc.
  change [ "-pix_fmt"; "yuv420p"; "-movflags"; "+faststart"; plan_output plan ]
    with ([ "-pix_fmt"; "yuv420p"; "-movflags"; "+faststart" ]
          ++ [plan_output plan]).
  rewrite app_assoc. apply last_snoc.
Qed.

(** X21.  The encoder writes the file of the job.  The background export
    of a job that the service has accepted starts the encoder once at
    most, and then with the file of the job as its last argument, the
    output path: the file that the descriptors of the job name and that
    the download streams. *)
Theorem encoder_writes_the_job_file {W : Type} (env : Env W)
    (parseRangeString : Z -> option string -> list Z) (fuel : nat)
    (options : ServerOptions) (amb : Ambient) (payload : result (option Payload))
    (task : Task) (st : state W) :
  prepareExport options amb payload = Ok task ->
  file (running_job task) = Some (task_output task)
  /\ let '(o, st') :=
       backgroundExport env parseRangeString fuel options task st in
     exists a rest,
       log st' = log st ++ a ++ rest
       /\ Forall (fun e => is_spawn e = false) a
       /\ (rest = []
           \/ exists args b,
                rest = EvSpawn args :: b
                /\ last args = Some (task_output task)
                /\ Forall (fun e => is_spawn e = false) b).
Proof.
  intros Hprep. split; [reflexivity|].
  pose proof (prepareExport_output _ _ _ _ Hprep) as [Hmp4 Hout].
  pose proof (prepareExport_task _ _ _ _ Hprep) as (_ & _ & Htruthy & Hfmt).
  apply truthy_Some in Htruthy.
  destruct (backgroundExport env parseRangeString fuel options task st)
    as [o st'] eqn:E.
  unfold backgroundExport in E.
  destruct (getExportOptions (task_args task) options None) as [eo|message] eqn:G.
  2:{ injection E as <- <-. exists [], []. rewrite !app_nil_r.
      split_and!; auto. }
  pose proof (getExportOptions_format _ _ _ _ G Hfmt) as Hf.
  pose proof (getExportOptions_output _ _ _ _ G Hout Htruthy) as Ho.
  unfold exportSlides in E. rewrite Hf, Ho in E. simpl from_option in E.
  set (withClicks := from_option id false _) in E.
  set (videoFps := from_option id (of_Z 30) _) in E.
  set (videoInterval := from_option id (of_Z 2000) _) in E.
  set (scale := Some _) in E.
  set (timeout := from_option id 30000 _) in E.
  set (pages := parseRangeString _ _) in E.
  unfold genPageMp4 in E.
  destruct (mp4Preflight withClicks videoFps videoInterval (task_output task)
              scale pages) as [plan|message] eqn:P.
  - assert (LogShapes.starts_once (ffmpegArgs plan)
              (bind (call (launchBrowser env) (fun _ => EvLaunch))
                    (fun _ => recordMp4 env fuel plan timeout))) as Hones.
    { apply RecorderExtras.once_bind_l;
        [RecorderProofs.emits_auto; reflexivity|intros _].
      apply RecorderExtras.once_recordMp4. }
    apply Hones in E as (a & rest & L & Fa & Hrest).
    exists a, rest. split_and!; auto.
    destruct Hrest as [-> | (b & -> & Fb)]; [now left|right].
    exists (ffmpegArgs plan), b. split_and!; auto.
    rewrite last_ffmpegArgs. f_equal.
    now apply (preflight_output _ _ _ _ _ _ _ P).
  - assert (emits (fun e => is_spawn e = false)
              (bind (call (launchBrowser env) (fun _ => EvLaunch))
                    (fun _ => throw (W:=W) (A:=unit) message))) as Hq
      by (RecorderProofs.emits_auto; reflexivity).
    apply Hq in E as (d & L & F).
    exists d, []. rewrite app_nil_r. split_and!; auto.
Qed.

Lemma encoder_writes_the_job_file_witness :
  prepareExport demo_options (demo_ambient 1000) (Ok (Some empty_payload))
  = Ok demo_task
  /\ file (running_job demo_task) = Some (task_output demo_task)
  /\ let '(o, st') :=
       backgroundExport (Sim.simEnv Sim.two_slides) (fun _ _ => [1; 2]) 40
         demo_options demo_task (initial Sim.two_slides_start) in
     exists a rest,
       log st' = log (initial Sim.two_slides_start) ++ a ++ rest
       /\ Forall (fun e => is_spawn e = false) a
       /\ (rest = []
           \/ exists args b,
                rest = EvSpawn args :: b
                /\ last args = Some (task_output demo_task)
                /\ Forall (fun e => is_spawn e = false) b).
Proof.
  assert (prepareExport demo_options (demo_ambient 1000) (Ok (Some empty_payload))
          = Ok demo_task) as Hp by (vm_compute; reflexivity).
  split; [exact Hp|].
  exact (encoder_writes_the_job_file (Sim.simEnv Sim.two_slides)
           (fun _ _ => [1; 2]) 40 demo_options (demo_ambient 1000)
           (Ok (Some empty_payload)) demo_task (initial Sim.two_slides_start) Hp).
Defined.

(** On the two-slide deck the encoder is started, with the file of the
    job. *)
Example demo_encoder_output :
  let '(o, st') :=
    backgroundExport (Sim.simEnv Sim.two_slides) (fun _ _ => [1; 2]) 40
      demo_options demo_task (initial Sim.two_slides_start) in
  o = Ret tt
  /\ omap (fun e => match e with EvSpawn args => Some (last args) | _ => None end)
          (log st')
     = [Some (task_output demo_task)].
Proof. vm_compute. split; reflexivity. Qed.

Lemma output_filename_is_safe_witness :
  let name := "slides-export-1-3-24fps-1280x720-20260101-120000-123e4567.mp4" in
  safe (list_ascii_of_string (amb_timestamp (demo_ambient 1000)))
  /\ safe (take 8 (list_ascii_of_string (task_id demo_task)))
  /\ (forall fps, finite (p_videoFps small_payload) = Some fps ->
                  Z.abs (round fps) < 2 ^ 53)
  /\ buildOutputFilename demo_options small_payload (task_id demo_task)
       (amb_timestamp (demo_ambient 1000)) = Ok name
  /\ safe (list_ascii_of_string name)
  /\ no_slash name
  /\ endsWith name ".mp4" = true
  /\ basename (path_resolve (userRoot demo_options) name) = name.
Proof.
  intros name.
  assert (safe (list_ascii_of_string (amb_timestamp (demo_ambient 1000)))) as Ht
    by (apply safe_forallb; vm_compute; reflexivity).
  assert (safe (take 8 (list_ascii_of_string (task_id demo_task)))) as Hj
    by (apply safe_forallb; vm_compute; reflexivity).
  assert (forall fps, finite (p_videoFps small_payload) = Some fps ->
                      Z.abs (round fps) < 2 ^ 53) as Hf
    by (intros fps [= <-]; vm_compute; reflexivity).
  assert (buildOutputFilename demo_options small_payload (task_id demo_task)
            (amb_timestamp (demo_ambient 1000)) = Ok name) as Hb
    by (vm_compute; reflexivity).
  pose proof (output_filename_is_safe demo_options small_payload
                (task_id demo_task) (amb_timestamp (demo_ambient 1000)) name
                Ht Hj Hf Hb) as H.
  exact (conj Ht (conj Hj (conj Hf (conj Hb H)))).
Defined.

End JobServiceExtras.

(** ** Descriptors and the download *)

Module DescriptorProofs.
Import Sanitize JS Options Recorder JobService JobShapes JobServiceProofs.

Lemma handle_status options amb req jobs id :
  method req = "GET" ->
  url req ≫= matchVideoUrl = Some (Some id, None) ->
  id <> "jobs" ->
  (handle options amb req jobs).1.2
  = Some (statusVideo (amb_now amb) (cleanupJobs (amb_now amb) jobs) id).
Proof.
  intros Hm Hu Hj. unfold handle. rewrite Hu, Hm.
  assert (truthy (Some id) = true) as Hid.
  { destruct (url req) as [u|]; [|discriminate]. simpl in Hu.
    now apply matchVideoUrl_id in Hu. }
  rewrite Hid.
  rewrite (bool_decide_eq_false_2 (Some id = Some "jobs")) by congruence.
  reflexivity.
Qed.

(** C7.  In every state the service can reach, every job of the
    registry carries its identifier and its file.  Every descriptor that
    a response carries (the one of [GET /export/video/<id>], those of the
    job list) describes a job that the registry holds once the expired
    jobs are dropped: it has the identifier, the status and the file of
    that job, and its [downloadUrl] is a non-empty string, the download
    address of the job, exactly when the status of the job is done and
    its file is set.  Every job of the registry is described in this way
    by the answer to the status request for its identifier.  The download
    endpoint answers 404 exactly when, after the expired jobs are dropped,
    the job is missing, its status is not done or it has no file;
    otherwise it answers 200 and streams the file as [video/mp4] with an
    attachment disposition that names the file. *)
Theorem descriptor_and_download_agree
    (options : ServerOptions) (s : Service) (amb : Ambient) :
  reachable options s ->
  let registry := cleanupJobs (amb_now amb) (jobs s) in
  (forall req r,
     r ∈ descriptors (handle options amb req (jobs s)).1.2 ->
     exists id job,
       registry !! id = Some job
       /\ r_jobId r = Some id
       /\ r_status r = status job
       /\ r_file r = file job
       /\ ((exists u, r_downloadUrl r = Some u /\ u <> "")
           <-> (status job = done /\ truthy (file job) = true))
       /\ (forall u, r_downloadUrl r = Some u -> u = download_url id))
  /\ (forall id job,
        registry !! id = Some job -> id <> "jobs" -> no_slash id ->
        exists r,
          (handle options amb (status_request id) (jobs s)).1.2
          = Some (json_response 200 (BodyJob r))
          /\ r_jobId r = Some id
          /\ r_status r = status job
          /\ r_file r = file job
          /\ (r_downloadUrl r = Some (download_url id) <-> status job = done))
  /\ (forall req id,
        method req = "GET" ->
        url req ≫= matchVideoUrl = Some (Some id, Some "download") ->
        exists resp,
          (handle options amb req (jobs s)).1.2 = Some resp
          /\ (statusCode resp = 404
              <-> (registry !! id = None
                   \/ exists job,
                        registry !! id = Some job
                        /\ (status job <> done \/ truthy (file job) = false)))
          /\ (statusCode resp <> 404 ->
              exists job f,
                registry !! id = Some job /\ file job = Some f
                /\ resp = {| statusCode := 200; contentType := "video/mp4";
                             contentDisposition :=
                               Some ("attachment; filename=" +:+ quote
                                     +:+ basename f +:+ quote);
                             body := BodyStream f |})).
Proof.
  intros Hreach. apply reachable_files_set in Hreach as [Hfiles _].
  cbv zeta. split_and!.
  - intros req r Hr.
    apply descriptors_handle in Hr as (id & job & Hl & ->).
    pose proof Hl as Hl'. apply cleanupJobs_lookup in Hl' as [Hl' _].
    destruct (Hfiles id job Hl') as [Hid Hfile].
    exists id, job. split; [exact Hl|].
    destruct (resolveJobResponse_downloadUrl (amb_now amb) job id Hid)
      as (Hs & Hf & Hu).
    split_and!; [|exact Hs|exact Hf| |].
    + unfold resolveJobResponse. cbn [r_jobId]. now rewrite Hid.
    + rewrite Hu, Hfile. tauto.
    + unfold resolveJobResponse. cbn [r_downloadUrl]. rewrite Hid.
      destruct (status_eqb (status job) done); [|discriminate].
      now intros u [= <-].
  - intros id job Hl Hj Hns.
    pose proof Hl as Hl'. apply cleanupJobs_lookup in Hl' as [Hl' _].
    destruct (Hfiles id job Hl') as [Hid Hfile].
    rewrite (handle_status options amb (status_request id) (jobs s) id);
      [|reflexivity| |exact Hj].
    2:{ simpl. apply JobServiceExtras.matchVideoUrl_with_id.
        split_and!; auto. now apply truthy_Some. }
    unfold statusVideo. rewrite Hl. eexists. split; [reflexivity|].
    unfold resolveJobResponse. cbn [r_jobId r_status r_file r_downloadUrl].
    rewrite Hid. split_and!; auto.
    rewrite <- status_eqb_spec.
    destruct (status_eqb (status job) done); simpl; split;
      first [reflexivity | discriminate].
  - intros req id Hm Hu.
    rewrite (handle_download options amb req (jobs s) id Hm Hu).
    eexists. split; [reflexivity|]. unfold downloadVideo.
    destruct (cleanupJobs (amb_now amb) (jobs s) !! id) as [job|] eqn:E.
    + destruct (status_eqb (status job) done) eqn:Es; simpl.
      * apply status_eqb_spec in Es.
        destruct (truthy (file job)) eqn:Ef; simpl.
        -- split.
           ++ split; [discriminate|]. intros [[=] | (j & [= <-] & [H | H])];
                congruence.
           ++ intros _. destruct (file job) as [f|] eqn:Ej; [|discriminate].
              exists job, f. split_and!; auto.
        -- split; [|congruence]. split; [|reflexivity].
           intros _. right. exists job. split; [reflexivity | now right].
      * split; [|congruence]. split; [|reflexivity].
        intros _. right. exists job. split; [reflexivity|]. left. intros Hd.
        apply status_eqb_spec in Hd. congruence.
    + simpl. split; [|congruence]. split; [now left | reflexivity].
Qed.

Lemma descriptor_and_download_agree_witness :
  reachable demo_options demo_done
  /\ let options := demo_options in
     let s := demo_done in
     let amb := demo_ambient 6000 in
     let registry := cleanupJobs (amb_now amb) (jobs s) in
     (forall req r,
        r ∈ descriptors (handle options amb req (jobs s)).1.2 ->
        exists id job,
          registry !! id = Some job
          /\ r_jobId r = Some id
          /\ r_status r = status job
          /\ r_file r = file job
          /\ ((exists u, r_downloadUrl r = Some u /\ u <> "")
              <-> (status job = done /\ truthy (file job) = true))
          /\ (forall u, r_downloadUrl r = Some u -> u = download_url id))
     /\ (forall id job,
           registry !! id = Some job -> id <> "jobs" -> no_slash id ->
           exists r,
             (handle options amb (status_request id) (jobs s)).1.2
             = Some (json_response 200 (BodyJob r))
             /\ r_jobId r = Some id
             /\ r_status r = status job
             /\ r_file r = file job
             /\ (r_downloadUrl r = Some (download_url id) <-> status job = done))
     /\ (forall req id,
           method req = "GET" ->
           url req ≫= matchVideoUrl = Some (Some id, Some "download") ->
           exists resp,
             (handle options amb req (jobs s)).1.2 = Some resp
             /\ (statusCode resp = 404
                 <-> (registry !! id = None
                      \/ exists job,
                           registry !! id = Some job
                           /\ (status job <> done \/ truthy (file job) = false)))
             /\ (statusCode resp <> 404 ->
                 exists job f,
                   registry !! id = Some job /\ file job = Some f
                   /\ resp = {| statusCode := 200; contentType := "video/mp4";
                                contentDisposition :=
                                  Some ("attachment; filename=" +:+ quote
                                        +:+ basename f +:+ quote);
                                body := BodyStream f |})).
Proof.
  split; [exact demo_done_reachable|].
  exact (descriptor_and_download_agree demo_options demo_done (demo_ambient 6000)
           demo_done_reachable).
Defined.

(** The finished job of the deck: its descriptor carries the download
    address, the descriptor of the job while it runs carries none, and
    the address answers with the file. *)
Example demo_descriptors :
  (r_status <$> descriptors
     (handle demo_options (demo_ambient 6000)
        (status_request (task_id demo_task)) (jobs demo_done)).1.2,
   r_downloadUrl <$> descriptors
     (handle demo_options (demo_ambient 6000)
        (status_request (task_id demo_task)) (jobs demo_done)).1.2)
  = ([done], [Some (download_url (task_id demo_task))])
  /\ (r_status <$> descriptors
        (handle demo_options (demo_ambient 2000)
           (status_request (task_id demo_task)) (jobs demo_posted)).1.2,
      r_downloadUrl <$> descriptors
        (handle demo_options (demo_ambient 2000)
           (status_request (task_id demo_task)) (jobs demo_posted)).1.2)
     = ([running], [None])
  /\ statusCode <$> (handle demo_options (demo_ambient 6000)
                       (download_request (task_id demo_task)) (jobs demo_done)).1.2
     = Some 200
  /\ statusCode <$> (handle demo_options (demo_ambient 2000)
                       (download_request (task_id demo_task)) (jobs demo_posted)).1.2
     = Some 404.
Proof. vm_compute. split_and!; reflexivity. Qed.

End DescriptorProofs.

(** ** The export page *)

Module ClientProofs.
Import JS Client.

(** What a status query changes: the elapsed time, the status shown and
    the file name when it returns; the stored identifier and the download
    flag when the job is not found; nothing else. *)
Lemma queryVideoJobStatus_spec reply jobId c :
  let '(o, c') := queryVideoJobStatus reply jobId c in
  videoExporting c' = videoExporting c
  /\ videoExportError c' = videoExportError c
  /\ downloads c' = downloads c
  /\ match o with
     | Done data =>
         videoDownloadReady c' = videoDownloadReady c
         /\ storedJobId c' = storedJobId c
         /\ videoExportJobId c' = videoExportJobId c
         /\ videoExportStatus c' = shown_status (d_status data)
     | Thrown message =>
         (videoDownloadReady c' = videoDownloadReady c
          /\ storedJobId c' = storedJobId c
          /\ videoExportJobId c' = videoExportJobId c)
         \/ (message = not_found_message
             /\ videoDownloadReady c' = false
             /\ storedJobId c' = None
             /\ videoExportJobId c' = "")
     | Pending => False
     end.
Proof.
  unfold queryVideoJobStatus.
  destruct reply as [response|message]; [|simpl; auto 10].
  destruct (res_status response =? 404); [simpl; auto 10|].
  destruct (negb (ok response)); [simpl; auto 10|].
  destruct (res_json response) as [data|message]; [|simpl; auto 10].
  destruct (d_durationMs data) as [ms|]; [destruct (isFinite ms)|];
    destruct (truthy (d_filename data)); simpl; auto 10.
Qed.

Lemma shown_status_done data :
  is_status data "done" = true -> shown_status (d_status data) = "done".
Proof.
  unfold is_status, shown_status. destruct (d_status data) as [s|]; [|discriminate].
  intros H. apply String.eqb_eq in H. now subst s.
Qed.

(** What following a job changes. *)
Lemma pollVideoJob_spec replies jobId autoDownload c :
  let '(o, c') := pollVideoJob replies jobId autoDownload c in
  videoExportError c' = videoExportError c
  /\ match o with
     | Done _ =>
         videoExporting c' = false
         /\ videoDownloadReady c' = true
         /\ videoExportStatus c' = "done"
         /\ storedJobId c' = storedJobId c
         /\ videoExportJobId c' = videoExportJobId c
         /\ (if autoDownload
             then exists url, downloads c' = downloads c ++ [url]
             else downloads c' = downloads c)
     | Thrown message =>
         downloads c' = downloads c
         /\ (videoExporting c' = videoExporting c \/ videoExporting c' = false)
         /\ ((videoDownloadReady c' = videoDownloadReady c
              /\ storedJobId c' = storedJobId c
              /\ videoExportJobId c' = videoExportJobId c)
             \/ (message = not_found_message
                 /\ videoDownloadReady c' = false
                 /\ storedJobId c' = None
                 /\ videoExportJobId c' = ""))
     | Pending =>
         downloads c' = downloads c
         /\ videoExporting c' = videoExporting c
         /\ videoDownloadReady c' = videoDownloadReady c
         /\ storedJobId c' = storedJobId c
         /\ videoExportJobId c' = videoExportJobId c
     end.
Proof.
  revert c. induction replies as [|reply rest IH]; intros c; [simpl; auto 10|].
  cbn [pollVideoJob].
  pose proof (queryVideoJobStatus_spec reply jobId c) as Hq.
  destruct (queryVideoJobStatus reply jobId c) as [[data|message|] c1];
    [|tauto|tauto].
  destruct Hq as (He & Hm & Hd & Hr & Hs & Hj & Hst).
  destruct (is_status data "done") eqn:Edone.
  - apply shown_status_done in Edone. rewrite Edone in Hst.
    destruct autoDownload; simpl; split_and!; auto.
    rewrite Hd. eauto.
  - destruct (is_status data "error").
    + simpl. split_and!; auto.
    + specialize (IH c1).
      destruct (pollVideoJob rest jobId autoDownload c1) as [[[]|message|] c2].
      * destruct IH as (E1 & E2 & E3 & E4 & E5 & E6 & E7).
        split_and!; try congruence.
        destruct autoDownload; [|congruence].
        destruct E7 as [url E7]. exists url. congruence.
      * destruct IH as (E1 & E2 & E3 & E4).
        split_and!; congruence.
      * destruct IH as (E1 & E2 & E3 & E4 & E5 & E6).
        split_and!; congruence.
Qed.

Lemma synced_update jobId c : synced (updateStoredVideoJobId jobId c).
Proof. reflexivity. Qed.

(** X19.  What [mp4()] leaves behind, on a page that is not exporting
    already.  It never throws.  When it returns, the page is no longer
    exporting, and either the job is done, the download flag is set, no
    error is shown and exactly one download was triggered, or the flag is
    not set and no download was triggered.  While it waits for a reply,
    the page is exporting and nothing was downloaded.  In every case the
    identifier in [localStorage] is the one the page shows, so that a
    reload finds the job. *)
Theorem mp4_settles (replies : list Reply) (c : Page) :
  videoExporting c = false ->
  let '(o, c') := mp4 replies c in
  synced c'
  /\ match o with
     | Done _ =>
         videoExporting c' = false
         /\ ((videoDownloadReady c' = true
              /\ videoExportStatus c' = "done"
              /\ videoExportError c' = ""
              /\ exists url, downloads c' = downloads c ++ [url])
             \/ (videoDownloadReady c' = false
                 /\ downloads c' = downloads c))
     | Thrown _ => False
     | Pending =>
         videoExporting c' = true
         /\ videoDownloadReady c' = false
         /\ videoExportError c' = ""
         /\ downloads c' = downloads c
     end.
Proof.
  intros Hidle. unfold mp4. rewrite Hidle.
  set (c0 := updateStoredVideoJobId None _).
  assert (synced c0) as S0 by reflexivity.
  assert (videoExporting c0 = true /\ videoDownloadReady c0 = false
          /\ videoExportError c0 = "" /\ downloads c0 = downloads c)
    as (X0 & R0 & M0 & D0) by (split_and!; reflexivity).
  unfold startVideoExport.
  set (c1 := requested "POST" "/__slidev/export/video" c0).
  assert (synced c1) as S1 by exact S0.
  assert (videoExporting c1 = true /\ videoDownloadReady c1 = false
          /\ videoExportError c1 = "" /\ downloads c1 = downloads c)
    as (X1 & R1 & M1 & D1) by (split_and!; assumption).
  clearbody c1. clear c0 S0 X0 R0 M0 D0.
  destruct replies as [|[response|message] rest].
  - split; [exact S1|]. split_and!; assumption.
  - destruct (negb (ok response)).
    { split; [exact S1|]. simpl. split; [reflexivity|]. right. now split. }
    destruct (res_json response) as [data|message].
    2:{ split; [exact S1|]. simpl. split; [reflexivity|]. right. now split. }
    set (c2 := updateStoredVideoJobId (d_jobId data) c1).
    assert (synced c2) as S2 by reflexivity.
    assert (videoExporting c2 = true /\ videoDownloadReady c2 = false
            /\ videoExportError c2 = "" /\ downloads c2 = downloads c)
      as (X2 & R2 & M2 & D2) by (split_and!; assumption).
    pose proof (pollVideoJob_spec rest (show (d_jobId data)) true c2) as Hp.
    unfold synced in S2. clearbody c2.
    destruct (pollVideoJob rest (show (d_jobId data)) true c2)
      as [[[]|message|] c3].
    + destruct Hp as (E1 & E2 & E3 & E4 & E5 & E6 & url & E7).
      split; [unfold synced; rewrite E5, E6; exact S2|].
      split; [exact E2|]. left. split_and!; try congruence.
      exists url. congruence.
    + destruct Hp as (E1 & E2 & _ & E4). simpl.
      split.
      * unfold synced. simpl.
        destruct E4 as [(_ & E5 & E6)|(_ & _ & E5 & E6)];
          rewrite E5, E6; [exact S2 | reflexivity].
      * split; [reflexivity|]. right.
        split; [|congruence].
        destruct E4 as [(E4 & _)|(_ & E4 & _)]; congruence.
    + destruct Hp as (E1 & E2 & E3 & E4 & E5 & E6).
      split; [unfold synced; rewrite E5, E6; exact S2|]. split_and!; congruence.
  - split; [exact S1|]. simpl. split; [reflexivity|]. right. now split.
Qed.

Lemma mp4_settles_witness :
  videoExporting (fresh None) = false
  /\ let '(o, c') := mp4 smooth_replies (fresh None) in
     synced c'
     /\ match o with
        | Done _ =>
            videoExporting c' = false
            /\ ((videoDownloadReady c' = true
                 /\ videoExportStatus c' = "done"
                 /\ videoExportError c' = ""
                 /\ exists url, downloads c' = downloads (fresh None) ++ [url])
                \/ (videoDownloadReady c' = false
                    /\ downloads c' = downloads (fresh None)))
        | Thrown _ => False
        | Pending =>
            videoExporting c' = true
            /\ videoDownloadReady c' = false
            /\ videoExportError c' = ""
            /\ downloads c' = downloads (fresh None)
        end.
Proof.
  split; [reflexivity|].
  exact (mp4_settles smooth_replies (fresh None) eq_refl).
Defined.

(** On the smooth run the video is downloaded from the link of the job. *)
Example mp4_smooth :
  let '(o, c') := mp4 smooth_replies (fresh None) in
  o = Done tt
  /\ downloads c' = ["/__slidev/export/video/j1/download"]
  /\ videoDownloadUrl c' = "/__slidev/export/video/j1/download"
  /\ videoDownloadFilename c' = "deck.mp4"
  /\ storedJobId c' = Some "j1"
  /\ requests c'
     = [("POST", "/__slidev/export/video"); ("GET", "/__slidev/export/video/j1");
        ("GET", "/__slidev/export/video/j1")].
Proof. vm_compute. split_and!; reflexivity. Qed.

Lemma truthy_Some_iff id : truthy (Some id) = true <-> id <> "".
Proof.
  simpl. rewrite negb_true_iff. split.
  - intros H ->. discriminate.
  - intros H. now apply String.eqb_neq.
Qed.

(** X20.  What a reload does with the stored job.  The [onMounted] hook
    of a page that finds a job identifier in [localStorage] never throws
    and never triggers a download.  It forgets the identifier only when
    the server answers 404, and then shows that the job was not found;
    otherwise the page keeps showing the stored job.  When it ends with
    the download flag set, the job is done, the page is not exporting, and
    the download link of the page is the download address of that job. *)
Theorem reload_follows_stored_job
    (replies : list Reply) (c : Page) (id : string) :
  storedJobId c = Some id -> id <> "" -> videoDownloadReady c = false ->
  let '(o, c') := onMounted replies c in
  downloads c' = downloads c
  /\ (forall message, o <> Thrown message)
  /\ ((storedJobId c' = Some id /\ videoExportJobId c' = id)
      \/ (storedJobId c' = None /\ videoExportJobId c' = ""
          /\ videoExportError c' = not_found_message
          /\ videoDownloadReady c' = false))
  /\ (videoDownloadReady c' = true ->
      o = Done tt
      /\ videoExporting c' = false
      /\ videoExportStatus c' = "done"
      /\ videoDownloadUrl c'
         = "/__slidev/export/video/" +:+ id +:+ "/download").
Proof.
  intros Hstored Hid Hready. unfold onMounted. rewrite Hstored.
  pose proof (proj2 (truthy_Some_iff id) Hid) as Ht. rewrite Ht.
  simpl from_option.
  set (c0 := set_error "" (updateStoredVideoJobId (Some id) c)).
  assert (storedJobId c0 = Some id /\ videoExportJobId c0 = id
          /\ videoDownloadReady c0 = false /\ downloads c0 = downloads c)
    as (S0 & J0 & R0 & D0).
  { subst c0. unfold updateStoredVideoJobId, or_else. simpl.
    destruct (String.eqb_spec id ""); [contradiction|]. simpl.
    destruct (String.eqb_spec id ""); [contradiction|]. now split_and!. }
  assert (forall c', videoExportJobId c' = id ->
            videoDownloadUrl c' = "/__slidev/export/video/" +:+ id +:+ "/download")
    as Hlink.
  { intros c' E. unfold videoDownloadUrl. now rewrite E, Ht. }
  clearbody c0. unfold resumeVideoExport.
  destruct replies as [|reply rest].
  { simpl. split_and!;
      [congruence | discriminate | left; split; congruence | intros H; congruence]. }
  pose proof (queryVideoJobStatus_spec reply id c0) as Hq.
  destruct (queryVideoJobStatus reply id c0) as [[data|message|] c1];
    [| |tauto].
  - destruct Hq as (He & Hm & Hd & Hr & Hs & Hj & Hst).
    destruct (is_status data "running").
    + pose proof (pollVideoJob_spec rest id false (set_exporting true c1)) as Hp.
      destruct (pollVideoJob rest id false (set_exporting true c1))
        as [[[]|message|] c2]; simpl in Hp.
      * destruct Hp as (E1 & E2 & E3 & E4 & E5 & E6 & E7).
        split_and!; [congruence | discriminate | left; split; congruence |].
        intros _. split_and!; auto. apply Hlink. congruence.
      * destruct Hp as (E1 & E2 & E3 & E4). simpl.
        split_and!; [congruence | discriminate | |].
        -- destruct E4 as [(E4 & E5 & E6)|(-> & E4 & E5 & E6)];
             [left; split; congruence | right; now split_and!].
        -- intros H. destruct E4 as [(E4 & _)|(_ & E4 & _)]; congruence.
      * destruct Hp as (E1 & E2 & E3 & E4 & E5 & E6).
        split_and!; [congruence | discriminate | left; split; congruence |].
        intros H. congruence.
    + destruct (is_status data "done") eqn:Edone.
      * apply shown_status_done in Edone. rewrite Edone in Hst. simpl.
        split_and!; [congruence | discriminate | left; split; congruence |].
        intros _. split_and!; auto. apply Hlink. simpl. congruence.
      * destruct (is_status data "error"); simpl;
          (split_and!; [congruence | discriminate | left; split; congruence |]);
          intros H; congruence.
  - destruct Hq as (He & Hm & Hd & Hq). simpl.
    split_and!; [congruence | discriminate | |].
    + destruct Hq as [(E4 & E5 & E6)|(-> & E4 & E5 & E6)];
        [left; split; congruence | right; now split_and!].
    + intros H. destruct Hq as [(E4 & _)|(_ & E4 & _)]; congruence.
Qed.

Lemma reload_follows_stored_job_witness :
  storedJobId (fresh (Some "j1")) = Some "j1"
  /\ "j1" <> ""
  /\ videoDownloadReady (fresh (Some "j1")) = false
  /\ let '(o, c') := onMounted lost_replies (fresh (Some "j1")) in
     downloads c' = downloads (fresh (Some "j1"))
     /\ (forall message, o <> Thrown message)
     /\ ((storedJobId c' = Some "j1" /\ videoExportJobId c' = "j1")
         \/ (storedJobId c' = None /\ videoExportJobId c' = ""
             /\ videoExportError c' = not_found_message
             /\ videoDownloadReady c' = false))
     /\ (videoDownloadReady c' = true ->
         o = Done tt
         /\ videoExporting c' = false
         /\ videoExportStatus c' = "done"
         /\ videoDownloadUrl c'
            = "/__slidev/export/video/" +:+ "j1" +:+ "/download").
Proof.
  assert ("j1" <> "") as Hid by discriminate.
  split_and!; [reflexivity | exact Hid | reflexivity |].
  exact (reload_follows_stored_job lost_replies (fresh (Some "j1")) "j1"
           eq_refl Hid eq_refl).
Defined.

(** A job lost while the reloaded page follows it: the identifier is
    forgotten and the message shown, and the page still counts as
    exporting. *)
Example reload_lost_job :
  let '(o, c') := onMounted lost_replies (fresh (Some "j1")) in
  o = Done tt
  /\ storedJobId c' = None
  /\ videoExportError c' = not_found_message
  /\ videoExporting c' = true.
Proof. vm_compute. split_and!; reflexivity. Qed.

End ClientProofs.
